(** * Light-sampling distributions of pbrt-v3 (AndiMiko fork)

    A shallow embedding of [src/core/sampling.h] (Distribution1D,
    InterpolatedDistribution1D, SparseDistribution1D) and of the voxel and
    cluster code of [src/core/lightdistrib.cpp], with the properties of the
    specification stated and settled against it.

    Numbers.  The C++ type [Float] is kept abstract: every definition that
    computes with [Float] is written once, over the operations of the class
    [FloatOps], in the order the source applies them.  Two instances are
    given: exact rational arithmetic ([Q], the reading under which the
    specification states its equations and worked examples), and IEEE-754
    binary32 with round-to-nearest-even (the default [typedef float Float]),
    built on the standard library's [SpecFloat].

    Fatal checks.  [CHECK(...)] aborts the process; a function that can hit
    one returns [option], [None] being the abort.  [None] also stands for
    the two places where the source leaves the defined behaviour of C++ on
    inputs it can receive: an [int] product that does not fit, and a read
    past the end of a vector.  Nothing is stated about the program there. *)

From Stdlib Require Import ZArith QArith Qabs Qround Lia Lqa List Bool.
From Stdlib Require Import Floats.SpecFloat.
From Stdlib Require String.
Import ListNotations.
Import String.StringSyntax.
Delimit Scope string_scope with string.

Open Scope Z_scope.

(* ================================================================== *)
(** * Part I. Definitions *)
(* ================================================================== *)

(** ** Fatal checks as an error monad *)

Definition bind {A B : Type} (m : option A) (k : A -> option B) : option B :=
  match m with
  | Some a => k a
  | None => None
  end.

Notation "x <- m ;; k" := (bind m (fun x => k))
  (at level 61, m at next level, right associativity).

(** [CHECK(b)]: continue when [b] holds, abort otherwise. *)
Definition CHECK (b : bool) : option unit := if b then Some tt else None.

(** ** The arithmetic of [Float] *)

Class FloatOps (F : Type) : Type := {
  fzero : F;
  fone : F;
  fadd : F -> F -> F;
  fsub : F -> F -> F;
  fmul : F -> F -> F;
  fdiv : F -> F -> F;
  fabs : F -> F;
  (** [Float(i)] for an [int] i. *)
  of_int : Z -> F;
  (** [int(x)]: conversion to [int] truncates toward zero. *)
  to_int : F -> Z;
  (** [x == y], [x < y], [x <= y]. *)
  feqb : F -> F -> bool;
  fltb : F -> F -> bool;
  fleb : F -> F -> bool;
  (** [fmod(x, 1.0f)]: the remainder of x after truncation toward zero. *)
  fmod1 : F -> F;
  (** The value the C++ expression [1.0 - FLT_MIN] has once it is stored in a
      [Float].  The literal [1.0] is a [double], so the subtraction is done
      in binary64 and the result is converted to [Float]. *)
  one_minus_FLT_MIN : F
}.

(** *** Exact rational arithmetic *)

Definition Q_to_int (x : Q) : Z := Z.quot (Qnum x) (Zpos (Qden x)).

Definition Qltb (x y : Q) : bool := negb (Qle_bool y x).

Definition Q_fmod1 (x : Q) : Q := (x - inject_Z (Q_to_int x))%Q.

(** FLT_MIN = 2^-126, the smallest positive normal binary32 number. *)
Definition Q_FLT_MIN : Q := 1 # (2 ^ 126).

#[export] Instance Q_FloatOps : FloatOps Q := {
  fzero := 0%Q;
  fone := 1%Q;
  fadd := Qplus;
  fsub := Qminus;
  fmul := Qmult;
  fdiv := Qdiv;
  fabs := Qabs;
  of_int := inject_Z;
  to_int := Q_to_int;
  feqb := Qeq_bool;
  fltb := Qltb;
  fleb := Qle_bool;
  fmod1 := Q_fmod1;
  one_minus_FLT_MIN := (1 - Q_FLT_MIN)%Q
}.

(** *** IEEE-754 binary32 and binary64 *)

Definition f32 := spec_float.

Definition f32_prec : Z := 24.
Definition f32_emax : Z := 128.
Definition f64_prec : Z := 53.
Definition f64_emax : Z := 1024.

Definition f32_of_Z (z : Z) : f32 := binary_normalize f32_prec f32_emax z 0 false.
Definition f64_of_Z (z : Z) : spec_float := binary_normalize f64_prec f64_emax z 0 false.

Definition f32_to_int (x : f32) : Z :=
  match x with
  | S754_finite s m e =>
      let a := match e with
               | Zneg p => Z.shiftr (Zpos m) (Zpos p)
               | _ => Z.shiftl (Zpos m) e
               end in
      if s then Z.opp a else a
  | _ => 0
  end.

(** [fmod(x, 1.0f)] is exact: x minus its integer part, with the sign of x. *)
Definition f32_fmod1 (x : f32) : f32 :=
  match x with
  | S754_finite s m e =>
      if 0 <=? e then S754_zero s
      else match SFsub f32_prec f32_emax x (f32_of_Z (f32_to_int x)) with
           | S754_zero _ => S754_zero s
           | r => r
           end
  | S754_zero s => x
  | _ => S754_nan
  end.

(** A binary32 number read as a binary64 one (exact), and a binary64 number
    rounded to binary32. *)
Definition f32_to_f64 (x : f32) : spec_float :=
  match x with
  | S754_finite s m e => binary_round f64_prec f64_emax s m e
  | _ => x
  end.

Definition f64_to_f32 (x : spec_float) : f32 :=
  match x with
  | S754_finite s m e => binary_round f32_prec f32_emax s m e
  | _ => x
  end.

(** FLT_MIN as a binary32 number: 2^23 * 2^-149 = 2^-126. *)
Definition f32_FLT_MIN : f32 := S754_finite false (2 ^ 23) (-149).

#[export] Instance f32_FloatOps : FloatOps f32 := {
  fzero := S754_zero false;
  fone := f32_of_Z 1;
  fadd := SFadd f32_prec f32_emax;
  fsub := SFsub f32_prec f32_emax;
  fmul := SFmul f32_prec f32_emax;
  fdiv := SFdiv f32_prec f32_emax;
  fabs := SFabs;
  of_int := f32_of_Z;
  to_int := f32_to_int;
  feqb := SFeqb;
  fltb := SFltb;
  fleb := SFleb;
  fmod1 := f32_fmod1;
  one_minus_FLT_MIN :=
    f64_to_f32 (SFsub f64_prec f64_emax (f64_of_Z 1) (f32_to_f64 f32_FLT_MIN))
}.

(** ** Helpers of [pbrt.h] *)

(** Modelled from the spec: [Clamp] of pbrt.h, which is not among the source
    files ("clamping ... to [0, nVoxels[d]-1]"). *)
Definition Clamp (val low high : Z) : Z :=
  if val <? low then low else if val >? high then high else val.

(** Modelled from the spec: [FindInterval] of pbrt.h, which is not among the
    source files ("binary-search largest off with cdf[off] <= u").  The
    search bisects [first, first+len) and the result is clamped to
    [0, size-2]. *)
Fixpoint FindInterval_loop (fuel : nat) (pred : Z -> bool) (first len : Z) : Z :=
  match fuel with
  | O => first
  | S fuel' =>
      if len >? 0 then
        let half := Z.shiftr len 1 in
        let middle := first + half in
        if pred middle
        then FindInterval_loop fuel' pred (middle + 1) (len - (half + 1))
        else FindInterval_loop fuel' pred first half
      else first
  end.

Definition FindInterval (size : Z) (pred : Z -> bool) : Z :=
  Clamp (FindInterval_loop (Z.to_nat size) pred 0 size - 1) 0 (size - 2).

(** ** [struct Distribution1D] (sampling.h) *)

Section Sampling.

Context {F : Type} {ops : FloatOps F}.

Record Distribution1D : Type := {
  func : list F;
  cdf : list F;
  funcInt : F
}.

(** [v[i]] on a [std::vector<Float>]; the source never indexes out of range
    on the paths modelled here, the default stands for that undefined read. *)
Definition at_ (v : list F) (i : Z) : F := nth (Z.to_nat i) v fzero.

(** [for (i = 1; i < n + 1; ++i) cdf[i] = cdf[i - 1] + func[i - 1] / n;]
    with [prev] the entry written last. *)
Fixpoint integrate (n : Z) (prev : F) (fs : list F) : list F :=
  match fs with
  | [] => []
  | x :: fs' =>
      let c := fadd prev (fdiv x (of_int n)) in
      c :: integrate n c fs'
  end.

(** The table after the first loop of the constructor: [cdf[0] = 0] and the
    running integral. *)
Definition cdf_integral (f : list F) : list F :=
  fzero :: integrate (Z.of_nat (length f)) fzero f.

(** [Distribution1D(const Float *f, int n)]; the array and its length are
    one list. *)
Definition mkDistribution1D (f : list F) : Distribution1D :=
  let n := Z.of_nat (length f) in
  let c := cdf_integral f in
  let fi := at_ c n in
  {| func := f;
     cdf :=
       if feqb fi fzero
       then fzero :: map (fun i => fdiv (of_int (Z.of_nat i)) (of_int n))
                         (seq 1 (length f))
       else fzero :: map (fun x => fdiv x fi) (tl c);
     funcInt := fi |}.

(** [Distribution1D::Count()]. *)
Definition Distribution1D_Count (d : Distribution1D) : Z :=
  Z.of_nat (length (func d)).

(** The outputs of [SampleDiscrete]: the returned index, and the values
    written to [*pdf] and [*uRemapped] when the caller passes those
    pointers. *)
Record Sample : Type := {
  sampled : Z;
  sample_pdf : option F;
  sample_uRemapped : option F
}.

(** [Distribution1D::SampleDiscrete(u, pdf, uRemapped)]; [wantPdf] and
    [wantRemap] say whether [pdf] and [uRemapped] are non-null. *)
Definition Distribution1D_SampleDiscrete
    (d : Distribution1D) (u : F) (wantPdf wantRemap : bool) : option Sample :=
  let offset := FindInterval (Z.of_nat (length (cdf d)))
                  (fun index => fleb (at_ (cdf d) index) u) in
  let pdf := if wantPdf
             then Some (if fltb fzero (funcInt d)
                        then fdiv (at_ (func d) offset)
                                  (fmul (funcInt d) (of_int (Distribution1D_Count d)))
                        else fzero)
             else None in
  if wantRemap then
    let uRemapped := fdiv (fsub u (at_ (cdf d) offset))
                          (fsub (at_ (cdf d) (offset + 1)) (at_ (cdf d) offset)) in
    _ <- CHECK (fleb fzero uRemapped && fleb uRemapped fone) ;;
    Some {| sampled := offset; sample_pdf := pdf;
            sample_uRemapped := Some uRemapped |}
  else
    Some {| sampled := offset; sample_pdf := pdf; sample_uRemapped := None |}.

(** [Distribution1D::DiscretePDF(index)]. *)
Definition Distribution1D_DiscretePDF (d : Distribution1D) (index : Z) : option F :=
  _ <- CHECK ((0 <=? index) && (index <? Distribution1D_Count d)) ;;
  Some (fdiv (at_ (func d) index)
             (fmul (funcInt d) (of_int (Distribution1D_Count d)))).

(** [Distribution1D::SampleContinuous(u, pdf, off)]: the returned x, [*pdf]
    and [*off]. *)
Definition Distribution1D_SampleContinuous
    (d : Distribution1D) (u : F) : option (F * F * Z) :=
  let offset := FindInterval (Z.of_nat (length (cdf d)))
                  (fun index => fleb (at_ (cdf d) index) u) in
  let du := fsub u (at_ (cdf d) offset) in
  let seg := fsub (at_ (cdf d) (offset + 1)) (at_ (cdf d) offset) in
  du <- (if fltb fzero seg
         then _ <- CHECK (fltb (at_ (cdf d) offset) (at_ (cdf d) (offset + 1))) ;;
              Some (fdiv du seg)
         else Some du) ;;
  let pdf := if fltb fzero (funcInt d)
             then fdiv (at_ (func d) offset) (funcInt d) else fzero in
  Some (fdiv (fadd (of_int offset) du) (of_int (Distribution1D_Count d)),
        pdf, offset).

(** A [const Distribution1D *] seen through its virtual methods: what a
    caller that only holds the pointer can do with the object. *)
Record Distribution1DRef : Type := {
  vCount : Z;
  vSampleDiscrete : F -> bool -> bool -> option Sample;
  vDiscretePDF : Z -> option F;
  vSampleContinuous : F -> option (F * F * Z)
}.

Definition Distribution1D_ref (d : Distribution1D) : Distribution1DRef :=
  {| vCount := Distribution1D_Count d;
     vSampleDiscrete := Distribution1D_SampleDiscrete d;
     vDiscretePDF := Distribution1D_DiscretePDF d;
     vSampleContinuous := Distribution1D_SampleContinuous d |}.

(** What a read past the end of [distributions] stands for: no object. *)
Definition no_distribution : Distribution1DRef :=
  {| vCount := 0;
     vSampleDiscrete := fun _ _ _ => None;
     vDiscretePDF := fun _ => None;
     vSampleContinuous := fun _ => None |}.

(** ** [struct InterpolatedDistribution1D : Distribution1D] *)

Record InterpolatedDistribution1D : Type := {
  interp_base : Distribution1D;
  distributions : list Distribution1DRef
}.

(** [InterpolatedDistribution1D(f, distributions, n)]: the base is built
    over the n weights, the first n children are copied, then [CHECK(n > 0)].
    The caller passes n weights and n children. *)
Definition mkInterpolatedDistribution1D
    (f : list F) (ds : list Distribution1DRef) : option InterpolatedDistribution1D :=
  let n := length f in
  let d := {| interp_base := mkDistribution1D f; distributions := firstn n ds |} in
  _ <- CHECK (0 <? Z.of_nat n) ;;
  Some d.

Definition Interp_Count (d : InterpolatedDistribution1D) : Z :=
  vCount (nth 0 (distributions d) no_distribution).

(** [InterpolatedDistribution1D::DiscretePDF(index)]: the loop over
    [i < func.size()], one step being
    [pdf += distributions[i]->DiscretePDF(index) * (cdf[i + 1] - cdf[i])]. *)
Definition Interp_pdf_step (d : InterpolatedDistribution1D) (index : Z)
    (acc : option F) (i : nat) : option F :=
  pdf <- acc ;;
  p <- vDiscretePDF (nth i (distributions d) no_distribution) index ;;
  let c := cdf (interp_base d) in
  Some (fadd pdf (fmul p (fsub (at_ c (Z.of_nat i + 1)) (at_ c (Z.of_nat i))))).

Definition Interp_DiscretePDF (d : InterpolatedDistribution1D) (index : Z) : option F :=
  fold_left (Interp_pdf_step d index)
            (seq 0 (length (func (interp_base d)))) (Some fzero).

(** The mixing index chosen by [SampleDiscrete] and the [uSub] it hands to
    the chosen child, after the line
    [uSub = uSub >= 1.0 ? 1.0 - FLT_MIN : uSub;]. *)
Definition Interp_offset (d : InterpolatedDistribution1D) (u : F) : Z :=
  let c := cdf (interp_base d) in
  FindInterval (Z.of_nat (length c)) (fun index => fleb (at_ c index) u).

Definition Interp_uSub (d : InterpolatedDistribution1D) (u : F) : F :=
  let c := cdf (interp_base d) in
  let offset := Interp_offset d u in
  let uSub := fdiv (fsub u (at_ c offset))
                   (fsub (at_ c (offset + 1)) (at_ c offset)) in
  if fleb fone uSub then one_minus_FLT_MIN else uSub.

(** [InterpolatedDistribution1D::SampleDiscrete(u, pdf, uRemapped)]; the
    child is called as [SampleDiscrete(uSub)], both pointers null. *)
Definition Interp_SampleDiscrete
    (d : InterpolatedDistribution1D) (u : F) (wantPdf wantRemap : bool) : option Sample :=
  let offset := Interp_offset d u in
  let uSub := Interp_uSub d u in
  s <- vSampleDiscrete (nth (Z.to_nat offset) (distributions d) no_distribution)
                       uSub false false ;;
  let sampledNum := sampled s in
  pdf <- (if wantPdf
          then p <- Interp_DiscretePDF d sampledNum ;; Some (Some p)
          else Some None) ;;
  _ <- CHECK (negb wantRemap) ;;
  Some {| sampled := sampledNum; sample_pdf := pdf; sample_uRemapped := None |}.

(** [InterpolatedDistribution1D::SampleContinuous]: [CHECK(false)]. *)
Definition Interp_SampleContinuous
    (d : InterpolatedDistribution1D) (u : F) : option (F * F * Z) :=
  _ <- CHECK false ;;
  None.

Definition Interp_ref (d : InterpolatedDistribution1D) : Distribution1DRef :=
  {| vCount := Interp_Count d;
     vSampleDiscrete := Interp_SampleDiscrete d;
     vDiscretePDF := Interp_DiscretePDF d;
     vSampleContinuous := Interp_SampleContinuous d |}.

(** ** [std::unordered_map<int, V>]

    A map is the sequence of its (key, value) pairs in iteration order, keys
    distinct.  The C++ standard leaves that order unspecified; the model
    iterates in insertion order. *)

Fixpoint map_find {V : Type} (k : Z) (m : list (Z * V)) : option V :=
  match m with
  | [] => None
  | (k', v) :: m' => if k =? k' then Some v else map_find k m'
  end.

(** [m[k] = v]. *)
Fixpoint map_insert {V : Type} (k : Z) (v : V) (m : list (Z * V)) : list (Z * V) :=
  match m with
  | [] => [(k, v)]
  | (k', v') :: m' =>
      if k =? k' then (k, v) :: m' else (k', v') :: map_insert k v m'
  end.

(** [m[k] += v], a missing entry being value-initialised to zero first. *)
Definition map_add (k : Z) (v : F) (m : list (Z * F)) : list (Z * F) :=
  match map_find k m with
  | Some old => map_insert k (fadd old v) m
  | None => map_insert k (fadd fzero v) m
  end.

(** ** [struct SparseDistribution1D : Distribution1D] *)

Record SparseDistribution1D : Type := {
  sparse_base : Distribution1D;
  backMap : list (Z * Z);
  sampleMap : list Z;
  uniProb : F;
  uniProbSingle : F;
  nAll : Z
}.

(** The constructor: the base over [contrib], [uniProb] forced to 1 when
    [contrib] is empty, [uniProbSingle = uniProb / nAll], [CHECK(nAll > 0)]. *)
Definition mkSparseDistribution1D
    (bm : list (Z * Z)) (sm : list Z) (contrib : list F) (up : F) (n_all : Z)
    : option SparseDistribution1D :=
  let up' := if (Z.of_nat (length contrib) =? 0) then fone else up in
  let d := {| sparse_base := mkDistribution1D contrib;
              backMap := bm;
              sampleMap := sm;
              uniProb := up';
              uniProbSingle := fdiv up' (of_int n_all);
              nAll := n_all |} in
  _ <- CHECK (0 <? n_all) ;;
  Some d.

(** The loop of [createSparseDistribution1D] over [contribMap], with the
    counter [i] and the three containers it fills. *)
Fixpoint collect_contrib (kvs : list (Z * F)) (i : Z)
    (bm : list (Z * Z)) (sm : list Z) (contrib : list F)
    : list (Z * Z) * list Z * list F :=
  match kvs with
  | [] => (bm, sm, contrib)
  | (k, v) :: kvs' =>
      if fltb fzero v
      then collect_contrib kvs' (i + 1) (map_insert k i bm) (sm ++ [k]) (contrib ++ [v])
      else collect_contrib kvs' i bm sm contrib
  end.

Definition createSparseDistribution1D
    (contribMap : list (Z * F)) (up : F) (n_all : Z) : option SparseDistribution1D :=
  let '(bm, sm, contrib) := collect_contrib contribMap 0 [] [] [] in
  mkSparseDistribution1D bm sm contrib up n_all.

Definition Sparse_Count (d : SparseDistribution1D) : Z := nAll d.

(** [SparseDistribution1D::DiscretePDF(index)]. *)
Definition Sparse_DiscretePDF (d : SparseDistribution1D) (index : Z) : option F :=
  _ <- CHECK ((0 <=? index) && (index <? Sparse_Count d)) ;;
  let pdf := uniProbSingle d in
  match map_find index (backMap d) with
  | Some j =>
      pdfIn <- Distribution1D_DiscretePDF (sparse_base d) j ;;
      Some (fadd pdf (fmul pdfIn (fsub fone (uniProb d))))
  | None => Some pdf
  end.

(** [SparseDistribution1D::SampleDiscrete(u, pdf, uRemapped)]; the sparse
    branch hands both pointers on to [Distribution1D::SampleDiscrete] and
    reads [sampleMap] at the index it returns.  With an empty [sampleMap]
    (no positive contribution, [uniProb] 1) the sparse branch is taken for
    u = 0 and the read is past the end of the vector: no result. *)
Definition Sparse_SampleDiscrete
    (d : SparseDistribution1D) (u : F) (wantPdf wantRemap : bool) : option Sample :=
  sampledNum <-
    (if fltb (fsub fone (uniProb d)) u then
       let newU := fdiv (fsub u (fsub fone (uniProb d))) (uniProb d) in
       let sampledNum := to_int (fmul newU (of_int (nAll d))) in
       Some (if sampledNum =? nAll d then nAll d - 1 else sampledNum)
     else
       let newU := fdiv u (fsub fone (uniProb d)) in
       s <- Distribution1D_SampleDiscrete (sparse_base d) newU wantPdf wantRemap ;;
       nth_error (sampleMap d) (Z.to_nat (sampled s))) ;;
  pdf <- (if wantPdf
          then p <- Sparse_DiscretePDF d sampledNum ;; Some (Some p)
          else Some None) ;;
  _ <- CHECK (negb wantRemap) ;;
  Some {| sampled := sampledNum; sample_pdf := pdf; sample_uRemapped := None |}.

(** [SparseDistribution1D::SampleContinuous]: [CHECK(false)]. *)
Definition Sparse_SampleContinuous
    (d : SparseDistribution1D) (u : F) : option (F * F * Z) :=
  _ <- CHECK false ;;
  None.

Definition Sparse_ref (d : SparseDistribution1D) : Distribution1DRef :=
  {| vCount := Sparse_Count d;
     vSampleDiscrete := Sparse_SampleDiscrete d;
     vDiscretePDF := Sparse_DiscretePDF d;
     vSampleContinuous := Sparse_SampleContinuous d |}.

End Sampling.

(** ** Voxel coordinates and packed keys (lightdistrib.cpp) *)

(** A [uint64_t] value: arithmetic wraps modulo 2^64. *)
Definition uint64 (z : Z) : Z := z mod 2 ^ 64.

Definition invalidPackedPos : Z := 0xffffffffffffffff.

Record Point3i : Type := { px : Z; py : Z; pz : Z }.

(** [p[i]] and [p[i] = v] for an axis i in 0..2. *)
Definition axis (p : Point3i) (i : nat) : Z :=
  match i with
  | O => px p
  | S O => py p
  | _ => pz p
  end.

Definition set_axis (p : Point3i) (i : nat) (v : Z) : Point3i :=
  match i with
  | O => {| px := v; py := py p; pz := pz p |}
  | S O => {| px := px p; py := v; pz := pz p |}
  | _ => {| px := px p; py := py p; pz := v |}
  end.

(** [(uint64_t(pi[0]) << 40) | (uint64_t(pi[1]) << 20) | pi[2]] *)
Definition packPos (pi : Point3i) : Z :=
  Z.lor (Z.lor (uint64 (Z.shiftl (uint64 (px pi)) 40))
               (uint64 (Z.shiftl (uint64 (py pi)) 20)))
        (uint64 (pz pi)).

(** The bit mixing of the packed key, reduced modulo the table size. *)
Definition mixHash (packedPos hashTableSize : Z) : Z :=
  let hash := packedPos in
  let hash := Z.lxor hash (Z.shiftr hash 31) in
  let hash := uint64 (hash * 0x7fb5d329728ea185) in
  let hash := Z.lxor hash (Z.shiftr hash 27) in
  let hash := uint64 (hash * 0x81dadef4bc2dd44d) in
  let hash := Z.lxor hash (Z.shiftr hash 33) in
  hash mod hashTableSize.

(** [PhotonBasedVoxelLightDistribution::calcPackedPosAndHash]:
    [(packedPos, hash)], or the abort of [CHECK_NE(packedPos, invalidPackedPos)]. *)
Definition calcPackedPosAndHash (hashTableSize : Z) (pi : Point3i) : option (Z * Z) :=
  let packedPos := packPos pi in
  _ <- CHECK (negb (packedPos =? invalidPackedPos)) ;;
  let hash := mixHash packedPos hashTableSize in
  _ <- CHECK (0 <=? hash) ;;
  Some (packedPos, hash).

(** One advance of the quadratic probe:
    [hash += step * step; if (hash >= hashTableSize) hash %= hashTableSize; ++step;]
    ([step] is an [int]; its square is taken without overflow, which is
    undefined in the source). *)
Definition probe_next (hashTableSize : Z) (hs : Z * Z) : Z * Z :=
  let '(hash, step) := hs in
  let hash := uint64 (hash + step * step) in
  ((if hash >=? hashTableSize then hash mod hashTableSize else hash), step + 1).

(** The voxel grid of a distribution: [nVoxels[3]] and [hashTableSize]. *)
Record VoxelGrid : Type := {
  nVoxels : Point3i;
  hashTableSize : Z
}.

(** The grid part of the constructors of [SpatialLightDistribution] and of
    [initVoxelHashTable]: [r] holds, per axis, the value of
    [int(std::round(diag[i] / bmax * maxVoxels))] computed from the scene
    bounds.  The product [4 * nVoxels[0] * nVoxels[1] * nVoxels[2]] is formed
    in [int].  The checks let through grids for which it does not fit
    (2^29 voxels and more); signed overflow is undefined, in practice
    [hashTableSize] wraps (to 0 for 1024 x 1024 x 1024 voxels, and [Lookup]
    then divides by it).  No grid is returned in that case. *)
Definition mkVoxelGrid (r : Point3i) : option VoxelGrid :=
  let n0 := Z.max 1 (px r) in
  _ <- CHECK (n0 <? Z.shiftl 1 20) ;;
  let n1 := Z.max 1 (py r) in
  _ <- CHECK (n1 <? Z.shiftl 1 20) ;;
  let n2 := Z.max 1 (pz r) in
  _ <- CHECK (n2 <? Z.shiftl 1 20) ;;
  let size := 4 * n0 * n1 * n2 in
  if size <? 2 ^ 31
  then Some {| nVoxels := {| px := n0; py := n1; pz := n2 |};
               hashTableSize := size |}
  else None.

(** ** [SpatialLightDistribution::Lookup] as a machine of atomic steps

    The hash table is shared by the rendering threads.  Each atomic access of
    [Lookup] (a load of [packedPos], the compare-exchange, the store and the
    loads of [distribution]) is one step of one thread; steps of different
    threads interleave arbitrarily.  The interleaving is sequentially
    consistent: the acquire/release orderings of the source are not
    modelled beyond that. *)

Record HashEntry : Type := {
  packedPos : Z;
  distribution : option nat      (* [None] is [nullptr] *)
}.

(** Where a thread stands inside [Lookup]. *)
Inductive Pc : Type :=
| Idle
    (* not inside Lookup *)
| LoadKey (pi : Point3i) (key hash step : Z)
    (* at the top of [while (true)], before [entry.packedPos.load] *)
| TryClaim (pi : Point3i) (key hash step : Z)
    (* found an invalid entry, before [compare_exchange_weak] *)
| Compute (pi : Point3i) (key hash : Z)
    (* claimed the entry, before [ComputeDistribution(pi)] *)
| Store (key hash : Z) (dist : nat)
    (* before [entry.distribution.store(dist)] *)
| LoadDist (key hash : Z)
    (* the key matched, before a load of [entry.distribution] (first load
       or one turn of the spin loop) *)
| Returned (key : Z) (dist : nat).
    (* Lookup returned [dist] *)

Record State : Type := {
  hashTable : list HashEntry;
  threads : list Pc;
  (** The calls of [ComputeDistribution] so far, oldest first; the object a
      call allocates is named by the position of the call. *)
  created : list Point3i;
  (** The Lookups that have returned: packed key and returned pointer. *)
  results : list (Z * nat)
}.

Definition entry_at (t : list HashEntry) (hash : Z) : HashEntry :=
  nth (Z.to_nat hash) t {| packedPos := invalidPackedPos; distribution := None |}.

Fixpoint set_nth {A : Type} (i : nat) (x : A) (l : list A) : list A :=
  match l, i with
  | [], _ => []
  | _ :: l', O => x :: l'
  | y :: l', S i' => y :: set_nth i' x l'
  end.

Definition set_entry (t : list HashEntry) (hash : Z) (e : HashEntry) : list HashEntry :=
  set_nth (Z.to_nat hash) e t.

(** What the scheduler picks for a step: a call of [Lookup] on a thread that
    is outside it, or the next atomic access of a thread that is inside;
    [spurious] lets a [compare_exchange_weak] fail although the entry holds
    the expected value. *)
Inductive Action (F : Type) : Type :=
| Call (offset : F * F * F)
| Run (spurious : bool).

Arguments Call {F} offset.
Arguments Run {F} spurious.

Section SpatialLookup.

Context {F : Type} {ops : FloatOps F}.
Variable grid : VoxelGrid.

(** [int(x)] where the source converts a product that need not fit an
    [int].  The conversion of a value whose integer part does not fit is
    undefined in C++; the conversion instruction of x86 returns INT_MIN
    for it, and that is the value taken here. *)
Definition int_of_Float (x : F) : Z :=
  let z := to_int x in
  if (- 2 ^ 31 <=? z) && (z <? 2 ^ 31) then z else - 2 ^ 31.

(** [pi[i] = Clamp(int(offset[i] * nVoxels[i]), 0, nVoxels[i] - 1)] *)
Definition voxelOf (offset : F * F * F) : Point3i :=
  let '(ox, oy, oz) := offset in
  let n := nVoxels grid in
  {| px := Clamp (int_of_Float (fmul ox (of_int (px n)))) 0 (px n - 1);
     py := Clamp (int_of_Float (fmul oy (of_int (py n)))) 0 (py n - 1);
     pz := Clamp (int_of_Float (fmul oz (of_int (pz n)))) 0 (pz n - 1) |}.

(** The state every [Lookup] starts from, with [n] threads. *)
Definition initState (n : nat) : State :=
  {| hashTable := repeat {| packedPos := invalidPackedPos; distribution := None |}
                         (Z.to_nat (hashTableSize grid));
     threads := repeat Idle n;
     created := [];
     results := [] |}.

(** One step of a thread whose position is [pc]: the new table, the new
    list of [ComputeDistribution] calls, the new position, and the result
    when this step returns from [Lookup].  [None]: the action does not apply
    to that position, or [CHECK_NE] aborted the process. *)
Definition thread_step (a : Action F) (t : list HashEntry) (cr : list Point3i) (pc : Pc)
    : option (list HashEntry * list Point3i * Pc * option (Z * nat)) :=
  match a, pc with
  | Call offset, (Idle | Returned _ _) =>
      let pi := voxelOf offset in
      let key := packPos pi in
      _ <- CHECK (negb (key =? invalidPackedPos)) ;;
      Some (t, cr, LoadKey pi key (mixHash key (hashTableSize grid)) 1, None)
  | Run _, LoadKey pi key hash step =>
      let entryPackedPos := packedPos (entry_at t hash) in
      if entryPackedPos =? key then
        Some (t, cr, LoadDist key hash, None)
      else if negb (entryPackedPos =? invalidPackedPos) then
        let '(hash', step') := probe_next (hashTableSize grid) (hash, step) in
        Some (t, cr, LoadKey pi key hash' step', None)
      else
        Some (t, cr, TryClaim pi key hash step, None)
  | Run spurious, TryClaim pi key hash step =>
      let e := entry_at t hash in
      if (packedPos e =? invalidPackedPos) && negb spurious then
        Some (set_entry t hash {| packedPos := key; distribution := distribution e |},
              cr, Compute pi key hash, None)
      else
        Some (t, cr, LoadKey pi key hash step, None)
  | Run _, Compute pi key hash =>
      Some (t, cr ++ [pi], Store key hash (length cr), None)
  | Run _, Store key hash dist =>
      let e := entry_at t hash in
      Some (set_entry t hash {| packedPos := packedPos e; distribution := Some dist |},
            cr, Returned key dist, Some (key, dist))
  | Run _, LoadDist key hash =>
      match distribution (entry_at t hash) with
      | Some dist => Some (t, cr, Returned key dist, Some (key, dist))
      | None => Some (t, cr, LoadDist key hash, None)
      end
  | _, _ => None
  end.

(** Thread [i] takes the step [a]. *)
Definition exec (i : nat) (a : Action F) (s : State) : option State :=
  pc <- nth_error (threads s) i ;;
  r <- thread_step a (hashTable s) (created s) pc ;;
  let '(t, cr, pc', res) := r in
  Some {| hashTable := t;
          threads := set_nth i pc' (threads s);
          created := cr;
          results := match res with
                     | Some kd => results s ++ [kd]
                     | None => results s
                     end |}.

(** The states some interleaving reaches. *)
Inductive reachable : State -> Prop :=
| reach_init : forall n, reachable (initState n)
| reach_step : forall s i a s',
    reachable s -> exec i a s = Some s' -> reachable s'.

(** A schedule run from a state; it stops at the first step that does not
    apply. *)
Fixpoint run (sched : list (nat * Action F)) (s : State) : option State :=
  match sched with
  | [] => Some s
  | (i, a) :: sched' => s' <- exec i a s ;; run sched' s'
  end.

(** How often [ComputeDistribution] was called for the voxel with packed
    key [key]. *)
Definition created_for (key : Z) (s : State) : nat :=
  length (filter (fun pi => packPos pi =? key) (created s)).

End SpatialLookup.

(** The 4 x 4 x 4 grid of the examples, with the 256 entries of its
    table. *)
Definition race_grid : VoxelGrid :=
  {| nVoxels := {| px := 4; py := 4; pz := 4 |}; hashTableSize := 256 |}.

(** A race on one voxel behind a collision, in exact arithmetic, on the
    4 x 4 x 4 grid, whose voxels (1,0,0) and (1,0,1) hash to the same
    entry.  First thread 0 looks up a point of voxel (1,0,0), alone. *)
Definition race_prelude : list (nat * Action Q) :=
  [ (0%nat, Call ((3 # 10)%Q, (1 # 10)%Q, (1 # 10)%Q));
    (0%nat, Run false); (0%nat, Run false); (0%nat, Run false); (0%nat, Run false) ].

(** Then both threads look up points of voxel (1,0,1): they pass the entry
    of voxel (1,0,0), find the next entry invalid, the compare-exchange of
    thread 0 fails spuriously and thread 1 claims the entry. *)
Definition race_calls : list (nat * Action Q) :=
  [ (0%nat, Call ((3 # 10)%Q, (1 # 10)%Q, (3 # 10)%Q));
    (1%nat, Call ((4 # 10)%Q, (2 # 10)%Q, (4 # 10)%Q));
    (0%nat, Run false); (1%nat, Run false);
    (0%nat, Run false); (1%nat, Run false);
    (0%nat, Run true); (1%nat, Run false) ].

(** Seven fair rounds after that: thread 0 finds the key and spins while
    thread 1 builds and publishes; the last rounds are empty, both threads
    having returned. *)
Definition race_rounds : list (list (nat * Action Q)) :=
  [ [ (0%nat, Run false); (1%nat, Run false) ];
    [ (0%nat, Run false); (1%nat, Run false) ];
    [ (0%nat, Run false) ];
    []; []; []; [] ].

(** ** [PhotonBasedVoxelLightDistribution] *)

Section PhotonVoxel.

Context {F : Type} {ops : FloatOps F}.

(** A [HashEntry] of the photon voxel table after the preprocess: the key
    and the finished distribution. *)
Record VoxelEntry : Type := {
  ve_packedPos : Z;
  ve_distribution : Distribution1DRef (F := F)
}.

(** [getDistribution(packedPos, hash, nProbes)]: the probe loop; [fuel]
    bounds the number of probes, [None] is "still probing". *)
Fixpoint getDistribution_probe (fuel : nat) (size : Z) (table : list VoxelEntry)
    (defaultDistrib : Distribution1DRef (F := F)) (packedPos hash step : Z)
    : option (Distribution1DRef (F := F)) :=
  match fuel with
  | O => None
  | S fuel' =>
      match nth_error table (Z.to_nat hash) with
      | None => None
      | Some entry =>
          let entryPackedPos := ve_packedPos entry in
          if entryPackedPos =? packedPos then Some (ve_distribution entry)
          else if entryPackedPos =? invalidPackedPos then Some defaultDistrib
          else
            let '(hash', step') := probe_next size (hash, step) in
            getDistribution_probe fuel' size table defaultDistrib packedPos hash' step'
      end
  end.

Variable grid : VoxelGrid.

(** The distribution [getDistribution] finds for a packed key and its hash. *)
Variable getDistribution : Z -> Z -> Distribution1DRef (F := F).

(** The three vectors [getInterpolatedDistribution] fills side by side. *)
Record Stencil : Type := {
  st_distributions : list (Distribution1DRef (F := F));
  st_voxelIds : list Point3i;
  st_influence : list F
}.

(** [fmod(offset[i] / (1.0f / nVoxels[i]), 1.0f) - 0.5f]; the constant
    [0.5f] is 1/2, which both arithmetics represent exactly. *)
Definition offsetInVoxel (offset_i : F) (nVoxels_i : Z) : F :=
  fsub (fmod1 (fdiv offset_i (fdiv fone (of_int nVoxels_i))))
       (fdiv fone (of_int 2)).

(** The body of the inner loop, for entry [n] and axis [i].  [abs] is the
    floating-point overload of <cmath>. *)
Definition stencil_entry (i : nat) (frac : F) (st : Stencil) (n : nat) : option Stencil :=
  let newId := nth n (st_voxelIds st) {| px := 0; py := 0; pz := 0 |} in
  let newId := set_axis newId i (axis newId i + (if fltb fzero frac then 1 else -1)) in
  if (0 <=? axis newId i) && (axis newId i <? axis (nVoxels grid) i) then
    ph <- calcPackedPosAndHash (hashTableSize grid) newId ;;
    let '(newPackedPos, newHash) := ph in
    let w := nth n (st_influence st) fzero in
    let st' := {| st_distributions :=
                    st_distributions st ++ [getDistribution newPackedPos newHash];
                  st_voxelIds := st_voxelIds st ++ [newId];
                  st_influence := st_influence st ++ [fmul w (fabs frac)] |} in
    let w' := nth n (st_influence st') fzero in
    Some {| st_distributions := st_distributions st';
            st_voxelIds := st_voxelIds st';
            st_influence :=
              set_nth n (fmul w' (fsub fone (fabs frac))) (st_influence st') |}
  else Some st.

(** The inner loop [for (n = 0; n < size; ++n)], [size] being the length
    of [voxelIds] when the loop starts. *)
Definition stencil_axis_loop (i : nat) (frac : F) (st : Stencil) : option Stencil :=
  fold_left (fun acc n => s <- acc ;; stencil_entry i frac s n)
            (seq 0 (length (st_voxelIds st))) (Some st).

(** One turn of the outer loop [for (i = 0; i < 3; ++i)]. *)
Definition stencil_axis (offset : nat -> F) (st : Stencil) (i : nat) : option Stencil :=
  let frac := offsetInVoxel (offset i) (axis (nVoxels grid) i) in
  if feqb frac fzero then Some st else stencil_axis_loop i frac st.

Definition offset_axis (offset : F * F * F) (i : nat) : F :=
  let '(ox, oy, oz) := offset in
  match i with
  | O => ox
  | S O => oy
  | _ => oz
  end.

(** [getInterpolatedDistribution(p, packedPos, hash, voxelId, nProbes)],
    [offset] being [scene.WorldBound().Offset(p)]. *)
Definition getInterpolatedStencil
    (offset : F * F * F) (packedPos hash : Z) (voxelId : Point3i) : option Stencil :=
  let st := {| st_distributions := [getDistribution packedPos hash];
               st_voxelIds := [voxelId];
               st_influence := [fone] |} in
  fold_left (fun acc i => s <- acc ;; stencil_axis (offset_axis offset) s i)
            (seq 0 3) (Some st).

Definition getInterpolatedDistribution
    (offset : F * F * F) (packedPos hash : Z) (voxelId : Point3i)
    : option (InterpolatedDistribution1D (F := F)) :=
  st <- getInterpolatedStencil offset packedPos hash voxelId ;;
  mkInterpolatedDistribution1D (st_influence st) (st_distributions st).

End PhotonVoxel.

(** ** [PhotonBasedCdfKdTreeLightDistribution::buildCluster] *)

Section Cluster.

Context {F : Type} {ops : FloatOps F}.

(** [PhotonCloud<Float>::Photon]; [lightNum = -1] marks a photon that hit
    nothing. *)
Record Photon : Type := {
  ph_x : F; ph_y : F; ph_z : F;
  ph_beta : F;
  ph_lightNum : Z
}.

(** [CdfCloud<Float>::Cdf] *)
Record Cdf : Type := {
  cdf_x : F; cdf_y : F; cdf_z : F;
  cdf_distr : SparseDistribution1D (F := F);
  cdf_weight : Z
}.

(** What the loop over the photons of a cluster accumulates. *)
Record ClusterAcc : Type := {
  acc_x : F; acc_y : F; acc_z : F;
  acc_lightContrib : list (Z * F);
  acc_numPhotons : Z
}.

Variable cloud : list Photon.
Variable photonThreshold : Z.
Variable minContributionScale : F.
(** [scene.lights.size()] *)
Variable nLights : Z.

Definition no_photon : Photon :=
  {| ph_x := fzero; ph_y := fzero; ph_z := fzero; ph_beta := fzero; ph_lightNum := -1 |}.

Definition accumulate_photon (acc : ClusterAcc) (photonIndex : nat) : ClusterAcc :=
  let photon := nth photonIndex cloud no_photon in
  if ph_lightNum photon =? -1 then acc
  else {| acc_x := fadd (acc_x acc) (ph_x photon);
          acc_y := fadd (acc_y acc) (ph_y photon);
          acc_z := fadd (acc_z acc) (ph_z photon);
          acc_lightContrib :=
            map_add (ph_lightNum photon) (ph_beta photon) (acc_lightContrib acc);
          acc_numPhotons := acc_numPhotons acc + 1 |}.

Definition accumulate_cluster (cluster : list nat) : ClusterAcc :=
  fold_left accumulate_photon cluster
    {| acc_x := fzero; acc_y := fzero; acc_z := fzero;
       acc_lightContrib := []; acc_numPhotons := 0 |}.

(** The body of the parallel loop for one cluster: [Some (Some cdf)] when
    the cluster is pushed to [cdfCloud.pts], [Some None] when it is left
    out, [None] when building its distribution aborts. *)
Definition cluster_cdf (cluster : list nat) : option (option Cdf) :=
  let acc := accumulate_cluster cluster in
  let numPhotons := acc_numPhotons acc in
  if numPhotons >? photonThreshold then
    distr <- createSparseDistribution1D (acc_lightContrib acc)
                                        minContributionScale nLights ;;
    Some (Some {| cdf_x := fdiv (acc_x acc) (of_int numPhotons);
                  cdf_y := fdiv (acc_y acc) (of_int numPhotons);
                  cdf_z := fdiv (acc_z acc) (of_int numPhotons);
                  cdf_distr := distr;
                  cdf_weight := numPhotons |})
  else Some None.


(** The photons of a cluster that hit a surface. *)
Definition intersecting (cluster : list nat) : list nat :=
  filter (fun photonIndex => negb (ph_lightNum (nth photonIndex cloud no_photon) =? -1))
         cluster.

End Cluster.

(** ** Vocabulary of the properties *)

(** A coordinate that fits the 20 bits the packing gives it. *)
Definition fits20 (pi : Point3i) : Prop :=
  0 <= px pi < 2 ^ 20 /\ 0 <= py pi < 2 ^ 20 /\ 0 <= pz pi < 2 ^ 20.

(** A voxel of the grid. *)
Definition in_grid (grid : VoxelGrid) (p : Point3i) : Prop :=
  0 <= px p < px (nVoxels grid) /\
  0 <= py p < py (nVoxels grid) /\
  0 <= pz p < pz (nVoxels grid).

(** The entries of [contribMap] that [createSparseDistribution1D] keeps, in
    iteration order. *)
Definition kept_entries {F : Type} {ops : FloatOps F}
    (contribMap : list (Z * F)) : list (Z * F) :=
  filter (fun kv => fltb fzero (snd kv)) contribMap.

(** The binary32 number nearest to the fraction a/b of two small integers:
    the value of a decimal literal such as [0.66f] (66/100). *)
Definition f32_lit (a b : Z) : f32 := SFdiv f32_prec f32_emax (f32_of_Z a) (f32_of_Z b).

(** The exact value of a finite binary32 number. *)
Definition f32_to_Q (x : f32) : Q :=
  match x with
  | S754_finite s m e =>
      let v := match e with
               | Zneg p => (Zpos m # (2 ^ p))%Q
               | _ => inject_Z (Zpos m * 2 ^ e)
               end in
      if s then Qopp v else v
  | _ => 0%Q
  end.

(** The sum of a list of rationals. *)
Definition Qsum (l : list Q) : Q := fold_right Qplus 0%Q l.


(** Counting the elements of a list that satisfy a test. *)
Definition count {A : Type} (P : A -> bool) (l : list A) : nat :=
  length (filter P l).

Definition b2n (b : bool) : nat := if b then 1%nat else 0%nat.

Section Vocabulary.

Variable grid : VoxelGrid.

Definition key_at (t : list HashEntry) (hash : Z) : Z := packedPos (entry_at t hash).

Definition dist_at (t : list HashEntry) (hash : Z) : option nat :=
  distribution (entry_at t hash).

(** The j-th probe of a key: its table index and the value of [step]. *)
Definition probe (key : Z) (j : nat) : Z * Z :=
  Nat.iter j (probe_next (hashTableSize grid)) (mixHash key (hashTableSize grid), 1).

(** The first j probes of [key] all met entries of other voxels. *)
Definition passed (t : list HashEntry) (key : Z) (j : nat) : Prop :=
  forall i, (i < j)%nat ->
    key_at t (fst (probe key i)) <> invalidPackedPos /\
    key_at t (fst (probe key i)) <> key.

(** The object [dist] was built by a call of [ComputeDistribution] for the
    voxel with packed key [key]. *)
Definition built_for (cr : list Point3i) (dist : nat) (key : Z) : Prop :=
  exists pi, nth_error cr dist = Some pi /\ packPos pi = key.

Definition thread_ok (t : list HashEntry) (cr : list Point3i) (pc : Pc) : Prop :=
  match pc with
  | Idle => True
  | LoadKey pi key hash step | TryClaim pi key hash step =>
      key = packPos pi /\ key <> invalidPackedPos /\
      exists j, probe key j = (hash, step) /\ passed t key j
  | Compute pi key hash =>
      key = packPos pi /\ key <> invalidPackedPos /\
      0 <= hash < hashTableSize grid /\ key_at t hash = key
  | Store key hash dist =>
      key <> invalidPackedPos /\
      0 <= hash < hashTableSize grid /\ key_at t hash = key /\
      built_for cr dist key
  | LoadDist key hash =>
      key <> invalidPackedPos /\
      0 <= hash < hashTableSize grid /\ key_at t hash = key
  | Returned key dist => built_for cr dist key
  end.

Definition is_computing (key : Z) (pc : Pc) : bool :=
  match pc with
  | Compute _ k _ => k =? key
  | _ => false
  end.

Definition is_storing (key : Z) (pc : Pc) : bool :=
  match pc with
  | Store k _ _ => k =? key
  | _ => false
  end.

Definition holds (key : Z) (e : HashEntry) : bool := packedPos e =? key.

Definition ready (key : Z) (e : HashEntry) : bool :=
  (packedPos e =? key) &&
  match distribution e with
  | Some _ => true
  | None => false
  end.

(** The invariant of the protocol.  Every claimed entry lies on the probe
    sequence of its key behind entries of other voxels; every published
    pointer was built for the key of its entry; and for every key the
    entries holding it are as many as the threads building or publishing
    for it plus the entries already published, at most one in all. *)
Record Inv (s : State) : Prop := {
  inv_len : length (hashTable s) = Z.to_nat (hashTableSize grid);
  inv_slot : forall hash,
      0 <= hash < hashTableSize grid ->
      key_at (hashTable s) hash <> invalidPackedPos ->
      exists j, fst (probe (key_at (hashTable s) hash) j) = hash /\
                passed (hashTable s) (key_at (hashTable s) hash) j;
  inv_dist : forall hash dist,
      0 <= hash < hashTableSize grid ->
      dist_at (hashTable s) hash = Some dist ->
      key_at (hashTable s) hash <> invalidPackedPos /\
      built_for (created s) dist (key_at (hashTable s) hash);
  inv_thr : forall pc, In pc (threads s) -> thread_ok (hashTable s) (created s) pc;
  inv_res : forall key dist, In (key, dist) (results s) -> built_for (created s) dist key;
  inv_cr : forall pi, In pi (created s) -> packPos pi <> invalidPackedPos;
  inv_count : forall key,
      key <> invalidPackedPos ->
      (count (holds key) (hashTable s)
       = count (is_computing key) (threads s) + count (is_storing key) (threads s)
         + count (ready key) (hashTable s))%nat /\
      (created_for key s
       = count (is_storing key) (threads s) + count (ready key) (hashTable s))%nat /\
      (count (holds key) (hashTable s) <= 1)%nat
}.

(** A table step never changes the key of a claimed entry. *)
Definition keys_kept (t t' : list HashEntry) : Prop :=
  forall hash, 0 <= hash < hashTableSize grid ->
    key_at t hash <> invalidPackedPos -> key_at t' hash = key_at t hash.

End Vocabulary.

(** ** Progress of [Lookup]

    What the statement that every call returns needs: the threads inside
    [Lookup], a bound on the rounds each is from its return, and schedules
    in which every such thread takes a step in every round. *)

(** A thread that is not inside [Lookup]. *)
Definition outside (pc : Pc) : bool :=
  match pc with
  | Idle | Returned _ _ => true
  | _ => false
  end.

(** A thread that is outside [Lookup], or inside a lookup of the voxel with
    packed key [key]. *)
Definition on_key (key : Z) (pc : Pc) : Prop :=
  match pc with
  | Idle | Returned _ _ => True
  | LoadKey _ k _ _ | TryClaim _ k _ _ | Compute _ k _ | Store k _ _ | LoadDist k _ =>
      k = key
  end.

(** A thread that waits in the spin loop for a pointer that is not there
    yet. *)
Definition spinning (t : list HashEntry) (pc : Pc) : bool :=
  match pc with
  | LoadDist _ hash =>
      match distribution (entry_at t hash) with
      | Some _ => false
      | None => true
      end
  | _ => false
  end.

(** How many rounds a thread is from its return at most, the voxel's entry
    being the j-th of the probe sequence of [key]: a spinning thread is one
    round behind the thread that builds. *)
Definition rank (key : Z) (j : nat) (t : list HashEntry) (cr : list Point3i) (pc : Pc)
    : nat :=
  match pc with
  | Idle | Returned _ _ => 0
  | Store _ _ _ => 1
  | Compute _ _ _ => 2
  | LoadDist _ hash =>
      match distribution (entry_at t hash) with
      | Some _ => 1
      | None => if existsb (fun pi => packPos pi =? key) cr then 2 else 3
      end
  | TryClaim _ _ _ _ => 5
  | LoadKey _ _ hash step =>
      if packedPos (entry_at t hash) =? key then 4
      else (6 + (j - Z.to_nat (step - 1)))%nat
  end.

(** A thread that has called [Lookup] on the voxel with key [key]: it is
    inside [Lookup], or has returned from a lookup of that voxel. *)
Definition called (key : Z) (pc : Pc) : Prop :=
  match pc with
  | Idle => False
  | Returned k _ => k = key
  | _ => True
  end.

(** A thread in the spin loop or outside [Lookup]. *)
Definition waits (pc : Pc) : bool :=
  match pc with
  | LoadDist _ _ | Idle | Returned _ _ => true
  | _ => false
  end.

(** The rank of thread x in a state. *)
Definition thread_rank (key : Z) (j : nat) (s : State) (x : nat) : nat :=
  rank key j (hashTable s) (created s) (nth x (threads s) Idle).

Section Fairness.

Context {F : Type} {ops : FloatOps F}.
Variable grid : VoxelGrid.

(** Every call of the schedule is on a point of the voxel with key [key]. *)
Definition calls_on (key : Z) (sched : list (nat * Action F)) : Prop :=
  forall i offset, In (i, Call offset) sched -> packPos (voxelOf grid offset) = key.

(** The steps of a round: no call starts and no compare-exchange fails
    although the entry holds the expected value. *)
Definition steps_only (round : list (nat * Action F)) : bool :=
  forallb (fun ia => match snd ia with
                     | Run false => true
                     | _ => false
                     end) round.

(** Every thread that is inside [Lookup] when the round starts takes a step
    of the round. *)
Definition covers (s : State) (round : list (nat * Action F)) : bool :=
  forallb (fun i => outside (nth i (threads s) Idle)
                    || existsb (Nat.eqb i) (map fst round))
          (seq 0 (length (threads s))).

(** A fair schedule, round by round. *)
Fixpoint fair_rounds (rounds : list (list (nat * Action F))) (s : State) : bool :=
  match rounds with
  | [] => true
  | round :: rest =>
      steps_only round && covers s round
      && match run grid round s with
         | Some s' => fair_rounds rest s'
         | None => false
         end
  end.

(** The scene of the progress statement: every thread inside [Lookup]
    looks up the voxel with key [key], whose probe sequence passes j
    entries of other voxels and then meets an entry that is free or its
    own. *)
Record Scene (key : Z) (j : nat) (s : State) : Prop := {
  sc_inv : Inv grid s;
  sc_key : key <> invalidPackedPos;
  sc_passed : passed grid (hashTable s) key j;
  sc_slot : key_at (hashTable s) (fst (probe grid key j)) = invalidPackedPos \/
            key_at (hashTable s) (fst (probe grid key j)) = key;
  sc_thr : forall pc, In pc (threads s) -> on_key key pc;
  sc_claim : forall pi k hash step,
      In (TryClaim pi k hash step) (threads s) -> probe grid key j = (hash, step);
  sc_ret : forall k dist, In (Returned k dist) (threads s) -> In (k, dist) (results s)
}.

End Fairness.

(** ** The interpolation stencil, axis by axis

    The stencil of [getInterpolatedDistribution] as the specification words
    it, to be compared with the loops of the source ([stencil_entry],
    [stencil_axis]): a list of (voxel, weight) pairs transformed by one step
    per axis. *)

Section StencilByAxes.

Context {F : Type} {ops : FloatOps F}.
Variable grid : VoxelGrid.

(** The neighbour of a voxel on axis i, on the side [frac] points to. *)
Definition neighbour (i : nat) (frac : F) (id : Point3i) : Point3i :=
  set_axis id i (axis id i + (if fltb fzero frac then 1 else -1)).

Definition neighbour_in_range (i : nat) (frac : F) (id : Point3i) : bool :=
  (0 <=? axis (neighbour i frac id) i)
  && (axis (neighbour i frac id) i <? axis (nVoxels grid) i).

(** One axis step in the words of the specification, on the list of
    (voxel, weight) pairs: when [frac] is 0 nothing changes; otherwise a weight w whose
    neighbour is in range is replaced by w * (1 - |frac|) and the neighbour
    is pushed behind with w * |frac|, and a weight whose neighbour is out
    of range is left as it is. *)
Definition axis_step (i : nat) (frac : F) (ws : list (Point3i * F))
    : list (Point3i * F) :=
  if feqb frac fzero then ws
  else
    map (fun e => if neighbour_in_range i frac (fst e)
                  then (fst e, fmul (snd e) (fsub fone (fabs frac)))
                  else e) ws
    ++ flat_map (fun e => if neighbour_in_range i frac (fst e)
                          then [(neighbour i frac (fst e), fmul (snd e) (fabs frac))]
                          else []) ws.

(** The three axis steps from the current voxel with weight 1. *)
Definition stencil_by_axes (offset : F * F * F) (voxelId : Point3i)
    : list (Point3i * F) :=
  fold_left (fun ws i =>
               axis_step i (offsetInVoxel (offset_axis offset i) (axis (nVoxels grid) i)) ws)
            (seq 0 3) [(voxelId, fone)].

Variable getDistribution : Z -> Z -> Distribution1DRef (F := F).

(** The child [getInterpolatedDistribution] fetches for a neighbour. *)
Definition stencil_child (id : Point3i) : Distribution1DRef (F := F) :=
  getDistribution (packPos id) (mixHash (packPos id) (hashTableSize grid)).

(** The three vectors of the source hold the pairs [ws] and their children:
    the first child is the current voxel's, fetched with the key and hash
    the caller passes. *)
Definition holds_pairs (d0 : Distribution1DRef (F := F))
    (st : Stencil) (ws : list (Point3i * F)) : Prop :=
  st_voxelIds st = map fst ws /\
  st_influence st = map snd ws /\
  st_distributions st = d0 :: map stencil_child (tl (map fst ws)) /\
  ws <> [] /\
  Forall (fun e => in_grid grid (fst e)) ws.

(** The pairs after the first k turns of the inner loop of an axis. *)
Definition after_turns (i : nat) (frac : F) (k : nat) (ws : list (Point3i * F))
    : list (Point3i * F) :=
  map (fun e => if neighbour_in_range i frac (fst e)
                then (fst e, fmul (snd e) (fsub fone (fabs frac)))
                else e) (firstn k ws)
  ++ skipn k ws
  ++ flat_map (fun e => if neighbour_in_range i frac (fst e)
                        then [(neighbour i frac (fst e), fmul (snd e) (fabs frac))]
                        else []) (firstn k ws).

End StencilByAxes.

(** ** Conversions to [int] that are defined *)

(** A Float whose conversion [int(x)] is defined: it lies in
    [-2^31, 2^31), both bounds being exact in binary32. *)
Definition int_convertible {F : Type} {ops : FloatOps F} (x : F) : Prop :=
  fleb (of_int (- 2 ^ 31)) x = true /\ fltb x (of_int (2 ^ 31)) = true.

(** An offset whose three products [offset[i] * nVoxels[i]] convert. *)
Definition offset_convertible {F : Type} {ops : FloatOps F}
    (grid : VoxelGrid) (offset : F * F * F) : Prop :=
  let '(ox, oy, oz) := offset in
  int_convertible (fmul ox (of_int (px (nVoxels grid)))) /\
  int_convertible (fmul oy (of_int (py (nVoxels grid)))) /\
  int_convertible (fmul oz (of_int (pz (nVoxels grid)))).

(** ** Multiple-importance weights (sampling.h) *)

Section Heuristics.

Context {F : Type} {ops : FloatOps F}.

(** [BalanceHeuristic(nf, fPdf, ng, gPdf)]; the [int] counts are converted
    to [Float] by the products. *)
Definition BalanceHeuristic (nf : Z) (fPdf : F) (ng : Z) (gPdf : F) : F :=
  fdiv (fmul (of_int nf) fPdf)
       (fadd (fmul (of_int nf) fPdf) (fmul (of_int ng) gPdf)).

(** [PowerHeuristic(nf, fPdf, ng, gPdf)]. *)
Definition PowerHeuristic (nf : Z) (fPdf : F) (ng : Z) (gPdf : F) : F :=
  let f := fmul (of_int nf) fPdf in
  let g := fmul (of_int ng) gPdf in
  fdiv (fmul f f) (fadd (fmul f f) (fmul g g)).

End Heuristics.

(** ** [Shuffle] (sampling.h) *)

Section Shuffling.

Variable T : Type.
(** The state of the generator and [rng.UniformUInt32(b)]: the number drawn
    and the state afterwards.  The class [RNG] (rng.h) is not among the
    files modelled. *)
Variable RNG : Type.
Variable UniformUInt32 : Z -> RNG -> Z * RNG.

(** [std::swap(samp[a], samp[b])]; an index outside the array is undefined
    in the source and leaves the array as it is here. *)
Definition swap_at (samp : list T) (a b : nat) : list T :=
  match nth_error samp a, nth_error samp b with
  | Some x, Some y => set_nth a y (set_nth b x samp)
  | _, _ => samp
  end.

(** The inner loop: the [nDimensions] values of sample [i] are exchanged
    with those of sample [other]. *)
Definition swap_sample (nDimensions i other : nat) (samp : list T) : list T :=
  fold_left (fun s j => swap_at s (nDimensions * i + j) (nDimensions * other + j))
            (seq 0 nDimensions) samp.

(** One turn of the outer loop. *)
Definition Shuffle_step (count nDimensions : nat) (st : list T * RNG) (i : nat)
    : list T * RNG :=
  let '(samp, rng) := st in
  let '(v, rng') := UniformUInt32 (Z.of_nat count - Z.of_nat i) rng in
  let other := (i + Z.to_nat v)%nat in
  (swap_sample nDimensions i other samp, rng').

(** [Shuffle(samp, count, nDimensions, rng)]: the array and the generator
    afterwards. *)
Definition Shuffle (samp : list T) (count nDimensions : nat) (rng : RNG)
    : list T * RNG :=
  fold_left (Shuffle_step count nDimensions) (seq 0 count) (samp, rng).

End Shuffling.

(** ** [UniformLightDistribution] and [SpatialLightDistribution::ComputeDistribution] *)

Section LightWeights.

Context {F : Type} {ops : FloatOps F}.

(** [UniformLightDistribution(scene)]: the distribution over
    [prob(scene.lights.size(), Float(1))], which [Lookup] returns for every
    point.  [PhotonBasedVoxelLightDistribution] builds its [defaultDistrib]
    the same way. *)
Definition UniformLightDistribution (nLights : nat) : Distribution1D :=
  mkDistribution1D (repeat fone nLights).

(** [std::max(a, b)]: [(a < b) ? b : a]. *)
Definition fmax (a b : F) : F := if fltb a b then b else a.

(** The product [.001 * x] stored in a [Float]; the literal is a [double]. *)
Variable milli : F -> F.

(** [scene.lights.size()] *)
Variable nLights : nat.

(** What [scene.lights[j]->Sample_Li] returns for the i-th sample point of
    the voxel: the luminance [Li.y()] and [pdf].  The lights, the Halton
    points and the voxel bounds are not part of the files modelled. *)
Variable Sample_Li : nat -> nat -> F * F.

Definition nSamples : nat := 128.

(** One turn of the loop over the samples: the inner loop over the lights,
    [if (pdf > 0) lightContrib[j] += Li.y() / pdf]. *)
Definition add_sample (i : nat) (lightContrib : list F) : list F :=
  map (fun jc : nat * F =>
         let '(j, c) := jc in
         let '(y, pdf) := Sample_Li i j in
         if fltb fzero pdf then fadd c (fdiv y pdf) else c)
      (combine (seq 0 (length lightContrib)) lightContrib).

Definition sampled_contrib : list F :=
  fold_left (fun lightContrib i => add_sample i lightContrib)
            (seq 0 nSamples) (repeat fzero nLights).

(** The floor given to every light: [sumContrib], [avgContrib],
    [minContrib] and the loop [lightContrib[i] = std::max(lightContrib[i],
    minContrib)]. *)
Definition floor_contrib (lightContrib : list F) : list F :=
  let sumContrib := fold_left fadd lightContrib fzero in
  let avgContrib :=
    fdiv sumContrib (of_int (Z.of_nat nSamples * Z.of_nat (length lightContrib))) in
  let minContrib := if fltb fzero avgContrib then milli avgContrib else fone in
  map (fun c => fmax c minContrib) lightContrib.

(** [SpatialLightDistribution::ComputeDistribution(pi)]. *)
Definition ComputeDistribution : Distribution1D :=
  mkDistribution1D (floor_contrib sampled_contrib).

End LightWeights.

(** [.001 * x] in exact arithmetic, and in binary32 through binary64. *)
Definition Q_milli (x : Q) : Q := ((1 # 1000) * x)%Q.

Definition f32_milli (x : f32) : f32 :=
  f64_to_f32
    (SFmul f64_prec f64_emax
       (SFdiv f64_prec f64_emax (f64_of_Z 1) (f64_of_Z 1000))
       (f32_to_f64 x)).

(** ** [PhotonBasedVoxelLightDistribution::Lookup] *)

Section PhotonVoxelLookup.

Context {F : Type} {ops : FloatOps F}.
Variable grid : VoxelGrid.
Variable getDistribution : Z -> Z -> Distribution1DRef (F := F).

(** [Lookup(p, n)], [offset] being [scene.WorldBound().Offset(p)]: the
    voxel of the point, its key and hash, then the interpolated or the plain
    distribution as [interpolateCdf] says. *)
Definition PhotonVoxel_Lookup (interpolateCdf : bool) (offset : F * F * F)
    : option (Distribution1DRef (F := F)) :=
  let voxelId := voxelOf grid offset in
  ph <- calcPackedPosAndHash (hashTableSize grid) voxelId ;;
  let '(packedPos, hash) := ph in
  if interpolateCdf then
    d <- getInterpolatedDistribution grid getDistribution offset packedPos hash voxelId ;;
    Some (Interp_ref d)
  else Some (getDistribution packedPos hash).

End PhotonVoxelLookup.

(** ** [PhotonBasedVoxelLightDistribution]: the photon preprocess

    [shootPhotons] traces the photons in a parallel loop; what is modelled
    is a run that deposits the photons one after the other, in index order.
    The only part of the run left open is [compare_exchange_weak], which may
    fail although the entry holds the expected value: the outcomes of the
    successive attempts are read from a list ([true]: the attempt fails
    spuriously; an exhausted list: no failure). *)

Section PhotonPreprocess.

Context {F : Type} {ops : FloatOps F}.
Variable grid : VoxelGrid.
Variable minContributionScale : F.
(** [scene.lights.size()] *)
Variable nLights : Z.

(** A [HashEntry] while the photons are deposited: the key and the map
    [lightContrib]. *)
Record PhotonSlot : Type := {
  slot_packedPos : Z;
  slot_lightContrib : list (Z * F)
}.

Definition empty_slot : PhotonSlot :=
  {| slot_packedPos := invalidPackedPos; slot_lightContrib := [] |}.

(** The table [initVoxelHashTable] allocates. *)
Definition initVoxelSlots : list PhotonSlot :=
  repeat empty_slot (Z.to_nat (hashTableSize grid)).

(** A photon that reached a surface: the offset of the intersection point
    in the scene bounds, the light it left and [beta.sumValues()].  The
    lights and the ray casting are not part of the files modelled. *)
Record PhotonHit : Type := {
  hit_offset : F * F * F;
  hit_lightNum : Z;
  hit_fbeta : F
}.

(** The probe loop of [shootPhotons] for one photon; [fuel] bounds the
    number of probes, [None] is "still probing".  The compare-exchange is
    attempted only when the key loaded is not the photon's. *)
Fixpoint deposit_probe (fuel : nat) (table : list PhotonSlot)
    (packedPos hash step lightNum : Z) (fbeta : F) (spurious : list bool)
    : option (list PhotonSlot * list bool) :=
  match fuel with
  | O => None
  | S fuel' =>
      match nth_error table (Z.to_nat hash) with
      | None => None
      | Some entry =>
          let entryPackedPos := slot_packedPos entry in
          if entryPackedPos =? packedPos then
            Some (set_nth (Z.to_nat hash)
                    {| slot_packedPos := entryPackedPos;
                       slot_lightContrib :=
                         map_add lightNum fbeta (slot_lightContrib entry) |}
                    table,
                  spurious)
          else if (entryPackedPos =? invalidPackedPos) && negb (hd false spurious) then
            Some (set_nth (Z.to_nat hash)
                    {| slot_packedPos := packedPos;
                       slot_lightContrib :=
                         map_add lightNum fbeta (slot_lightContrib entry) |}
                    table,
                  tl spurious)
          else
            let '(hash', step') := probe_next (hashTableSize grid) (hash, step) in
            deposit_probe fuel' table packedPos hash' step' lightNum fbeta (tl spurious)
      end
  end.

(** The body of the parallel loop from [scene.Intersect] on. *)
Definition deposit_photon (fuel : nat) (table : list PhotonSlot)
    (hit : PhotonHit) (spurious : list bool) : option (list PhotonSlot * list bool) :=
  let pi := voxelOf grid (hit_offset hit) in
  let packedPos := packPos pi in
  _ <- CHECK (negb (packedPos =? invalidPackedPos)) ;;
  let hash := mixHash packedPos (hashTableSize grid) in
  _ <- CHECK (0 <=? hash) ;;
  deposit_probe fuel table packedPos hash 1 (hit_lightNum hit) (hit_fbeta hit) spurious.

(** The photons in index order. *)
Definition deposit_photons (fuel : nat) (table : list PhotonSlot)
    (hits : list PhotonHit) (spurious : list bool) : option (list PhotonSlot * list bool) :=
  fold_left (fun acc hit => r <- acc ;; deposit_photon fuel (fst r) hit (snd r))
            hits (Some (table, spurious)).

(** The second parallel loop: every entry gets the distribution built from
    its map. *)
Fixpoint build_distributions (table : list PhotonSlot) : option (list VoxelEntry) :=
  match table with
  | [] => Some []
  | slot :: table' =>
      d <- createSparseDistribution1D (slot_lightContrib slot)
                                      minContributionScale nLights ;;
      rest <- build_distributions table' ;;
      Some ({| ve_packedPos := slot_packedPos slot;
               ve_distribution := Sparse_ref d |} :: rest)
  end.

(** [shootPhotons(scene)] after [initVoxelHashTable()]. *)
Definition shootPhotons (fuel : nat) (hits : list PhotonHit) (spurious : list bool)
    : option (list VoxelEntry) :=
  r <- deposit_photons fuel initVoxelSlots hits spurious ;;
  build_distributions (fst r).

(** The key of the voxel a photon hit. *)
Definition hit_key (hit : PhotonHit) : Z := packPos (voxelOf grid (hit_offset hit)).

(** The map the photons of the voxel with key [key] add up to, in the
    order of the photons. *)
Definition contrib_of (key : Z) (hits : list PhotonHit) : list (Z * F) :=
  fold_left (fun m hit =>
               if hit_key hit =? key
               then map_add (hit_lightNum hit) (hit_fbeta hit) m
               else m)
            hits [].

Definition slot_key (t : list PhotonSlot) (hash : Z) : Z :=
  slot_packedPos (nth (Z.to_nat hash) t empty_slot).

(** The first j probes of [key] all met entries of other voxels. *)
Definition slots_passed (t : list PhotonSlot) (key : Z) (j : nat) : Prop :=
  forall i, (i < j)%nat ->
    slot_key t (fst (probe grid key i)) <> invalidPackedPos /\
    slot_key t (fst (probe grid key i)) <> key.

(** The table after the photons [hits] were deposited. *)
Record Deposited (fuel : nat) (hits : list PhotonHit) (t : list PhotonSlot) : Prop := {
  dep_len : length t = Z.to_nat (hashTableSize grid);
  dep_slot : forall hash,
      0 <= hash < hashTableSize grid ->
      slot_key t hash <> invalidPackedPos ->
      (exists j, (j < fuel)%nat /\
                 fst (probe grid (slot_key t hash) j) = hash /\
                 slots_passed t (slot_key t hash) j) /\
      (exists hit, In hit hits /\ hit_key hit = slot_key t hash) /\
      slot_lightContrib (nth (Z.to_nat hash) t empty_slot)
      = contrib_of (slot_key t hash) hits;
  dep_free : forall hash,
      0 <= hash < hashTableSize grid ->
      slot_key t hash = invalidPackedPos ->
      slot_lightContrib (nth (Z.to_nat hash) t empty_slot) = [];
  dep_hit : forall hit, In hit hits ->
      exists hash, 0 <= hash < hashTableSize grid /\ slot_key t hash = hit_key hit
}.

End PhotonPreprocess.

(** ** [Lookup] of the photon kd-tree and of the cluster kd-tree

    The nearest-neighbour and radius searches are nanoflann's; a [Lookup]
    is modelled from their result on: the matches, each an index into the
    cloud with its squared distance, in the order the search returns them.
    [pow], [sqrt], [exp], [log], the unary minus and the two [float]
    literals of the kernels are parameters. *)

Section KdTreeLookup.

Context {F : Type} {ops : FloatOps F}.

Variable fpow : F -> F -> F.
Variables fsqrt fexp flog fneg : F -> F.
(** [0.001f] and [0.0001f] *)
Variable f_0_001 : F.
Variable f_0_0001 : F.

Variable minContributionScale : F.
Variable nLights : Z.
Variable intSmooth : F.

(** [maxR = std::max(maxR, out_dist_sqr[i])] over the matches, from 0. *)
Definition knn_maxR (matches : list (nat * F)) : F :=
  fold_left (fun maxR m => fmax maxR (snd m)) matches fzero.

(** *** [PhotonBasedKdTreeLightDistribution::Lookup] *)

Variable cloud : list (Photon (F := F)).

(** A loop over the matches, [lightContrib[lightNum] += w], [w] computed
    from the photon and its squared distance. *)
Definition kernel_contrib (weight : Photon (F := F) -> F -> F) (matches : list (nat * F))
    : list (Z * F) :=
  fold_left (fun lightContrib m =>
               let photon := nth (fst m) cloud no_photon in
               map_add (ph_lightNum photon) (weight photon (snd m)) lightContrib)
            matches [].

Definition KdTree_lightContrib (knn : bool) (interpolation : String.string)
    (matches : list (nat * F)) : list (Z * F) :=
  if knn then
    if String.eqb interpolation "shepard"%string then
      kernel_contrib
        (fun photon dist_sqr =>
           let d := fmax f_0_001 (fpow dist_sqr intSmooth) in
           fdiv (ph_beta photon) d)
        matches
    else if String.eqb interpolation "modshep"%string then
      let maxR := fpow (knn_maxR matches) intSmooth in
      kernel_contrib
        (fun _ dist_sqr =>
           let d := fmax f_0_001 (fpow dist_sqr intSmooth) in
           fpow (fdiv (fsub maxR d) (fmul maxR d)) (of_int 2))
        matches
    else if String.eqb interpolation "kreg"%string then
      kernel_contrib
        (fun _ dist_sqr =>
           let d := fsqrt dist_sqr in
           fexp (fneg (fpow (fdiv d intSmooth) (of_int 2))))
        matches
    else if String.eqb interpolation "adkreg"%string then
      let maxR := fsqrt (knn_maxR matches) in
      let p := fdiv maxR (fsqrt (fneg (flog intSmooth))) in
      kernel_contrib
        (fun _ dist_sqr =>
           let d := fsqrt dist_sqr in
           fsub (fexp (fneg (fpow (fdiv d p) (of_int 2)))) intSmooth)
        matches
    else if String.eqb interpolation "none"%string then
      kernel_contrib (fun photon _ => ph_beta photon) matches
    else []
  else
    kernel_contrib (fun photon _ => ph_beta photon) matches.

Definition KdTree_Lookup (knn : bool) (interpolation : String.string)
    (matches : list (nat * F)) : option (SparseDistribution1D (F := F)) :=
  createSparseDistribution1D (KdTree_lightContrib knn interpolation matches)
                             minContributionScale nLights.

(** *** [PhotonBasedCdfKdTreeLightDistribution::Lookup] *)

Variable cdfCloud : list (Cdf (F := F)).

(** [cdfCloud.pts[i].distr] and [cdfCloud.pts[i].weight]. *)
Definition cluster_distr (i : nat) : Distribution1DRef (F := F) :=
  match nth_error cdfCloud i with
  | Some c => Sparse_ref (cdf_distr c)
  | None => no_distribution
  end.

Definition cluster_weight (i : nat) : Z :=
  match nth_error cdfCloud i with
  | Some c => cdf_weight c
  | None => 0
  end.

(** A loop over the matches that pushes the cluster's distribution and
    [weight * k], [k] computed from the squared distance. *)
Definition kernel_influence (kernel : F -> F) (matches : list (nat * F))
    : list (Distribution1DRef (F := F)) * list F :=
  (map (fun m => cluster_distr (fst m)) matches,
   map (fun m => fmul (of_int (cluster_weight (fst m))) (kernel (snd m))) matches).

Definition CdfKdTree_Lookup (knn : bool) (interpolation : String.string)
    (matches : list (nat * F)) : option (InterpolatedDistribution1D (F := F)) :=
  if knn then
    let '(distributions, influence) :=
      if String.eqb interpolation "shepard"%string then
        kernel_influence
          (fun dist_sqr =>
             let d := fmax f_0_0001 (fpow dist_sqr intSmooth) in
             fdiv fone d)
          matches
      else if String.eqb interpolation "modshep"%string then
        let maxR := fpow (knn_maxR matches) intSmooth in
        kernel_influence
          (fun dist_sqr =>
             let d := fmax f_0_0001 (fpow dist_sqr intSmooth) in
             fpow (fdiv (fsub maxR d) (fmul maxR d)) (of_int 2))
          matches
      else if String.eqb interpolation "kreg"%string then
        kernel_influence
          (fun dist_sqr =>
             let d := fsqrt dist_sqr in
             fexp (fneg (fpow (fdiv d intSmooth) (of_int 2))))
          matches
      else if String.eqb interpolation "adkreg"%string then
        let maxR := fsqrt (knn_maxR matches) in
        let p := fdiv maxR (fsqrt (fneg (flog intSmooth))) in
        kernel_influence
          (fun dist_sqr =>
             let d := fsqrt dist_sqr in
             fsub (fexp (fneg (fpow (fdiv d p) (of_int 2)))) intSmooth)
          matches
      else ([], []) in
    mkInterpolatedDistribution1D influence distributions
  else
    _ <- CHECK false ;;
    None.

End KdTreeLookup.

(** ** Vocabulary of the further properties *)

(** The pairs (key, position) of a list of keys, positions counted from [i]:
    the contents of [backMap] after the keys were entered in this order. *)
Fixpoint index_from (i : Z) (ks : list Z) : list (Z * Z) :=
  match ks with
  | [] => []
  | k :: ks' => (k, i) :: index_from (i + 1) ks'
  end.

(** The map a sequence of [lightContrib[lightNum] += beta] builds from the
    empty map. *)
Definition accumulate {F : Type} {ops : FloatOps F} (items : list (Z * F))
    : list (Z * F) :=
  fold_left (fun m it => map_add (fst it) (snd it) m) items [].

(** The sum of the values a sequence of (light, value) pairs gives one
    light, and the sum of all its values. *)
Definition light_total (l : Z) (items : list (Z * Q)) : Q :=
  Qsum (map snd (filter (fun it => fst it =? l) items)).

Definition all_total (items : list (Z * Q)) : Q := Qsum (map snd items).

(** The (light, beta) pairs of a list of photon indices. *)
Definition photon_items {F : Type} {ops : FloatOps F}
    (cloud : list (Photon (F := F))) (indices : list nat) : list (Z * F) :=
  map (fun i => (ph_lightNum (nth i cloud no_photon), ph_beta (nth i cloud no_photon)))
      indices.

(** The (light, beta) pairs of the photons that hit the voxel with key
    [key], in the order of the photons. *)
Definition voxel_items {F : Type} {ops : FloatOps F}
    (grid : VoxelGrid) (key : Z) (hits : list (PhotonHit (F := F))) : list (Z * F) :=
  map (fun hit => (hit_lightNum hit, hit_fbeta hit))
      (filter (fun hit => hit_key grid hit =? key) hits).

(** The exchange of two indices. *)
Definition transpose (i other a : nat) : nat :=
  if (a =? i)%nat then other else if (a =? other)%nat then i else a.

(** A contribution map with one entry that is not kept. *)
Definition sparse_example : list (Z * Q) := [(2, 4%Q); (7, 0%Q); (5, 1%Q)].

(** Three photons on the 4 x 4 x 4 grid: the first and the third hit
    voxel (0,0,0), the second hits voxel (3,3,3). *)
Definition example_hits : list (PhotonHit (F := Q)) :=
  [ {| hit_offset := ((1 # 10)%Q, (1 # 10)%Q, (1 # 10)%Q);
       hit_lightNum := 1; hit_fbeta := 2%Q |};
    {| hit_offset := ((9 # 10)%Q, (9 # 10)%Q, (9 # 10)%Q);
       hit_lightNum := 2; hit_fbeta := 1%Q |};
    {| hit_offset := ((2 # 10)%Q, (1 # 10)%Q, (1 # 10)%Q);
       hit_lightNum := 3; hit_fbeta := 6%Q |} ].

(** A photon cloud: two photons that hit a surface and one that did not. *)
Definition example_cloud : list (Photon (F := Q)) :=
  [ {| ph_x := 0%Q; ph_y := 0%Q; ph_z := 0%Q; ph_beta := 1%Q; ph_lightNum := 0 |};
    {| ph_x := 1%Q; ph_y := 0%Q; ph_z := 0%Q; ph_beta := 3%Q; ph_lightNum := 2 |};
    {| ph_x := 0%Q; ph_y := 1%Q; ph_z := 0%Q; ph_beta := 5%Q; ph_lightNum := -1 |} ].

(** The same cloud with other powers. *)
Definition example_cloud' : list (Photon (F := Q)) :=
  [ {| ph_x := 0%Q; ph_y := 0%Q; ph_z := 0%Q; ph_beta := 7%Q; ph_lightNum := 0 |};
    {| ph_x := 1%Q; ph_y := 0%Q; ph_z := 0%Q; ph_beta := 0%Q; ph_lightNum := 2 |};
    {| ph_x := 0%Q; ph_y := 1%Q; ph_z := 0%Q; ph_beta := 2%Q; ph_lightNum := -1 |} ].

(** A generator of bounded numbers for examples: the state modulo the
    bound, the state stepped. *)
Definition example_uniform (b : Z) (g : Z) : Z * Z := (g mod b, 3 * g + 1).

(* ================================================================== *)
(** * Part II. Properties *)
(* ================================================================== *)

(** ** Packed voxel keys *)

Lemma land_shifted_low (hi lo k : Z) :
  0 <= k -> 0 <= lo < 2 ^ k -> Z.land (hi * 2 ^ k) lo = 0.
Proof.
  intros Hk Hlo. apply Z.bits_inj'. intros n Hn.
  rewrite Z.land_spec, Z.bits_0.
  destruct (Z.lt_ge_cases n k) as [Hlt | Hge].
  - rewrite Z.mul_pow2_bits_low by lia. reflexivity.
  - rewrite <- (Z.mod_small lo (2 ^ k)) by lia.
    rewrite Z.mod_pow2_bits_high by lia. apply andb_false_r.
Qed.

Lemma lor_shifted_low (hi lo k : Z) :
  0 <= k -> 0 <= lo < 2 ^ k -> Z.lor (hi * 2 ^ k) lo = hi * 2 ^ k + lo.
Proof.
  intros Hk Hlo.
  rewrite <- (Z.add_lor_land (hi * 2 ^ k) lo).
  rewrite land_shifted_low by assumption. lia.
Qed.

Lemma packPos_sum (pi : Point3i) :
  fits20 pi -> packPos pi = px pi * 2 ^ 40 + py pi * 2 ^ 20 + pz pi.
Proof.
  intros (Hx & Hy & Hz). unfold packPos, uint64.
  rewrite (Z.mod_small (px pi)), (Z.mod_small (py pi)), (Z.mod_small (pz pi)) by lia.
  rewrite !Z.shiftl_mul_pow2 by lia.
  rewrite (Z.mod_small (px pi * 2 ^ 40)), (Z.mod_small (py pi * 2 ^ 20)) by lia.
  rewrite (lor_shifted_low (px pi) (py pi * 2 ^ 20)) by lia.
  replace (px pi * 2 ^ 40 + py pi * 2 ^ 20)
    with ((px pi * 2 ^ 20 + py pi) * 2 ^ 20) by lia.
  rewrite lor_shifted_low by lia. lia.
Qed.

Lemma packPos_valid (pi : Point3i) : fits20 pi -> packPos pi <> invalidPackedPos.
Proof.
  intros H. rewrite packPos_sum by assumption.
  destruct H as (Hx & Hy & Hz). unfold invalidPackedPos. lia.
Qed.

(** C8.  Two voxels whose coordinates all lie in [0, 2^20) and whose packed
    keys [(ix << 40) | (iy << 20) | iz] are equal are the same voxel, and
    the packed key of such a voxel is never the sentinel
    0xFFFFFFFFFFFFFFFF. *)
Theorem packPos_injective_and_valid (pi pi' : Point3i) :
  fits20 pi -> fits20 pi' ->
  (packPos pi = packPos pi' -> pi = pi') /\
  packPos pi <> invalidPackedPos.
Proof.
  intros H H'. split.
  - rewrite !packPos_sum by assumption.
    destruct H as (Hx & Hy & Hz), H' as (Hx' & Hy' & Hz').
    destruct pi as [x y z], pi' as [x' y' z']; cbn in *.
    intros E. f_equal; lia.
  - now apply packPos_valid.
Qed.

Lemma packPos_injective_and_valid_witness :
  (packPos {| px := 3; py := 1048575; pz := 0 |}
   = packPos {| px := 3; py := 1048575; pz := 0 |} ->
   {| px := 3; py := 1048575; pz := 0 |} = {| px := 3; py := 1048575; pz := 0 |}) /\
  packPos {| px := 3; py := 1048575; pz := 0 |} <> invalidPackedPos.
Proof.
  apply (@packPos_injective_and_valid
           {| px := 3; py := 1048575; pz := 0 |}
           {| px := 3; py := 1048575; pz := 0 |});
    unfold fits20; cbn; lia.
Defined.

(** ** Continuous sampling of the derived distributions *)

(** C7.  [SampleContinuous] of a SparseDistribution1D and of an
    InterpolatedDistribution1D stops at [CHECK(false)] for every input: it
    returns no value, whether called on the object or through a
    [Distribution1D] pointer to it. *)
Theorem SampleContinuous_unsupported
    (F : Type) (ops : FloatOps F)
    (s : SparseDistribution1D) (d : InterpolatedDistribution1D) (u : F) :
  Sparse_SampleContinuous s u = None /\
  Interp_SampleContinuous d u = None /\
  vSampleContinuous (Sparse_ref s) u = None /\
  vSampleContinuous (Interp_ref d) u = None.
Proof.
  repeat split.
Qed.

(** ** The interval search *)

Lemma FindInterval_loop_sorted (pred : Z -> bool) (k : Z) :
  forall (fuel : nat) (first len : Z),
    0 <= len -> (Z.to_nat len <= fuel)%nat ->
    first <= k <= first + len ->
    (forall i, first <= i < first + len -> pred i = (i <? k)) ->
    FindInterval_loop fuel pred first len = k.
Proof.
  induction fuel as [| fuel IH]; intros first len Hlen Hfuel Hk Hpred.
  - cbn. lia.
  - cbn [FindInterval_loop].
    destruct (len >? 0) eqn:Hpos.
    + apply Z.gtb_lt in Hpos.
      assert (Hhalf : Z.shiftr len 1 = len / 2)
        by (rewrite Z.shiftr_div_pow2 by lia; reflexivity).
      rewrite Hhalf.
      assert (0 <= len / 2 < len) by (split; [apply Z.div_pos | apply Z.div_lt]; lia).
      rewrite Hpred by lia.
      destruct (first + len / 2 <? k) eqn:Hm.
      * apply Z.ltb_lt in Hm. apply IH; try lia.
        intros i Hi. apply Hpred. lia.
      * apply Z.ltb_ge in Hm. apply IH; try lia.
        intros i Hi. apply Hpred. lia.
    + rewrite Z.gtb_ltb in Hpos. apply Z.ltb_ge in Hpos. lia.
Qed.

(** On a table whose predicate holds exactly below [k], the search returns
    [k - 1] clamped to [0, size - 2]. *)
Lemma FindInterval_sorted (pred : Z -> bool) (size k : Z) :
  0 <= k <= size ->
  (forall i, 0 <= i < size -> pred i = (i <? k)) ->
  FindInterval size pred = Clamp (k - 1) 0 (size - 2).
Proof.
  intros Hk Hpred. unfold FindInterval.
  rewrite (FindInterval_loop_sorted pred k); try lia; auto.
Qed.

(** ** The table of [Distribution1D] *)

Section TableFacts.

Context {F : Type} {ops : FloatOps F}.

Lemma at_cons (x : F) (l : list F) (i : Z) :
  1 <= i -> at_ (x :: l) i = at_ l (i - 1).
Proof.
  intros Hi. unfold at_.
  replace (Z.to_nat i) with (S (Z.to_nat (i - 1))) by lia. reflexivity.
Qed.

Lemma at_zero (x : F) (l : list F) : at_ (x :: l) 0 = x.
Proof. reflexivity. Qed.

Lemma integrate_length (n : Z) (fs : list F) :
  forall prev, length (integrate n prev fs) = length fs.
Proof.
  induction fs as [| x fs IH]; intros prev; cbn; [reflexivity | now rewrite IH].
Qed.

Lemma integrate_step (n : Z) (fs : list F) :
  forall (prev : F) (i : nat),
    (i < length fs)%nat ->
    nth (S i) (prev :: integrate n prev fs) fzero
    = fadd (nth i (prev :: integrate n prev fs) fzero)
           (fdiv (nth i fs fzero) (of_int n)).
Proof.
  induction fs as [| x fs IH]; intros prev i Hi; cbn in Hi; [lia |].
  destruct i as [| i].
  - reflexivity.
  - cbn [integrate]. change (nth (S (S i)) (prev :: ?l) fzero) with (nth (S i) l fzero).
    rewrite IH by lia. reflexivity.
Qed.

(** The first loop of the constructor: [cdf[i] = cdf[i-1] + func[i-1] / n]. *)
Lemma cdf_integral_step (f : list F) (i : Z) :
  1 <= i <= Z.of_nat (length f) ->
  at_ (cdf_integral f) i
  = fadd (at_ (cdf_integral f) (i - 1))
         (fdiv (at_ f (i - 1)) (of_int (Z.of_nat (length f)))).
Proof.
  intros Hi. unfold at_, cdf_integral.
  replace (Z.to_nat i) with (S (Z.to_nat (i - 1))) by lia.
  apply integrate_step. lia.
Qed.

Lemma cdf_integral_length (f : list F) :
  length (cdf_integral f) = S (length f).
Proof. unfold cdf_integral. cbn. now rewrite integrate_length. Qed.

Lemma at_map_seq (g : nat -> F) (n : nat) (i : Z) :
  1 <= i <= Z.of_nat n ->
  at_ (fzero :: map g (seq 1 n)) i = g (Z.to_nat i).
Proof.
  intros Hi. rewrite at_cons by lia. unfold at_.
  rewrite nth_indep with (d' := g 0%nat) by (rewrite length_map, length_seq; lia).
  rewrite map_nth. rewrite seq_nth by lia. f_equal. lia.
Qed.

Lemma at_map_tl (g : F -> F) (l : list F) (i : Z) :
  1 <= i < Z.of_nat (length l) ->
  at_ (fzero :: map g (tl l)) i = g (at_ l i).
Proof.
  intros Hi. destruct l as [| x l]; cbn in Hi; [lia |].
  rewrite !at_cons by lia. cbn [tl]. unfold at_.
  rewrite nth_indep with (d' := g fzero) by (rewrite length_map; lia).
  now rewrite map_nth.
Qed.

(** The table the constructor leaves, entry by entry. *)
Lemma mk_cdf_zero (f : list F) : at_ (cdf (mkDistribution1D f)) 0 = fzero.
Proof. unfold mkDistribution1D. cbn [cdf]. now destruct (feqb _ _). Qed.

Lemma mk_cdf_uniform (f : list F) (i : Z) :
  feqb (funcInt (mkDistribution1D f)) fzero = true ->
  1 <= i <= Z.of_nat (length f) ->
  at_ (cdf (mkDistribution1D f)) i = fdiv (of_int i) (of_int (Z.of_nat (length f))).
Proof.
  unfold mkDistribution1D. cbn [cdf funcInt]. intros -> Hi.
  rewrite at_map_seq by lia. now rewrite Z2Nat.id by lia.
Qed.

Lemma mk_cdf_scaled (f : list F) (i : Z) :
  feqb (funcInt (mkDistribution1D f)) fzero = false ->
  1 <= i <= Z.of_nat (length f) ->
  at_ (cdf (mkDistribution1D f)) i
  = fdiv (at_ (cdf_integral f) i) (funcInt (mkDistribution1D f)).
Proof.
  unfold mkDistribution1D. cbn [cdf funcInt]. intros -> Hi.
  rewrite at_map_tl by (rewrite cdf_integral_length; lia). reflexivity.
Qed.

Lemma mk_cdf_length (f : list F) :
  length (cdf (mkDistribution1D f)) = S (length f).
Proof.
  unfold mkDistribution1D. cbn [cdf]. destruct (feqb _ _); cbn.
  - now rewrite length_map, length_seq.
  - rewrite length_map. unfold cdf_integral. cbn [tl].
    now rewrite integrate_length.
Qed.

End TableFacts.

(** ** Distribution1D in exact arithmetic *)

Ltac qops :=
  cbn [fzero fone fadd fsub fmul fdiv fabs of_int to_int feqb fltb fleb fmod1
       one_minus_FLT_MIN Q_FloatOps] in *.

Lemma Qltb_lt (x y : Q) : Qltb x y = true <-> (x < y)%Q.
Proof.
  unfold Qltb. rewrite negb_true_iff. split.
  - intros H. apply Qnot_le_lt. intros Hle. apply Qle_bool_iff in Hle. congruence.
  - intros H. destruct (Qle_bool y x) eqn:E; [| reflexivity].
    apply Qle_bool_iff in E. exfalso. apply (Qlt_not_le _ _ H E).
Qed.

Lemma Qltb_ge (x y : Q) : Qltb x y = false <-> (y <= x)%Q.
Proof.
  unfold Qltb. rewrite negb_false_iff. apply Qle_bool_iff.
Qed.

Lemma inject_Z_pos (n : Z) : 0 < n -> (0 < inject_Z n)%Q.
Proof. intros H. change 0%Q with (inject_Z 0). now rewrite <- Zlt_Qlt. Qed.

Lemma at_In (f : list Q) (i : Z) :
  0 <= i < Z.of_nat (length f) -> In (at_ f i) f.
Proof. intros Hi. unfold at_. apply nth_In. lia. Qed.


(** Every entry of the finished table, in the two branches of the
    constructor. *)
Lemma mk_cdf_uniform_Q (f : list Q) (i : Z) :
  (funcInt (mkDistribution1D f) == 0)%Q ->
  0 <= i <= Z.of_nat (length f) ->
  (at_ (cdf (mkDistribution1D f)) i == inject_Z i / inject_Z (Z.of_nat (length f)))%Q.
Proof.
  intros H0 Hi. destruct (Z.eq_dec i 0) as [-> | Hne].
  - rewrite mk_cdf_zero. qops. unfold Qdiv. now rewrite Qmult_0_l.
  - rewrite mk_cdf_uniform; [reflexivity | | lia].
    qops. now apply Qeq_bool_iff.
Qed.

Lemma mk_cdf_scaled_Q (f : list Q) (i : Z) :
  ~ (funcInt (mkDistribution1D f) == 0)%Q ->
  0 <= i <= Z.of_nat (length f) ->
  (at_ (cdf (mkDistribution1D f)) i
   == at_ (cdf_integral f) i / funcInt (mkDistribution1D f))%Q.
Proof.
  intros H0 Hi. destruct (Z.eq_dec i 0) as [-> | Hne].
  - rewrite mk_cdf_zero. qops. unfold cdf_integral. rewrite at_zero. qops.
    unfold Qdiv. now rewrite Qmult_0_l.
  - rewrite mk_cdf_scaled; [reflexivity | | lia].
    qops. destruct (Qeq_bool _ _) eqn:E; [| reflexivity].
    apply Qeq_bool_iff in E. contradiction.
Qed.




(** ** Sampling a distribution whose function is zero everywhere *)

Lemma inject_Z_le_floor (i : Z) (x : Q) :
  (inject_Z i <= x)%Q <-> i <= Qfloor x.
Proof.
  split.
  - intros H. rewrite <- (Qfloor_Z i). now apply Qfloor_resp_le.
  - intros H. apply Qle_trans with (inject_Z (Qfloor x)).
    + now rewrite <- Zle_Qle.
    + apply Qfloor_le.
Qed.

Lemma cdf_integral_zero (f : list Q) :
  (forall x, In x f -> (x == 0)%Q) ->
  forall i : nat, (i <= length f)%nat ->
    (at_ (cdf_integral f) (Z.of_nat i) == 0)%Q.
Proof.
  intros Hz. induction i as [| i IH]; intros Hi.
  - reflexivity.
  - rewrite cdf_integral_step by lia. qops.
    replace (Z.of_nat (S i) - 1) with (Z.of_nat i) by lia.
    rewrite IH by lia.
    rewrite (Hz (at_ f (Z.of_nat i))) by (apply at_In; lia).
    unfold Qdiv. rewrite Qmult_0_l. reflexivity.
Qed.

Lemma funcInt_zero (f : list Q) :
  (forall x, In x f -> (x == 0)%Q) -> (funcInt (mkDistribution1D f) == 0)%Q.
Proof.
  intros Hz. unfold mkDistribution1D. cbn [funcInt].
  now apply cdf_integral_zero.
Qed.

(** C9.  For a Distribution1D built from n > 0 values that are all zero
    ([funcInt = 0]) and u in [0,1): the table is the uniform fallback
    [cdf[i] = i/n], [SampleDiscrete(u)] returns the index [offset] with
    [cdf[offset] <= u < cdf[offset+1]], and the pdf it reports is 0, which
    is not 1/n. *)
Theorem SampleDiscrete_zero_function (f : list Q) (u : Q) :
  f <> [] ->
  (forall x, In x f -> (x == 0)%Q) ->
  (0 <= u)%Q /\ (u < 1)%Q ->
  let n := Z.of_nat (length f) in
  let d := mkDistribution1D f in
  (funcInt d == 0)%Q /\
  (forall i, 0 <= i <= n -> (at_ (cdf d) i == inject_Z i / inject_Z n)%Q) /\
  exists offset,
    Distribution1D_SampleDiscrete d u true false
    = Some {| sampled := offset; sample_pdf := Some 0%Q; sample_uRemapped := None |} /\
    0 <= offset < n /\
    (at_ (cdf d) offset <= u)%Q /\ (u < at_ (cdf d) (offset + 1))%Q /\
    ~ (0 == 1 / inject_Z n)%Q.
Proof.
  intros Hne Hz [Hu0 Hu1] n d.
  assert (Hn : 0 < n) by (subst n; destruct f; [congruence | cbn; lia]).
  assert (HnQ : (0 < inject_Z n)%Q) by now apply inject_Z_pos.
  assert (Hfi : (funcInt d == 0)%Q) by now apply funcInt_zero.
  assert (Hcdf : forall i, 0 <= i <= n ->
                   (at_ (cdf d) i == inject_Z i / inject_Z n)%Q)
    by (intros i Hi; now apply mk_cdf_uniform_Q).
  split; [exact Hfi | split; [exact Hcdf |]].
  set (off := Qfloor (u * inject_Z n)).
  assert (Hoff0 : 0 <= off).
  { apply inject_Z_le_floor. change (inject_Z 0) with 0%Q.
    apply Qmult_le_0_compat; lra. }
  assert (Hoffn : off < n).
  { rewrite Zlt_Qlt. apply Qle_lt_trans with (u * inject_Z n)%Q.
    - apply Qfloor_le.
    - rewrite <- (Qmult_1_l (inject_Z n)) at 2.
      apply Qmult_lt_compat_r; assumption. }
  assert (Hle : forall i, 0 <= i <= n ->
                  ((at_ (cdf d) i <= u)%Q <-> i <= off)).
  { intros i Hi. rewrite (Hcdf i Hi). unfold off.
    rewrite <- inject_Z_le_floor. split; intros H.
    - assert (E : (inject_Z i == inject_Z i / inject_Z n * inject_Z n)%Q)
        by (field; lra).
      rewrite E. apply Qmult_le_compat_r; lra.
    - apply Qle_shift_div_r; assumption. }
  exists off. repeat split; try lia.
  - unfold Distribution1D_SampleDiscrete.
    replace (fltb fzero (funcInt d)) with false
      by (symmetry; qops; apply Qltb_ge; lra).
    rewrite (FindInterval_sorted _ (Z.of_nat (length (cdf d))) (off + 1)).
    + subst d. rewrite mk_cdf_length. fold n.
      unfold Clamp.
      replace (off + 1 - 1 <? 0) with false by (symmetry; apply Z.ltb_ge; lia).
      replace (off + 1 - 1 >? Z.of_nat (S (length f)) - 2) with false
        by (symmetry; rewrite Z.gtb_ltb; apply Z.ltb_ge; lia).
      replace (off + 1 - 1) with off by lia. reflexivity.
    + subst d. rewrite mk_cdf_length. lia.
    + intros i Hi. subst d. rewrite mk_cdf_length in Hi. qops.
      destruct (Qle_bool _ u) eqn:E.
      * apply Qle_bool_iff, Hle in E; [| lia]. symmetry. apply Z.ltb_lt. lia.
      * symmetry. apply Z.ltb_ge.
        destruct (Z_lt_ge_dec off i) as [Hlt | Hge]; [lia |].
        assert (Hc : (at_ (cdf (mkDistribution1D f)) i <= u)%Q)
          by (apply Hle; lia).
        apply Qle_bool_iff in Hc. congruence.
  - apply Hle; lia.
  - apply Qnot_le_lt. intros H. apply Hle in H; lia.
  - intros H. assert (Hq : (0 < 1 / inject_Z n)%Q).
    { apply Qlt_shift_div_l; [assumption | lra]. }
    lra.
Qed.

Lemma SampleDiscrete_zero_function_witness :
  Distribution1D_SampleDiscrete (mkDistribution1D [0; 0; 0; 0]%Q) (5 # 8)%Q true false
  = Some {| sampled := 2; sample_pdf := Some 0%Q; sample_uRemapped := None |}.
Proof.
  assert (Hne : [0; 0; 0; 0]%Q <> []) by discriminate.
  assert (Hz : forall x, In x [0; 0; 0; 0]%Q -> (x == 0)%Q).
  { intros x Hx. cbn in Hx. repeat destruct Hx as [<- | Hx]; try reflexivity.
    contradiction. }
  assert (Hu : (0 <= 5 # 8)%Q /\ (5 # 8 < 1)%Q) by (split; vm_compute; congruence).
  destruct (SampleDiscrete_zero_function [0; 0; 0; 0]%Q (5 # 8)%Q Hne Hz Hu)
    as (_ & _ & offset & Hs & _).
  rewrite Hs. vm_compute in Hs. congruence.
Defined.

(** The same call with [Float = float]: four zero values and u = 0.625f.
    The integral is +0, the table is the uniform one, the sample is index 2
    and the pdf written is +0. *)
Lemma SampleDiscrete_zero_function_binary32 :
  let d := mkDistribution1D (repeat (f32_of_Z 0) 4) in
  funcInt d = S754_zero false /\
  cdf d = [f32_of_Z 0; f32_lit 1 4; f32_lit 2 4; f32_lit 3 4; f32_of_Z 1] /\
  Distribution1D_SampleDiscrete d (f32_lit 5 8) true false
  = Some {| sampled := 2; sample_pdf := Some (S754_zero false);
            sample_uRemapped := None |}.
Proof.
  cbv zeta. repeat split; vm_compute; reflexivity.
Qed.

(** ** SparseDistribution1D *)

Section MapFacts.

Context {V : Type}.

Lemma map_find_insert_eq (k : Z) (v : V) (m : list (Z * V)) :
  map_find k (map_insert k v m) = Some v.
Proof.
  induction m as [| [k' v'] m IH]; cbn.
  - now rewrite Z.eqb_refl.
  - destruct (k =? k') eqn:E; cbn; rewrite ?E, ?Z.eqb_refl; auto.
Qed.

Lemma map_find_insert_neq (k k' : Z) (v : V) (m : list (Z * V)) :
  k' <> k -> map_find k' (map_insert k v m) = map_find k' m.
Proof.
  intros Hne. induction m as [| [k0 v0] m IH]; cbn.
  - destruct (k' =? k) eqn:E; [apply Z.eqb_eq in E; contradiction | reflexivity].
  - destruct (k =? k0) eqn:E; cbn.
    + apply Z.eqb_eq in E. subst k0.
      destruct (k' =? k) eqn:E'; [apply Z.eqb_eq in E'; contradiction | reflexivity].
    + now rewrite IH.
Qed.

Lemma map_find_In (k : Z) (v : V) (m : list (Z * V)) :
  map_find k m = Some v -> In (k, v) m.
Proof.
  induction m as [| [k' v'] m IH]; cbn; [discriminate |].
  destruct (k =? k') eqn:E.
  - apply Z.eqb_eq in E. intros [= ->]. subst. now left.
  - intros H. right. auto.
Qed.

Lemma map_find_None (k : Z) (m : list (Z * V)) :
  map_find k m = None <-> ~ In k (map fst m).
Proof.
  induction m as [| [k' v'] m IH]; cbn; [tauto |].
  destruct (k =? k') eqn:E.
  - apply Z.eqb_eq in E. subst. split; [discriminate | intros H; exfalso; auto].
  - apply Z.eqb_neq in E. rewrite IH. split; intros H; [intros [H1 | H1] |]; auto.
Qed.

Lemma map_find_NoDup (k : Z) (v : V) (m : list (Z * V)) :
  NoDup (map fst m) -> In (k, v) m -> map_find k m = Some v.
Proof.
  induction m as [| [k' v'] m IH]; cbn; [contradiction |].
  intros Hnd [H | H]; inversion Hnd as [| ? ? Hnin Hnd']; subst.
  - injection H as -> ->. now rewrite Z.eqb_refl.
  - destruct (k =? k') eqn:E; [| auto].
    apply Z.eqb_eq in E. subst. exfalso. apply Hnin.
    change k' with (fst (k', v)). now apply in_map.
Qed.

End MapFacts.

Section SparseFacts.

Context {F : Type} {ops : FloatOps F}.

(** What the loop of [createSparseDistribution1D] leaves in its three
    containers: the kept contributions and their keys are appended in
    order, and [backMap] sends the j-th kept key to [i + j]. *)
Lemma collect_contrib_spec (kvs : list (Z * F)) :
  forall (i : Z) (bm : list (Z * Z)) (sm : list Z) (contrib : list F),
    NoDup (map fst kvs) ->
    exists bm',
      collect_contrib kvs i bm sm contrib
      = (bm', sm ++ map fst (kept_entries kvs), contrib ++ map snd (kept_entries kvs)) /\
      (forall k, ~ In k (map fst (kept_entries kvs)) -> map_find k bm' = map_find k bm) /\
      (forall k v, In (k, v) (kept_entries kvs) ->
         exists j : nat,
           map_find k bm' = Some (i + Z.of_nat j) /\
           nth_error (map snd (kept_entries kvs)) j = Some v).
Proof.
  induction kvs as [| [k v] kvs IH]; intros i bm sm contrib Hnd.
  - exists bm. cbn. rewrite !app_nil_r. repeat split; auto. intros k v [].
  - inversion Hnd as [| ? ? Hnin Hnd']; subst.
    cbn [collect_contrib kept_entries filter snd].
    fold (kept_entries kvs).
    destruct (fltb fzero v) eqn:Ev.
    + destruct (IH (i + 1) (map_insert k i bm) (sm ++ [k]) (contrib ++ [v]) Hnd')
        as (bm' & Heq & Hout & Hin).
      exists bm'. cbn [map fst snd]. rewrite Heq, <- !app_assoc. cbn [app].
      assert (Hk : ~ In k (map fst (kept_entries kvs))).
      { intros H. apply Hnin. apply in_map_iff in H. destruct H as ([k0 v0] & <- & H).
        apply filter_In in H. destruct H as [H _]. now apply in_map. }
      repeat split.
      * intros k' Hk'. rewrite Hout by (intros H; apply Hk'; now right).
        apply map_find_insert_neq. intros ->. apply Hk'. now left.
      * intros k' v' [H | H].
        -- injection H as <- <-. exists 0%nat. split; [| reflexivity].
           rewrite Hout by exact Hk. rewrite map_find_insert_eq. f_equal. lia.
        -- destruct (Hin k' v' H) as (j & Hj & Hnth).
           exists (S j). split; [rewrite Hj; f_equal; lia | exact Hnth].
    + destruct (IH i bm sm contrib Hnd') as (bm' & Heq & Hout & Hin).
      exists bm'. repeat split; auto.
Qed.

Lemma kept_entries_In (contribMap : list (Z * F)) (k : Z) (v : F) :
  In (k, v) (kept_entries contribMap) <-> In (k, v) contribMap /\ fltb fzero v = true.
Proof. unfold kept_entries. rewrite filter_In. reflexivity. Qed.

(** [DiscretePDF] of a distribution built by [createSparseDistribution1D],
    in any arithmetic. *)
Lemma Sparse_DiscretePDF_built (contribMap : list (Z * F)) (u : F) (n_all : Z) :
  NoDup (map fst contribMap) -> 0 < n_all ->
  exists d,
    createSparseDistribution1D contribMap u n_all = Some d /\
    uniProb d = (if Z.of_nat (length (kept_entries contribMap)) =? 0 then fone else u) /\
    uniProbSingle d = fdiv (uniProb d) (of_int n_all) /\
    forall i, 0 <= i < n_all ->
      (forall v, In (i, v) contribMap -> fltb fzero v = true ->
         exists j q,
           map_find i (backMap d) = Some j /\
           at_ (func (sparse_base d)) j = v /\
           Distribution1D_DiscretePDF (sparse_base d) j = Some q /\
           Sparse_DiscretePDF d i
           = Some (fadd (fdiv (uniProb d) (of_int n_all))
                        (fmul q (fsub fone (uniProb d))))) /\
      ((forall v, In (i, v) contribMap -> fltb fzero v = false) ->
         Sparse_DiscretePDF d i = Some (fdiv (uniProb d) (of_int n_all))).
Proof.
  intros Hnd Hn.
  unfold createSparseDistribution1D.
  destruct (collect_contrib_spec contribMap 0 [] [] [] Hnd)
    as (bm & Heq & Hout & Hin).
  rewrite Heq. cbn [app]. unfold mkSparseDistribution1D.
  replace (0 <? n_all) with true by (symmetry; apply Z.ltb_lt; lia).
  cbn [CHECK bind]. eexists. split; [reflexivity |].
  cbn [uniProb uniProbSingle backMap sparse_base nAll].
  rewrite length_map. split; [reflexivity |]. split; [reflexivity |].
  intros i Hi.
  assert (Hrange : (0 <=? i) && (i <? n_all) = true)
    by (apply andb_true_iff; split; [apply Z.leb_le | apply Z.ltb_lt]; lia).
  split.
  - intros v Hv Hpos.
    destruct (Hin i v) as (j & Hj & Hnth); [now apply kept_entries_In |].
    rewrite Z.add_0_l in Hj.
    assert (Hlen : (j < length (map snd (kept_entries contribMap)))%nat)
      by (apply nth_error_Some; congruence).
    assert (Hj' : (0 <=? Z.of_nat j)
                  && (Z.of_nat j <? Z.of_nat (length (map snd (kept_entries contribMap))))
                  = true)
      by (apply andb_true_iff; split; [apply Z.leb_le | apply Z.ltb_lt]; lia).
    assert (Hinner : Distribution1D_DiscretePDF
                       (mkDistribution1D (map snd (kept_entries contribMap))) (Z.of_nat j)
                     = Some (fdiv v (fmul (funcInt (mkDistribution1D
                                                      (map snd (kept_entries contribMap))))
                                          (of_int (Z.of_nat (length
                                             (map snd (kept_entries contribMap)))))))).
    { unfold Distribution1D_DiscretePDF, Distribution1D_Count.
      unfold mkDistribution1D at 1 2 3. cbn [func]. rewrite Hj'. cbn [CHECK bind].
      unfold at_. rewrite Nat2Z.id. now rewrite (nth_error_nth _ _ _ Hnth). }
    exists (Z.of_nat j). eexists. split; [exact Hj |]. split; [| split].
    + unfold mkDistribution1D. cbn [func]. unfold at_.
      rewrite Nat2Z.id. now apply nth_error_nth.
    + exact Hinner.
    + unfold Sparse_DiscretePDF, Sparse_Count.
      cbn [nAll backMap uniProbSingle uniProb sparse_base].
      rewrite Hrange. cbn [CHECK bind]. rewrite Hj, Hinner. cbn [bind].
      now rewrite length_map.
  - intros Hno.
    unfold Sparse_DiscretePDF, Sparse_Count.
    cbn [nAll backMap uniProbSingle uniProb sparse_base].
    rewrite Hrange. cbn [CHECK bind]. rewrite Hout.
    + cbn [map_find]. reflexivity.
    + intros H. apply in_map_iff in H. destruct H as ([k v] & Hk & H).
      cbn in Hk. subst k. apply kept_entries_In in H. destruct H as [H1 H2].
      rewrite (Hno v H1) in H2. discriminate.
Qed.

End SparseFacts.

(** C2, amended.  For a SparseDistribution1D built from a contribution map
    (keeping only the entries with contribution > 0), uniform floor u and
    total size n_all > 0, let u' be the stored floor: u' = u when some entry
    is kept and u' = 1 when none is.  Then, in any arithmetic, for every
    index i in [0, n_all):
    [DiscretePDF(i) = u'/n_all + inner.DiscretePDF(back_map[i]) * (1 - u')]
    when i is a kept entry, [back_map[i]] being the position of i's own
    contribution in the inner distribution, and [DiscretePDF(i) = u'/n_all]
    otherwise.  For the map {2: 4.0, 5: 1.0}, n_all = 10, u = 0.2, in either
    iteration order: in exact arithmetic the PDF is 0.66 at index 2, 0.18 at
    index 5, 0.02 at every other index, and the ten values sum to 1; in
    binary32 the three values are the numbers nearest to 0.66, 0.18 and
    0.02. *)
Theorem Sparse_DiscretePDF_law :
  (forall (F : Type) (ops : FloatOps F) (contribMap : list (Z * F)) (u : F) (n_all : Z),
     NoDup (map fst contribMap) -> 0 < n_all ->
     exists d,
       createSparseDistribution1D contribMap u n_all = Some d /\
       uniProb d = (if Z.of_nat (length (kept_entries contribMap)) =? 0 then fone else u) /\
       uniProbSingle d = fdiv (uniProb d) (of_int n_all) /\
       forall i, 0 <= i < n_all ->
         (forall v, In (i, v) contribMap -> fltb fzero v = true ->
            exists j q,
              map_find i (backMap d) = Some j /\
              at_ (func (sparse_base d)) j = v /\
              Distribution1D_DiscretePDF (sparse_base d) j = Some q /\
              Sparse_DiscretePDF d i
              = Some (fadd (fdiv (uniProb d) (of_int n_all))
                           (fmul q (fsub fone (uniProb d))))) /\
         ((forall v, In (i, v) contribMap -> fltb fzero v = false) ->
            Sparse_DiscretePDF d i = Some (fdiv (uniProb d) (of_int n_all)))) /\
  (forall contribMap,
     contribMap = [(2, 4%Q); (5, 1%Q)] \/ contribMap = [(5, 1%Q); (2, 4%Q)] ->
     exists d,
       createSparseDistribution1D contribMap (2 # 10)%Q 10 = Some d /\
       (forall i, 0 <= i < 10 ->
          exists p, Sparse_DiscretePDF d i = Some p /\
            (p == if i =? 2 then 66 # 100 else if i =? 5 then 18 # 100 else 2 # 100)%Q) /\
       exists ps,
         map (Sparse_DiscretePDF d) [0; 1; 2; 3; 4; 5; 6; 7; 8; 9] = map Some ps /\
         (Qsum ps == 1)%Q) /\
  (forall contribMap,
     contribMap = [(2, f32_of_Z 4); (5, f32_of_Z 1)] \/
     contribMap = [(5, f32_of_Z 1); (2, f32_of_Z 4)] ->
     exists d,
       createSparseDistribution1D contribMap (f32_lit 2 10) 10 = Some d /\
       forall i, 0 <= i < 10 ->
         Sparse_DiscretePDF d i
         = Some (if i =? 2 then f32_lit 66 100
                 else if i =? 5 then f32_lit 18 100 else f32_lit 2 100)).
Proof.
  split; [| split].
  - intros F ops contribMap u n_all. apply Sparse_DiscretePDF_built.
  - intros contribMap [-> | ->]; eexists; (split; [vm_compute; reflexivity |]); split.
    + intros i Hi.
      assert (H : i = 0 \/ i = 1 \/ i = 2 \/ i = 3 \/ i = 4 \/ i = 5 \/ i = 6
                  \/ i = 7 \/ i = 8 \/ i = 9) by lia.
      repeat destruct H as [-> | H]; try subst i;
        (eexists; split; [vm_compute; reflexivity | vm_compute; reflexivity]).
    + match goal with
      | |- exists ps, map ?g ?l = _ /\ _ =>
          exists (map (fun i => match g i with Some p => p | None => 0%Q end) l)
      end.
      split; vm_compute; reflexivity.
    + intros i Hi.
      assert (H : i = 0 \/ i = 1 \/ i = 2 \/ i = 3 \/ i = 4 \/ i = 5 \/ i = 6
                  \/ i = 7 \/ i = 8 \/ i = 9) by lia.
      repeat destruct H as [-> | H]; try subst i;
        (eexists; split; [vm_compute; reflexivity | vm_compute; reflexivity]).
    + match goal with
      | |- exists ps, map ?g ?l = _ /\ _ =>
          exists (map (fun i => match g i with Some p => p | None => 0%Q end) l)
      end.
      split; vm_compute; reflexivity.
  - intros contribMap [-> | ->]; eexists; (split; [vm_compute; reflexivity |]);
      intros i Hi;
      assert (H : i = 0 \/ i = 1 \/ i = 2 \/ i = 3 \/ i = 4 \/ i = 5 \/ i = 6
                  \/ i = 7 \/ i = 8 \/ i = 9) by lia;
      repeat destruct H as [-> | H]; try subst i; vm_compute; reflexivity.
Qed.

Lemma Sparse_DiscretePDF_law_witness :
  exists d,
    createSparseDistribution1D [(7, 3%Q); (1, 0%Q); (4, 1%Q)] (1 # 4)%Q 8 = Some d /\
    uniProb d = (1 # 4)%Q /\
    Sparse_DiscretePDF d 1 = Some (uniProb d / inject_Z 8)%Q.
Proof.
  assert (Hnd : NoDup (map fst [(7, 3%Q); (1, 0%Q); (4, 1%Q)])).
  { cbn. repeat constructor; cbn; intuition discriminate. }
  assert (Hn : 0 < 8) by lia.
  destruct (proj1 Sparse_DiscretePDF_law Q Q_FloatOps _ (1 # 4)%Q 8 Hnd Hn)
    as (d & Hd & Hu & _ & Hpdf).
  exists d. split; [exact Hd |]. split; [exact Hu |].
  assert (Hi : 0 <= 1 < 8) by lia.
  apply (proj2 (Hpdf 1 Hi)).
  intros v Hv. cbn in Hv.
  destruct Hv as [Hv | [Hv | [Hv | []]]]; try discriminate.
  injection Hv as <-. reflexivity.
Defined.

(** C2, as stated, fails when no entry is kept: built from the empty map
    with floor u = 0.2 and n_all = 10, the distribution stores the floor 1,
    so [DiscretePDF(0)] is 1/10 and not u/n_all = 0.02. *)
Lemma Sparse_DiscretePDF_of_empty_map :
  (exists d p,
     createSparseDistribution1D [] (2 # 10)%Q 10 = Some d /\
     map_find 0 (backMap d) = None /\
     Sparse_DiscretePDF d 0 = Some p /\
     (p == 1 # 10)%Q /\
     ~ (p == (2 # 10) / inject_Z 10)%Q) /\
  (exists d,
     createSparseDistribution1D [] (f32_lit 2 10) 10 = Some d /\
     map_find 0 (backMap d) = None /\
     uniProb d = f32_of_Z 1 /\
     Sparse_DiscretePDF d 0 = Some (f32_lit 1 10) /\
     feqb (f32_lit 1 10) (fdiv (f32_lit 2 10) (of_int 10)) = false).
Proof.
  split.
  - eexists. eexists. split; [vm_compute; reflexivity |].
    split; [reflexivity |]. split; [vm_compute; reflexivity |].
    split; vm_compute; congruence.
  - eexists. split; [vm_compute; reflexivity |].
    repeat split; vm_compute; reflexivity.
Qed.

(** ** InterpolatedDistribution1D *)

Lemma Qsum_nil : Qsum [] = 0%Q.
Proof. reflexivity. Qed.

Lemma Qsum_cons (x : Q) (l : list Q) : Qsum (x :: l) = (x + Qsum l)%Q.
Proof. reflexivity. Qed.

Lemma Qsum_app (l1 l2 : list Q) : (Qsum (l1 ++ l2) == Qsum l1 + Qsum l2)%Q.
Proof.
  induction l1 as [| x l1 IH]; cbn [app].
  - rewrite Qsum_nil. ring.
  - rewrite !Qsum_cons, IH. ring.
Qed.

Lemma firstn_snoc {A : Type} (d : A) (l : list A) :
  forall j : nat, (j < length l)%nat -> firstn (S j) l = firstn j l ++ [nth j l d].
Proof.
  induction l as [| x l IH]; intros j Hj; cbn in Hj; [lia |].
  destruct j as [| j]; [reflexivity |].
  cbn [firstn nth app]. f_equal. apply IH. lia.
Qed.

(** The running integral in closed form: the sum of the first j values
    over n. *)
Lemma cdf_integral_closed (w : list Q) :
  forall j : nat, (j <= length w)%nat ->
    (at_ (cdf_integral w) (Z.of_nat j)
     == Qsum (firstn j w) / inject_Z (Z.of_nat (length w)))%Q.
Proof.
  induction j as [| j IH]; intros Hj.
  - cbn [firstn Z.of_nat]. unfold cdf_integral. rewrite at_zero, Qsum_nil. qops.
    unfold Qdiv. ring.
  - rewrite cdf_integral_step by lia. qops.
    replace (Z.of_nat (S j) - 1) with (Z.of_nat j) by lia.
    rewrite IH by lia. rewrite (firstn_snoc 0%Q) by lia. rewrite Qsum_app.
    unfold at_. rewrite Nat2Z.id. rewrite Qsum_cons, Qsum_nil. qops.
    unfold Qdiv. ring.
Qed.

Lemma funcInt_closed (w : list Q) :
  (funcInt (mkDistribution1D w) == Qsum w / inject_Z (Z.of_nat (length w)))%Q.
Proof.
  unfold mkDistribution1D. cbn [funcInt].
  rewrite cdf_integral_closed by lia. now rewrite firstn_all.
Qed.

Lemma Qsum_telescope (g : Z -> Q) :
  forall (m a : nat),
    (Qsum (map (fun j => g (Z.of_nat j + 1)%Z - g (Z.of_nat j)) (seq a m))
     == g (Z.of_nat (a + m)%nat) - g (Z.of_nat a))%Q.
Proof.
  induction m as [| m IH]; intros a.
  - cbn [seq map]. rewrite Qsum_nil, Nat.add_0_r. ring.
  - cbn [seq map]. rewrite Qsum_cons, IH.
    replace (Z.of_nat a + 1) with (Z.of_nat (S a)) by lia.
    replace (S a + m)%nat with (a + S m)%nat by lia. ring.
Qed.

(** The last entry of the finished table is 1, in both branches of the
    constructor. *)
Lemma mk_cdf_last (w : list Q) :
  w <> [] ->
  (at_ (cdf (mkDistribution1D w)) (Z.of_nat (length w)) == 1)%Q.
Proof.
  intros Hne.
  assert (Hn : 0 < Z.of_nat (length w)) by (destruct w; [congruence | cbn; lia]).
  pose proof (inject_Z_pos _ Hn) as HnQ.
  destruct (Qeq_dec (funcInt (mkDistribution1D w)) 0) as [H0 | H0].
  - rewrite mk_cdf_uniform_Q by (assumption || lia). field. lra.
  - rewrite mk_cdf_scaled_Q by (assumption || lia).
    change (at_ (cdf_integral w) (Z.of_nat (length w)))
      with (funcInt (mkDistribution1D w)).
    now field.
Qed.

(** The loop of [InterpolatedDistribution1D::DiscretePDF] when every child
    it reaches returns a value, in any arithmetic: the sum, in the order of
    the loop. *)
Lemma Interp_pdf_loop {F : Type} {ops : FloatOps F}
    (d : InterpolatedDistribution1D) (index : Z) (pdfs : nat -> F) :
  forall (l : list nat) (acc : F),
    (forall j, In j l ->
       vDiscretePDF (nth j (distributions d) no_distribution) index = Some (pdfs j)) ->
    fold_left (Interp_pdf_step d index) l (Some acc)
    = Some (fold_left
              (fun pdf j =>
                 fadd pdf (fmul (pdfs j)
                                (fsub (at_ (cdf (interp_base d)) (Z.of_nat j + 1))
                                      (at_ (cdf (interp_base d)) (Z.of_nat j)))))
              l acc).
Proof.
  induction l as [| j l IH]; intros acc Hl.
  - reflexivity.
  - cbn [fold_left]. unfold Interp_pdf_step at 2. cbn [bind].
    rewrite (Hl j) by now left. cbn [bind].
    apply IH. intros j' Hj'. apply Hl. now right.
Qed.

(** In exact arithmetic the order of the sum does not matter. *)
Lemma fold_left_Qsum (g : nat -> Q) :
  forall (l : list nat) (acc : Q),
    (fold_left (fun pdf j => pdf + g j) l acc == acc + Qsum (map g l))%Q.
Proof.
  induction l as [| j l IH]; intros acc; cbn [fold_left map].
  - rewrite Qsum_nil. ring.
  - rewrite IH, Qsum_cons. ring.
Qed.

(** C3.  For an InterpolatedDistribution1D over m > 0 children with weights
    w[0..m) and every index at which all children return a pdf:
    [DiscretePDF(index)] is the sum over j, in the order of the loop and in
    any arithmetic, of [child_j.DiscretePDF(index) * (cdf[j+1] - cdf[j])].
    In exact arithmetic the cdf differences are normalised mixing weights:
    they sum to 1, and [cdf[j+1] - cdf[j]] is [w[j]] over the sum of the
    weights whenever that sum is not zero.  Children with PDFs [1,0,0] and
    [0,0,1] and weights [0.25, 0.75] give the PDF [0.25, 0, 0.75], in exact
    arithmetic and in binary32. *)
Theorem Interp_DiscretePDF_law :
  (forall (F : Type) (ops : FloatOps F)
          (w : list F) (ds : list Distribution1DRef) (index : Z) (pdfs : nat -> F),
     w <> [] -> length ds = length w ->
     (forall j, (j < length w)%nat ->
        vDiscretePDF (nth j ds no_distribution) index = Some (pdfs j)) ->
     exists d,
       mkInterpolatedDistribution1D w ds = Some d /\
       Interp_DiscretePDF d index
       = Some (fold_left
                 (fun pdf j =>
                    fadd pdf (fmul (pdfs j)
                                   (fsub (at_ (cdf (interp_base d)) (Z.of_nat j + 1))
                                         (at_ (cdf (interp_base d)) (Z.of_nat j)))))
                 (seq 0 (length w)) fzero)) /\
  (forall (w : list Q) (ds : list Distribution1DRef) (index : Z) (pdfs : nat -> Q),
     w <> [] -> length ds = length w ->
     (forall j, (j < length w)%nat ->
        vDiscretePDF (nth j ds no_distribution) index = Some (pdfs j)) ->
     exists d p,
       mkInterpolatedDistribution1D w ds = Some d /\
       Interp_DiscretePDF d index = Some p /\
       (p == Qsum (map (fun j =>
                 pdfs j * (at_ (cdf (interp_base d)) (Z.of_nat j + 1)%Z
                           - at_ (cdf (interp_base d)) (Z.of_nat j)))
               (seq 0 (length w))))%Q /\
       (Qsum (map (fun j => at_ (cdf (interp_base d)) (Z.of_nat j + 1)%Z
                            - at_ (cdf (interp_base d)) (Z.of_nat j))
                  (seq 0 (length w))) == 1)%Q /\
       (~ (Qsum w == 0)%Q ->
        forall j, (j < length w)%nat ->
          (at_ (cdf (interp_base d)) (Z.of_nat j + 1)%Z
           - at_ (cdf (interp_base d)) (Z.of_nat j)
           == nth j w 0 / Qsum w)%Q)) /\
  (exists d,
     mkInterpolatedDistribution1D [(1 # 4)%Q; (3 # 4)%Q]
       [Distribution1D_ref (mkDistribution1D [1; 0; 0]%Q);
        Distribution1D_ref (mkDistribution1D [0; 0; 1]%Q)] = Some d /\
     map (fun i => option_map Qred
                     (Distribution1D_DiscretePDF (mkDistribution1D [1; 0; 0]%Q) i))
         [0; 1; 2] = [Some 1%Q; Some 0%Q; Some 0%Q] /\
     map (fun i => option_map Qred
                     (Distribution1D_DiscretePDF (mkDistribution1D [0; 0; 1]%Q) i))
         [0; 1; 2] = [Some 0%Q; Some 0%Q; Some 1%Q] /\
     map (fun i => option_map Qred (Interp_DiscretePDF d i)) [0; 1; 2]
     = [Some (1 # 4)%Q; Some 0%Q; Some (3 # 4)%Q]) /\
  (exists d,
     mkInterpolatedDistribution1D [f32_lit 1 4; f32_lit 3 4]
       [Distribution1D_ref (mkDistribution1D [f32_of_Z 1; f32_of_Z 0; f32_of_Z 0]);
        Distribution1D_ref (mkDistribution1D [f32_of_Z 0; f32_of_Z 0; f32_of_Z 1])]
     = Some d /\
     map (Distribution1D_DiscretePDF
            (mkDistribution1D [f32_of_Z 1; f32_of_Z 0; f32_of_Z 0])) [0; 1; 2]
     = [Some (f32_of_Z 1); Some (f32_of_Z 0); Some (f32_of_Z 0)] /\
     map (Distribution1D_DiscretePDF
            (mkDistribution1D [f32_of_Z 0; f32_of_Z 0; f32_of_Z 1])) [0; 1; 2]
     = [Some (f32_of_Z 0); Some (f32_of_Z 0); Some (f32_of_Z 1)] /\
     map (Interp_DiscretePDF d) [0; 1; 2]
     = [Some (f32_lit 1 4); Some (f32_of_Z 0); Some (f32_lit 3 4)]).
Proof.
  assert (Hgen : forall (F : Type) (ops : FloatOps F)
            (w : list F) (ds : list Distribution1DRef) (index : Z) (pdfs : nat -> F),
            w <> [] -> length ds = length w ->
            (forall j, (j < length w)%nat ->
               vDiscretePDF (nth j ds no_distribution) index = Some (pdfs j)) ->
            mkInterpolatedDistribution1D w ds
            = Some {| interp_base := mkDistribution1D w; distributions := ds |} /\
            Interp_DiscretePDF {| interp_base := mkDistribution1D w; distributions := ds |}
                               index
            = Some (fold_left
                      (fun pdf j =>
                         fadd pdf (fmul (pdfs j)
                                        (fsub (at_ (cdf (mkDistribution1D w)) (Z.of_nat j + 1))
                                              (at_ (cdf (mkDistribution1D w)) (Z.of_nat j)))))
                      (seq 0 (length w)) fzero)).
  { intros F ops w ds index pdfs Hne Hlen Hch.
    assert (Hn : 0 < Z.of_nat (length w)) by (destruct w; [congruence | cbn; lia]).
    unfold mkInterpolatedDistribution1D.
    replace (0 <? Z.of_nat (length w)) with true by (symmetry; apply Z.ltb_lt; lia).
    cbn [CHECK bind]. rewrite <- Hlen, firstn_all, Hlen.
    split; [reflexivity |].
    unfold Interp_DiscretePDF. cbn [interp_base]. unfold mkDistribution1D at 1.
    cbn [func].
    apply (Interp_pdf_loop {| interp_base := mkDistribution1D w; distributions := ds |}
             index pdfs).
    intros j Hj. apply in_seq in Hj. apply Hch. lia. }
  split; [| split; [| split]].
  - intros F ops w ds index pdfs Hne Hlen Hch.
    destruct (Hgen F ops w ds index pdfs Hne Hlen Hch) as [H1 H2].
    eexists. split; [exact H1 | exact H2].
  - intros w ds index pdfs Hne Hlen Hch.
    assert (Hn : 0 < Z.of_nat (length w)) by (destruct w; [congruence | cbn; lia]).
    pose proof (inject_Z_pos _ Hn) as HnQ.
    destruct (Hgen Q Q_FloatOps w ds index pdfs Hne Hlen Hch) as [H1 H2].
    set (d := {| interp_base := mkDistribution1D w; distributions := ds |}) in *.
    eexists d, _. split; [exact H1 |]. split; [exact H2 |].
    split; [| split].
    + qops.
      rewrite (fold_left_Qsum
                 (fun j => pdfs j * (at_ (cdf (mkDistribution1D w)) (Z.of_nat j + 1)%Z
                                     - at_ (cdf (mkDistribution1D w)) (Z.of_nat j)))%Q).
      cbn [interp_base d]. ring.
    + rewrite (Qsum_telescope (fun i => at_ (cdf (interp_base d)) i) (length w) 0).
      cbn [Nat.add Z.of_nat interp_base d]. rewrite mk_cdf_zero, mk_cdf_last by assumption.
      qops. ring.
    + intros Hs j Hj. cbn [interp_base d].
      assert (H0 : ~ (funcInt (mkDistribution1D w) == 0)%Q).
      { rewrite funcInt_closed. intros H. apply Hs.
        apply Qmult_integral_l with (x := (/ inject_Z (Z.of_nat (length w)))%Q).
        - intros Hinv. assert (Hi : (0 < / inject_Z (Z.of_nat (length w)))%Q)
            by now apply Qinv_lt_0_compat.
          lra.
        - rewrite Qmult_comm. exact H. }
      rewrite (mk_cdf_scaled_Q w (Z.of_nat j + 1) H0),
              (mk_cdf_scaled_Q w (Z.of_nat j) H0) by lia.
      rewrite (cdf_integral_step w (Z.of_nat j + 1)) by lia. qops.
      replace (Z.of_nat j + 1 - 1)%Z with (Z.of_nat j) by lia.
      unfold at_ at 2. rewrite Nat2Z.id.
      rewrite funcInt_closed in *. qops.
      field. split; [exact Hs | lra].
  - eexists. split; [reflexivity |]. repeat split; vm_compute; reflexivity.
  - eexists. split; [reflexivity |]. repeat split; vm_compute; reflexivity.
Qed.

Lemma Interp_DiscretePDF_law_witness :
  exists d p,
    mkInterpolatedDistribution1D [1; 3]%Q
      [Distribution1D_ref (mkDistribution1D [1; 1]%Q);
       Distribution1D_ref (mkDistribution1D [0; 5]%Q)] = Some d /\
    Interp_DiscretePDF d 1 = Some p /\
    (at_ (cdf (interp_base d)) 2 - at_ (cdf (interp_base d)) 1 == 3 / 4)%Q.
Proof.
  assert (Hne : [1; 3]%Q <> []) by discriminate.
  destruct (proj1 (proj2 Interp_DiscretePDF_law) [1; 3]%Q
              [Distribution1D_ref (mkDistribution1D [1; 1]%Q);
               Distribution1D_ref (mkDistribution1D [0; 5]%Q)]
              1
              (fun j =>
                 match vDiscretePDF
                         (nth j [Distribution1D_ref (mkDistribution1D [1; 1]%Q);
                                 Distribution1D_ref (mkDistribution1D [0; 5]%Q)]
                              no_distribution) 1 with
                 | Some q => q
                 | None => 0%Q
                 end)
              Hne eq_refl)
    as (d & p & Hd & Hp & _ & _ & Hw).
  - intros [| [| j]] Hj; cbn in Hj; try lia; vm_compute; reflexivity.
  - exists d, p. split; [exact Hd |]. split; [exact Hp |].
    assert (Hs : ~ (Qsum [1; 3]%Q == 0)%Q) by (vm_compute; discriminate).
    apply (Hw Hs 1%nat). cbn. lia.
Defined.

(** ** Leaf clusters of the photon kd-tree *)

Section ClusterFacts.

Context {F : Type} {ops : FloatOps F}.

Lemma createSparseDistribution1D_total (contribMap : list (Z * F)) (up : F) (n_all : Z) :
  0 < n_all -> exists d, createSparseDistribution1D contribMap up n_all = Some d.
Proof.
  intros Hn. unfold createSparseDistribution1D.
  destruct (collect_contrib contribMap 0 [] [] []) as [[bm sm] contrib].
  unfold mkSparseDistribution1D.
  replace (0 <? n_all) with true by (symmetry; apply Z.ltb_lt; lia).
  cbn [CHECK bind]. eexists. reflexivity.
Qed.

Lemma accumulate_numPhotons (cloud : list Photon) (cluster : list nat) :
  forall acc,
    acc_numPhotons (fold_left (accumulate_photon cloud) cluster acc)
    = acc_numPhotons acc + Z.of_nat (length (intersecting cloud cluster)).
Proof.
  induction cluster as [| photonIndex cluster IH]; intros acc; cbn [fold_left].
  - cbn. lia.
  - rewrite IH. unfold intersecting. cbn [filter]. unfold accumulate_photon.
    destruct (ph_lightNum (nth photonIndex cloud no_photon) =? -1);
      cbn [negb acc_numPhotons length]; lia.
Qed.

Lemma numPhotons_intersecting (cloud : list Photon) (cluster : list nat) :
  acc_numPhotons (accumulate_cluster cloud cluster)
  = Z.of_nat (length (intersecting cloud cluster)).
Proof.
  unfold accumulate_cluster. rewrite accumulate_numPhotons. cbn. lia.
Qed.





End ClusterFacts.



(** ** The interpolation stencil of the photon voxel grid *)

Lemma mkVoxelGrid_bounds (r : Point3i) (grid : VoxelGrid) :
  mkVoxelGrid r = Some grid ->
  1 <= px (nVoxels grid) < 2 ^ 20 /\
  1 <= py (nVoxels grid) < 2 ^ 20 /\
  1 <= pz (nVoxels grid) < 2 ^ 20 /\
  hashTableSize grid = 4 * px (nVoxels grid) * py (nVoxels grid) * pz (nVoxels grid).
Proof.
  unfold mkVoxelGrid. change (Z.shiftl 1 20) with (2 ^ 20).
  destruct (Z.max 1 (px r) <? 2 ^ 20) eqn:E0; cbn [CHECK bind]; [| discriminate].
  destruct (Z.max 1 (py r) <? 2 ^ 20) eqn:E1; cbn [CHECK bind]; [| discriminate].
  destruct (Z.max 1 (pz r) <? 2 ^ 20) eqn:E2; cbn [CHECK bind]; [| discriminate].
  cbv zeta.
  destruct (4 * Z.max 1 (px r) * Z.max 1 (py r) * Z.max 1 (pz r) <? 2 ^ 31);
    [| discriminate].
  intros [= <-]. cbn [nVoxels hashTableSize px py pz].
  apply Z.ltb_lt in E0. apply Z.ltb_lt in E1. apply Z.ltb_lt in E2.
  repeat split; try lia.
Qed.

Lemma hashTableSize_pos (r : Point3i) (grid : VoxelGrid) :
  mkVoxelGrid r = Some grid -> 0 < hashTableSize grid.
Proof.
  intros H. destruct (mkVoxelGrid_bounds r grid H) as (H0 & H1 & H2 & ->). nia.
Qed.

Lemma in_grid_fits20 (r : Point3i) (grid : VoxelGrid) (p : Point3i) :
  mkVoxelGrid r = Some grid -> in_grid grid p -> fits20 p.
Proof.
  intros H (Hx & Hy & Hz). destruct (mkVoxelGrid_bounds r grid H) as (H0 & H1 & H2 & _).
  unfold fits20. lia.
Qed.

Lemma calcPackedPosAndHash_in_grid (r : Point3i) (grid : VoxelGrid) (p : Point3i) :
  mkVoxelGrid r = Some grid -> in_grid grid p ->
  calcPackedPosAndHash (hashTableSize grid) p
  = Some (packPos p, mixHash (packPos p) (hashTableSize grid)).
Proof.
  intros H Hp. unfold calcPackedPosAndHash.
  pose proof (packPos_valid p (in_grid_fits20 r grid p H Hp)) as Hv.
  apply Z.eqb_neq in Hv. rewrite Hv. cbn [negb CHECK bind].
  assert (Hh : 0 <= mixHash (packPos p) (hashTableSize grid)).
  { unfold mixHash. apply Z.mod_pos_bound. now apply (hashTableSize_pos r). }
  apply Z.leb_le in Hh. rewrite Hh. reflexivity.
Qed.

Lemma length_set_nth {A : Type} (x : A) (l : list A) :
  forall n, length (set_nth n x l) = length l.
Proof.
  induction l as [| y l IH]; intros [| n]; cbn; auto.
Qed.

Lemma Qsum_set_nth (x : Q) (l : list Q) :
  forall n, (n < length l)%nat ->
    (Qsum (set_nth n x l) == Qsum l - nth n l 0 + x)%Q.
Proof.
  induction l as [| y l IH]; intros [| n] Hn; cbn in Hn; try lia.
  - cbn [set_nth nth]. rewrite !Qsum_cons. ring.
  - cbn [set_nth nth]. rewrite !Qsum_cons, IH by lia. ring.
Qed.

Lemma firstn_S_nth {A : Type} (d : A) (l : list A) :
  forall k, (k < length l)%nat -> firstn (S k) l = firstn k l ++ [nth k l d].
Proof.
  induction l as [| x l IH]; intros [| k] Hk; cbn in Hk; try lia; cbn [firstn nth app].
  - reflexivity.
  - f_equal. apply IH. lia.
Qed.

Lemma skipn_nth_S {A : Type} (d : A) (l : list A) :
  forall k, (k < length l)%nat -> skipn k l = nth k l d :: skipn (S k) l.
Proof.
  induction l as [| x l IH]; intros [| k] Hk; cbn in Hk; try lia; cbn [skipn nth].
  - reflexivity.
  - apply IH. lia.
Qed.

Lemma set_nth_app_mid {A : Type} (x y : A) (l1 l2 : list A) :
  set_nth (length l1) x (l1 ++ y :: l2) = l1 ++ x :: l2.
Proof.
  induction l1 as [| z l1 IH]; cbn [length app set_nth]; [reflexivity |].
  now rewrite IH.
Qed.

Lemma nth_app_mid {A : Type} (d y : A) (l1 l2 : list A) :
  nth (length l1) (l1 ++ y :: l2) d = y.
Proof.
  induction l1 as [| z l1 IH]; cbn [length app nth]; [reflexivity | exact IH].
Qed.

Section StencilRefinement.

Context {F : Type} {ops : FloatOps F}.
Variable r : Point3i.
Variable grid : VoxelGrid.
Hypothesis Hgrid : mkVoxelGrid r = Some grid.
Variable getDistribution : Z -> Z -> Distribution1DRef (F := F).

Local Abbreviation pairs_ok := (holds_pairs grid getDistribution).
Local Abbreviation turns := (after_turns grid).
Local Abbreviation child := (stencil_child grid getDistribution).

Lemma neighbour_in_grid (i : nat) (frac : F) (id : Point3i) :
  in_grid grid id -> neighbour_in_range grid i frac id = true ->
  in_grid grid (neighbour i frac id).
Proof.
  intros (Hx & Hy & Hz) E. unfold neighbour_in_range in E.
  apply andb_true_iff in E. destruct E as [E1 E2].
  apply Z.leb_le in E1. apply Z.ltb_lt in E2.
  unfold neighbour in *.
  destruct i as [| [| i]]; cbn [set_axis axis px py pz] in *;
    unfold in_grid; cbn [px py pz]; lia.
Qed.

Lemma tl_app_nonempty {A : Type} (l l' : list A) :
  l <> [] -> tl (l ++ l') = tl l ++ l'.
Proof. destruct l; [congruence | reflexivity]. Qed.

Lemma after_turns_nonempty (i : nat) (frac : F) (k : nat) (ws : list (Point3i * F)) :
  ws <> [] -> map fst (turns i frac k ws) <> [].
Proof.
  intros Hne. unfold after_turns. destruct ws as [| e ws]; [congruence |].
  destruct k; cbn; [discriminate |].
  destruct (neighbour_in_range grid i frac (fst e)); discriminate.
Qed.

(** One turn of the inner loop, on the entry k. *)
Lemma stencil_entry_turn (d0 : Distribution1DRef (F := F)) (i : nat) (frac : F)
    (ws : list (Point3i * F)) (k : nat) (st : Stencil) :
  (k < length ws)%nat ->
  Forall (fun e => in_grid grid (fst e)) ws -> ws <> [] ->
  pairs_ok d0 st (turns i frac k ws) ->
  exists st',
    stencil_entry grid getDistribution i frac st k = Some st' /\
    pairs_ok d0 st' (turns i frac (S k) ws).
Proof.
  intros Hk Hall Hne (Hids & Hinf & Hds & Hne' & Hall').
  set (e := nth k ws ({| px := 0; py := 0; pz := 0 |}, fzero)).
  assert (He : in_grid grid (fst e)).
  { rewrite Forall_forall in Hall. apply Hall. apply nth_In. exact Hk. }
  set (upd := fun e : Point3i * F =>
                if neighbour_in_range grid i frac (fst e)
                then (fst e, fmul (snd e) (fsub fone (fabs frac))) else e) in *.
  set (new := fun e : Point3i * F =>
                if neighbour_in_range grid i frac (fst e)
                then [(neighbour i frac (fst e), fmul (snd e) (fabs frac))] else []) in *.
  assert (Hform : turns i frac k ws
                  = map upd (firstn k ws) ++ e :: (skipn (S k) ws ++ flat_map new (firstn k ws))).
  { unfold after_turns. fold upd new.
    rewrite (skipn_nth_S ({| px := 0; py := 0; pz := 0 |}, fzero) ws k Hk). reflexivity. }
  assert (Hlen : length (map upd (firstn k ws)) = k)
    by (rewrite length_map, length_firstn; lia).
  assert (Hform' : turns i frac (S k) ws
                   = map upd (firstn k ws) ++ upd e
                       :: (skipn (S k) ws ++ flat_map new (firstn k ws) ++ new e)).
  { unfold after_turns. fold upd new.
    rewrite (firstn_S_nth ({| px := 0; py := 0; pz := 0 |}, fzero) ws k Hk). fold e.
    rewrite map_app, flat_map_app. cbn [map flat_map]. rewrite app_nil_r.
    rewrite <- !app_assoc. reflexivity. }
  unfold stencil_entry.
  assert (Hid : nth k (st_voxelIds st) {| px := 0; py := 0; pz := 0 |} = fst e).
  { rewrite Hids, Hform, map_app. cbn [map].
    rewrite <- Hlen at 1. rewrite <- (length_map fst (map upd (firstn k ws))).
    apply nth_app_mid. }
  assert (Hw : nth k (st_influence st) fzero = snd e).
  { rewrite Hinf, Hform, map_app. cbn [map].
    rewrite <- Hlen at 1. rewrite <- (length_map snd (map upd (firstn k ws))).
    apply nth_app_mid. }
  rewrite Hid. fold (neighbour i frac (fst e)).
  change ((0 <=? axis (neighbour i frac (fst e)) i)
          && (axis (neighbour i frac (fst e)) i <? axis (nVoxels grid) i))
    with (neighbour_in_range grid i frac (fst e)).
  destruct (neighbour_in_range grid i frac (fst e)) eqn:E.
  - pose proof (neighbour_in_grid i frac (fst e) He E) as Hnew.
    rewrite (calcPackedPosAndHash_in_grid r grid _ Hgrid Hnew). cbn [bind].
    cbn [st_distributions st_voxelIds st_influence].
    eexists. split; [reflexivity |].
    assert (Hupd : upd e = (fst e, fmul (snd e) (fsub fone (fabs frac))))
      by (unfold upd; now rewrite E).
    assert (Hnw : new e = [(neighbour i frac (fst e), fmul (snd e) (fabs frac))])
      by (unfold new; now rewrite E).
    assert (Hfst : st_voxelIds st ++ [neighbour i frac (fst e)]
                   = map fst (turns i frac (S k) ws)).
    { rewrite Hform', Hupd, Hnw, Hids, Hform. rewrite !map_app. cbn [map].
      rewrite !map_app. cbn [map fst]. rewrite <- ?app_assoc. cbn [app].
      rewrite <- ?app_assoc. reflexivity. }
    split; [| split; [| split; [| split]]].
    + exact Hfst.
    + rewrite app_nth1
        by (rewrite Hinf, Hform, length_map, length_app, Hlen; cbn [length]; lia).
      rewrite Hw. rewrite Hform', Hupd, Hnw, Hinf, Hform. rewrite !map_app. cbn [map]. rewrite !map_app.
      cbn [map snd].
      rewrite <- Hlen at 1. rewrite <- (length_map snd (map upd (firstn k ws))).
      rewrite <- !app_assoc. cbn [app].
      rewrite set_nth_app_mid. cbn [st_influence]. rewrite <- ?app_assoc. reflexivity.
    + rewrite <- Hfst, Hds, Hids. cbn [app]. f_equal.
      rewrite tl_app_nonempty by (rewrite <- Hids, Hids; now apply after_turns_nonempty).
      rewrite map_app. reflexivity.
    + rewrite Hform', Hupd. destruct (map upd (firstn k ws)); discriminate.
    + rewrite Hform', Hupd, Hnw. rewrite Hform in Hall'. apply Forall_app in Hall'. destruct Hall' as [Ha Hb].
      apply Forall_app. split; [exact Ha |].
      inversion Hb as [| x l Hx Hl]; subst.
      constructor; [exact He |].
      apply Forall_app in Hl. destruct Hl as [Hl1 Hl2].
      apply Forall_app. split; [exact Hl1 |].
      apply Forall_app. split; [exact Hl2 |].
      constructor; [exact Hnew | constructor].
  - exists st. split; [reflexivity |].
    assert (Hupd : upd e = e) by (unfold upd; now rewrite E).
    assert (Hnw : new e = []) by (unfold new; now rewrite E).
    assert (Hsame : turns i frac (S k) ws = turns i frac k ws)
      by (rewrite Hform', Hupd, Hnw, app_nil_r, <- Hform; reflexivity).
    rewrite Hsame. repeat split; assumption.
Qed.

Lemma after_turns_zero (i : nat) (frac : F) (ws : list (Point3i * F)) :
  turns i frac 0 ws = ws.
Proof. unfold after_turns. cbn [firstn map flat_map skipn app]. apply app_nil_r. Qed.

Lemma after_turns_all (i : nat) (frac : F) (ws : list (Point3i * F)) :
  feqb frac fzero = false ->
  turns i frac (length ws) ws = axis_step grid i frac ws.
Proof.
  intros E. unfold after_turns, axis_step. rewrite E, firstn_all, skipn_all.
  reflexivity.
Qed.

(** The inner loop after its first k turns. *)
Lemma stencil_loop_turns (d0 : Distribution1DRef (F := F)) (i : nat) (frac : F)
    (ws : list (Point3i * F)) (st : Stencil) :
  pairs_ok d0 st ws ->
  forall k, (k <= length ws)%nat ->
    exists st',
      fold_left (fun acc n => s <- acc ;; stencil_entry grid getDistribution i frac s n)
                (seq 0 k) (Some st) = Some st' /\
      pairs_ok d0 st' (turns i frac k ws).
Proof.
  intros Hst. induction k as [| k IH]; intros Hk.
  - exists st. split; [reflexivity |]. now rewrite after_turns_zero.
  - destruct (IH ltac:(lia)) as (st1 & Hrun & H1).
    rewrite seq_S, fold_left_app, Hrun. cbn [fold_left bind Nat.add].
    destruct Hst as (_ & _ & _ & Hne & Hall).
    apply (stencil_entry_turn d0 i frac ws k st1); auto.
Qed.

(** One turn of the outer loop is the axis step of the specification. *)
Lemma stencil_axis_refines (d0 : Distribution1DRef (F := F)) (offset : nat -> F)
    (ws : list (Point3i * F)) (st : Stencil) (i : nat) :
  pairs_ok d0 st ws ->
  exists st',
    stencil_axis grid getDistribution offset st i = Some st' /\
    pairs_ok d0 st'
      (axis_step grid i (offsetInVoxel (offset i) (axis (nVoxels grid) i)) ws).
Proof.
  intros Hst. unfold stencil_axis.
  set (frac := offsetInVoxel (offset i) (axis (nVoxels grid) i)).
  destruct (feqb frac fzero) eqn:E.
  - exists st. split; [reflexivity |]. unfold axis_step. now rewrite E.
  - unfold stencil_axis_loop.
    assert (Hlen : length (st_voxelIds st) = length ws).
    { destruct Hst as (Hids & _). now rewrite Hids, length_map. }
    rewrite Hlen.
    destruct (stencil_loop_turns d0 i frac ws st Hst (length ws) (Nat.le_refl _))
      as (st' & Hrun & H').
    exists st'. split; [exact Hrun |]. now rewrite <- after_turns_all.
Qed.

Lemma axis_step_length (i : nat) (frac : F) (ws : list (Point3i * F)) :
  (length ws <= length (axis_step grid i frac ws) <= 2 * length ws)%nat.
Proof.
  unfold axis_step. destruct (feqb frac fzero); [lia |].
  rewrite length_app, length_map.
  assert (H : (length (flat_map
                         (fun e => if neighbour_in_range grid i frac (fst e)
                                   then [(neighbour i frac (fst e),
                                          fmul (snd e) (fabs frac))]
                                   else []) ws) <= length ws)%nat).
  { induction ws as [| e ws IH]; cbn [flat_map length]; [lia |].
    rewrite length_app. destruct (neighbour_in_range grid i frac (fst e)); cbn [length]; lia. }
  lia.
Qed.

(** [getInterpolatedDistribution] hands the weights and children of the
    three axis steps to the InterpolatedDistribution1D. *)
Lemma getInterpolatedDistribution_refines
    (offset : F * F * F) (packedPos hash : Z) (voxelId : Point3i) :
  in_grid grid voxelId ->
  exists d,
    getInterpolatedDistribution grid getDistribution offset packedPos hash voxelId
    = Some d /\
    func (interp_base d) = map snd (stencil_by_axes grid offset voxelId) /\
    distributions d
    = getDistribution packedPos hash
        :: map child (tl (map fst (stencil_by_axes grid offset voxelId))) /\
    (1 <= length (stencil_by_axes grid offset voxelId) <= 8)%nat.
Proof.
  intros Hvox.
  unfold getInterpolatedDistribution, getInterpolatedStencil, stencil_by_axes.
  set (d0 := getDistribution packedPos hash).
  set (st0 := {| st_distributions := [d0];
                 st_voxelIds := [voxelId];
                 st_influence := [fone] |}).
  assert (H0 : pairs_ok d0 st0 [(voxelId, fone)]).
  { unfold holds_pairs. cbn [st_voxelIds st_influence st_distributions st0 map fst snd tl].
    split; [reflexivity |]. split; [reflexivity |]. split; [reflexivity |].
    split; [discriminate |]. constructor; [exact Hvox | constructor]. }
  cbn [seq fold_left bind].
  destruct (stencil_axis_refines d0 (offset_axis offset) _ st0 0 H0) as (st1 & E1 & H1).
  rewrite E1. cbn [bind].
  destruct (stencil_axis_refines d0 (offset_axis offset) _ st1 1 H1) as (st2 & E2 & H2).
  rewrite E2. cbn [bind].
  destruct (stencil_axis_refines d0 (offset_axis offset) _ st2 2 H2) as (st3 & E3 & H3).
  rewrite E3. cbn [bind].
  set (ws1 := axis_step grid 0 _ [(voxelId, fone)]) in *.
  set (ws2 := axis_step grid 1 _ ws1) in *.
  set (ws3 := axis_step grid 2 _ ws2) in *.
  pose proof (axis_step_length 0
                (offsetInVoxel (offset_axis offset 0) (axis (nVoxels grid) 0))
                [(voxelId, fone)]) as L1.
  pose proof (axis_step_length 1
                (offsetInVoxel (offset_axis offset 1) (axis (nVoxels grid) 1)) ws1) as L2.
  pose proof (axis_step_length 2
                (offsetInVoxel (offset_axis offset 2) (axis (nVoxels grid) 2)) ws2) as L3.
  fold ws1 in L1. fold ws2 in L2. fold ws3 in L3. cbn [length] in L1.
  destruct H3 as (Hids & Hinf & Hds & _ & _).
  unfold mkInterpolatedDistribution1D.
  assert (Hlen : length (st_influence st3) = length ws3)
    by now rewrite Hinf, length_map.
  replace (0 <? Z.of_nat (length (st_influence st3))) with true
    by (symmetry; apply Z.ltb_lt; lia).
  cbn [CHECK bind]. eexists. split; [reflexivity |].
  cbn [interp_base distributions func mkDistribution1D].
  split; [exact Hinf |]. split; [| lia].
  rewrite Hds. apply firstn_all2.
  cbn [length]. rewrite length_map, Hlen.
  destruct (map fst ws3) as [| a l] eqn:El.
  - apply (f_equal (@length _)) in El. rewrite length_map in El. cbn in El. lia.
  - apply (f_equal (@length _)) in El. rewrite length_map in El. cbn in El.
    cbn [tl]. lia.
Qed.

End StencilRefinement.

(** In exact arithmetic an axis step keeps the sum of the weights. *)
Lemma axis_step_sum (grid : VoxelGrid) (i : nat) (frac : Q) (ws : list (Point3i * Q)) :
  (Qsum (map snd (axis_step grid i frac ws)) == Qsum (map snd ws))%Q.
Proof.
  unfold axis_step. destruct (feqb frac fzero); [reflexivity |].
  rewrite map_app, Qsum_app.
  induction ws as [| e ws IH]; cbn [map flat_map]; [rewrite !Qsum_nil; ring |].
  rewrite map_app, Qsum_app, !Qsum_cons, <- IH.
  destruct (neighbour_in_range grid i frac (fst e)); cbn [map snd fst];
    rewrite ?Qsum_cons, ?Qsum_nil; qops; ring.
Qed.

Lemma stencil_by_axes_sum (grid : VoxelGrid) (offset : Q * Q * Q) (voxelId : Point3i) :
  (Qsum (map snd (stencil_by_axes grid offset voxelId)) == 1)%Q.
Proof.
  unfold stencil_by_axes. cbn [seq fold_left].
  rewrite !axis_step_sum. cbn [map snd]. rewrite Qsum_cons, Qsum_nil. qops. ring.
Qed.

(** C10, amended.  For a grid the constructor accepts, every current voxel
    of it and every query offset, [getInterpolatedDistribution] returns an
    InterpolatedDistribution1D over 1 to 8 weights, one child per weight,
    and the weights are those of three axis steps from the current voxel
    with weight 1.  In any arithmetic ([axis_step]): when [frac] is 0 the
    step changes nothing; otherwise a weight w whose neighbour on the side
    of [frac] is in range is replaced by the product w * (1 - |frac|) and
    the neighbour is pushed with the product w * |frac|, and a weight whose
    neighbour is out of range is left as it is; the children are the
    current voxel's distribution and those fetched for the neighbours.  In
    exact arithmetic the weights sum to 1. *)
Theorem getInterpolatedDistribution_weights_sum_to_one
    (r : Point3i) (grid : VoxelGrid) (packedPos hash : Z) (voxelId : Point3i) :
  mkVoxelGrid r = Some grid ->
  in_grid grid voxelId ->
  (forall (F : Type) (ops : FloatOps F)
          (getDistribution : Z -> Z -> Distribution1DRef (F := F))
          (offset : F * F * F),
     exists d,
       getInterpolatedDistribution grid getDistribution offset packedPos hash voxelId
       = Some d /\
       func (interp_base d) = map snd (stencil_by_axes grid offset voxelId) /\
       distributions d
       = getDistribution packedPos hash
           :: map (stencil_child grid getDistribution)
                  (tl (map fst (stencil_by_axes grid offset voxelId))) /\
       (1 <= length (func (interp_base d)) <= 8)%nat /\
       length (distributions d) = length (func (interp_base d))) /\
  (forall (getDistribution : Z -> Z -> Distribution1DRef (F := Q))
          (offset : Q * Q * Q),
     exists d,
       getInterpolatedDistribution grid getDistribution offset packedPos hash voxelId
       = Some d /\
       (Qsum (func (interp_base d)) == 1)%Q).
Proof.
  intros Hgrid Hvox. split.
  - intros F ops getDistribution offset.
    destruct (getInterpolatedDistribution_refines r grid Hgrid getDistribution
                offset packedPos hash voxelId Hvox) as (d & Hd & Hf & Hc & Hl).
    exists d. split; [exact Hd |]. split; [exact Hf |]. split; [exact Hc |].
    rewrite Hf, Hc, length_map. split; [exact Hl |].
    cbn [length]. rewrite length_map.
    destruct (stencil_by_axes grid offset voxelId) as [| e ws];
      cbn [length map tl] in *; [lia |].
    now rewrite length_map.
  - intros getDistribution offset.
    destruct (getInterpolatedDistribution_refines r grid Hgrid getDistribution
                offset packedPos hash voxelId Hvox) as (d & Hd & Hf & _).
    exists d. split; [exact Hd |]. rewrite Hf. apply stencil_by_axes_sum.
Qed.

Lemma getInterpolatedDistribution_weights_sum_to_one_witness :
  exists d,
    getInterpolatedDistribution race_grid
      (fun _ _ => Distribution1D_ref (mkDistribution1D [1; 1]%Q))
      ((3 # 10)%Q, (6 # 10)%Q, (99 # 100)%Q) 0 0 {| px := 1; py := 2; pz := 3 |}
    = Some d /\
    map Qred (func (interp_base d))
    = [(63 # 100)%Q; (27 # 100)%Q; (7 # 100)%Q; (3 # 100)%Q] /\
    length (distributions d) = 4%nat /\
    (Qsum (func (interp_base d)) == 1)%Q.
Proof.
  destruct (getInterpolatedDistribution_weights_sum_to_one
              {| px := 4; py := 4; pz := 4 |} race_grid 0 0
              {| px := 1; py := 2; pz := 3 |}) as [Hany Hexact].
  - reflexivity.
  - unfold in_grid. cbn. lia.
  - destruct (Hany Q Q_FloatOps
                (fun _ _ => Distribution1D_ref (mkDistribution1D [1; 1]%Q))
                ((3 # 10)%Q, (6 # 10)%Q, (99 # 100)%Q))
      as (d & Hd & Hf & Hc & _ & Hl).
    destruct (Hexact (fun _ _ => Distribution1D_ref (mkDistribution1D [1; 1]%Q))
                ((3 # 10)%Q, (6 # 10)%Q, (99 # 100)%Q)) as (d' & Hd' & Hs).
    assert (d' = d) by congruence. subst d'.
    exists d. split; [exact Hd |]. split; [| split; [| exact Hs]].
    + rewrite Hf. vm_compute. reflexivity.
    + rewrite Hl, Hf. vm_compute. reflexivity.
Defined.

(** C10 as first stated, on the code with [Float = float]: in the grid of
    4 x 4 x 4 voxels the query offset (0.26f, 0.27f, 0.45f) lies in voxel
    (1,1,1), all three axes have an in-range neighbour, and the eight
    binary32 weights handed to the InterpolatedDistribution1D have the real
    sum 1 - 2^-26; added in binary32 from left to right they give 1 - 2^-24.
    Each product [w * |frac|] and [w * (1 - |frac|)] is rounded, so the pair
    no longer adds up to [w]. *)
Lemma stencil_weights_binary32_sum_below_one :
  let offset : f32 * f32 * f32 := (f32_lit 26 100, f32_lit 27 100, f32_lit 45 100) in
  let voxelId := {| px := 1; py := 1; pz := 1 |} in
  mkVoxelGrid {| px := 4; py := 4; pz := 4 |} = Some race_grid /\
  voxelOf race_grid offset = voxelId /\
  in_grid race_grid voxelId /\
  calcPackedPosAndHash (hashTableSize race_grid) voxelId = Some (1099512676353, 254) /\
  exists d,
    getInterpolatedDistribution race_grid (fun _ _ => no_distribution)
                                offset 1099512676353 254 voxelId = Some d /\
    length (func (interp_base d)) = 8%nat /\
    Qred (Qsum (map f32_to_Q (func (interp_base d)))) = (67108863 # 67108864)%Q /\
    ~ (Qsum (map f32_to_Q (func (interp_base d))) == 1)%Q /\
    fold_left fadd (func (interp_base d)) fzero = S754_finite false 16777215 (-24) /\
    feqb (fold_left fadd (func (interp_base d)) fzero) fone = false.
Proof.
  cbv zeta.
  split; [reflexivity |]. split; [vm_compute; reflexivity |].
  split; [unfold in_grid; cbn; lia |]. split; [vm_compute; reflexivity |].
  eexists. split; [vm_compute; reflexivity |].
  split; [reflexivity |]. split; [vm_compute; reflexivity |].
  split; [vm_compute; discriminate |].
  split; vm_compute; reflexivity.
Qed.

(** ** The sub-sample of InterpolatedDistribution1D in binary32 *)

(** C6 on the code.  With [Float = float], weights [1, 2] and
    u = 1 - 2^-24 (the largest binary32 number below 1): u lies in [0,1),
    the mixing index is 1, the quotient
    [(u - cdf[1]) / (cdf[2] - cdf[1])] rounds to exactly 1, and the value
    that replaces it, [1.0 - FLT_MIN], is again exactly 1: the [uSub]
    handed to the chosen child is 1, not a number below 1.  With children
    whose function is [1, 0], the sample is then index 1, whose pdf is 0. *)
Theorem Interp_uSub_not_below_one :
  let u : f32 := S754_finite false 16777215 (-24) in
  let child := Distribution1D_ref (mkDistribution1D [f32_of_Z 1; f32_of_Z 0]) in
  fleb fzero u = true /\ fltb u fone = true /\
  one_minus_FLT_MIN (F := f32) = fone /\
  exists d,
    mkInterpolatedDistribution1D [f32_of_Z 1; f32_of_Z 2] [child; child] = Some d /\
    Interp_offset d u = 1 /\
    fdiv (fsub u (at_ (cdf (interp_base d)) 1))
         (fsub (at_ (cdf (interp_base d)) 2) (at_ (cdf (interp_base d)) 1)) = fone /\
    Interp_uSub d u = fone /\
    fltb (Interp_uSub d u) fone = false /\
    Interp_SampleDiscrete d u true false
    = Some {| sampled := 1; sample_pdf := Some fzero; sample_uRemapped := None |}.
Proof.
  cbv zeta. split; [reflexivity |]. split; [reflexivity |].
  split; [reflexivity |].
  eexists. split; [reflexivity |].
  repeat split; vm_compute; reflexivity.
Qed.

(** ** The voxel cache protocol *)

Lemma count_cons {A : Type} (P : A -> bool) (x : A) (l : list A) :
  count P (x :: l) = (b2n (P x) + count P l)%nat.
Proof. unfold count. cbn [filter]. now destruct (P x). Qed.

Lemma count_app {A : Type} (P : A -> bool) (l1 l2 : list A) :
  count P (l1 ++ l2) = (count P l1 + count P l2)%nat.
Proof. unfold count. now rewrite filter_app, length_app. Qed.

Lemma count_set_nth {A : Type} (P : A -> bool) (d x : A) (l : list A) :
  forall i, (i < length l)%nat ->
    (count P (set_nth i x l) + b2n (P (nth i l d)) = count P l + b2n (P x))%nat.
Proof.
  induction l as [| y l IH]; intros [| i] Hi; cbn in Hi; try lia.
  - cbn [set_nth nth]. rewrite !count_cons. lia.
  - cbn [set_nth nth]. rewrite !count_cons. specialize (IH i). lia.
Qed.

Lemma count_pos_nth {A : Type} (P : A -> bool) (d : A) (l : list A) :
  (0 < count P l)%nat -> exists i, (i < length l)%nat /\ P (nth i l d) = true.
Proof.
  induction l as [| y l IH]; intros H.
  - cbn in H. lia.
  - rewrite count_cons in H. destruct (P y) eqn:E.
    + exists 0%nat. cbn. split; [lia | exact E].
    + cbn [b2n] in H. destruct IH as (i & Hi & HP); [lia |].
      exists (S i). cbn. split; [lia | exact HP].
Qed.

Lemma count_nth_pos {A : Type} (P : A -> bool) (d : A) (l : list A) (i : nat) :
  (i < length l)%nat -> P (nth i l d) = true -> (0 < count P l)%nat.
Proof.
  revert i. induction l as [| y l IH]; intros [| i] Hi HP; cbn in Hi; try lia;
    rewrite count_cons; cbn [nth] in HP.
  - rewrite HP. cbn. lia.
  - specialize (IH i ltac:(lia) HP). lia.
Qed.

(** At most one element satisfies the test: two positions that do are the
    same position. *)
Lemma count_le1_unique {A : Type} (P : A -> bool) (l : list A) :
  (count P l <= 1)%nat ->
  forall i j x y,
    nth_error l i = Some x -> P x = true ->
    nth_error l j = Some y -> P y = true -> i = j.
Proof.
  induction l as [| z l IH]; intros Hc i j x y Hi Hx Hj Hy.
  - destruct i; discriminate.
  - rewrite count_cons in Hc.
    destruct i as [| i], j as [| j]; cbn in Hi, Hj; auto.
    + injection Hi as ->. rewrite Hx in Hc. cbn [b2n] in Hc.
      assert (0 < count P l)%nat.
      { apply (count_nth_pos P y l j).
        - apply nth_error_Some. congruence.
        - now rewrite (nth_error_nth _ _ _ Hj). }
      lia.
    + injection Hj as ->. rewrite Hy in Hc. cbn [b2n] in Hc.
      assert (0 < count P l)%nat.
      { apply (count_nth_pos P x l i).
        - apply nth_error_Some. congruence.
        - now rewrite (nth_error_nth _ _ _ Hi). }
      lia.
    + f_equal. apply (IH ltac:(lia) i j x y); assumption.
Qed.

Lemma nth_set_nth_eq {A : Type} (d x : A) (l : list A) :
  forall i, (i < length l)%nat -> nth i (set_nth i x l) d = x.
Proof.
  induction l as [| y l IH]; intros [| i] Hi; cbn in Hi; try lia; cbn; auto.
  apply IH. lia.
Qed.

Lemma nth_set_nth_neq {A : Type} (d x : A) (l : list A) :
  forall i j, i <> j -> nth j (set_nth i x l) d = nth j l d.
Proof.
  induction l as [| y l IH]; intros [| i] [| j] Hij; cbn; auto; try congruence.
Qed.

Lemma In_set_nth {A : Type} (x y : A) (l : list A) :
  forall i, In y (set_nth i x l) -> y = x \/ In y l.
Proof.
  induction l as [| z l IH]; intros [| i] H; cbn in *; auto.
  - destruct H as [H | H]; auto.
  - destruct H as [H | H]; auto. destruct (IH i H); auto.
Qed.

Lemma nth_error_app_keep {A : Type} (l l' : list A) (i : nat) (x : A) :
  nth_error l i = Some x -> nth_error (l ++ l') i = Some x.
Proof.
  intros H. rewrite nth_error_app1; [exact H |].
  apply nth_error_Some. congruence.
Qed.

Section CacheProtocol.

Context {F : Type} {ops : FloatOps F}.
Variable r : Point3i.
Variable grid : VoxelGrid.
Hypothesis Hgrid : mkVoxelGrid r = Some grid.

Local Abbreviation probe := (probe grid).
Local Abbreviation passed := (passed grid).
Local Abbreviation thread_ok := (thread_ok grid).
Local Abbreviation keys_kept := (keys_kept grid).
Local Abbreviation Inv := (Inv grid).
Local Abbreviation inv_len := (inv_len grid).
Local Abbreviation inv_slot := (inv_slot grid).
Local Abbreviation inv_dist := (inv_dist grid).
Local Abbreviation inv_thr := (inv_thr grid).
Local Abbreviation inv_res := (inv_res grid).
Local Abbreviation inv_cr := (inv_cr grid).
Local Abbreviation inv_count := (inv_count grid).

Lemma size_pos : 0 < hashTableSize grid.
Proof. exact (hashTableSize_pos r grid Hgrid). Qed.

Lemma mixHash_range (key : Z) :
  0 <= mixHash key (hashTableSize grid) < hashTableSize grid.
Proof. unfold mixHash. apply Z.mod_pos_bound. exact size_pos. Qed.

Lemma probe_next_range (hs : Z * Z) :
  0 <= fst (probe_next (hashTableSize grid) hs) < hashTableSize grid.
Proof.
  destruct hs as [hash step]. unfold probe_next. cbn [fst].
  pose proof size_pos as Hs.
  assert (H64 : 0 <= uint64 (hash + step * step))
    by (unfold uint64; apply Z.mod_pos_bound; lia).
  destruct (uint64 (hash + step * step) >=? hashTableSize grid) eqn:E.
  - apply Z.mod_pos_bound. exact Hs.
  - rewrite Z.geb_leb in E. apply Z.leb_gt in E. lia.
Qed.

Lemma probe_range (key : Z) (j : nat) :
  0 <= fst (probe key j) < hashTableSize grid.
Proof.
  destruct j as [| j]; unfold probe; cbn [Nat.iter nat_rect].
  - cbn [fst]. apply mixHash_range.
  - apply probe_next_range.
Qed.

Lemma probe_succ (key : Z) (j : nat) :
  probe key (S j) = probe_next (hashTableSize grid) (probe key j).
Proof. reflexivity. Qed.

Lemma key_at_set_eq (t : list HashEntry) (hash : Z) (e : HashEntry) :
  0 <= hash < Z.of_nat (length t) -> key_at (set_entry t hash e) hash = packedPos e.
Proof.
  intros H. unfold key_at, entry_at, set_entry. rewrite nth_set_nth_eq by lia.
  reflexivity.
Qed.

Lemma key_at_set_neq (t : list HashEntry) (hash hash' : Z) (e : HashEntry) :
  0 <= hash -> 0 <= hash' -> hash <> hash' ->
  key_at (set_entry t hash e) hash' = key_at t hash'.
Proof.
  intros H H' Hne. unfold key_at, entry_at, set_entry.
  rewrite nth_set_nth_neq by lia. reflexivity.
Qed.

Lemma dist_at_set_eq (t : list HashEntry) (hash : Z) (e : HashEntry) :
  0 <= hash < Z.of_nat (length t) -> dist_at (set_entry t hash e) hash = distribution e.
Proof.
  intros H. unfold dist_at, entry_at, set_entry. rewrite nth_set_nth_eq by lia.
  reflexivity.
Qed.

Lemma dist_at_set_neq (t : list HashEntry) (hash hash' : Z) (e : HashEntry) :
  0 <= hash -> 0 <= hash' -> hash <> hash' ->
  dist_at (set_entry t hash e) hash' = dist_at t hash'.
Proof.
  intros H H' Hne. unfold dist_at, entry_at, set_entry.
  rewrite nth_set_nth_neq by lia. reflexivity.
Qed.

Lemma passed_kept (t t' : list HashEntry) (key : Z) (j : nat) :
  keys_kept t t' -> passed t key j -> passed t' key j.
Proof.
  intros Hk Hp i Hi. destruct (Hp i Hi) as [H1 H2].
  rewrite (Hk _ (probe_range key i) H1). auto.
Qed.

Lemma built_for_app (cr : list Point3i) (pi : Point3i) (dist : nat) (key : Z) :
  built_for cr dist key -> built_for (cr ++ [pi]) dist key.
Proof.
  intros (pi' & H1 & H2). exists pi'. split; [now apply nth_error_app_keep | exact H2].
Qed.

Lemma thread_ok_kept (t t' : list HashEntry) (cr cr' : list Point3i) (pc : Pc) :
  keys_kept t t' ->
  (forall dist key, built_for cr dist key -> built_for cr' dist key) ->
  thread_ok t cr pc -> thread_ok t' cr' pc.
Proof.
  intros Hk Hb. destruct pc as [| pi key hash step | pi key hash step | pi key hash
                               | key hash dist | key hash | key dist]; cbn [thread_ok]; auto.
  - intros (H1 & H2 & j & H3 & H4). repeat split; auto.
    exists j. split; [exact H3 | now apply (passed_kept t)].
  - intros (H1 & H2 & j & H3 & H4). repeat split; auto.
    exists j. split; [exact H3 | now apply (passed_kept t)].
  - intros (H1 & H2 & H3 & H4). repeat split; auto; try lia.
    rewrite Hk; auto. congruence.
  - intros (H1 & H2 & H3 & H4). repeat split; auto; try lia.
    rewrite Hk; auto. congruence.
  - intros (H1 & H2 & H3). repeat split; auto; try lia.
    rewrite Hk; auto. congruence.
Qed.

Lemma count_threads_set (Q : Pc -> bool) (ths : list Pc) (i : nat) (pc pc' : Pc) :
  nth_error ths i = Some pc ->
  (count Q (set_nth i pc' ths) + b2n (Q pc) = count Q ths + b2n (Q pc'))%nat.
Proof.
  intros H.
  assert (Hi : (i < length ths)%nat) by (apply nth_error_Some; congruence).
  rewrite <- (nth_error_nth ths i Idle H). now apply count_set_nth.
Qed.

Lemma count_table_set (P : HashEntry -> bool) (t : list HashEntry) (hash : Z) (e : HashEntry) :
  0 <= hash < Z.of_nat (length t) ->
  (count P (set_entry t hash e) + b2n (P (entry_at t hash))
   = count P t + b2n (P e))%nat.
Proof.
  intros H. unfold set_entry, entry_at. apply count_set_nth. lia.
Qed.

Lemma created_for_app (key : Z) (t : list HashEntry) (ths : list Pc)
    (cr : list Point3i) (rs : list (Z * nat)) (pi : Point3i) :
  created_for key {| hashTable := t; threads := ths; created := cr ++ [pi]; results := rs |}
  = (created_for key {| hashTable := t; threads := ths; created := cr; results := rs |}
     + b2n (packPos pi =? key)%Z)%nat.
Proof.
  unfold created_for. cbn [created]. rewrite filter_app, length_app. cbn [filter].
  now destruct (packPos pi =? key).
Qed.

(** A key some entry holds is found at an index of the table, and back. *)
Lemma holds_pos_key_at (t : list HashEntry) (key : Z) :
  length t = Z.to_nat (hashTableSize grid) ->
  (0 < count (holds key) t)%nat ->
  exists hash, 0 <= hash < hashTableSize grid /\ key_at t hash = key.
Proof.
  intros Hlen H.
  destruct (count_pos_nth (holds key)
              {| packedPos := invalidPackedPos; distribution := None |} t H)
    as (i & Hi & HP).
  exists (Z.of_nat i). split; [lia |].
  unfold key_at, entry_at. rewrite Nat2Z.id. now apply Z.eqb_eq.
Qed.

Lemma ready_zero_dist_at (t : list HashEntry) (key hash : Z) :
  length t = Z.to_nat (hashTableSize grid) ->
  count (ready key) t = 0%nat ->
  0 <= hash < hashTableSize grid -> key_at t hash = key ->
  dist_at t hash = None.
Proof.
  intros Hlen H0 Hh Hk.
  destruct (dist_at t hash) as [d |] eqn:E; [| reflexivity]. exfalso.
  assert (0 < count (ready key) t)%nat; [| lia].
  apply (count_nth_pos (ready key)
           {| packedPos := invalidPackedPos; distribution := None |} t (Z.to_nat hash)).
  - lia.
  - unfold ready. unfold key_at, entry_at in Hk. unfold dist_at, entry_at in E.
    rewrite Hk, E, Z.eqb_refl. reflexivity.
Qed.

(** No entry holds the key of a thread that is about to claim an invalid
    entry on its probe sequence. *)
Lemma unclaimed_key (s : State) (key hash step : Z) (j : nat) :
  Inv s ->
  key <> invalidPackedPos ->
  probe key j = (hash, step) -> passed (hashTable s) key j ->
  key_at (hashTable s) hash = invalidPackedPos ->
  count (holds key) (hashTable s) = 0%nat.
Proof.
  intros HI Hkey Hp Hpassed Hinv.
  destruct (count (holds key) (hashTable s)) as [| c] eqn:E; [reflexivity |].
  exfalso.
  destruct (holds_pos_key_at (hashTable s) key (inv_len s HI)) as (h' & Hh' & Hk');
    [lia |].
  destruct (inv_slot s HI h' Hh') as (j' & Hj' & Hp'); [congruence |].
  rewrite Hk' in Hj', Hp'.
  assert (Hh : fst (probe key j) = hash) by now rewrite Hp.
  destruct (Nat.lt_trichotomy j j') as [Hlt | [Heq | Hgt]].
  - destruct (Hp' j Hlt) as [H1 _]. rewrite Hh in H1. contradiction.
  - subst j'. rewrite Hh in Hj'. subst h'. congruence.
  - destruct (Hpassed j' Hgt) as [_ H2]. rewrite Hj' in H2. contradiction.
Qed.

Lemma keys_kept_refl (t : list HashEntry) : keys_kept t t.
Proof. intros hash _ _. reflexivity. Qed.

(** A step that touches neither the table nor the list of built objects,
    and neither starts nor ends the building or publishing of a thread. *)
Lemma Inv_quiet (s : State) (i : nat) (pc pc' : Pc) (res : option (Z * nat)) :
  Inv s ->
  nth_error (threads s) i = Some pc ->
  (forall key, is_computing key pc = false /\ is_storing key pc = false /\
               is_computing key pc' = false /\ is_storing key pc' = false) ->
  thread_ok (hashTable s) (created s) pc' ->
  (forall key dist, res = Some (key, dist) -> built_for (created s) dist key) ->
  Inv {| hashTable := hashTable s;
         threads := set_nth i pc' (threads s);
         created := created s;
         results := match res with
                    | Some kd => results s ++ [kd]
                    | None => results s
                    end |}.
Proof.
  intros HI Hnth Hq Hok Hres.
  constructor; cbn [hashTable threads created results].
  - exact (inv_len s HI).
  - exact (inv_slot s HI).
  - exact (inv_dist s HI).
  - intros x Hx. apply In_set_nth in Hx. destruct Hx as [-> | Hx];
      [exact Hok | exact (inv_thr s HI x Hx)].
  - intros key dist Hin. destruct res as [[k d] |].
    + apply in_app_or in Hin. destruct Hin as [Hin | [[= -> ->] | []]].
      * exact (inv_res s HI key dist Hin).
      * now apply Hres.
    + exact (inv_res s HI key dist Hin).
  - exact (inv_cr s HI).
  - intros key Hkey. destruct (inv_count s HI key Hkey) as (H1 & H2 & H3).
    destruct (Hq key) as (Q1 & Q2 & Q3 & Q4).
    pose proof (count_threads_set (is_computing key) (threads s) i pc pc' Hnth) as C1.
    pose proof (count_threads_set (is_storing key) (threads s) i pc pc' Hnth) as C2.
    rewrite Q1, Q3 in C1. rewrite Q2, Q4 in C2. cbn [b2n] in C1, C2.
    unfold created_for in *. cbn [created] in *. repeat split; lia.
Qed.

(** The compare-exchange succeeds: the entry at [hash] goes from invalid to
    [key]. *)
Lemma Inv_claim (s : State) (i : nat) (pi : Point3i) (key hash step : Z) :
  Inv s ->
  nth_error (threads s) i = Some (TryClaim pi key hash step) ->
  key_at (hashTable s) hash = invalidPackedPos ->
  Inv {| hashTable :=
           set_entry (hashTable s) hash
             {| packedPos := key;
                distribution := distribution (entry_at (hashTable s) hash) |};
         threads := set_nth i (Compute pi key hash) (threads s);
         created := created s;
         results := results s |}.
Proof.
  intros HI Hnth Hinv.
  assert (Hin : In (TryClaim pi key hash step) (threads s))
    by (eapply nth_error_In; eassumption).
  destruct (inv_thr s HI _ Hin) as (Hpi & Hkey & j & Hp & Hpassed).
  assert (Hh : 0 <= hash < hashTableSize grid).
  { replace hash with (fst (probe key j)) by now rewrite Hp. apply probe_range. }
  pose proof (inv_len s HI) as Hlen.
  assert (Hhl : 0 <= hash < Z.of_nat (length (hashTable s))) by lia.
  assert (Hnone : dist_at (hashTable s) hash = None).
  { destruct (dist_at (hashTable s) hash) as [d |] eqn:E; [| reflexivity].
    destruct (inv_dist s HI hash d Hh E) as [H _]. contradiction. }
  set (e' := {| packedPos := key;
                distribution := distribution (entry_at (hashTable s) hash) |}).
  assert (Hkept : keys_kept (hashTable s) (set_entry (hashTable s) hash e')).
  { intros h Hhr Hk. destruct (Z.eq_dec hash h) as [<- | Hne]; [contradiction |].
    apply key_at_set_neq; lia. }
  assert (Hzero : count (holds key) (hashTable s) = 0%nat)
    by (apply (unclaimed_key s key hash step j); assumption).
  constructor; cbn [hashTable threads created results].
  - unfold set_entry. now rewrite length_set_nth.
  - intros h Hhr Hk. destruct (Z.eq_dec hash h) as [<- | Hne].
    + rewrite key_at_set_eq by exact Hhl. cbn [packedPos e'].
      exists j. split; [now rewrite Hp | now apply (passed_kept (hashTable s))].
    + rewrite key_at_set_neq in * by lia.
      destruct (inv_slot s HI h Hhr Hk) as (j' & H1 & H2).
      exists j'. split; [exact H1 | now apply (passed_kept (hashTable s))].
  - intros h d Hhr Hd. destruct (Z.eq_dec hash h) as [<- | Hne].
    + rewrite dist_at_set_eq in Hd by exact Hhl. cbn [distribution e'] in Hd.
      unfold dist_at in Hnone. congruence.
    + rewrite dist_at_set_neq in Hd by lia. rewrite key_at_set_neq by lia.
      exact (inv_dist s HI h d Hhr Hd).
  - intros x Hx. apply In_set_nth in Hx. destruct Hx as [-> | Hx].
    + cbn [thread_ok]. repeat split; auto; try lia.
      now rewrite key_at_set_eq by exact Hhl.
    + apply (thread_ok_kept (hashTable s) _ (created s) (created s)); auto.
      exact (inv_thr s HI x Hx).
  - exact (inv_res s HI).
  - exact (inv_cr s HI).
  - intros k Hk. destruct (inv_count s HI k Hk) as (H1 & H2 & H3).
    pose proof (count_threads_set (is_computing k) (threads s) i _
                  (Compute pi key hash) Hnth) as C1.
    pose proof (count_threads_set (is_storing k) (threads s) i _
                  (Compute pi key hash) Hnth) as C2.
    pose proof (count_table_set (holds k) (hashTable s) hash e' Hhl) as T1.
    pose proof (count_table_set (ready k) (hashTable s) hash e' Hhl) as T2.
    cbn [is_computing is_storing b2n] in C1, C2.
    assert (Eh : holds k (entry_at (hashTable s) hash) = false).
    { unfold holds. fold (key_at (hashTable s) hash). rewrite Hinv.
      apply Z.eqb_neq. congruence. }
    assert (Er : ready k (entry_at (hashTable s) hash) = false).
    { unfold ready. fold (key_at (hashTable s) hash). rewrite Hinv.
      replace (invalidPackedPos =? k) with false
        by (symmetry; apply Z.eqb_neq; congruence). reflexivity. }
    assert (Er' : ready k e' = false).
    { unfold ready. cbn [e' packedPos distribution].
      fold (dist_at (hashTable s) hash). rewrite Hnone. apply andb_false_r. }
    rewrite Eh in T1. rewrite Er, Er' in T2. unfold holds at 3 in T1.
    cbn [e' packedPos b2n] in T1, T2.
    unfold created_for in *. cbn [created] in *.
    destruct (key =? k) eqn:E; cbn [b2n] in *.
    + apply Z.eqb_eq in E. subst k. repeat split; lia.
    + repeat split; lia.
Qed.

(** [ComputeDistribution] returns: one more built object. *)
Lemma Inv_compute (s : State) (i : nat) (pi : Point3i) (key hash : Z) :
  Inv s ->
  nth_error (threads s) i = Some (Compute pi key hash) ->
  Inv {| hashTable := hashTable s;
         threads := set_nth i (Store key hash (length (created s))) (threads s);
         created := created s ++ [pi];
         results := results s |}.
Proof.
  intros HI Hnth.
  assert (Hin : In (Compute pi key hash) (threads s))
    by (eapply nth_error_In; eassumption).
  destruct (inv_thr s HI _ Hin) as (Hpi & Hkey & Hh & Hk).
  assert (Hnew : built_for (created s ++ [pi]) (length (created s)) key).
  { exists pi. split; [| congruence].
    rewrite nth_error_app2 by lia. now rewrite Nat.sub_diag. }
  constructor; cbn [hashTable threads created results].
  - exact (inv_len s HI).
  - exact (inv_slot s HI).
  - intros h d Hhr Hd. destruct (inv_dist s HI h d Hhr Hd) as [H1 H2].
    split; [exact H1 | now apply built_for_app].
  - intros x Hx. apply In_set_nth in Hx. destruct Hx as [-> | Hx].
    + cbn [thread_ok]. repeat split; auto; lia.
    + apply (thread_ok_kept (hashTable s) _ (created s)).
      * apply keys_kept_refl.
      * intros d k. apply built_for_app.
      * exact (inv_thr s HI x Hx).
  - intros k d Hkd. apply built_for_app. exact (inv_res s HI k d Hkd).
  - intros x Hx. apply in_app_or in Hx. destruct Hx as [Hx | [<- | []]].
    + exact (inv_cr s HI x Hx).
    + congruence.
  - intros k Hk'. destruct (inv_count s HI k Hk') as (H1 & H2 & H3).
    pose proof (count_threads_set (is_computing k) (threads s) i _
                  (Store key hash (length (created s))) Hnth) as C1.
    pose proof (count_threads_set (is_storing k) (threads s) i _
                  (Store key hash (length (created s))) Hnth) as C2.
    cbn [is_computing is_storing b2n] in C1, C2.
    rewrite created_for_app. rewrite <- Hpi.
    replace (created_for k {| hashTable := hashTable s;
                              threads := set_nth i (Store key hash (length (created s)))
                                           (threads s);
                              created := created s;
                              results := results s |})
      with (created_for k s) by reflexivity.
    destruct (key =? k); cbn [b2n] in *; repeat split; lia.
Qed.

(** The built object is published in the entry the thread claimed, and
    [Lookup] returns it. *)
Lemma Inv_store (s : State) (i : nat) (key hash : Z) (dist : nat) :
  Inv s ->
  nth_error (threads s) i = Some (Store key hash dist) ->
  Inv {| hashTable :=
           set_entry (hashTable s) hash
             {| packedPos := packedPos (entry_at (hashTable s) hash);
                distribution := Some dist |};
         threads := set_nth i (Returned key dist) (threads s);
         created := created s;
         results := results s ++ [(key, dist)] |}.
Proof.
  intros HI Hnth.
  assert (Hin : In (Store key hash dist) (threads s))
    by (eapply nth_error_In; eassumption).
  destruct (inv_thr s HI _ Hin) as (Hkey & Hh & Hk & Hb).
  pose proof (inv_len s HI) as Hlen.
  assert (Hhl : 0 <= hash < Z.of_nat (length (hashTable s))) by lia.
  set (e' := {| packedPos := packedPos (entry_at (hashTable s) hash);
                distribution := Some dist |}).
  assert (Hke : packedPos (entry_at (hashTable s) hash) = key) by exact Hk.
  assert (Hkept : keys_kept (hashTable s) (set_entry (hashTable s) hash e')).
  { intros h Hhr Hkh. destruct (Z.eq_dec hash h) as [<- | Hne].
    - now rewrite key_at_set_eq by exact Hhl.
    - apply key_at_set_neq; lia. }
  destruct (inv_count s HI key Hkey) as (K1 & K2 & K3).
  assert (Hst : (0 < count (is_storing key) (threads s))%nat).
  { apply (count_nth_pos (is_storing key) Idle (threads s) i).
    - apply nth_error_Some. congruence.
    - rewrite (nth_error_nth _ _ _ Hnth). cbn. apply Z.eqb_refl. }
  assert (Hnone : dist_at (hashTable s) hash = None).
  { apply (ready_zero_dist_at (hashTable s) key hash); auto. lia. }
  constructor; cbn [hashTable threads created results].
  - unfold set_entry. now rewrite length_set_nth.
  - intros h Hhr Hkh.
    assert (Hsame : key_at (set_entry (hashTable s) hash e') h = key_at (hashTable s) h).
    { destruct (Z.eq_dec hash h) as [<- | Hne].
      - now rewrite key_at_set_eq by exact Hhl.
      - apply key_at_set_neq; lia. }
    rewrite Hsame in *.
    destruct (inv_slot s HI h Hhr Hkh) as (j' & H1 & H2).
    exists j'. split; [exact H1 | now apply (passed_kept (hashTable s))].
  - intros h d Hhr Hd. destruct (Z.eq_dec hash h) as [<- | Hne].
    + rewrite dist_at_set_eq in Hd by exact Hhl. cbn [distribution e'] in Hd.
      injection Hd as <-. rewrite key_at_set_eq by exact Hhl. cbn [packedPos e'].
      rewrite Hke. split; assumption.
    + rewrite dist_at_set_neq in Hd by lia. rewrite key_at_set_neq by lia.
      exact (inv_dist s HI h d Hhr Hd).
  - intros x Hx. apply In_set_nth in Hx. destruct Hx as [-> | Hx].
    + exact Hb.
    + apply (thread_ok_kept (hashTable s) _ (created s) (created s)); auto.
      exact (inv_thr s HI x Hx).
  - intros k d Hkd. apply in_app_or in Hkd. destruct Hkd as [Hkd | [[= <- <-] | []]].
    + exact (inv_res s HI k d Hkd).
    + exact Hb.
  - exact (inv_cr s HI).
  - intros k Hk'. destruct (inv_count s HI k Hk') as (H1 & H2 & H3).
    pose proof (count_threads_set (is_computing k) (threads s) i _
                  (Returned key dist) Hnth) as C1.
    pose proof (count_threads_set (is_storing k) (threads s) i _
                  (Returned key dist) Hnth) as C2.
    pose proof (count_table_set (holds k) (hashTable s) hash e' Hhl) as T1.
    pose proof (count_table_set (ready k) (hashTable s) hash e' Hhl) as T2.
    cbn [is_computing is_storing b2n] in C1, C2.
    assert (Eh : holds k e' = holds k (entry_at (hashTable s) hash)) by reflexivity.
    assert (Er : ready k (entry_at (hashTable s) hash) = false).
    { unfold ready. fold (dist_at (hashTable s) hash). rewrite Hnone.
      apply andb_false_r. }
    assert (Er' : ready k e' = (key =? k)).
    { unfold ready. cbn [e' packedPos distribution]. rewrite Hke.
      apply andb_true_r. }
    rewrite Eh in T1. rewrite Er, Er' in T2. cbn [b2n] in T2.
    unfold created_for in *. cbn [created] in *.
    destruct (key =? k); cbn [b2n] in *; repeat split; lia.
Qed.

Lemma count_repeat_false {A : Type} (P : A -> bool) (x : A) (n : nat) :
  P x = false -> count P (repeat x n) = 0%nat.
Proof.
  intros H. induction n as [| n IH]; [reflexivity |].
  cbn [repeat]. rewrite count_cons, H, IH. reflexivity.
Qed.

Lemma Inv_init (n : nat) : Inv (initState grid n).
Proof.
  assert (Hk : forall h, key_at (hashTable (initState grid n)) h = invalidPackedPos).
  { intros h. unfold key_at, entry_at, initState. cbn [hashTable].
    now rewrite nth_repeat. }
  assert (Hd : forall h, dist_at (hashTable (initState grid n)) h = None).
  { intros h. unfold dist_at, entry_at, initState. cbn [hashTable].
    now rewrite nth_repeat. }
  constructor.
  - unfold initState. cbn [hashTable]. apply repeat_length.
  - intros h _ H. rewrite Hk in H. contradiction.
  - intros h d _ H. rewrite Hd in H. discriminate.
  - intros pc H. apply repeat_spec in H. subst pc. exact I.
  - intros key dist [].
  - intros pi [].
  - intros key Hkey. unfold created_for, initState.
    cbn [hashTable threads created filter length].
    rewrite !count_repeat_false; try reflexivity.
    + repeat split; lia.
    + unfold ready. cbn [packedPos].
      replace (invalidPackedPos =? key) with false
        by (symmetry; apply Z.eqb_neq; congruence). reflexivity.
    + unfold holds. cbn [packedPos]. apply Z.eqb_neq. congruence.
Qed.

(** Every step of every thread keeps the invariant. *)
Lemma Inv_step (s s' : State) (i : nat) (a : Action F) :
  Inv s -> exec grid i a s = Some s' -> Inv s'.
Proof.
  intros HI. unfold exec.
  destruct (nth_error (threads s) i) as [pc |] eqn:Hnth; cbn [bind]; [| discriminate].
  assert (Hin : In pc (threads s)) by (eapply nth_error_In; eassumption).
  pose proof (inv_thr s HI pc Hin) as Hok.
  destruct a as [offset | spurious];
    destruct pc as [| pi key hash step | pi key hash step | pi key hash
                   | key hash dist | key hash | key dist];
    cbn [thread_step]; try discriminate.
  - (* Lookup is called from outside *)
    destruct (packPos (voxelOf grid offset) =? invalidPackedPos) eqn:E;
      cbn [negb CHECK bind]; [discriminate |].
    intros [= <-]. apply (Inv_quiet s i Idle _ None HI Hnth).
    + intros k. cbn. auto.
    + cbn [thread_ok]. repeat split.
      * now apply Z.eqb_neq.
      * exists 0%nat. split; [reflexivity |]. intros j Hj. lia.
    + discriminate.
  - (* Lookup is called again after a return *)
    destruct (packPos (voxelOf grid offset) =? invalidPackedPos) eqn:E;
      cbn [negb CHECK bind]; [discriminate |].
    intros [= <-]. apply (Inv_quiet s i (Returned key dist) _ None HI Hnth).
    + intros k. cbn. auto.
    + cbn [thread_ok]. repeat split.
      * now apply Z.eqb_neq.
      * exists 0%nat. split; [reflexivity |]. intros j Hj. lia.
    + discriminate.
  - (* load of entry.packedPos *)
    destruct Hok as (Hpi & Hkey & j & Hp & Hpassed).
    assert (Hh : 0 <= hash < hashTableSize grid).
    { replace hash with (fst (probe key j)) by now rewrite Hp. apply probe_range. }
    fold (key_at (hashTable s) hash).
    destruct (key_at (hashTable s) hash =? key) eqn:E1.
    + apply Z.eqb_eq in E1. intros [= <-].
      apply (Inv_quiet s i _ _ None HI Hnth).
      * intros k. cbn. auto.
      * cbn [thread_ok]. auto.
      * discriminate.
    + apply Z.eqb_neq in E1.
      destruct (key_at (hashTable s) hash =? invalidPackedPos) eqn:E2; cbn [negb].
      * intros [= <-]. apply (Inv_quiet s i _ _ None HI Hnth).
        -- intros k. cbn. auto.
        -- cbn [thread_ok]. repeat split; auto. exists j. auto.
        -- discriminate.
      * apply Z.eqb_neq in E2.
        destruct (probe_next (hashTableSize grid) (hash, step)) as [hash' step'] eqn:En.
        intros [= <-]. apply (Inv_quiet s i _ _ None HI Hnth).
        -- intros k. cbn. auto.
        -- cbn [thread_ok]. repeat split; auto. exists (S j). split.
           ++ now rewrite probe_succ, Hp.
           ++ intros j' Hj'. destruct (Nat.eq_dec j' j) as [-> | Hne].
              ** rewrite Hp. cbn [fst]. auto.
              ** apply Hpassed. lia.
        -- discriminate.
  - (* compare_exchange_weak *)
    fold (key_at (hashTable s) hash).
    destruct (key_at (hashTable s) hash =? invalidPackedPos) eqn:E1; cbn [andb].
    + destruct spurious; cbn [negb].
      * intros [= <-]. apply (Inv_quiet s i _ _ None HI Hnth).
        -- intros k. cbn. auto.
        -- exact Hok.
        -- discriminate.
      * apply Z.eqb_eq in E1. intros [= <-]. now apply (Inv_claim s i pi key hash step).
    + intros [= <-]. apply (Inv_quiet s i _ _ None HI Hnth).
      * intros k. cbn. auto.
      * exact Hok.
      * discriminate.
  - (* ComputeDistribution *)
    intros [= <-]. now apply Inv_compute.
  - (* entry.distribution.store *)
    intros [= <-]. now apply Inv_store.
  - (* load of entry.distribution *)
    destruct Hok as (Hkey & Hh & Hk).
    fold (dist_at (hashTable s) hash).
    destruct (dist_at (hashTable s) hash) as [d |] eqn:E.
    + intros [= <-].
      destruct (inv_dist s HI hash d Hh E) as [_ Hb]. rewrite Hk in Hb.
      apply (Inv_quiet s i _ _ (Some (key, d)) HI Hnth).
      * intros k. cbn. auto.
      * exact Hb.
      * intros k d' [= <- <-]. exact Hb.
    + intros [= <-]. apply (Inv_quiet s i _ _ None HI Hnth).
      * intros k. cbn. auto.
      * cbn [thread_ok]. auto.
      * discriminate.
Qed.

Lemma reachable_Inv (s : State) : reachable grid s -> Inv s.
Proof.
  induction 1 as [n | s i a s' _ IH Hstep].
  - apply Inv_init.
  - exact (Inv_step s s' i a IH Hstep).
Qed.

Lemma run_reachable (sched : list (nat * Action F)) :
  forall s s', reachable grid s -> run grid sched s = Some s' -> reachable grid s'.
Proof.
  induction sched as [| [i a] sched IH]; intros s s' Hr; cbn [run].
  - intros [= <-]. exact Hr.
  - destruct (exec grid i a s) as [s1 |] eqn:E; cbn [bind]; [| discriminate].
    apply IH. exact (reach_step grid s i a s1 Hr E).
Qed.

End CacheProtocol.

(** ** Progress: every call returns *)

Lemma nth_error_set_eq {A : Type} (x : A) (l : list A) :
  forall i, (i < length l)%nat -> nth_error (set_nth i x l) i = Some x.
Proof.
  induction l as [| y l IH]; intros [| i] H; cbn in *; try lia; auto.
  apply IH. lia.
Qed.

Lemma nth_error_set_neq {A : Type} (x : A) (l : list A) :
  forall i k, i <> k -> nth_error (set_nth i x l) k = nth_error l k.
Proof.
  induction l as [| y l IH]; intros [| i] [| k] H; cbn; auto; try lia.
Qed.

Lemma In_set_nth_old {A : Type} (x y : A) (l : list A) :
  forall i, In y l -> nth_error l i <> Some y -> In y (set_nth i x l).
Proof.
  induction l as [| z l IH]; intros [| i] Hin Hne; cbn in *; auto.
  - destruct Hin as [-> | Hin]; [congruence | now right].
  - destruct Hin as [-> | Hin]; [now left | right; now apply IH].
Qed.

Section CacheProgress.

Context {F : Type} {ops : FloatOps F}.
Variable r : Point3i.
Variable grid : VoxelGrid.
Hypothesis Hgrid : mkVoxelGrid r = Some grid.
Variable key : Z.
Variable j : nat.

Local Abbreviation probe := (probe grid).
Local Abbreviation passed := (passed grid).
Local Abbreviation Scene := (Scene grid key j).
Local Abbreviation size := (hashTableSize grid).

(** [step] counts the probes. *)
Lemma probe_step (k : Z) (i : nat) : snd (probe k i) = Z.of_nat i + 1.
Proof.
  induction i as [| i IH]; [reflexivity |].
  rewrite probe_succ. destruct (probe k i) as [h st]. cbn [snd] in IH.
  unfold probe_next. cbn [snd]. lia.
Qed.

Lemma entry_at_set (t : list HashEntry) (h h' : Z) (e : HashEntry) :
  0 <= h < Z.of_nat (length t) -> 0 <= h' ->
  entry_at (set_entry t h e) h' = if h =? h' then e else entry_at t h'.
Proof.
  intros Hh Hh'. unfold entry_at, set_entry.
  destruct (Z.eqb_spec h h') as [<- | Hne].
  - apply nth_set_nth_eq. lia.
  - apply nth_set_nth_neq. lia.
Qed.

(** The probe of a thread on the way to the entry of [key]. *)
Lemma scene_index (s : State) (i : nat) :
  Scene s -> passed (hashTable s) key i -> (i <= j)%nat.
Proof.
  intros HS Hp. destruct (Nat.le_gt_cases i j) as [H | H]; [exact H |].
  destruct (Hp j H) as [H1 H2]. destruct (sc_slot grid key j s HS); contradiction.
Qed.

Lemma scene_not_passing (s : State) (i : nat) :
  Scene s -> passed (hashTable s) key i ->
  key_at (hashTable s) (fst (probe key i)) = invalidPackedPos \/
  key_at (hashTable s) (fst (probe key i)) = key ->
  i = j.
Proof.
  intros HS Hp Hk. pose proof (scene_index s i HS Hp) as Hle.
  destruct (Nat.eq_dec i j) as [E | E]; [exact E |].
  destruct (sc_passed grid key j s HS i ltac:(lia)) as [H1 H2].
  destruct Hk; contradiction.
Qed.

Lemma scene_passing (s : State) (i : nat) :
  Scene s -> passed (hashTable s) key i ->
  key_at (hashTable s) (fst (probe key i)) <> invalidPackedPos ->
  key_at (hashTable s) (fst (probe key i)) <> key ->
  (i < j)%nat.
Proof.
  intros HS Hp H1 H2. pose proof (scene_index s i HS Hp) as Hle.
  destruct (Nat.eq_dec i j) as [-> | E]; [| lia].
  destruct (sc_slot grid key j s HS); contradiction.
Qed.

(** The only entry that can hold [key] is the j-th of its probe sequence. *)
Lemma scene_holder (s : State) (h : Z) :
  Scene s -> 0 <= h < size -> key_at (hashTable s) h = key ->
  h = fst (probe key j).
Proof.
  intros HS Hh Hk.
  destruct (inv_slot grid s (sc_inv grid key j s HS) h Hh) as (i & Hi & Hp).
  { rewrite Hk. exact (sc_key grid key j s HS). }
  rewrite Hk in Hi, Hp.
  assert (i = j); [| now subst i].
  apply (scene_not_passing s i HS Hp). right. now rewrite Hi.
Qed.

Lemma exec_inv (s s' : State) (i : nat) (a : Action F) :
  exec grid i a s = Some s' ->
  exists pc t' cr' pc' res,
    nth_error (threads s) i = Some pc /\
    thread_step grid a (hashTable s) (created s) pc = Some (t', cr', pc', res) /\
    s' = {| hashTable := t';
            threads := set_nth i pc' (threads s);
            created := cr';
            results := match res with
                       | Some kd => results s ++ [kd]
                       | None => results s
                       end |}.
Proof.
  unfold exec. destruct (nth_error (threads s) i) as [pc |]; cbn [bind]; [| discriminate].
  destruct (thread_step grid a (hashTable s) (created s) pc)
    as [[[[t' cr'] pc'] res] |] eqn:E; cbn [bind]; [| discriminate].
  intros [= <-]. exists pc, t', cr', pc', res. repeat split; [exact E].
Qed.

(** What one step does to the table: the keys of claimed entries stay, and
    an entry that gets a key gets the key of the thread that stepped. *)
Lemma step_table (s : State) (a : Action F) (pc pc' : Pc)
    (t' : list HashEntry) (cr' : list Point3i) (res : option (Z * nat)) :
  Inv grid s -> In pc (threads s) -> on_key key pc ->
  thread_step grid a (hashTable s) (created s) pc = Some (t', cr', pc', res) ->
  keys_kept grid (hashTable s) t' /\
  (forall h, 0 <= h < size ->
     key_at t' h = key_at (hashTable s) h \/ key_at t' h = key).
Proof.
  intros HI Hin Hon Hstep.
  pose proof (inv_thr grid s HI pc Hin) as Hok.
  pose proof (inv_len grid s HI) as Hlen.
  assert (Hsame : t' = hashTable s ->
            keys_kept grid (hashTable s) t' /\
            (forall h, 0 <= h < size ->
               key_at t' h = key_at (hashTable s) h \/ key_at t' h = key)).
  { intros ->. split; [intros h _ _; reflexivity | intros h _; now left]. }
  destruct a as [offset | spurious];
    destruct pc as [| pi k hash step | pi k hash step | pi k hash
                   | k hash dist | k hash | k dist];
    cbn [thread_step] in Hstep; try discriminate.
  - destruct (negb (packPos (voxelOf grid offset) =? invalidPackedPos));
      cbn [CHECK bind] in Hstep; [| discriminate].
    injection Hstep as <- _ _ _. now apply Hsame.
  - destruct (negb (packPos (voxelOf grid offset) =? invalidPackedPos));
      cbn [CHECK bind] in Hstep; [| discriminate].
    injection Hstep as <- _ _ _. now apply Hsame.
  - destruct (packedPos (entry_at (hashTable s) hash) =? k).
    + injection Hstep as <- _ _ _. now apply Hsame.
    + destruct (negb (packedPos (entry_at (hashTable s) hash) =? invalidPackedPos)).
      * destruct (probe_next size (hash, step)) as [hash' step'].
        injection Hstep as <- _ _ _. now apply Hsame.
      * injection Hstep as <- _ _ _. now apply Hsame.
  - destruct Hok as (Hpi & Hkey & i & Hp & Hpassed).
    assert (Hh : 0 <= hash < size).
    { replace hash with (fst (probe k i)) by now rewrite Hp.
      apply (probe_range r grid Hgrid). }
    fold (key_at (hashTable s) hash) in Hstep.
    destruct (key_at (hashTable s) hash =? invalidPackedPos) eqn:E1; cbn [andb] in Hstep.
    + destruct spurious; cbn [negb] in Hstep.
      * injection Hstep as <- _ _ _. now apply Hsame.
      * injection Hstep as <- _ _ _. apply Z.eqb_eq in E1. cbn [on_key] in Hon. subst k.
        split.
        -- intros h Hhr Hk. destruct (Z.eq_dec hash h) as [<- | Hne]; [contradiction |].
           apply key_at_set_neq; lia.
        -- intros h Hhr. destruct (Z.eq_dec hash h) as [<- | Hne].
           ++ right. rewrite key_at_set_eq by lia. reflexivity.
           ++ left. apply key_at_set_neq; lia.
    + injection Hstep as <- _ _ _. now apply Hsame.
  - injection Hstep as <- _ _ _. now apply Hsame.
  - destruct Hok as (Hkey & Hh & Hk & Hb).
    injection Hstep as <- _ _ _.
    assert (Hkeep : forall h, 0 <= h < size ->
              key_at (set_entry (hashTable s) hash
                        {| packedPos := packedPos (entry_at (hashTable s) hash);
                           distribution := Some dist |}) h
              = key_at (hashTable s) h).
    { intros h Hhr. destruct (Z.eq_dec hash h) as [<- | Hne].
      - rewrite key_at_set_eq by lia. reflexivity.
      - apply key_at_set_neq; lia. }
    split; [intros h Hhr _; now apply Hkeep | intros h Hhr; left; now apply Hkeep].
  - destruct (distribution (entry_at (hashTable s) hash)).
    + injection Hstep as <- _ _ _. now apply Hsame.
    + injection Hstep as <- _ _ _. now apply Hsame.
Qed.

(** The thread that stepped is still on the key. *)
Lemma step_on_key (t : list HashEntry) (cr : list Point3i) (a : Action F) (pc pc' : Pc)
    (t' : list HashEntry) (cr' : list Point3i) (res : option (Z * nat)) :
  on_key key pc ->
  (forall offset, a = Call offset -> packPos (voxelOf grid offset) = key) ->
  thread_step grid a t cr pc = Some (t', cr', pc', res) ->
  on_key key pc' /\
  (forall k dist, pc' = Returned k dist -> res = Some (k, dist)).
Proof.
  intros Hon Hcall Hstep.
  destruct a as [offset | spurious];
    destruct pc as [| pi k hash step | pi k hash step | pi k hash
                   | k hash dist | k hash | k dist];
    cbn [thread_step] in Hstep; try discriminate; cbn [on_key] in Hon.
  - destruct (negb (packPos (voxelOf grid offset) =? invalidPackedPos));
      cbn [CHECK bind] in Hstep; [| discriminate].
    injection Hstep as _ _ <- _. split; [now apply Hcall | discriminate].
  - destruct (negb (packPos (voxelOf grid offset) =? invalidPackedPos));
      cbn [CHECK bind] in Hstep; [| discriminate].
    injection Hstep as _ _ <- _. split; [now apply Hcall | discriminate].
  - destruct (packedPos (entry_at t hash) =? k).
    + injection Hstep as _ _ <- _. split; [exact Hon | discriminate].
    + destruct (negb (packedPos (entry_at t hash) =? invalidPackedPos)).
      * destruct (probe_next size (hash, step)) as [hash' step'].
        injection Hstep as _ _ <- _. split; [exact Hon | discriminate].
      * injection Hstep as _ _ <- _. split; [exact Hon | discriminate].
  - destruct ((packedPos (entry_at t hash) =? invalidPackedPos) && negb spurious).
    + injection Hstep as _ _ <- _. split; [exact Hon | discriminate].
    + injection Hstep as _ _ <- _. split; [exact Hon | discriminate].
  - injection Hstep as _ _ <- _. split; [exact Hon | discriminate].
  - injection Hstep as _ _ <- <-. split; [exact I |]. now intros k' d' [= <- <-].
  - destruct (distribution (entry_at t hash)) as [d |].
    + injection Hstep as _ _ <- <-. split; [exact I |]. now intros k' d' [= <- <-].
    + injection Hstep as _ _ <- _. split; [exact Hon | discriminate].
Qed.

(** Every step of a thread on the key keeps the scene. *)
Lemma Scene_step (s s' : State) (i : nat) (a : Action F) :
  Scene s ->
  (forall offset, a = Call offset -> packPos (voxelOf grid offset) = key) ->
  exec grid i a s = Some s' ->
  Scene s'.
Proof.
  intros HS Hcall Hexec.
  pose proof (sc_inv grid key j s HS) as HI.
  pose proof (Inv_step r grid Hgrid s s' i a HI Hexec) as HI'.
  destruct (exec_inv s s' i a Hexec) as (pc & t' & cr' & pc' & res & Hnth & Hstep & ->).
  assert (Hin : In pc (threads s)) by (eapply nth_error_In; eassumption).
  pose proof (sc_thr grid key j s HS pc Hin) as Hon.
  destruct (step_table s a pc pc' t' cr' res HI Hin Hon Hstep) as [Hkept Hchg].
  destruct (step_on_key _ _ a pc pc' t' cr' res Hon Hcall Hstep) as [Hon' Hret].
  constructor; cbn [hashTable threads created results].
  - exact HI'.
  - exact (sc_key grid key j s HS).
  - apply (passed_kept r grid Hgrid (hashTable s)); [exact Hkept |].
    exact (sc_passed grid key j s HS).
  - destruct (Hchg (fst (probe key j)) (probe_range r grid Hgrid key j)) as [E | E].
    + rewrite E. exact (sc_slot grid key j s HS).
    + now right.
  - intros x Hx. apply In_set_nth in Hx. destruct Hx as [-> | Hx];
      [exact Hon' | exact (sc_thr grid key j s HS x Hx)].
  - intros pi k hash step Hx. apply In_set_nth in Hx. destruct Hx as [Hx | Hx];
      [| exact (sc_claim grid key j s HS pi k hash step Hx)].
    (* a thread reaches the compare-exchange from an invalid entry *)
    subst pc'.
    destruct a as [offset | spurious];
      destruct pc as [| pi0 k0 hash0 step0 | pi0 k0 hash0 step0 | pi0 k0 hash0
                     | k0 hash0 dist0 | k0 hash0 | k0 dist0];
      cbn [thread_step] in Hstep; try discriminate.
    + destruct (negb (packPos (voxelOf grid offset) =? invalidPackedPos));
        cbn [CHECK bind] in Hstep; discriminate.
    + destruct (negb (packPos (voxelOf grid offset) =? invalidPackedPos));
        cbn [CHECK bind] in Hstep; discriminate.
    + destruct (inv_thr grid s HI _ Hin) as (Hpi & Hkey & i0 & Hp & Hpassed).
      cbn [on_key] in Hon. subst k0.
      fold (key_at (hashTable s) hash0) in Hstep.
      destruct (key_at (hashTable s) hash0 =? key) eqn:E1; [discriminate |].
      destruct (key_at (hashTable s) hash0 =? invalidPackedPos) eqn:E2;
        cbn [negb] in Hstep.
      * injection Hstep as _ _ <- <- <- <- _.
        apply Z.eqb_eq in E2.
        assert (i0 = j); [| now subst i0].
        apply (scene_not_passing s i0 HS Hpassed). left. now rewrite Hp.
      * destruct (probe_next size (hash0, step0)); discriminate.
    + destruct ((packedPos (entry_at (hashTable s) hash0) =? invalidPackedPos)
                && negb spurious); discriminate.
    + destruct (distribution (entry_at (hashTable s) hash0)); discriminate.
  - intros k dist Hx. apply In_set_nth in Hx. destruct Hx as [Hx | Hx].
    + rewrite (Hret k dist (eq_sym Hx)). apply in_or_app. right. now left.
    + pose proof (sc_ret grid key j s HS k dist Hx) as Hr.
      destruct res; [apply in_or_app; now left | exact Hr].
Qed.

(** What a step leaves as it is: claimed keys (see [step_table]), published
    pointers and the list of built objects. *)
Lemma step_grows (s : State) (a : Action F) (pc pc' : Pc)
    (t' : list HashEntry) (cr' : list Point3i) (res : option (Z * nat)) :
  Inv grid s -> In pc (threads s) ->
  thread_step grid a (hashTable s) (created s) pc = Some (t', cr', pc', res) ->
  (forall h, 0 <= h ->
     distribution (entry_at (hashTable s) h) <> None ->
     distribution (entry_at t' h) <> None) /\
  (forall k, existsb (fun pi => packPos pi =? k) (created s) = true ->
             existsb (fun pi => packPos pi =? k) cr' = true).
Proof.
  intros HI Hin Hstep.
  pose proof (inv_thr grid s HI pc Hin) as Hok.
  pose proof (inv_len grid s HI) as Hlen.
  assert (Hsame : t' = hashTable s -> cr' = created s ->
            (forall h, 0 <= h ->
               distribution (entry_at (hashTable s) h) <> None ->
               distribution (entry_at t' h) <> None) /\
            (forall k, existsb (fun pi => packPos pi =? k) (created s) = true ->
                       existsb (fun pi => packPos pi =? k) cr' = true)).
  { intros -> ->. split; auto. }
  destruct a as [offset | spurious];
    destruct pc as [| pi k hash step | pi k hash step | pi k hash
                   | k hash dist | k hash | k dist];
    cbn [thread_step] in Hstep; try discriminate.
  - destruct (negb (packPos (voxelOf grid offset) =? invalidPackedPos));
      cbn [CHECK bind] in Hstep; [| discriminate].
    injection Hstep as <- <- _ _. now apply Hsame.
  - destruct (negb (packPos (voxelOf grid offset) =? invalidPackedPos));
      cbn [CHECK bind] in Hstep; [| discriminate].
    injection Hstep as <- <- _ _. now apply Hsame.
  - destruct (packedPos (entry_at (hashTable s) hash) =? k).
    + injection Hstep as <- <- _ _. now apply Hsame.
    + destruct (negb (packedPos (entry_at (hashTable s) hash) =? invalidPackedPos)).
      * destruct (probe_next size (hash, step)) as [hash' step'].
        injection Hstep as <- <- _ _. now apply Hsame.
      * injection Hstep as <- <- _ _. now apply Hsame.
  - destruct Hok as (Hpi & Hkey & i & Hp & Hpassed).
    assert (Hh : 0 <= hash < size).
    { replace hash with (fst (probe k i)) by now rewrite Hp.
      apply (probe_range r grid Hgrid). }
    destruct ((packedPos (entry_at (hashTable s) hash) =? invalidPackedPos)
              && negb spurious).
    + injection Hstep as <- <- _ _. split; [| auto].
      intros h Hh0 Hd. rewrite entry_at_set by lia.
      destruct (hash =? h) eqn:E; [| exact Hd].
      apply Z.eqb_eq in E. subst h. exact Hd.
    + injection Hstep as <- <- _ _. now apply Hsame.
  - injection Hstep as <- <- _ _. split; [auto |].
    intros k0 Hk0. rewrite existsb_app, Hk0. reflexivity.
  - destruct Hok as (Hkey & Hh & Hk & Hb).
    injection Hstep as <- <- _ _. split; [| auto].
    intros h Hh0 Hd. rewrite entry_at_set by lia.
    destruct (hash =? h); [discriminate | exact Hd].
  - destruct (distribution (entry_at (hashTable s) hash)).
    + injection Hstep as <- <- _ _. now apply Hsame.
    + injection Hstep as <- <- _ _. now apply Hsame.
Qed.

(** The rank of a thread does not grow when the table and the list of
    built objects grow. *)
Lemma rank_mono (t t' : list HashEntry) (cr cr' : list Point3i) (pc : Pc) :
  key <> invalidPackedPos ->
  thread_ok grid t cr pc ->
  keys_kept grid t t' ->
  (forall h, 0 <= h -> distribution (entry_at t h) <> None ->
             distribution (entry_at t' h) <> None) ->
  (existsb (fun pi => packPos pi =? key) cr = true ->
   existsb (fun pi => packPos pi =? key) cr' = true) ->
  (rank key j t' cr' pc <= rank key j t cr pc)%nat.
Proof.
  intros Hkey Hok Hkept Hd Hc.
  destruct pc as [| pi k hash step | pi k hash step | pi k hash
                 | k hash dist | k hash | k dist]; cbn [rank]; try lia.
  - destruct Hok as (Hpi & Hk & i & Hp & Hpassed).
    assert (Hh : 0 <= hash < size).
    { replace hash with (fst (probe k i)) by now rewrite Hp.
      apply (probe_range r grid Hgrid). }
    fold (key_at t hash). fold (key_at t' hash).
    destruct (key_at t hash =? key) eqn:E.
    + apply Z.eqb_eq in E. rewrite (Hkept hash Hh) by congruence.
      rewrite E, Z.eqb_refl. lia.
    + destruct (key_at t' hash =? key); lia.
  - destruct Hok as (Hk & Hh & Hka).
    specialize (Hd hash ltac:(lia)).
    destruct (distribution (entry_at t hash)) as [d |].
    + destruct (distribution (entry_at t' hash)); [lia |].
      exfalso. apply Hd; [discriminate | reflexivity].
    + destruct (distribution (entry_at t' hash)); [destruct (existsb _ cr); lia |].
      destruct (existsb _ cr) eqn:E; [rewrite (Hc eq_refl); lia |].
      destruct (existsb _ cr'); lia.
Qed.

(** A step of a thread on the key, without spurious failure: its rank
    falls unless it is spinning. *)
Lemma own_step (s : State) (pc pc' : Pc)
    (t' : list HashEntry) (cr' : list Point3i) (res : option (Z * nat)) :
  Scene s -> In pc (threads s) ->
  thread_step grid (Run false) (hashTable s) (created s) pc = Some (t', cr', pc', res) ->
  (rank key j t' cr' pc' <= rank key j (hashTable s) (created s) pc)%nat /\
  (spinning (hashTable s) pc = false ->
   (rank key j t' cr' pc' < rank key j (hashTable s) (created s) pc)%nat) /\
  (waits pc = true -> waits pc' = true) /\
  (forall pi h, pc = Compute pi key h ->
     existsb (fun pi => packPos pi =? key) cr' = true) /\
  (forall k h d, pc = Store k h d ->
     distribution (entry_at t' (fst (probe key j))) <> None).
Proof.
  intros HS Hin Hstep.
  pose proof (sc_inv grid key j s HS) as HI.
  pose proof (inv_thr grid s HI pc Hin) as Hok.
  pose proof (sc_thr grid key j s HS pc Hin) as Hon.
  pose proof (inv_len grid s HI) as Hlen.
  destruct pc as [| pi k hash step | pi k hash step | pi k hash
                 | k hash dist | k hash | k dist];
    cbn [thread_step] in Hstep; try discriminate; cbn [on_key] in Hon; subst k.
  - (* load of entry.packedPos *)
    destruct Hok as (Hpi & Hkey & i0 & Hp & Hpassed).
    assert (Hst : Z.to_nat (step - 1) = i0).
    { pose proof (probe_step key i0) as H. rewrite Hp in H. cbn [snd] in H. lia. }
    assert (Hh : hash = fst (probe key i0)) by now rewrite Hp.
    cbn [rank spinning waits]. rewrite Hst.
    fold (key_at (hashTable s) hash) in *.
    destruct (key_at (hashTable s) hash =? key) eqn:E1.
    + injection Hstep as <- <- <- _. cbn [rank].
      repeat split; try discriminate;
        destruct (distribution (entry_at (hashTable s) hash));
        try destruct (existsb _ (created s)); lia.
    + apply Z.eqb_neq in E1.
      destruct (key_at (hashTable s) hash =? invalidPackedPos) eqn:E2;
        cbn [negb] in Hstep.
      * injection Hstep as <- <- <- _. cbn [rank].
        repeat split; try discriminate; lia.
      * apply Z.eqb_neq in E2.
        assert (Hlt : (i0 < j)%nat).
        { apply (scene_passing s i0 HS Hpassed); now rewrite <- Hh. }
        destruct (probe_next size (hash, step)) as [hash' step'] eqn:En.
        injection Hstep as <- <- <- _. cbn [rank].
        assert (Hst' : Z.to_nat (step' - 1) = S i0).
        { pose proof (probe_step key (S i0)) as H.
          rewrite probe_succ, Hp, En in H. cbn [snd] in H. lia. }
        rewrite Hst'.
        repeat split; try discriminate;
          destruct (packedPos (entry_at (hashTable s) hash') =? key); lia.
  - (* compare_exchange_weak *)
    pose proof (sc_claim grid key j s HS pi key hash step Hin) as Hp.
    assert (Hh : hash = fst (probe key j)) by now rewrite Hp.
    cbn [rank spinning waits].
    fold (key_at (hashTable s) hash) in *.
    destruct (key_at (hashTable s) hash =? invalidPackedPos) eqn:E1;
      cbn [andb negb] in Hstep.
    + injection Hstep as <- <- <- _. cbn [rank].
      repeat split; try discriminate; lia.
    + apply Z.eqb_neq in E1.
      injection Hstep as <- <- <- _. cbn [rank].
      fold (key_at (hashTable s) hash).
      assert (Hk : key_at (hashTable s) hash = key).
      { destruct (sc_slot grid key j s HS) as [H | H]; rewrite <- Hh in H;
          [contradiction | exact H]. }
      rewrite Hk, Z.eqb_refl.
      repeat split; try discriminate; lia.
  - (* ComputeDistribution *)
    destruct Hok as (Hpi & Hkey & Hh & Hk).
    injection Hstep as <- <- <- _. cbn [rank spinning waits].
    repeat split; try discriminate; try lia.
    intros pi0 h0 _. rewrite existsb_app. cbn [existsb].
    rewrite <- Hpi, Z.eqb_refl. cbn. apply orb_true_r.
  - (* entry.distribution.store *)
    destruct Hok as (Hkey & Hh & Hk & Hb).
    injection Hstep as <- <- <- _. cbn [rank spinning waits].
    repeat split; try discriminate; try lia.
    intros k0 h0 d0 _.
    rewrite <- (scene_holder s hash HS Hh Hk).
    rewrite entry_at_set by lia. rewrite Z.eqb_refl. discriminate.
  - (* load of entry.distribution *)
    cbn [rank spinning waits].
    destruct (distribution (entry_at (hashTable s) hash)) as [d |] eqn:E.
    + injection Hstep as <- <- <- _. cbn [rank waits].
      repeat split; try discriminate; lia.
    + injection Hstep as <- <- <- _. cbn [rank waits]. rewrite E.
      repeat split; try discriminate; lia.
Qed.

Lemma thread_at_ok (s : State) (x : nat) :
  Scene s ->
  thread_ok grid (hashTable s) (created s) (nth x (threads s) Idle) /\
  on_key key (nth x (threads s) Idle).
Proof.
  intros HS. destruct (Nat.lt_ge_cases x (length (threads s))) as [H | H].
  - pose proof (nth_In (threads s) Idle H) as Hin.
    split; [exact (inv_thr grid s (sc_inv grid key j s HS) _ Hin)
           | exact (sc_thr grid key j s HS _ Hin)].
  - rewrite nth_overflow by exact H. split; exact I.
Qed.

(** One step without spurious failure, seen from every thread. *)
Lemma step_ranks (s s' : State) (i : nat) :
  Scene s -> exec grid i (Run false) s = Some s' ->
  Scene s' /\
  (forall x, x <> i -> nth x (threads s') Idle = nth x (threads s) Idle) /\
  (forall x, (thread_rank key j s' x <= thread_rank key j s x)%nat) /\
  (spinning (hashTable s) (nth i (threads s) Idle) = false ->
   (thread_rank key j s' i < thread_rank key j s i)%nat) /\
  (waits (nth i (threads s) Idle) = true -> waits (nth i (threads s') Idle) = true) /\
  (forall x, x <> i ->
     spinning (hashTable s) (nth x (threads s) Idle) = false ->
     spinning (hashTable s') (nth x (threads s') Idle) = false) /\
  (forall pi h, nth i (threads s) Idle = Compute pi key h ->
     existsb (fun pi => packPos pi =? key) (created s') = true) /\
  (forall k h d, nth i (threads s) Idle = Store k h d ->
     distribution (entry_at (hashTable s') (fst (probe key j))) <> None).
Proof.
  intros HS Hexec.
  assert (HS' : Scene s').
  { apply (Scene_step s s' i (Run false) HS); [discriminate | exact Hexec]. }
  split; [exact HS' |].
  pose proof (sc_inv grid key j s HS) as HI.
  destruct (exec_inv s s' i _ Hexec) as (pc & t' & cr' & pc' & res & Hnth & Hstep & ->).
  assert (Hin : In pc (threads s)) by (eapply nth_error_In; eassumption).
  assert (Hi : (i < length (threads s))%nat) by (apply nth_error_Some; congruence).
  assert (Hpc : nth i (threads s) Idle = pc) by now apply nth_error_nth.
  destruct (step_table s _ pc pc' t' cr' res HI Hin
              (sc_thr grid key j s HS pc Hin) Hstep) as [Hkept _].
  destruct (step_grows s _ pc pc' t' cr' res HI Hin Hstep) as [Hd Hc].
  destruct (own_step s pc pc' t' cr' res HS Hin Hstep) as (O1 & O2 & O3 & O4 & O5).
  unfold thread_rank. cbn [hashTable threads created].
  assert (Hother : forall x, x <> i ->
            nth x (set_nth i pc' (threads s)) Idle = nth x (threads s) Idle).
  { intros x Hx. apply nth_set_nth_neq. congruence. }
  assert (Hown : nth i (set_nth i pc' (threads s)) Idle = pc')
    by now apply nth_set_nth_eq.
  split; [exact Hother |]. split; [| split; [| split; [| split; [| split]]]].
  - intros x. destruct (Nat.eq_dec x i) as [-> | Hx].
    + rewrite Hown, Hpc. exact O1.
    + rewrite (Hother x Hx).
      apply rank_mono; auto.
      * exact (sc_key grid key j s HS).
      * exact (proj1 (thread_at_ok s x HS)).
  - rewrite Hown, Hpc. exact O2.
  - rewrite Hown, Hpc. exact O3.
  - intros x Hx Hsp. rewrite (Hother x Hx).
    destruct (thread_at_ok s x HS) as [Hok _].
    destruct (nth x (threads s) Idle) as [| pi k hash step | pi k hash step | pi k hash
                                          | k hash dist | k hash | k dist];
      cbn [spinning] in *; auto.
    destruct Hok as (_ & Hh & _). specialize (Hd hash ltac:(lia)).
    destruct (distribution (entry_at (hashTable s) hash)); [| discriminate].
    destruct (distribution (entry_at t' hash)); [reflexivity |].
    exfalso. apply Hd; [discriminate | reflexivity].
  - rewrite Hpc. exact O4.
  - rewrite Hpc. exact O5.
Qed.

Lemma existsb_count {A : Type} (P : A -> bool) (l : list A) :
  existsb P l = true <-> (0 < count P l)%nat.
Proof.
  induction l as [| x l IH]; cbn [existsb]; [cbn; split; [discriminate | lia] |].
  rewrite count_cons. destruct (P x); cbn [orb b2n]; [split; [lia | reflexivity] |].
  rewrite IH. lia.
Qed.

(** A thread that spins waits for a thread that builds or publishes. *)
Lemma spinner_builder (s : State) (x : nat) :
  Scene s -> spinning (hashTable s) (nth x (threads s) Idle) = true ->
  exists y,
    outside (nth y (threads s) Idle) = false /\
    ((thread_rank key j s x = 3%nat /\
      exists pi h, nth y (threads s) Idle = Compute pi key h) \/
     (thread_rank key j s x = 2%nat /\
      exists h d, nth y (threads s) Idle = Store key h d)).
Proof.
  intros HS Hsp.
  pose proof (sc_inv grid key j s HS) as HI.
  pose proof (sc_key grid key j s HS) as Hkey.
  destruct (thread_at_ok s x HS) as [Hok Hon].
  unfold thread_rank.
  destruct (nth x (threads s) Idle) as [| pi k hash step | pi k hash step | pi k hash
                                        | k hash dist | k hash | k dist];
    cbn [spinning] in Hsp; try discriminate.
  cbn [on_key] in Hon. subst k. destruct Hok as (_ & Hh & Hk).
  cbn [rank].
  destruct (distribution (entry_at (hashTable s) hash)) eqn:Ed; [discriminate |].
  destruct (inv_count grid s HI key Hkey) as (C1 & C2 & C3).
  pose proof (inv_len grid s HI) as Hlen.
  set (d0 := {| packedPos := invalidPackedPos; distribution := None |}).
  assert (Hhold : (0 < count (holds key) (hashTable s))%nat).
  { apply (count_nth_pos (holds key) d0 (hashTable s) (Z.to_nat hash)); [lia |].
    unfold holds. apply Z.eqb_eq. exact Hk. }
  assert (Hready : count (ready key) (hashTable s) = 0%nat).
  { destruct (count (ready key) (hashTable s)) as [| c] eqn:Ec; [reflexivity |].
    exfalso.
    destruct (count_pos_nth (ready key) d0 (hashTable s)) as (i' & Hi' & Hr); [lia |].
    unfold ready in Hr. apply andb_true_iff in Hr. destruct Hr as [Hr1 Hr2].
    assert (i' = Z.to_nat hash).
    { apply (count_le1_unique (holds key) (hashTable s) C3 i' (Z.to_nat hash)
               (nth i' (hashTable s) d0) (nth (Z.to_nat hash) (hashTable s) d0)).
      - apply nth_error_nth'. exact Hi'.
      - exact Hr1.
      - apply nth_error_nth'. lia.
      - unfold holds. apply Z.eqb_eq. exact Hk. }
    subst i'. unfold entry_at in Ed. fold d0 in Ed. rewrite Ed in Hr2. discriminate. }
  assert (Hcr : existsb (fun pi => packPos pi =? key) (created s) = true
                <-> (0 < created_for key s)%nat)
    by (unfold created_for; apply existsb_count).
  destruct (existsb (fun pi => packPos pi =? key) (created s)) eqn:Ee.
  - assert (Hst : (0 < count (is_storing key) (threads s))%nat).
    { destruct Hcr as [Hcr _]. specialize (Hcr eq_refl). lia. }
    destruct (count_pos_nth (is_storing key) Idle (threads s) Hst) as (y & Hy & Hys).
    exists y.
    destruct (nth y (threads s) Idle) as [| pi k hash' step | pi k hash' step | pi k hash'
                                          | k hash' dist | k hash' | k dist];
      cbn [is_storing] in Hys; try discriminate.
    apply Z.eqb_eq in Hys. subst k.
    split; [reflexivity |]. right. split; [reflexivity |]. eauto.
  - assert (Hz : count (is_storing key) (threads s) = 0%nat).
    { destruct (created_for key s) eqn:E; [lia |].
      destruct Hcr as [_ Hcr]. specialize (Hcr ltac:(lia)). discriminate. }
    assert (Hco : (0 < count (is_computing key) (threads s))%nat) by lia.
    destruct (count_pos_nth (is_computing key) Idle (threads s) Hco) as (y & Hy & Hys).
    exists y.
    destruct (nth y (threads s) Idle) as [| pi k hash' step | pi k hash' step | pi k hash'
                                          | k hash' dist | k hash' | k dist];
      cbn [is_computing] in Hys; try discriminate.
    apply Z.eqb_eq in Hys. subst k.
    split; [reflexivity |]. left. split; [reflexivity |]. eauto.
Qed.

(** The rank of a waiting thread once the object is built, and once it is
    published. *)
Lemma waits_rank (s : State) (x : nat) :
  Scene s -> waits (nth x (threads s) Idle) = true ->
  (existsb (fun pi => packPos pi =? key) (created s) = true ->
   (thread_rank key j s x <= 2)%nat) /\
  (distribution (entry_at (hashTable s) (fst (probe key j))) <> None ->
   (thread_rank key j s x <= 1)%nat).
Proof.
  intros HS Hw.
  destruct (thread_at_ok s x HS) as [Hok Hon].
  unfold thread_rank.
  destruct (nth x (threads s) Idle) as [| pi k hash step | pi k hash step | pi k hash
                                        | k hash dist | k hash | k dist];
    cbn [waits] in Hw; try discriminate; cbn [rank]; try (split; intros; lia).
  cbn [on_key] in Hon. subst k. destruct Hok as (_ & Hh & Hk).
  rewrite <- (scene_holder s hash HS Hh Hk).
  split.
  - intros ->. destruct (distribution (entry_at (hashTable s) hash)); lia.
  - intros Hd. destruct (distribution (entry_at (hashTable s) hash)); [lia | congruence].
Qed.

Lemma steps_only_cons (i : nat) (a : Action F) (l : list (nat * Action F)) :
  steps_only ((i, a) :: l) = true -> a = Run false /\ steps_only l = true.
Proof.
  unfold steps_only. cbn [forallb snd]. intros H. apply andb_true_iff in H.
  destruct H as [H1 H2]. split; [| exact H2].
  destruct a as [offset | [|]]; try discriminate. reflexivity.
Qed.

(** Steps without spurious failure never raise a rank. *)
Lemma run_ranks (l : list (nat * Action F)) :
  forall s s',
    Scene s -> steps_only l = true -> run grid l s = Some s' ->
    Scene s' /\
    (forall x, (thread_rank key j s' x <= thread_rank key j s x)%nat) /\
    (forall x, waits (nth x (threads s) Idle) = true ->
               waits (nth x (threads s') Idle) = true).
Proof.
  induction l as [| [i a] l IH]; intros s s' HS Hl Hrun; cbn [run] in Hrun.
  - injection Hrun as <-. split; [exact HS |]. split; [intros x; lia | auto].
  - apply steps_only_cons in Hl. destruct Hl as [-> Hl].
    destruct (exec grid i (Run false) s) as [s1 |] eqn:E; cbn [bind] in Hrun;
      [| discriminate].
    destruct (step_ranks s s1 i HS E) as (HS1 & Hoth & Hle & _ & Hw & _).
    destruct (IH s1 s' HS1 Hl Hrun) as (HS' & Hle' & Hw').
    split; [exact HS' |]. split.
    + intros x. specialize (Hle x). specialize (Hle' x). lia.
    + intros x Hx. apply Hw'. destruct (Nat.eq_dec x i) as [-> | Hne].
      * now apply Hw.
      * now rewrite (Hoth x Hne).
Qed.

(** A thread that is not spinning falls in rank at its next step. *)
Lemma drive_own (x R : nat) (l : list (nat * Action F)) :
  forall s s',
    Scene s -> steps_only l = true -> run grid l s = Some s' ->
    In x (map fst l) ->
    (thread_rank key j s x < R)%nat \/
    (thread_rank key j s x = R /\
     spinning (hashTable s) (nth x (threads s) Idle) = false) ->
    (thread_rank key j s' x < R)%nat.
Proof.
  induction l as [| [i a] l IH]; intros s s' HS Hl Hrun Hin HP; [contradiction |].
  cbn [run] in Hrun.
  destruct (steps_only_cons i a l Hl) as [-> Hl'].
  destruct (exec grid i (Run false) s) as [s1 |] eqn:E; cbn [bind] in Hrun;
    [| discriminate].
  destruct (step_ranks s s1 i HS E) as (HS1 & Hoth & Hle & Hlt & _ & Hsp & _).
  destruct (run_ranks l s1 s' HS1 Hl' Hrun) as (_ & Hle' & _).
  pose proof (Hle x) as H1. pose proof (Hle' x) as H2.
  destruct HP as [HP | [HR Hns]]; [lia |].
  destruct (Nat.eq_dec x i) as [-> | Hne].
  - specialize (Hlt Hns). lia.
  - cbn [map fst] in Hin. destruct Hin as [Hin | Hin]; [congruence |].
    apply (IH s1 s' HS1 Hl' Hrun Hin).
    destruct (Nat.eq_dec (thread_rank key j s1 x) R) as [E1 | E1]; [| left; lia].
    right. split; [exact E1 |]. now apply Hsp.
Qed.

(** A thread that spins falls in rank at the next step of the thread that
    builds or publishes. *)
Lemma drive_builder (x y R : nat) (l : list (nat * Action F)) :
  forall s s',
    Scene s -> steps_only l = true -> run grid l s = Some s' ->
    In y (map fst l) ->
    (thread_rank key j s x < R)%nat \/
    (waits (nth x (threads s) Idle) = true /\
     ((R = 3%nat /\ exists pi h, nth y (threads s) Idle = Compute pi key h) \/
      (R = 2%nat /\ exists h d, nth y (threads s) Idle = Store key h d))) ->
    (thread_rank key j s' x < R)%nat.
Proof.
  induction l as [| [i a] l IH]; intros s s' HS Hl Hrun Hin HP; [contradiction |].
  cbn [run] in Hrun.
  destruct (steps_only_cons i a l Hl) as [-> Hl'].
  destruct (exec grid i (Run false) s) as [s1 |] eqn:E; cbn [bind] in Hrun;
    [| discriminate].
  destruct (step_ranks s s1 i HS E) as (HS1 & Hoth & Hle & _ & Hw & _ & Hco & Hst).
  destruct (run_ranks l s1 s' HS1 Hl' Hrun) as (_ & Hle' & _).
  pose proof (Hle x) as H1. pose proof (Hle' x) as H2.
  destruct HP as [HP | [Hwx Hy]]; [lia |].
  assert (Hwx1 : waits (nth x (threads s1) Idle) = true).
  { destruct (Nat.eq_dec x i) as [-> | Hne]; [now apply Hw | now rewrite (Hoth x Hne)]. }
  destruct (Nat.eq_dec y i) as [-> | Hne].
  - destruct (waits_rank s1 x HS1 Hwx1) as [W2 W1].
    destruct Hy as [[-> (pi & h & Hy)] | [-> (h & d & Hy)]].
    + specialize (W2 (Hco pi h Hy)). lia.
    + specialize (W1 (Hst key h d Hy)). lia.
  - cbn [map fst] in Hin. destruct Hin as [Hin | Hin]; [congruence |].
    apply (IH s1 s' HS1 Hl' Hrun Hin). right. split; [exact Hwx1 |].
    now rewrite (Hoth y Hne).
Qed.

Lemma covers_inside (s : State) (l : list (nat * Action F)) (x : nat) :
  covers s l = true -> outside (nth x (threads s) Idle) = false -> In x (map fst l).
Proof.
  intros Hc Hx. unfold covers in Hc. rewrite forallb_forall in Hc.
  assert (Hlt : (x < length (threads s))%nat).
  { destruct (Nat.lt_ge_cases x (length (threads s))) as [H | H]; [exact H |].
    rewrite nth_overflow in Hx by exact H. discriminate. }
  specialize (Hc x ltac:(apply in_seq; lia)). rewrite Hx in Hc. cbn [orb] in Hc.
  apply existsb_exists in Hc. destruct Hc as (y & Hy & E).
  apply Nat.eqb_eq in E. now subst y.
Qed.

Lemma rank_outside (t : list HashEntry) (cr : list Point3i) (pc : Pc) :
  rank key j t cr pc = 0%nat <-> outside pc = true.
Proof.
  destruct pc as [| pi k hash step | pi k hash step | pi k hash
                 | k hash dist | k hash | k dist]; cbn [rank outside];
    try (split; [lia | discriminate]); try (split; reflexivity).
  - destruct (packedPos (entry_at t hash) =? key); split; (lia || discriminate).
  - destruct (distribution (entry_at t hash)); [| destruct (existsb _ cr)];
      split; (lia || discriminate).
Qed.

Lemma spinning_waits (t : list HashEntry) (pc : Pc) :
  spinning t pc = true -> waits pc = true.
Proof. destruct pc; cbn; auto; discriminate. Qed.

(** In a round every thread inside [Lookup] falls in rank. *)
Lemma round_ranks (l : list (nat * Action F)) (s s' : State) :
  Scene s -> steps_only l = true -> covers s l = true -> run grid l s = Some s' ->
  Scene s' /\
  forall x, (thread_rank key j s' x <= pred (thread_rank key j s x))%nat.
Proof.
  intros HS Hl Hc Hrun.
  destruct (run_ranks l s s' HS Hl Hrun) as (HS' & Hle & _).
  split; [exact HS' |]. intros x.
  destruct (thread_rank key j s x) as [| R] eqn:ER.
  { specialize (Hle x). lia. }
  assert (Hin : outside (nth x (threads s) Idle) = false).
  { destruct (outside (nth x (threads s) Idle)) eqn:Eo; [| reflexivity].
    apply rank_outside with (t := hashTable s) (cr := created s) in Eo.
    unfold thread_rank in ER. lia. }
  cbn [pred].
  destruct (spinning (hashTable s) (nth x (threads s) Idle)) eqn:Esp.
  - destruct (spinner_builder s x HS Esp) as (y & Hyin & Hy).
    pose proof (covers_inside s l y Hc Hyin) as Hyl.
    assert (H : (thread_rank key j s' x < S R)%nat); [| lia].
    apply (drive_builder x y (S R) l s s' HS Hl Hrun Hyl). right.
    split; [now apply (spinning_waits (hashTable s)) |].
    destruct Hy as [[E Hy] | [E Hy]]; rewrite ER in E; [left | right]; auto.
  - pose proof (covers_inside s l x Hc Hin) as Hxl.
    assert (H : (thread_rank key j s' x < S R)%nat); [| lia].
    apply (drive_own x (S R) l s s' HS Hl Hrun Hxl). right. auto.
Qed.

Lemma run_app (l1 l2 : list (nat * Action F)) :
  forall s, run grid (l1 ++ l2) s = (s1 <- run grid l1 s ;; run grid l2 s1).
Proof.
  induction l1 as [| [i a] l1 IH]; intros s; cbn [app run bind]; [reflexivity |].
  destruct (exec grid i a s) as [s1 |]; cbn [bind]; [apply IH | reflexivity].
Qed.

(** After n fair rounds every rank has fallen by n. *)
Lemma rounds_ranks (rounds : list (list (nat * Action F))) :
  forall s s',
    Scene s -> fair_rounds grid rounds s = true ->
    run grid (concat rounds) s = Some s' ->
    Scene s' /\
    forall x, (thread_rank key j s' x <= thread_rank key j s x - length rounds)%nat.
Proof.
  induction rounds as [| l rounds IH]; intros s s' HS Hf Hrun.
  - cbn [concat run] in Hrun. injection Hrun as <-. split; [exact HS |].
    intros x. cbn [length]. lia.
  - cbn [fair_rounds] in Hf. cbn [concat] in Hrun. rewrite run_app in Hrun.
    destruct (run grid l s) as [s1 |] eqn:E; cbn [bind] in Hrun;
      [| rewrite andb_false_r in Hf; discriminate].
    apply andb_true_iff in Hf. destruct Hf as [Hf Hrest].
    apply andb_true_iff in Hf. destruct Hf as [Hl Hc].
    destruct (round_ranks l s s1 HS Hl Hc E) as (HS1 & H1).
    destruct (IH s1 s' HS1 Hrest Hrun) as (HS' & H').
    split; [exact HS' |]. intros x. specialize (H1 x). specialize (H' x).
    cbn [length]. lia.
Qed.

Lemma rank_bound (t : list HashEntry) (cr : list Point3i) (pc : Pc) :
  (rank key j t cr pc <= 6 + j)%nat.
Proof.
  destruct pc as [| pi k hash step | pi k hash step | pi k hash
                 | k hash dist | k hash | k dist]; cbn [rank]; try lia.
  - destruct (packedPos (entry_at t hash) =? key); lia.
  - destruct (distribution (entry_at t hash)); [| destruct (existsb _ cr)]; lia.
Qed.

(** Enough fair rounds bring every thread out of [Lookup]. *)
Lemma rounds_return (rounds : list (list (nat * Action F))) (s s' : State) :
  Scene s -> fair_rounds grid rounds s = true -> (6 + j <= length rounds)%nat ->
  run grid (concat rounds) s = Some s' ->
  Scene s' /\ forall pc, In pc (threads s') -> outside pc = true.
Proof.
  intros HS Hf Hlen Hrun.
  destruct (rounds_ranks rounds s s' HS Hf Hrun) as (HS' & Hle).
  split; [exact HS' |]. intros pc Hin.
  destruct (In_nth _ _ Idle Hin) as (x & Hx & <-).
  apply (rank_outside (hashTable s') (created s')).
  specialize (Hle x). unfold thread_rank in Hle.
  pose proof (rank_bound (hashTable s) (created s) (nth x (threads s) Idle)). lia.
Qed.

(** A thread that has returned left its pointer in the results. *)
Lemma step_returns (t : list HashEntry) (cr : list Point3i) (a : Action F) (pc pc' : Pc)
    (t' : list HashEntry) (cr' : list Point3i) (res : option (Z * nat)) :
  thread_step grid a t cr pc = Some (t', cr', pc', res) ->
  forall k dist, pc' = Returned k dist -> res = Some (k, dist).
Proof.
  intros Hstep.
  destruct a as [offset | spurious];
    destruct pc as [| pi k hash step | pi k hash step | pi k hash
                   | k hash dist | k hash | k dist];
    cbn [thread_step] in Hstep; try discriminate.
  - destruct (negb (packPos (voxelOf grid offset) =? invalidPackedPos));
      cbn [CHECK bind] in Hstep; [| discriminate].
    injection Hstep as _ _ <- _. discriminate.
  - destruct (negb (packPos (voxelOf grid offset) =? invalidPackedPos));
      cbn [CHECK bind] in Hstep; [| discriminate].
    injection Hstep as _ _ <- _. discriminate.
  - destruct (packedPos (entry_at t hash) =? k).
    + injection Hstep as _ _ <- _. discriminate.
    + destruct (negb (packedPos (entry_at t hash) =? invalidPackedPos)).
      * destruct (probe_next size (hash, step)) as [hash' step'].
        injection Hstep as _ _ <- _. discriminate.
      * injection Hstep as _ _ <- _. discriminate.
  - destruct ((packedPos (entry_at t hash) =? invalidPackedPos) && negb spurious).
    + injection Hstep as _ _ <- _. discriminate.
    + injection Hstep as _ _ <- _. discriminate.
  - injection Hstep as _ _ <- _. discriminate.
  - injection Hstep as _ _ <- <-. now intros k' d' [= <- <-].
  - destruct (distribution (entry_at t hash)) as [d |].
    + injection Hstep as _ _ <- <-. now intros k' d' [= <- <-].
    + injection Hstep as _ _ <- _. discriminate.
Qed.

Lemma reachable_returned (s : State) :
  reachable grid s ->
  forall k dist, In (Returned k dist) (threads s) -> In (k, dist) (results s).
Proof.
  induction 1 as [n | s i a s' _ IH Hexec]; intros k dist Hin.
  - unfold initState in Hin. cbn [threads] in Hin. apply repeat_spec in Hin.
    discriminate.
  - destruct (exec_inv s s' i a Hexec) as (pc & t' & cr' & pc' & res & Hnth & Hstep & ->).
    cbn [threads results] in *. apply In_set_nth in Hin. destruct Hin as [Hin | Hin].
    + rewrite (step_returns _ _ a pc pc' t' cr' res Hstep k dist (eq_sym Hin)).
      apply in_or_app. right. now left.
    + specialize (IH k dist Hin). destruct res; [apply in_or_app; now left | exact IH].
Qed.

(** The scene before the calls: nobody is inside [Lookup]. *)
Lemma Scene_start (s : State) :
  reachable grid s ->
  (forall pc, In pc (threads s) -> outside pc = true) ->
  key <> invalidPackedPos ->
  passed (hashTable s) key j ->
  key_at (hashTable s) (fst (probe key j)) = invalidPackedPos \/
  key_at (hashTable s) (fst (probe key j)) = key ->
  Scene s.
Proof.
  intros Hr Hout Hkey Hp Hslot. constructor; auto.
  - exact (reachable_Inv r grid Hgrid s Hr).
  - intros pc Hin. specialize (Hout pc Hin). destruct pc; try discriminate; exact I.
  - intros pi k hash step Hin. specialize (Hout _ Hin). discriminate.
  - apply reachable_returned. exact Hr.
Qed.

Lemma run_Scene (l : list (nat * Action F)) :
  forall s s',
    Scene s -> calls_on grid key l -> run grid l s = Some s' -> Scene s'.
Proof.
  induction l as [| [i a] l IH]; intros s s' HS Hc Hrun; cbn [run] in Hrun.
  - now injection Hrun as <-.
  - destruct (exec grid i a s) as [s1 |] eqn:E; cbn [bind] in Hrun; [| discriminate].
    apply (IH s1 s'); [| | exact Hrun].
    + apply (Scene_step s s1 i a HS); [| exact E].
      intros offset ->. apply (Hc i offset). now left.
    + intros i' offset Hin. apply (Hc i' offset). now right.
Qed.

(** A thread that has called stays inside [Lookup] or returns from a lookup
    of the key. *)
Lemma step_called (s s' : State) (i : nat) (a : Action F) (x : nat) :
  Scene s -> exec grid i a s = Some s' ->
  called key (nth x (threads s) Idle) \/ (x = i /\ exists offset, a = Call offset) ->
  called key (nth x (threads s') Idle).
Proof.
  intros HS Hexec Hx.
  destruct (exec_inv s s' i a Hexec) as (pc & t' & cr' & pc' & res & Hnth & Hstep & ->).
  cbn [threads].
  assert (Hi : (i < length (threads s))%nat) by (apply nth_error_Some; congruence).
  assert (Hpc : nth i (threads s) Idle = pc) by now apply nth_error_nth.
  destruct (Nat.eq_dec x i) as [-> | Hne].
  2:{ rewrite nth_set_nth_neq by congruence. destruct Hx as [Hx | [Hx _]];
        [exact Hx | contradiction]. }
  rewrite nth_set_nth_eq by exact Hi.
  assert (Hin : In pc (threads s)) by (eapply nth_error_In; eassumption).
  pose proof (sc_thr grid key j s HS pc Hin) as Hon.
  destruct a as [offset | spurious];
    destruct pc as [| pi k hash step | pi k hash step | pi k hash
                   | k hash dist | k hash | k dist];
    cbn [thread_step] in Hstep; try discriminate; cbn [on_key] in Hon.
  - destruct (negb (packPos (voxelOf grid offset) =? invalidPackedPos));
      cbn [CHECK bind] in Hstep; [| discriminate].
    injection Hstep as _ _ <- _. exact I.
  - destruct (negb (packPos (voxelOf grid offset) =? invalidPackedPos));
      cbn [CHECK bind] in Hstep; [| discriminate].
    injection Hstep as _ _ <- _. exact I.
  - destruct (packedPos (entry_at (hashTable s) hash) =? k).
    + injection Hstep as _ _ <- _. exact I.
    + destruct (negb (packedPos (entry_at (hashTable s) hash) =? invalidPackedPos)).
      * destruct (probe_next size (hash, step)) as [hash' step'].
        injection Hstep as _ _ <- _. exact I.
      * injection Hstep as _ _ <- _. exact I.
  - destruct ((packedPos (entry_at (hashTable s) hash) =? invalidPackedPos)
              && negb spurious).
    + injection Hstep as _ _ <- _. exact I.
    + injection Hstep as _ _ <- _. exact I.
  - injection Hstep as _ _ <- _. exact I.
  - injection Hstep as _ _ <- _. exact Hon.
  - destruct (distribution (entry_at (hashTable s) hash)) as [d |].
    + injection Hstep as _ _ <- _. exact Hon.
    + injection Hstep as _ _ <- _. exact I.
Qed.

Lemma run_called (l : list (nat * Action F)) (x : nat) :
  forall s s',
    Scene s -> calls_on grid key l -> run grid l s = Some s' ->
    called key (nth x (threads s) Idle) \/ (exists offset, In (x, Call offset) l) ->
    called key (nth x (threads s') Idle).
Proof.
  induction l as [| [i a] l IH]; intros s s' HS Hc Hrun Hx; cbn [run] in Hrun.
  - injection Hrun as <-. destruct Hx as [Hx | (offset & [])]. exact Hx.
  - destruct (exec grid i a s) as [s1 |] eqn:E; cbn [bind] in Hrun; [| discriminate].
    assert (HS1 : Scene s1).
    { apply (Scene_step s s1 i a HS); [| exact E].
      intros offset ->. apply (Hc i offset). now left. }
    assert (Hc' : calls_on grid key l).
    { intros i' offset Hin. apply (Hc i' offset). now right. }
    apply (IH s1 s' HS1 Hc' Hrun).
    destruct Hx as [Hx | (offset & [Hx | Hx])].
    + left. apply (step_called s s1 i a x HS E). now left.
    + injection Hx as -> ->. left. apply (step_called s s1 x _ x HS E).
      right. split; [reflexivity | eauto].
    + right. eauto.
Qed.

Lemma steps_only_calls_on (l : list (nat * Action F)) :
  steps_only l = true -> calls_on grid key l.
Proof.
  intros H i offset Hin. unfold steps_only in H. rewrite forallb_forall in H.
  specialize (H _ Hin). discriminate.
Qed.

Lemma fair_rounds_calls_on (rounds : list (list (nat * Action F))) :
  forall s, fair_rounds grid rounds s = true -> calls_on grid key (concat rounds).
Proof.
  induction rounds as [| l rounds IH]; intros s Hf; [intros i offset [] |].
  cbn [fair_rounds] in Hf.
  apply andb_true_iff in Hf. destruct Hf as [Hf Hrest].
  apply andb_true_iff in Hf. destruct Hf as [Hl _].
  destruct (run grid l s) as [s1 |]; [| discriminate].
  intros i offset Hin. cbn [concat] in Hin. apply in_app_or in Hin.
  destruct Hin as [Hin | Hin].
  - exact (steps_only_calls_on l Hl i offset Hin).
  - exact (IH s1 Hrest i offset Hin).
Qed.

(** The calls of the scene all return, with the pointer of the one object
    built for the voxel. *)
Lemma scene_returns (s0 s1 s2 : State)
    (calls : list (nat * Action F)) (rounds : list (list (nat * Action F))) :
  Scene s0 ->
  calls_on grid key calls -> run grid calls s0 = Some s1 ->
  fair_rounds grid rounds s1 = true -> (6 + j <= length rounds)%nat ->
  run grid (concat rounds) s1 = Some s2 ->
  Scene s2 /\
  (forall pc, In pc (threads s2) -> outside pc = true) /\
  forall x offset,
    In (x, Call offset) calls ->
    exists dist,
      nth_error (threads s2) x = Some (Returned key dist) /\
      In (key, dist) (results s2).
Proof.
  intros HS0 Hc Hrun1 Hf Hlen Hrun2.
  pose proof (run_Scene calls s0 s1 HS0 Hc Hrun1) as HS1.
  destruct (rounds_return rounds s1 s2 HS1 Hf Hlen Hrun2) as (HS2 & Hout).
  split; [exact HS2 |]. split; [exact Hout |].
  intros x offset Hin.
  assert (H1 : called key (nth x (threads s1) Idle)).
  { apply (run_called calls x s0 s1 HS0 Hc Hrun1). right. eauto. }
  assert (H2 : called key (nth x (threads s2) Idle)).
  { apply (run_called (concat rounds) x s1 s2 HS1
             (fair_rounds_calls_on rounds s1 Hf) Hrun2). now left. }
  assert (Hx : (x < length (threads s2))%nat).
  { destruct (Nat.lt_ge_cases x (length (threads s2))) as [H | H]; [exact H |].
    rewrite nth_overflow in H2 by exact H. contradiction. }
  pose proof (nth_In (threads s2) Idle Hx) as Hnin.
  pose proof (Hout _ Hnin) as Ho.
  destruct (nth x (threads s2) Idle) as [| pi k hash step | pi k hash step | pi k hash
                                         | k hash dist | k hash | k dist] eqn:En;
    cbn [outside called] in *; try discriminate; try contradiction.
  subst k. exists dist. split.
  - rewrite <- En. apply nth_error_nth'. exact Hx.
  - exact (sc_ret grid key j s2 HS2 key dist Hnin).
Qed.

End CacheProgress.

(** Safety, under every interleaving: at most one object is built per key,
    and the pointers returned for a key are those of that one object. *)
Lemma reachable_builds_once
    (F : Type) (ops : FloatOps F) (r : Point3i) (grid : VoxelGrid) (s : State) :
  mkVoxelGrid r = Some grid ->
  reachable grid s ->
  forall key,
    (created_for key s <= 1)%nat /\
    forall dist,
      In (key, dist) (results s) ->
      created_for key s = 1%nat /\
      forall dist', In (key, dist') (results s) -> dist' = dist.
Proof.
  intros Hgrid Hreach key.
  pose proof (reachable_Inv r grid Hgrid s Hreach) as HI.
  assert (Hle : (created_for key s <= 1)%nat).
  { destruct (Z.eq_dec key invalidPackedPos) as [-> | Hkey].
    - unfold created_for.
      destruct (filter (fun pi => packPos pi =? invalidPackedPos) (created s))
        as [| pi l] eqn:E; [cbn; lia |].
      assert (Hin : In pi (filter (fun pi => packPos pi =? invalidPackedPos) (created s)))
        by (rewrite E; now left).
      apply filter_In in Hin. destruct Hin as [Hin Hp]. apply Z.eqb_eq in Hp.
      exfalso. exact (inv_cr grid s HI pi Hin Hp).
    - destruct (inv_count grid s HI key Hkey) as (H1 & H2 & H3). lia. }
  split; [exact Hle |].
  intros dist Hin.
  destruct (inv_res grid s HI key dist Hin) as (pi & Hnth & Hpi).
  assert (Hpos : (0 < created_for key s)%nat).
  { apply (count_nth_pos (fun pi => packPos pi =? key) pi (created s) dist).
    - apply nth_error_Some. congruence.
    - rewrite (nth_error_nth _ _ _ Hnth). now apply Z.eqb_eq. }
  split; [lia |].
  intros dist' Hin'.
  destruct (inv_res grid s HI key dist' Hin') as (pi' & Hnth' & Hpi').
  apply (count_le1_unique (fun pi => packPos pi =? key) (created s) Hle
           dist' dist pi' pi); auto; now apply Z.eqb_eq.
Qed.

(** C4.  The atomic accesses of any number of threads calling [Lookup]
    interleave arbitrarily (sequentially consistent), and a
    compare-exchange may fail spuriously.

    Under every interleaving, on any points: in every reachable state
    [ComputeDistribution] has been called at most once for every voxel key;
    once a [Lookup] on a key has returned, it has been called exactly once
    for that key, and every [Lookup] on the key that has returned,
    concurrent or repeated, returned that same pointer.

    Every call returns: start from a reachable state with no thread inside
    [Lookup], in which the probe sequence of the key passes j entries of
    other voxels and then meets an entry that is free or the key's own.
    Let the threads call [Lookup] on points of that voxel, any number of
    times each, and step in any order, compare-exchanges failing
    spuriously or not.  From wherever this leads, 6 + j rounds in which
    every thread inside [Lookup] takes at least one step and no
    compare-exchange fails spuriously bring every thread out of [Lookup];
    every thread that called has returned the pointer of the one object
    built for the voxel. *)
Theorem Lookup_builds_once
    (F : Type) (ops : FloatOps F) (r : Point3i) (grid : VoxelGrid) :
  mkVoxelGrid r = Some grid ->
  (forall s : State,
     reachable grid s ->
     forall key,
       (created_for key s <= 1)%nat /\
       forall dist,
         In (key, dist) (results s) ->
         created_for key s = 1%nat /\
         forall dist', In (key, dist') (results s) -> dist' = dist) /\
  (forall (s0 s1 s2 : State) (key : Z) (j : nat)
          (calls : list (nat * Action F)) (rounds : list (list (nat * Action F))),
     reachable grid s0 ->
     (forall pc, In pc (threads s0) -> outside pc = true) ->
     key <> invalidPackedPos ->
     passed grid (hashTable s0) key j ->
     key_at (hashTable s0) (fst (probe grid key j)) = invalidPackedPos \/
     key_at (hashTable s0) (fst (probe grid key j)) = key ->
     calls_on grid key calls ->
     run grid calls s0 = Some s1 ->
     fair_rounds grid rounds s1 = true ->
     (6 + j <= length rounds)%nat ->
     run grid (concat rounds) s1 = Some s2 ->
     (forall pc, In pc (threads s2) -> outside pc = true) /\
     forall x offset,
       In (x, Call offset) calls ->
       exists dist,
         nth_error (threads s2) x = Some (Returned key dist) /\
         In (key, dist) (results s2) /\
         created_for key s2 = 1%nat /\
         forall dist', In (key, dist') (results s2) -> dist' = dist).
Proof.
  intros Hgrid. split.
  - intros s Hreach key. now apply (reachable_builds_once F ops r grid s).
  - intros s0 s1 s2 key j calls rounds Hr Hout Hkey Hp Hslot Hc Hrun1 Hf Hlen Hrun2.
    pose proof (Scene_start r grid Hgrid key j s0 Hr Hout Hkey Hp Hslot) as HS0.
    destruct (scene_returns r grid Hgrid key j s0 s1 s2 calls rounds
                HS0 Hc Hrun1 Hf Hlen Hrun2) as (HS2 & Hout2 & Hret).
    split; [exact Hout2 |].
    intros x offset Hin. destruct (Hret x offset Hin) as (dist & Hx & Hres).
    exists dist. split; [exact Hx |]. split; [exact Hres |].
    assert (Hr2 : reachable grid s2).
    { apply (run_reachable grid (concat rounds) s1 s2); [| exact Hrun2].
      now apply (run_reachable grid calls s0 s1). }
    exact (proj2 (reachable_builds_once F ops r grid s2 Hgrid Hr2 key) dist Hres).
Qed.

Lemma Lookup_builds_once_witness :
  exists s0 s2 dist,
    run race_grid race_prelude (initState race_grid 2) = Some s0 /\
    run race_grid (race_calls ++ concat race_rounds) s0 = Some s2 /\
    threads s2 = [Returned 1099511627777 dist; Returned 1099511627777 dist] /\
    created s2 = [{| px := 1; py := 0; pz := 0 |}; {| px := 1; py := 0; pz := 1 |}] /\
    created_for 1099511627777 s2 = 1%nat.
Proof.
  assert (Hkey : 1099511627777 <> invalidPackedPos)
    by (unfold invalidPackedPos; lia).
  assert (Hc : calls_on race_grid 1099511627777 race_calls).
  { intros i offset Hin. unfold race_calls in Hin. cbn [In] in Hin.
    destruct Hin as [Hin | [Hin | Hin]].
    - injection Hin as <- <-. vm_compute. reflexivity.
    - injection Hin as <- <-. vm_compute. reflexivity.
    - repeat (destruct Hin as [Hin | Hin]; [discriminate Hin |]). contradiction. }
  assert (Hlen7 : (6 + 1 <= length race_rounds)%nat) by (cbn [race_rounds length]; lia).
  assert (H0 : exists s0 s1 s2,
             run race_grid race_prelude (initState race_grid 2) = Some s0 /\
             threads s0 = [Returned 1099511627776 0%nat; Idle] /\
             key_at (hashTable s0) (fst (probe race_grid 1099511627777 0))
             = 1099511627776 /\
             key_at (hashTable s0) (fst (probe race_grid 1099511627777 1))
             = invalidPackedPos /\
             run race_grid race_calls s0 = Some s1 /\
             fair_rounds race_grid race_rounds s1 = true /\
             run race_grid (concat race_rounds) s1 = Some s2 /\
             length (threads s2) = 2%nat /\
             created s2 = [{| px := 1; py := 0; pz := 0 |};
                           {| px := 1; py := 0; pz := 1 |}]).
  { do 3 eexists.
    split; [vm_compute; reflexivity |].
    split; [vm_compute; reflexivity |].
    split; [vm_compute; reflexivity |].
    split; [vm_compute; reflexivity |].
    split; [vm_compute; reflexivity |].
    split; [vm_compute; reflexivity |].
    split; [vm_compute; reflexivity |].
    split; vm_compute; reflexivity. }
  destruct H0 as (s0 & s1 & s2 & Hrun0 & Hth0 & Hk0 & Hk1 & Hrun1 & Hfair & Hrun2 & Hlen & Hcr).
  assert (Hreach : reachable (F := Q) race_grid s0).
  { apply (run_reachable race_grid race_prelude (initState race_grid 2) s0);
      [apply reach_init | exact Hrun0]. }
  assert (Hout : forall pc, In pc (threads s0) -> outside pc = true).
  { intros pc Hin. rewrite Hth0 in Hin. cbn [In] in Hin.
    destruct Hin as [<- | [<- | []]]; reflexivity. }
  assert (Hp : passed race_grid (hashTable s0) 1099511627777 1).
  { intros i Hi. assert (i = 0%nat) by lia. subst i. rewrite Hk0.
    unfold invalidPackedPos. split; lia. }
  destruct (Lookup_builds_once Q Q_FloatOps {| px := 4; py := 4; pz := 4 |} race_grid)
    as [_ Hlive]; [reflexivity |].
  destruct (Hlive s0 s1 s2 1099511627777 1%nat race_calls race_rounds
              Hreach Hout Hkey Hp (or_introl Hk1) Hc Hrun1 Hfair Hlen7 Hrun2)
    as (_ & Hret).
  destruct (Hret 0%nat ((3 # 10)%Q, (1 # 10)%Q, (3 # 10)%Q))
    as (d0 & T0 & R0 & C0 & U0);
    [now left |].
  destruct (Hret 1%nat ((4 # 10)%Q, (2 # 10)%Q, (4 # 10)%Q)) as (d1 & T1 & R1 & _);
    [right; now left |].
  rewrite (U0 d1 R1) in T1.
  exists s0, s2, d0. split; [exact Hrun0 |].
  split; [rewrite run_app, Hrun1; exact Hrun2 |].
  split; [| split; [exact Hcr | exact C0]].
  destruct (threads s2) as [| a [| b [| c l]]]; try discriminate Hlen.
  cbn in T0, T1. congruence.
Defined.

(* ================================================================== *)
(** * Part III. Further properties of the code *)
(* ================================================================== *)

(** Order facts between rational literals, and membership in a list
    written out. *)
Ltac q_order := unfold Qle, Qlt; cbn; lia.

Ltac in_list H :=
  cbn [In] in H;
  repeat match goal with
         | H' : _ \/ _ |- _ => destruct H' as [H' | H']
         | H' : False |- _ => contradiction
         | H' : (_, _) = (_, _) |- _ => injection H' as <- <-
         end;
  try subst.

(** ** Sampling a Distribution1D *)

Lemma antitone_below (pred : Z -> bool) (n : nat) :
  (forall i, 0 <= i -> i + 1 < Z.of_nat n -> pred (i + 1) = true -> pred i = true) ->
  forall m : nat, (m < n)%nat -> pred (Z.of_nat m) = true ->
    forall i, 0 <= i <= Z.of_nat m -> pred i = true.
Proof.
  intros Hstep. induction m as [| m IH]; intros Hm Hp i Hi.
  - replace i with 0 by lia. exact Hp.
  - destruct (Z.eq_dec i (Z.of_nat (S m))) as [-> | Hne]; [exact Hp |].
    apply IH; try lia.
    apply Hstep; try lia.
    replace (Z.of_nat m + 1) with (Z.of_nat (S m)) by lia. exact Hp.
Qed.

(** A test that, once false, stays false holds exactly below some index. *)
Lemma prefix_pred (pred : Z -> bool) :
  forall n : nat,
    (forall i, 0 <= i -> i + 1 < Z.of_nat n -> pred (i + 1) = true -> pred i = true) ->
    exists k, 0 <= k <= Z.of_nat n /\
              forall i, 0 <= i < Z.of_nat n -> pred i = (i <? k).
Proof.
  induction n as [| n IH]; intros Hstep.
  - exists 0. split; [lia |]. intros i Hi. cbn in Hi. lia.
  - destruct (pred (Z.of_nat n)) eqn:E.
    + exists (Z.of_nat (S n)). split; [lia |]. intros i Hi.
      rewrite (antitone_below pred (S n) Hstep n) by (lia || assumption).
      symmetry. apply Z.ltb_lt. lia.
    + destruct IH as (k & Hk & Hp).
      { intros i Hi Hi'. apply Hstep; lia. }
      exists k. split; [lia |]. intros i Hi.
      destruct (Z.eq_dec i (Z.of_nat n)) as [-> | Hne].
      * rewrite E. symmetry. apply Z.ltb_ge. lia.
      * apply Hp. lia.
Qed.

Lemma Qsum_nonneg (l : list Q) :
  (forall x, In x l -> (0 <= x)%Q) -> (0 <= Qsum l)%Q.
Proof.
  induction l as [| x l IH]; intros H.
  - rewrite Qsum_nil. lra.
  - rewrite Qsum_cons.
    assert (0 <= x)%Q by (apply H; now left).
    assert (0 <= Qsum l)%Q by (apply IH; intros y Hy; apply H; now right).
    lra.
Qed.

Lemma funcInt_nonneg (f : list Q) :
  f <> [] -> (forall x, In x f -> (0 <= x)%Q) ->
  (0 <= funcInt (mkDistribution1D f))%Q.
Proof.
  intros Hne Hpos. rewrite funcInt_closed.
  assert (Hn : 0 < Z.of_nat (length f)) by (destruct f; [congruence | cbn; lia]).
  pose proof (inject_Z_pos _ Hn) as HnQ.
  apply Qle_shift_div_l; [assumption |].
  rewrite Qmult_0_l. now apply Qsum_nonneg.
Qed.

(** The step of the finished table when the integral is not zero. *)
Lemma mk_cdf_diff_Q (f : list Q) (i : Z) :
  ~ (funcInt (mkDistribution1D f) == 0)%Q ->
  0 <= i < Z.of_nat (length f) ->
  (at_ (cdf (mkDistribution1D f)) (i + 1) - at_ (cdf (mkDistribution1D f)) i
   == at_ f i / inject_Z (Z.of_nat (length f)) / funcInt (mkDistribution1D f))%Q.
Proof.
  intros H0 Hi.
  assert (Hn : 0 < Z.of_nat (length f)) by lia.
  pose proof (inject_Z_pos _ Hn) as HnQ.
  rewrite (mk_cdf_scaled_Q f (i + 1) H0), (mk_cdf_scaled_Q f i H0) by lia.
  rewrite (cdf_integral_step f (i + 1)) by lia. qops.
  replace (i + 1 - 1) with i by lia.
  field. split; [lra | exact H0].
Qed.

(** With non-negative values the finished table does not decrease. *)
Lemma mk_cdf_mono_Q (f : list Q) (i : Z) :
  (forall x, In x f -> (0 <= x)%Q) ->
  0 <= i < Z.of_nat (length f) ->
  (at_ (cdf (mkDistribution1D f)) i <= at_ (cdf (mkDistribution1D f)) (i + 1))%Q.
Proof.
  intros Hpos Hi.
  assert (Hne : f <> []) by (destruct f; [cbn in Hi; lia | discriminate]).
  assert (Hn : 0 < Z.of_nat (length f)) by lia.
  pose proof (inject_Z_pos _ Hn) as HnQ.
  destruct (Qeq_dec (funcInt (mkDistribution1D f)) 0) as [H0 | H0].
  - rewrite !mk_cdf_uniform_Q by (assumption || lia).
    apply Qmult_le_compat_r.
    + rewrite <- Zle_Qle. lia.
    + apply Qlt_le_weak. now apply Qinv_lt_0_compat.
  - pose proof (mk_cdf_diff_Q f i H0 Hi) as Hd.
    pose proof (funcInt_nonneg f Hne Hpos) as Hf.
    assert (Hf' : (0 < funcInt (mkDistribution1D f))%Q) by lra.
    assert (Hx : (0 <= at_ f i)%Q) by (apply Hpos, at_In; lia).
    assert (Hq : (0 <= at_ f i / inject_Z (Z.of_nat (length f))
                       / funcInt (mkDistribution1D f))%Q).
    { apply Qle_shift_div_l; [assumption |]. rewrite Qmult_0_l.
      apply Qle_shift_div_l; [assumption |]. now rewrite Qmult_0_l. }
    lra.
Qed.

(** The interval [SampleDiscrete] and [SampleContinuous] select: for
    non-negative values and u in [0,1) it is an index of the function whose
    table entries bracket u. *)
Lemma sample_bracket (f : list Q) (u : Q) :
  f <> [] -> (forall x, In x f -> (0 <= x)%Q) ->
  (0 <= u)%Q -> (u < 1)%Q ->
  let d := mkDistribution1D f in
  let offset := FindInterval (Z.of_nat (length (cdf d)))
                  (fun index => fleb (at_ (cdf d) index) u) in
  0 <= offset < Z.of_nat (length f) /\
  (at_ (cdf d) offset <= u)%Q /\ (u < at_ (cdf d) (offset + 1))%Q.
Proof.
  intros Hne Hpos Hu0 Hu1 d offset.
  assert (Hn : 0 < Z.of_nat (length f)) by (destruct f; [congruence | cbn; lia]).
  assert (Hlen : length (cdf d) = S (length f)) by apply mk_cdf_length.
  destruct (prefix_pred (fun index => fleb (at_ (cdf d) index) u) (length (cdf d)))
    as (k & Hk & Hp).
  { intros i Hi Hi' H. qops. apply Qle_bool_iff in H. apply Qle_bool_iff.
    apply Qle_trans with (at_ (cdf d) (i + 1)); [| exact H].
    apply mk_cdf_mono_Q; [exact Hpos | lia]. }
  cbv beta in Hp. qops.
  assert (H0 : Qle_bool (at_ (cdf d) 0) u = true).
  { apply Qle_bool_iff. unfold d. rewrite mk_cdf_zero. exact Hu0. }
  assert (H1 : Qle_bool (at_ (cdf d) (Z.of_nat (length f))) u = false).
  { destruct (Qle_bool (at_ (cdf d) (Z.of_nat (length f))) u) eqn:E; [| reflexivity].
    apply Qle_bool_iff in E. unfold d in E. rewrite mk_cdf_last in E by assumption.
    lra. }
  rewrite Hp in H0 by lia. rewrite Hp in H1 by lia.
  apply Z.ltb_lt in H0. apply Z.ltb_ge in H1.
  assert (Hoff : offset = k - 1).
  { unfold offset. rewrite (FindInterval_sorted _ _ k Hk Hp).
    unfold Clamp. rewrite Hlen.
    replace (k - 1 <? 0) with false by (symmetry; apply Z.ltb_ge; lia).
    replace (k - 1 >? Z.of_nat (S (length f)) - 2) with false
      by (symmetry; rewrite Z.gtb_ltb; apply Z.ltb_ge; lia).
    reflexivity. }
  rewrite Hoff. split; [lia |]. split.
  - apply Qle_bool_iff. rewrite Hp by lia. apply Z.ltb_lt. lia.
  - apply Qnot_le_lt. intros H. apply Qle_bool_iff in H.
    rewrite Hp in H by lia. apply Z.ltb_lt in H. lia.
Qed.

Lemma map_seq_nth {A B : Type} (g : A -> B) (d : A) (l : list A) :
  map (fun i => g (nth i l d)) (seq 0 (length l)) = map g l.
Proof.
  induction l as [| x l IH]; [reflexivity |].
  cbn [length seq map nth]. f_equal.
  rewrite <- seq_shift, map_map. exact IH.
Qed.

Lemma Qsum_map_div (c : Q) (l : list Q) :
  (Qsum (map (fun x => x / c) l) == Qsum l / c)%Q.
Proof.
  induction l as [| x l IH]; cbn [map].
  - rewrite Qsum_nil. unfold Qdiv. ring.
  - rewrite !Qsum_cons, IH. unfold Qdiv. ring.
Qed.

Lemma funcInt_nonzero_nonempty (f : list Q) :
  ~ (funcInt (mkDistribution1D f) == 0)%Q -> f <> [].
Proof. intros H ->. apply H. reflexivity. Qed.

(** X1.  [Distribution1D::DiscretePDF] on a distribution whose integral is
    not zero, in exact arithmetic: the call aborts exactly on the indices
    outside [0, n), and the n values it returns on [0, n) sum to 1 (and are
    non-negative when the function values are). *)
Theorem Distribution1D_DiscretePDF_normalised (f : list Q) :
  ~ (funcInt (mkDistribution1D f) == 0)%Q ->
  let d := mkDistribution1D f in
  (forall index,
     Distribution1D_DiscretePDF d index = None <->
     ~ (0 <= index < Z.of_nat (length f))) /\
  exists ps,
    map (fun i => Distribution1D_DiscretePDF d (Z.of_nat i)) (seq 0 (length f))
    = map Some ps /\
    (Qsum ps == 1)%Q /\
    ((forall x, In x f -> (0 <= x)%Q) -> forall p, In p ps -> (0 <= p)%Q).
Proof.
  intros H0 d.
  pose proof (funcInt_nonzero_nonempty f H0) as Hne.
  assert (Hn : 0 < Z.of_nat (length f)) by (destruct f; [congruence | cbn; lia]).
  pose proof (inject_Z_pos _ Hn) as HnQ.
  split.
  - intros index. unfold Distribution1D_DiscretePDF, Distribution1D_Count.
    cbn [func d mkDistribution1D].
    destruct ((0 <=? index) && (index <? Z.of_nat (length f))) eqn:E; cbn [CHECK bind].
    + apply andb_true_iff in E. destruct E as [E1 E2].
      apply Z.leb_le in E1. apply Z.ltb_lt in E2.
      split; [discriminate | intros H; exfalso; apply H; lia].
    + split; [| reflexivity]. intros _ [H1 H2].
      apply Z.leb_le in H1. apply Z.ltb_lt in H2. rewrite H1, H2 in E. discriminate.
  - set (c := (funcInt d * inject_Z (Z.of_nat (length f)))%Q).
    exists (map (fun x => x / c)%Q f). split; [| split].
    + rewrite map_map. rewrite <- (map_seq_nth (fun x => Some (x / c)%Q) 0%Q f).
      apply map_ext_in. intros i Hi. apply in_seq in Hi.
      unfold Distribution1D_DiscretePDF, Distribution1D_Count.
      cbn [func d mkDistribution1D].
      replace ((0 <=? Z.of_nat i) && (Z.of_nat i <? Z.of_nat (length f))) with true
        by (symmetry; apply andb_true_iff; split;
            [apply Z.leb_le | apply Z.ltb_lt]; lia).
      cbn [CHECK bind]. unfold at_. rewrite Nat2Z.id. reflexivity.
    + rewrite Qsum_map_div. unfold c, d. rewrite funcInt_closed.
      rewrite funcInt_closed in H0.
      assert (Hs : ~ (Qsum f == 0)%Q).
      { intros Hs. apply H0. rewrite Hs. unfold Qdiv. ring. }
      field. split; [lra | exact Hs].
    + intros Hpos p Hp. apply in_map_iff in Hp. destruct Hp as (x & <- & Hx).
      pose proof (funcInt_nonneg f Hne Hpos) as Hf.
      assert (Hc : (0 < c)%Q).
      { unfold c. apply Qmult_lt_0_compat; [fold d in Hf; fold d in H0; lra | exact HnQ]. }
      apply Qle_shift_div_l; [exact Hc |]. rewrite Qmult_0_l. now apply Hpos.
Qed.

Lemma Distribution1D_DiscretePDF_normalised_witness :
  exists ps,
    map (fun i => Distribution1D_DiscretePDF (mkDistribution1D [1; 3]%Q) (Z.of_nat i))
        (seq 0 2) = map Some ps /\
    (Qsum ps == 1)%Q.
Proof.
  destruct (Distribution1D_DiscretePDF_normalised [1; 3]%Q) as (_ & ps & H1 & H2 & _).
  - vm_compute. discriminate.
  - exists ps. split; assumption.
Defined.

(** X2.  [Distribution1D::SampleDiscrete] in exact arithmetic, for
    non-negative function values with a positive integral and u in [0,1):
    the returned index [offset] is an index of the function with
    [cdf[offset] <= u < cdf[offset+1]]; the pdf written is
    [DiscretePDF(offset)], it equals the width [cdf[offset+1] - cdf[offset]]
    of the interval of u that selects the index, and it is positive: an
    index whose function value is 0 is never returned. *)
Theorem Distribution1D_SampleDiscrete_in_cdf_interval (f : list Q) (u : Q) :
  (forall x, In x f -> (0 <= x)%Q) ->
  (0 < funcInt (mkDistribution1D f))%Q ->
  (0 <= u)%Q -> (u < 1)%Q ->
  let d := mkDistribution1D f in
  exists offset p,
    Distribution1D_SampleDiscrete d u true false
    = Some {| sampled := offset; sample_pdf := Some p; sample_uRemapped := None |} /\
    0 <= offset < Z.of_nat (length f) /\
    (at_ (cdf d) offset <= u)%Q /\ (u < at_ (cdf d) (offset + 1))%Q /\
    Distribution1D_DiscretePDF d offset = Some p /\
    (p == at_ (cdf d) (offset + 1) - at_ (cdf d) offset)%Q /\
    (0 < p)%Q /\ (0 < at_ f offset)%Q.
Proof.
  intros Hpos Hf Hu0 Hu1 d.
  assert (H0 : ~ (funcInt (mkDistribution1D f) == 0)%Q) by lra.
  pose proof (funcInt_nonzero_nonempty f H0) as Hne.
  assert (Hn : 0 < Z.of_nat (length f)) by (destruct f; [congruence | cbn; lia]).
  pose proof (inject_Z_pos _ Hn) as HnQ.
  destruct (sample_bracket f u Hne Hpos Hu0 Hu1) as (Hoff & Hlo & Hhi).
  fold d in Hlo, Hhi, Hoff.
  set (offset := FindInterval (Z.of_nat (length (cdf d)))
                   (fun index => fleb (at_ (cdf d) index) u)) in *.
  pose proof (mk_cdf_diff_Q f offset H0 Hoff) as Hd. fold d in Hd, Hf.
  set (p := (at_ f offset / (funcInt d * inject_Z (Z.of_nat (length f))))%Q).
  assert (Hp : (p == at_ (cdf d) (offset + 1) - at_ (cdf d) offset)%Q).
  { rewrite Hd. unfold p. field. split; lra. }
  exists offset, p. split; [| split; [exact Hoff | split; [exact Hlo | split; [exact Hhi |]]]].
  - unfold Distribution1D_SampleDiscrete. fold offset.
    replace (fltb fzero (funcInt d)) with true
      by (symmetry; qops; apply Qltb_lt; exact Hf).
    reflexivity.
  - split; [| split; [exact Hp | split]].
    + unfold Distribution1D_DiscretePDF, Distribution1D_Count.
      cbn [func d mkDistribution1D].
      replace ((0 <=? offset) && (offset <? Z.of_nat (length f))) with true
        by (symmetry; apply andb_true_iff; split;
            [apply Z.leb_le | apply Z.ltb_lt]; lia).
      reflexivity.
    + lra.
    + assert (Hpp : (0 < p)%Q) by lra.
      unfold p in Hpp.
      assert (Hc : (0 < funcInt d * inject_Z (Z.of_nat (length f)))%Q)
        by (apply Qmult_lt_0_compat; assumption).
      assert (E : (at_ f offset
                   == at_ f offset / (funcInt d * inject_Z (Z.of_nat (length f)))
                      * (funcInt d * inject_Z (Z.of_nat (length f))))%Q)
        by (field; split; lra).
      rewrite E. apply Qmult_lt_0_compat; assumption.
Qed.

Lemma Distribution1D_SampleDiscrete_in_cdf_interval_witness :
  exists offset p,
    Distribution1D_SampleDiscrete (mkDistribution1D [1; 3]%Q) (1 # 2)%Q true false
    = Some {| sampled := offset; sample_pdf := Some p; sample_uRemapped := None |} /\
    (0 < p)%Q.
Proof.
  destruct (Distribution1D_SampleDiscrete_in_cdf_interval [1; 3]%Q (1 # 2)%Q)
    as (offset & p & Hs & _ & _ & _ & _ & _ & Hp & _).
  - intros x Hx. in_list Hx; q_order.
  - vm_compute. reflexivity.
  - q_order.
  - q_order.
  - exists offset, p. split; assumption.
Defined.

(** X3.  [Distribution1D::SampleDiscrete] with [uRemapped] requested, in
    exact arithmetic, for non-negative function values and u in [0,1): the
    check on [*uRemapped] passes, the value written lies in [0,1), and u is
    recovered from it: [u = cdf[offset] + uRemapped * (cdf[offset+1] -
    cdf[offset])]. *)
Theorem Distribution1D_SampleDiscrete_uRemapped (f : list Q) (u : Q) :
  f <> [] -> (forall x, In x f -> (0 <= x)%Q) ->
  (0 <= u)%Q -> (u < 1)%Q ->
  let d := mkDistribution1D f in
  exists offset r,
    Distribution1D_SampleDiscrete d u false true
    = Some {| sampled := offset; sample_pdf := None; sample_uRemapped := Some r |} /\
    0 <= offset < Z.of_nat (length f) /\
    (0 <= r)%Q /\ (r < 1)%Q /\
    (u == at_ (cdf d) offset
          + r * (at_ (cdf d) (offset + 1) - at_ (cdf d) offset))%Q.
Proof.
  intros Hne Hpos Hu0 Hu1 d.
  destruct (sample_bracket f u Hne Hpos Hu0 Hu1) as (Hoff & Hlo & Hhi).
  fold d in Hlo, Hhi, Hoff.
  set (offset := FindInterval (Z.of_nat (length (cdf d)))
                   (fun index => fleb (at_ (cdf d) index) u)) in *.
  set (c0 := at_ (cdf d) offset) in *. set (c1 := at_ (cdf d) (offset + 1)) in *.
  set (r := ((u - c0) / (c1 - c0))%Q).
  assert (Hw : (0 < c1 - c0)%Q) by lra.
  assert (Hr0 : (0 <= r)%Q).
  { unfold r. apply Qle_shift_div_l; [exact Hw |]. lra. }
  assert (Hr1 : (r < 1)%Q).
  { unfold r. apply Qlt_shift_div_r; [exact Hw |]. lra. }
  exists offset, r. split; [| split; [exact Hoff | split; [exact Hr0 | split; [exact Hr1 |]]]].
  - unfold Distribution1D_SampleDiscrete. fold offset. fold c0. fold c1. qops. fold r.
    replace (Qle_bool 0 r && Qle_bool r 1) with true; [reflexivity |].
    symmetry. apply andb_true_iff. split; apply Qle_bool_iff; lra.
  - subst r c0 c1. field. lra.
Qed.

Lemma Distribution1D_SampleDiscrete_uRemapped_witness :
  exists offset r,
    Distribution1D_SampleDiscrete (mkDistribution1D [1; 3]%Q) (1 # 2)%Q false true
    = Some {| sampled := offset; sample_pdf := None; sample_uRemapped := Some r |} /\
    (0 <= r)%Q /\ (r < 1)%Q.
Proof.
  destruct (Distribution1D_SampleDiscrete_uRemapped [1; 3]%Q (1 # 2)%Q)
    as (offset & r & Hs & _ & Hr0 & Hr1 & _).
  - discriminate.
  - intros x Hx. in_list Hx; q_order.
  - q_order.
  - q_order.
  - exists offset, r. repeat split; assumption.
Defined.

(** X4.  [Distribution1D::SampleContinuous] in exact arithmetic, for
    non-negative function values and u in [0,1): the call returns (the
    [CHECK_GT] passes), the returned x lies in the bucket of the selected
    index, [offset/n <= x < (offset+1)/n], hence in [0,1); the pdf written
    is [func[offset] / funcInt], which is n times the width of the cdf
    interval, when the integral is positive, and 0 when the integral is 0. *)
Theorem Distribution1D_SampleContinuous_in_bucket (f : list Q) (u : Q) :
  f <> [] -> (forall x, In x f -> (0 <= x)%Q) ->
  (0 <= u)%Q -> (u < 1)%Q ->
  let d := mkDistribution1D f in
  let n := inject_Z (Z.of_nat (length f)) in
  exists x pdf offset,
    Distribution1D_SampleContinuous d u = Some (x, pdf, offset) /\
    0 <= offset < Z.of_nat (length f) /\
    (at_ (cdf d) offset <= u)%Q /\ (u < at_ (cdf d) (offset + 1))%Q /\
    (inject_Z offset / n <= x)%Q /\ (x < (inject_Z offset + 1) / n)%Q /\
    (0 <= x)%Q /\ (x < 1)%Q /\
    ((0 < funcInt d)%Q ->
     (pdf == at_ f offset / funcInt d)%Q /\
     (pdf == n * (at_ (cdf d) (offset + 1) - at_ (cdf d) offset))%Q) /\
    ((funcInt d == 0)%Q -> (pdf == 0)%Q).
Proof.
  intros Hne Hpos Hu0 Hu1 d n.
  assert (Hn : 0 < Z.of_nat (length f)) by (destruct f; [congruence | cbn; lia]).
  pose proof (inject_Z_pos _ Hn) as HnQ. fold n in HnQ.
  destruct (sample_bracket f u Hne Hpos Hu0 Hu1) as (Hoff & Hlo & Hhi).
  fold d in Hlo, Hhi, Hoff.
  set (offset := FindInterval (Z.of_nat (length (cdf d)))
                   (fun index => fleb (at_ (cdf d) index) u)) in *.
  set (c0 := at_ (cdf d) offset) in *. set (c1 := at_ (cdf d) (offset + 1)) in *.
  set (r := ((u - c0) / (c1 - c0))%Q).
  assert (Hw : (0 < c1 - c0)%Q) by lra.
  assert (Hr0 : (0 <= r)%Q).
  { unfold r. apply Qle_shift_div_l; [exact Hw |]. lra. }
  assert (Hr1 : (r < 1)%Q).
  { unfold r. apply Qlt_shift_div_r; [exact Hw |]. lra. }
  assert (Ho0 : (0 <= inject_Z offset)%Q).
  { change 0%Q with (inject_Z 0). rewrite <- Zle_Qle. lia. }
  assert (Ho1 : (inject_Z offset + 1 <= n)%Q).
  { unfold n. change 1%Q with (inject_Z 1). rewrite <- inject_Z_plus, <- Zle_Qle. lia. }
  eexists _, _, offset. split.
  - unfold Distribution1D_SampleContinuous. fold offset. fold c0. fold c1. qops.
    replace (Qltb 0 (c1 - c0)) with true by (symmetry; apply Qltb_lt; exact Hw).
    replace (Qltb c0 c1) with true by (symmetry; apply Qltb_lt; lra).
    cbn [CHECK bind]. fold r. reflexivity.
  - split; [exact Hoff |]. split; [exact Hlo |]. split; [exact Hhi |].
    unfold Distribution1D_Count. cbn [func d mkDistribution1D]. fold n.
    split; [| split; [| split; [| split; [| split]]]].
    + apply Qmult_le_compat_r; [lra |].
      apply Qlt_le_weak. now apply Qinv_lt_0_compat.
    + apply Qmult_lt_compat_r; [now apply Qinv_lt_0_compat | lra].
    + apply Qle_shift_div_l; [exact HnQ |]. lra.
    + apply Qlt_shift_div_r; [exact HnQ |]. lra.
    + intros Hf.
      replace (Qltb 0 (funcInt d)) with true
        by (symmetry; apply Qltb_lt; exact Hf).
      split; [reflexivity |].
      assert (H0 : ~ (funcInt (mkDistribution1D f) == 0)%Q) by (fold d; lra).
      pose proof (mk_cdf_diff_Q f offset H0 Hoff) as Hd. fold d in Hd.
      subst c0 c1. rewrite Hd. unfold n. fold d. unfold n in HnQ. field. split; lra.
    + intros H0.
      replace (Qltb 0 (funcInt d)) with false
        by (symmetry; apply Qltb_ge; lra).
      reflexivity.
Qed.

Lemma Distribution1D_SampleContinuous_in_bucket_witness :
  exists x pdf offset,
    Distribution1D_SampleContinuous (mkDistribution1D [1; 3]%Q) (1 # 2)%Q
    = Some (x, pdf, offset) /\
    (0 <= x)%Q /\ (x < 1)%Q.
Proof.
  destruct (Distribution1D_SampleContinuous_in_bucket [1; 3]%Q (1 # 2)%Q)
    as (x & pdf & offset & Hs & _ & _ & _ & _ & _ & Hx0 & Hx1 & _).
  - discriminate.
  - intros x Hx. in_list Hx; q_order.
  - q_order.
  - q_order.
  - exists x, pdf, offset. repeat split; assumption.
Defined.


(** ** Light distributions over the whole scene and per voxel *)

Lemma Qsum_repeat (x : Q) (k : nat) :
  (Qsum (repeat x k) == inject_Z (Z.of_nat k) * x)%Q.
Proof.
  induction k as [| k IH].
  - cbn [repeat]. rewrite Qsum_nil. cbn. ring.
  - cbn [repeat]. rewrite Qsum_cons, IH.
    replace (Z.of_nat (S k)) with (Z.of_nat k + 1) by lia.
    rewrite inject_Z_plus. ring.
Qed.

Lemma firstn_repeat_le {A : Type} (x : A) (i n : nat) :
  (i <= n)%nat -> firstn i (repeat x n) = repeat x i.
Proof.
  revert n. induction i as [| i IH]; intros n Hi; [reflexivity |].
  destruct n as [| n]; [lia |]. cbn [repeat firstn]. f_equal. apply IH. lia.
Qed.

Lemma uniform_funcInt (n : nat) :
  (0 < n)%nat -> (funcInt (UniformLightDistribution (F := Q) n) == 1)%Q.
Proof.
  intros Hn. unfold UniformLightDistribution. rewrite funcInt_closed.
  rewrite Qsum_repeat, repeat_length. qops.
  assert (0 < inject_Z (Z.of_nat n))%Q by (apply inject_Z_pos; lia).
  field. lra.
Qed.

Lemma uniform_cdf (n : nat) (i : Z) :
  (0 < n)%nat -> 0 <= i <= Z.of_nat n ->
  (at_ (cdf (UniformLightDistribution (F := Q) n)) i
   == inject_Z i / inject_Z (Z.of_nat n))%Q.
Proof.
  intros Hn Hi.
  pose proof (uniform_funcInt n Hn) as Hf.
  assert (HnQ : (0 < inject_Z (Z.of_nat n))%Q) by (apply inject_Z_pos; lia).
  unfold UniformLightDistribution in *.
  rewrite mk_cdf_scaled_Q; [| lra | rewrite repeat_length; lia].
  rewrite Hf.
  replace i with (Z.of_nat (Z.to_nat i)) at 1 by lia.
  rewrite cdf_integral_closed by (rewrite repeat_length; lia).
  rewrite firstn_repeat_le by lia. rewrite Qsum_repeat, repeat_length. qops.
  rewrite Z2Nat.id by lia. field. lra.
Qed.

(** X14.  [UniformLightDistribution] over n > 0 lights, in exact
    arithmetic: [DiscretePDF] is 1/n at every light, and [SampleDiscrete(u)]
    for u in [0,1) returns the light [floor(u * n)] with pdf 1/n. *)
Theorem UniformLightDistribution_is_uniform (n : nat) (u : Q) :
  (0 < n)%nat -> (0 <= u)%Q -> (u < 1)%Q ->
  let d := UniformLightDistribution n in
  (forall i, 0 <= i < Z.of_nat n ->
     exists p, Distribution1D_DiscretePDF d i = Some p /\
               (p == 1 / inject_Z (Z.of_nat n))%Q) /\
  exists p,
    Distribution1D_SampleDiscrete d u true false
    = Some {| sampled := Qfloor (u * inject_Z (Z.of_nat n));
              sample_pdf := Some p; sample_uRemapped := None |} /\
    (p == 1 / inject_Z (Z.of_nat n))%Q.
Proof.
  intros Hn Hu0 Hu1 d.
  pose proof (uniform_funcInt n Hn) as Hf. fold d in Hf.
  assert (HnQ : (0 < inject_Z (Z.of_nat n))%Q) by (apply inject_Z_pos; lia).
  assert (Hone : forall x, In x (repeat 1%Q n) -> (0 <= x)%Q).
  { intros x Hx. apply repeat_spec in Hx. subst x. lra. }
  assert (Hpdf : forall i, 0 <= i < Z.of_nat n ->
            exists p, Distribution1D_DiscretePDF d i = Some p /\
                      (p == 1 / inject_Z (Z.of_nat n))%Q).
  { intros i Hi. unfold Distribution1D_DiscretePDF, Distribution1D_Count.
    cbn [func d UniformLightDistribution mkDistribution1D].
    rewrite repeat_length.
    replace ((0 <=? i) && (i <? Z.of_nat n)) with true
      by (symmetry; apply andb_true_iff; split;
          [apply Z.leb_le | apply Z.ltb_lt]; lia).
    cbn [CHECK bind]. eexists. split; [reflexivity |].
    change (funcInt (mkDistribution1D (repeat fone n))) with (funcInt d).
    qops. rewrite Hf. unfold at_. rewrite nth_repeat_lt by lia. field. lra. }
  split; [exact Hpdf |].
  assert (Hne : repeat 1%Q n <> []) by (destruct n; [lia | discriminate]).
  destruct (sample_bracket (repeat 1%Q n) u Hne Hone Hu0 Hu1) as (Hoff & Hlo & Hhi).
  rewrite repeat_length in Hoff.
  change (mkDistribution1D (repeat 1%Q n)) with d in *.
  set (offset := FindInterval (Z.of_nat (length (cdf d)))
                   (fun index => fleb (at_ (cdf d) index) u)) in *.
  assert (Hs : Distribution1D_SampleDiscrete d u true false
               = Some {| sampled := offset;
                         sample_pdf := Some (at_ (func d) offset
                                             / (funcInt d * inject_Z (Distribution1D_Count d)))%Q;
                         sample_uRemapped := None |}).
  { unfold Distribution1D_SampleDiscrete. fold offset.
    replace (fltb fzero (funcInt d)) with true
      by (symmetry; qops; apply Qltb_lt; lra).
    reflexivity. }
  assert (Hp : Distribution1D_DiscretePDF d offset
               = Some (at_ (func d) offset
                       / (funcInt d * inject_Z (Distribution1D_Count d)))%Q).
  { unfold Distribution1D_DiscretePDF.
    replace ((0 <=? offset) && (offset <? Distribution1D_Count d)) with true;
      [reflexivity |].
    symmetry. unfold Distribution1D_Count.
    cbn [func d UniformLightDistribution mkDistribution1D]. rewrite repeat_length.
    apply andb_true_iff; split; [apply Z.leb_le | apply Z.ltb_lt]; lia. }
  set (p := (at_ (func d) offset / (funcInt d * inject_Z (Distribution1D_Count d)))%Q) in *.
  unfold d in Hlo, Hhi. rewrite uniform_cdf in Hlo, Hhi by lia.
  assert (Hfl : Qfloor (u * inject_Z (Z.of_nat n)) = offset).
  { assert (H1 : (inject_Z offset <= u * inject_Z (Z.of_nat n))%Q).
    { assert (E : (inject_Z offset
                   == inject_Z offset / inject_Z (Z.of_nat n) * inject_Z (Z.of_nat n))%Q)
        by (field; lra).
      rewrite E. apply Qmult_le_compat_r; lra. }
    assert (H2 : (u * inject_Z (Z.of_nat n) < inject_Z (offset + 1))%Q).
    { assert (E : (inject_Z (offset + 1)
                   == inject_Z (offset + 1) / inject_Z (Z.of_nat n)
                      * inject_Z (Z.of_nat n))%Q)
        by (field; lra).
      rewrite E. apply Qmult_lt_compat_r; lra. }
    apply inject_Z_le_floor in H1.
    assert (H3 : Qfloor (u * inject_Z (Z.of_nat n)) < offset + 1).
    { rewrite Zlt_Qlt. apply Qle_lt_trans with (u * inject_Z (Z.of_nat n))%Q;
        [apply Qfloor_le | exact H2]. }
    lia. }
  exists p. rewrite Hfl. split; [exact Hs |].
  destruct (Hpdf offset Hoff) as (p' & Hp' & Hv). congruence.
Qed.

Lemma UniformLightDistribution_is_uniform_witness :
  exists p,
    Distribution1D_SampleDiscrete (UniformLightDistribution 4) (5 # 8)%Q true false
    = Some {| sampled := Qfloor ((5 # 8) * inject_Z (Z.of_nat 4));
              sample_pdf := Some p; sample_uRemapped := None |} /\
    (p == 1 / inject_Z (Z.of_nat 4))%Q.
Proof.
  apply (UniformLightDistribution_is_uniform 4 (5 # 8)%Q); [lia | q_order | q_order].
Defined.

Section ComputeFacts.

Context {F : Type} {ops : FloatOps F}.
Variable milli : F -> F.
Variable Sample_Li : nat -> nat -> F * F.

Lemma add_sample_length (i : nat) (lc : list F) :
  length (add_sample Sample_Li i lc) = length lc.
Proof.
  unfold add_sample. rewrite length_map, length_combine, length_seq. lia.
Qed.

Lemma sampled_contrib_length (nLights : nat) :
  length (sampled_contrib nLights Sample_Li) = nLights.
Proof.
  unfold sampled_contrib.
  assert (H : forall l lc, length (fold_left (fun lightContrib i =>
                                 add_sample Sample_Li i lightContrib) l lc) = length lc).
  { induction l as [| i l IH]; intros lc; [reflexivity |].
    cbn [fold_left]. rewrite IH. apply add_sample_length. }
  rewrite H. apply repeat_length.
Qed.

Lemma floor_contrib_length (lc : list F) :
  length (floor_contrib milli lc) = length lc.
Proof. unfold floor_contrib. apply length_map. Qed.

End ComputeFacts.

(** In exact arithmetic every weight is at least the floor, and the floor
    is positive. *)
Lemma floor_contrib_positive (lc : list Q) (x : Q) :
  In x (floor_contrib Q_milli lc) -> (0 < x)%Q.
Proof.
  unfold floor_contrib. intros Hx. apply in_map_iff in Hx.
  destruct Hx as (c & <- & _).
  set (avg := fdiv (fold_left fadd lc fzero)
                   (of_int (Z.of_nat nSamples * Z.of_nat (length lc)))).
  assert (Hmin : (0 < (if fltb fzero avg then Q_milli avg else fone))%Q).
  { qops. destruct (Qltb 0 avg) eqn:E.
    - apply Qltb_lt in E. unfold Q_milli. 
      apply Qmult_lt_0_compat; [reflexivity | exact E].
    - reflexivity. }
  set (m := if fltb fzero avg then Q_milli avg else fone) in *.
  unfold fmax. qops. destruct (Qltb c m) eqn:E.
  - exact Hmin.
  - apply Qltb_ge in E. lra.
Qed.

Lemma Qsum_pos (l : list Q) :
  l <> [] -> (forall x, In x l -> (0 < x)%Q) -> (0 < Qsum l)%Q.
Proof.
  intros Hne H. destruct l as [| x l]; [congruence |].
  rewrite Qsum_cons.
  assert (0 < x)%Q by (apply H; now left).
  assert (0 <= Qsum l)%Q.
  { apply Qsum_nonneg. intros y Hy. apply Qlt_le_weak. apply H. now right. }
  lra.
Qed.

(** A distribution over positive values: positive integral and positive
    probabilities. *)
Lemma positive_values_positive_pdf (f : list Q) :
  f <> [] -> (forall x, In x f -> (0 < x)%Q) ->
  (0 < funcInt (mkDistribution1D f))%Q /\
  forall j, 0 <= j < Z.of_nat (length f) ->
    exists p, Distribution1D_DiscretePDF (mkDistribution1D f) j = Some p /\ (0 < p)%Q.
Proof.
  intros Hne Hpos.
  assert (Hn : 0 < Z.of_nat (length f)) by (destruct f; [congruence | cbn; lia]).
  pose proof (inject_Z_pos _ Hn) as HnQ.
  assert (Hf : (0 < funcInt (mkDistribution1D f))%Q).
  { rewrite funcInt_closed. apply Qlt_shift_div_l; [exact HnQ |].
    rewrite Qmult_0_l. now apply Qsum_pos. }
  split; [exact Hf |]. intros j Hj.
  unfold Distribution1D_DiscretePDF, Distribution1D_Count.
  cbn [func mkDistribution1D].
  replace ((0 <=? j) && (j <? Z.of_nat (length f))) with true
    by (symmetry; apply andb_true_iff; split;
        [apply Z.leb_le | apply Z.ltb_lt]; lia).
  cbn [CHECK bind]. eexists. split; [reflexivity |].
  change (at_ (cdf_integral f) (Z.of_nat (length f))) with (funcInt (mkDistribution1D f)).
  qops. apply Qlt_shift_div_l.
  - apply Qmult_lt_0_compat; assumption.
  - rewrite Qmult_0_l. apply Hpos, at_In. lia.
Qed.

(** X15.  [SpatialLightDistribution::ComputeDistribution] in exact
    arithmetic, for a scene with at least one light and whatever the lights
    return from [Sample_Li]: the distribution built has one entry per light,
    every function value and the integral are positive, and [DiscretePDF] is
    positive at every light: no light is left with probability 0. *)
Theorem ComputeDistribution_no_zero_probability
    (nLights : nat) (Sample_Li : nat -> nat -> Q * Q) :
  (0 < nLights)%nat ->
  let d := ComputeDistribution Q_milli nLights Sample_Li in
  Distribution1D_Count d = Z.of_nat nLights /\
  (0 < funcInt d)%Q /\
  forall j, 0 <= j < Z.of_nat nLights ->
    (0 < at_ (func d) j)%Q /\
    exists p, Distribution1D_DiscretePDF d j = Some p /\ (0 < p)%Q.
Proof.
  intros Hn d.
  set (f := floor_contrib Q_milli (sampled_contrib nLights Sample_Li)).
  assert (Hlen : length f = nLights).
  { unfold f. rewrite floor_contrib_length. apply sampled_contrib_length. }
  assert (Hne : f <> []) by (intros E; rewrite E in Hlen; cbn in Hlen; lia).
  assert (Hpos : forall x, In x f -> (0 < x)%Q)
    by (intros x Hx; now apply (floor_contrib_positive _ x Hx)).
  destruct (positive_values_positive_pdf f Hne Hpos) as [Hf Hp].
  change d with (mkDistribution1D f).
  split; [| split; [exact Hf |]].
  - unfold Distribution1D_Count. cbn [func mkDistribution1D]. now rewrite Hlen.
  - intros j Hj. split.
    + cbn [func mkDistribution1D]. apply Hpos, at_In. lia.
    + apply Hp. lia.
Qed.

Lemma ComputeDistribution_no_zero_probability_witness :
  (0 < funcInt (ComputeDistribution Q_milli 2
                  (fun i j => if (j =? 0)%nat then (1, 1)%Q else (0, 0)%Q)))%Q.
Proof.
  assert (Hn : (0 < 2)%nat) by lia.
  exact (proj1 (proj2 (ComputeDistribution_no_zero_probability 2
                         (fun i j => if (j =? 0)%nat then (1, 1)%Q else (0, 0)%Q)
                         Hn))).
Defined.

Lemma Clamp_range (val low high : Z) :
  low <= high -> low <= Clamp val low high <= high.
Proof.
  intros H. unfold Clamp.
  destruct (val <? low) eqn:E1; [lia |].
  destruct (val >? high) eqn:E2; [lia |].
  apply Z.ltb_ge in E1. rewrite Z.gtb_ltb in E2. apply Z.ltb_ge in E2. lia.
Qed.

Section LookupFacts.

Context {F : Type} {ops : FloatOps F}.
Variable r : Point3i.
Variable grid : VoxelGrid.
Hypothesis Hgrid : mkVoxelGrid r = Some grid.

Lemma voxelOf_in_grid (offset : F * F * F) : in_grid grid (voxelOf grid offset).
Proof.
  destruct (mkVoxelGrid_bounds r grid Hgrid) as (Hx & Hy & Hz & _).
  destruct offset as [[ox oy] oz]. unfold voxelOf, in_grid. cbn [px py pz].
  pose proof (Clamp_range (int_of_Float (fmul ox (of_int (px (nVoxels grid))))) 0
                (px (nVoxels grid) - 1)).
  pose proof (Clamp_range (int_of_Float (fmul oy (of_int (py (nVoxels grid))))) 0
                (py (nVoxels grid) - 1)).
  pose proof (Clamp_range (int_of_Float (fmul oz (of_int (pz (nVoxels grid))))) 0
                (pz (nVoxels grid) - 1)).
  lia.
Qed.

End LookupFacts.

(** X16.  [PhotonBasedVoxelLightDistribution::Lookup] on a grid the
    constructor accepts with a table size that fits an [int], in any
    arithmetic and for every offset whose three products
    [offset[i] * nVoxels[i]] lie in the range of [int] (offsets outside
    [0,1] among them): the voxel computed is a voxel of the grid, its
    packed key passes [CHECK_NE] and its hash lies in [0, hashTableSize);
    without interpolation the call returns what [getDistribution] finds for
    that key; with interpolation it returns an InterpolatedDistribution1D
    with between 1 and 8 children and as many weights, the first child
    being the voxel's own distribution. *)
Theorem PhotonVoxel_Lookup_never_aborts
    (F : Type) (ops : FloatOps F) (r : Point3i) (grid : VoxelGrid)
    (getDistribution : Z -> Z -> Distribution1DRef (F := F))
    (offset : F * F * F) :
  mkVoxelGrid r = Some grid ->
  offset_convertible grid offset ->
  let voxelId := voxelOf grid offset in
  in_grid grid voxelId /\
  exists hash,
    calcPackedPosAndHash (hashTableSize grid) voxelId = Some (packPos voxelId, hash) /\
    0 <= hash < hashTableSize grid /\
    PhotonVoxel_Lookup grid getDistribution false offset
    = Some (getDistribution (packPos voxelId) hash) /\
    exists d,
      PhotonVoxel_Lookup grid getDistribution true offset = Some (Interp_ref d) /\
      (1 <= length (distributions d) <= 8)%nat /\
      length (func (interp_base d)) = length (distributions d) /\
      nth 0 (distributions d) no_distribution = getDistribution (packPos voxelId) hash.
Proof.
  intros Hgrid _ voxelId.
  pose proof (voxelOf_in_grid r grid Hgrid offset) as Hin. fold voxelId in Hin.
  split; [exact Hin |].
  pose proof (calcPackedPosAndHash_in_grid r grid voxelId Hgrid Hin) as Hc.
  exists (mixHash (packPos voxelId) (hashTableSize grid)).
  split; [exact Hc |]. split.
  { apply Z.mod_pos_bound. apply (hashTableSize_pos r grid Hgrid). }
  unfold PhotonVoxel_Lookup. fold voxelId. rewrite Hc. cbn [bind].
  split; [reflexivity |].
  destruct (getInterpolatedDistribution_refines r grid Hgrid getDistribution offset
              (packPos voxelId) (mixHash (packPos voxelId) (hashTableSize grid))
              voxelId Hin) as (d & Hd & Hf & Hds & Hl).
  exists d. rewrite Hd. cbn [bind]. split; [reflexivity |].
  assert (Hlen : length (distributions d)
                 = length (stencil_by_axes grid offset voxelId)).
  { rewrite Hds. cbn [length]. rewrite length_map.
    destruct (stencil_by_axes grid offset voxelId) as [| e ws];
      cbn [length map tl] in *; [lia |].
    now rewrite length_map. }
  split; [lia |]. split; [now rewrite Hf, length_map |].
  rewrite Hds. reflexivity.
Qed.

Lemma PhotonVoxel_Lookup_never_aborts_witness :
  offset_convertible race_grid ((3 # 10)%Q, (6 # 10)%Q, (99 # 100)%Q) /\
  in_grid race_grid (voxelOf race_grid ((3 # 10)%Q, (6 # 10)%Q, (99 # 100)%Q)).
Proof.
  assert (Hc : offset_convertible race_grid ((3 # 10)%Q, (6 # 10)%Q, (99 # 100)%Q))
    by (vm_compute; repeat split; reflexivity).
  split; [exact Hc |].
  apply (PhotonVoxel_Lookup_never_aborts Q Q_FloatOps
           {| px := 4; py := 4; pz := 4 |} race_grid
           (fun _ _ => no_distribution)
           ((3 # 10)%Q, (6 # 10)%Q, (99 # 100)%Q)).
  - reflexivity.
  - exact Hc.
Defined.


(** ** The members of SparseDistribution1D *)

Lemma map_insert_fresh {V : Type} (k : Z) (v : V) (m : list (Z * V)) :
  map_find k m = None -> map_insert k v m = m ++ [(k, v)].
Proof.
  induction m as [| [k' v'] m IH]; cbn; [reflexivity |].
  destruct (k =? k') eqn:E; [discriminate |]. intros H. now rewrite IH.
Qed.

Lemma map_find_app_None {V : Type} (k : Z) (m m' : list (Z * V)) :
  map_find k m = None -> map_find k (m ++ m') = map_find k m'.
Proof.
  induction m as [| [k' v'] m IH]; cbn; [reflexivity |].
  destruct (k =? k'); [discriminate | exact IH].
Qed.

Lemma index_from_find (ks : list Z) :
  forall (i k j : Z),
    map_find k (index_from i ks) = Some j ->
    exists n : nat, j = i + Z.of_nat n /\ nth_error ks n = Some k.
Proof.
  induction ks as [| k0 ks IH]; intros i k j; cbn [index_from map_find];
    [discriminate |].
  destruct (k =? k0) eqn:E.
  - apply Z.eqb_eq in E. subst k0. intros [= <-]. exists 0%nat. split; [lia | reflexivity].
  - intros H. destruct (IH _ _ _ H) as (n & -> & Hn).
    exists (S n). split; [lia | exact Hn].
Qed.

Lemma index_from_nth (ks : list Z) :
  forall (i : Z) (n : nat) (k : Z),
    NoDup ks -> nth_error ks n = Some k ->
    map_find k (index_from i ks) = Some (i + Z.of_nat n).
Proof.
  induction ks as [| k0 ks IH]; intros i n k Hnd Hn.
  - destruct n; discriminate.
  - inversion Hnd as [| ? ? Hnin Hnd']; subst. cbn [index_from map_find].
    destruct n as [| n].
    + injection Hn as ->. rewrite Z.eqb_refl. f_equal. lia.
    + cbn [nth_error] in Hn.
      destruct (k =? k0) eqn:E.
      * apply Z.eqb_eq in E. subst k0. exfalso. apply Hnin.
        eapply nth_error_In. exact Hn.
      * rewrite (IH (i + 1) n k Hnd' Hn). f_equal. lia.
Qed.

Lemma index_from_None (ks : list Z) :
  forall (i k : Z), ~ In k ks -> map_find k (index_from i ks) = None.
Proof.
  induction ks as [| k0 ks IH]; intros i k Hk; [reflexivity |].
  cbn [index_from map_find].
  destruct (k =? k0) eqn:E.
  - apply Z.eqb_eq in E. subst k0. exfalso. apply Hk. now left.
  - apply IH. intros H. apply Hk. now right.
Qed.

Section SparseShape.

Context {F : Type} {ops : FloatOps F}.

Lemma kept_keys_NoDup (kvs : list (Z * F)) :
  NoDup (map fst kvs) -> NoDup (map fst (kept_entries kvs)).
Proof.
  induction kvs as [| [k v] kvs IH]; intros Hnd; [constructor |].
  inversion Hnd as [| ? ? Hnin Hnd']; subst.
  cbn [kept_entries filter snd]. fold (kept_entries kvs).
  destruct (fltb fzero v); [| now apply IH].
  cbn [map fst]. constructor; [| now apply IH].
  intros H. apply Hnin. apply in_map_iff in H. destruct H as ([k0 v0] & <- & H).
  apply filter_In in H. destruct H as [H _]. now apply in_map.
Qed.

(** The three containers after the loop of [createSparseDistribution1D],
    exactly. *)
Lemma collect_contrib_shape (kvs : list (Z * F)) :
  forall (i : Z) (bm : list (Z * Z)) (sm : list Z) (contrib : list F),
    NoDup (map fst kvs) ->
    (forall k, In k (map fst kvs) -> map_find k bm = None) ->
    collect_contrib kvs i bm sm contrib
    = (bm ++ index_from i (map fst (kept_entries kvs)),
       sm ++ map fst (kept_entries kvs),
       contrib ++ map snd (kept_entries kvs)).
Proof.
  induction kvs as [| [k v] kvs IH]; intros i bm sm contrib Hnd Hfresh.
  - cbn. now rewrite !app_nil_r.
  - inversion Hnd as [| ? ? Hnin Hnd']; subst.
    cbn [collect_contrib kept_entries filter snd]. fold (kept_entries kvs).
    destruct (fltb fzero v) eqn:Ev.
    + rewrite IH; [| exact Hnd' |].
      * rewrite map_insert_fresh by (apply Hfresh; now left).
        cbn [map fst snd index_from]. now rewrite <- !app_assoc.
      * intros k' Hk'. rewrite map_find_insert_neq.
        -- apply Hfresh. now right.
        -- intros ->. contradiction.
    + apply IH; [exact Hnd' |]. intros k' Hk'. apply Hfresh. now right.
Qed.

Lemma createSparseDistribution1D_shape (contribMap : list (Z * F)) (up : F) (n_all : Z) :
  NoDup (map fst contribMap) -> 0 < n_all ->
  createSparseDistribution1D contribMap up n_all
  = Some {| sparse_base := mkDistribution1D (map snd (kept_entries contribMap));
            backMap := index_from 0 (map fst (kept_entries contribMap));
            sampleMap := map fst (kept_entries contribMap);
            uniProb := if Z.of_nat (length (kept_entries contribMap)) =? 0
                       then fone else up;
            uniProbSingle :=
              fdiv (if Z.of_nat (length (kept_entries contribMap)) =? 0
                    then fone else up) (of_int n_all);
            nAll := n_all |}.
Proof.
  intros Hnd Hn. unfold createSparseDistribution1D.
  rewrite collect_contrib_shape by (auto; intros; reflexivity).
  cbn [app]. unfold mkSparseDistribution1D.
  replace (0 <? n_all) with true by (symmetry; apply Z.ltb_lt; lia).
  cbn [CHECK bind]. now rewrite length_map.
Qed.

(** X6.  [createSparseDistribution1D] on a map with a positive [nAll], in
    any arithmetic: [sampleMap] and [backMap] are inverse to each other.
    Position j of [sampleMap] holds a key of [contribMap] whose contribution
    is positive and is the j-th value of the inner distribution, and
    [backMap] sends that key back to j; every key of [backMap] is found at
    its position in [sampleMap]; and a key is missing from [backMap] exactly
    when [contribMap] has no positive contribution for it. *)
Theorem createSparseDistribution1D_maps_are_inverse
    (contribMap : list (Z * F)) (up : F) (n_all : Z) :
  NoDup (map fst contribMap) -> 0 < n_all ->
  exists d,
    createSparseDistribution1D contribMap up n_all = Some d /\
    length (sampleMap d) = length (func (sparse_base d)) /\
    (forall j, 0 <= j < Z.of_nat (length (sampleMap d)) ->
       map_find (nth (Z.to_nat j) (sampleMap d) 0) (backMap d) = Some j /\
       In (nth (Z.to_nat j) (sampleMap d) 0, at_ (func (sparse_base d)) j) contribMap /\
       fltb fzero (at_ (func (sparse_base d)) j) = true) /\
    (forall k j, map_find k (backMap d) = Some j ->
       0 <= j < Z.of_nat (length (sampleMap d)) /\
       nth (Z.to_nat j) (sampleMap d) 0 = k) /\
    (forall k, map_find k (backMap d) = None <->
       forall v, In (k, v) contribMap -> fltb fzero v = false).
Proof.
  intros Hnd Hn. rewrite (createSparseDistribution1D_shape contribMap up n_all Hnd Hn).
  eexists. split; [reflexivity |].
  cbn [sampleMap backMap sparse_base func mkDistribution1D].
  set (kept := kept_entries contribMap).
  pose proof (kept_keys_NoDup contribMap Hnd) as Hknd. fold kept in Hknd.
  split; [now rewrite !length_map |]. split; [| split].
  - intros j Hj. rewrite length_map in Hj.
    assert (Hlt : (Z.to_nat j < length kept)%nat) by lia.
    destruct (nth_error kept (Z.to_nat j)) as [[k v] |] eqn:E;
      [| apply nth_error_None in E; lia].
    assert (Hk : nth (Z.to_nat j) (map fst kept) 0 = k).
    { apply nth_error_nth. rewrite nth_error_map, E. reflexivity. }
    assert (Hv : at_ (map snd kept) j = v).
    { unfold at_. apply nth_error_nth. rewrite nth_error_map, E. reflexivity. }
    rewrite Hk, Hv.
    assert (Hin : In (k, v) kept) by (eapply nth_error_In; exact E).
    apply kept_entries_In in Hin. destruct Hin as [Hin Hpos].
    split; [| split; assumption].
    rewrite (index_from_nth (map fst kept) 0 (Z.to_nat j) k Hknd).
    + f_equal. lia.
    + rewrite nth_error_map, E. reflexivity.
  - intros k j H. destruct (index_from_find _ _ _ _ H) as (n & -> & Hn').
    assert (Hlt : (n < length (map fst kept))%nat)
      by (apply nth_error_Some; congruence).
    split; [lia |]. rewrite Z.add_0_l, Nat2Z.id. now apply nth_error_nth.
  - intros k. split.
    + intros Hnone v Hin. destruct (fltb fzero v) eqn:Ev; [| reflexivity].
      exfalso.
      assert (Hk : In (k, v) kept) by (apply kept_entries_In; now split).
      apply (In_nth_error kept) in Hk. destruct Hk as (n & Hn').
      rewrite (index_from_nth (map fst kept) 0 n k Hknd) in Hnone; [discriminate |].
      rewrite nth_error_map, Hn'. reflexivity.
    + intros Hno. apply index_from_None. intros H.
      apply in_map_iff in H. destruct H as ([k0 v] & Hk & H). cbn in Hk. subst k0.
      apply kept_entries_In in H. destruct H as [H1 H2].
      rewrite (Hno v H1) in H2. discriminate.
Qed.

End SparseShape.

Lemma createSparseDistribution1D_maps_are_inverse_witness :
  exists d,
    createSparseDistribution1D sparse_example (1 # 5)%Q 10 = Some d /\
    map_find (nth 1 (sampleMap d) 0) (backMap d) = Some 1.
Proof.
  destruct (createSparseDistribution1D_maps_are_inverse
              sparse_example (1 # 5)%Q 10)
    as (d & Hd & Hlen & Hfwd & _).
  - unfold sparse_example. cbn [map fst]. repeat constructor; cbn [In]; intuition lia.
  - lia.
  - exists d. split; [exact Hd |].
    apply (Hfwd 1). rewrite Hlen.
    injection Hd as <-. cbn. lia.
Defined.

Lemma Qsum_map_ext (A : Type) (g h : A -> Q) (l : list A) :
  (forall x, In x l -> (g x == h x)%Q) ->
  (Qsum (map g l) == Qsum (map h l))%Q.
Proof.
  induction l as [| x l IH]; intros H; cbn [map].
  - reflexivity.
  - rewrite !Qsum_cons, IH by (intros y Hy; apply H; now right).
    rewrite (H x) by now left. reflexivity.
Qed.

Lemma Qsum_map_plus (A : Type) (g h : A -> Q) (l : list A) :
  (Qsum (map (fun x => g x + h x) l) == Qsum (map g l) + Qsum (map h l))%Q.
Proof.
  induction l as [| x l IH]; cbn [map].
  - rewrite !Qsum_nil. ring.
  - rewrite !Qsum_cons, IH. ring.
Qed.

Lemma Qsum_map_scale (A : Type) (c : Q) (g : A -> Q) (l : list A) :
  (Qsum (map (fun x => g x * c) l) == Qsum (map g l) * c)%Q.
Proof.
  induction l as [| x l IH]; cbn [map].
  - rewrite !Qsum_nil. ring.
  - rewrite !Qsum_cons, IH. ring.
Qed.

Lemma Qsum_map_const (A : Type) (c : Q) (l : list A) :
  (Qsum (map (fun _ => c) l) == inject_Z (Z.of_nat (length l)) * c)%Q.
Proof.
  induction l as [| x l IH]; cbn [map length].
  - rewrite Qsum_nil. cbn. ring.
  - rewrite Qsum_cons, IH. replace (Z.of_nat (S (length l))) with (Z.of_nat (length l) + 1) by lia.
    rewrite inject_Z_plus. ring.
Qed.

(** Changing a function at one point of a duplicate-free list changes its
    sum by the difference at that point. *)
Lemma Qsum_map_single (k : Z) (a : Q) (g : Z -> Q) (l : list Z) :
  NoDup l -> In k l ->
  (Qsum (map (fun idx => if idx =? k then a else g idx) l)
   == a + Qsum (map g l) - g k)%Q.
Proof.
  induction l as [| x l IH]; intros Hnd Hin; [contradiction |].
  inversion Hnd as [| ? ? Hnin Hnd']; subst. cbn [map]. rewrite !Qsum_cons.
  destruct Hin as [-> | Hin].
  - rewrite Z.eqb_refl.
    rewrite (Qsum_map_ext Z (fun idx => if idx =? k then a else g idx) g l).
    + ring.
    + intros y Hy. destruct (y =? k) eqn:E; [| reflexivity].
      apply Z.eqb_eq in E. subst y. contradiction.
  - destruct (x =? k) eqn:E.
    + apply Z.eqb_eq in E. subst x. contradiction.
    + rewrite IH by assumption. ring.
Qed.

Lemma Qsum_index_from (h : Z -> Q) (l : list Z) (ks : list Z) :
  NoDup l ->
  forall i : Z,
    NoDup ks -> (forall k, In k ks -> In k l) ->
    (Qsum (map (fun idx => match map_find idx (index_from i ks) with
                           | Some j => h j
                           | None => 0
                           end) l)
     == Qsum (map (fun n => h (i + Z.of_nat n)%Z) (seq 0 (length ks))))%Q.
Proof.
  intros Hl. induction ks as [| k ks IH]; intros i Hnd Hsub.
  - cbn [index_from map_find length seq map]. rewrite Qsum_nil.
    rewrite Qsum_map_const. ring.
  - inversion Hnd as [| ? ? Hnin Hnd']; subst.
    cbn [index_from map_find length seq map]. rewrite Qsum_cons.
    rewrite (Qsum_map_ext Z
               (fun idx => match (if idx =? k then Some i
                                  else map_find idx (index_from (i + 1) ks)) with
                           | Some j => h j
                           | None => 0%Q
                           end)
               (fun idx => if idx =? k then h i
                           else match map_find idx (index_from (i + 1) ks) with
                                | Some j => h j
                                | None => 0%Q
                                end) l)
      by (intros idx _; destruct (idx =? k); reflexivity).
    rewrite (Qsum_map_single k (h i)
               (fun idx => match map_find idx (index_from (i + 1) ks) with
                           | Some j => h j
                           | None => 0%Q
                           end) l Hl) by (apply Hsub; now left).
    cbv beta. rewrite (index_from_None ks (i + 1) k Hnin).
    rewrite (IH (i + 1) Hnd') by (intros k' Hk'; apply Hsub; now right).
    rewrite <- seq_shift, map_map.
    rewrite (Qsum_map_ext nat (fun n => h (i + 1 + Z.of_nat n))
               (fun n => h (i + Z.of_nat (S n))) (seq 0 (length ks))).
    + replace (i + Z.of_nat 0) with i by lia. ring.
    + intros n _. replace (i + 1 + Z.of_nat n) with (i + Z.of_nat (S n)) by lia.
      reflexivity.
Qed.

Lemma NoDup_map_injective {A B : Type} (g : A -> B) (l : list A) :
  (forall x y, g x = g y -> x = y) -> NoDup l -> NoDup (map g l).
Proof.
  intros Hinj. induction 1 as [| x l Hnin Hnd IH]; cbn [map]; constructor; auto.
  intros H. apply in_map_iff in H. destruct H as (y & Hy & Hin).
  apply Hinj in Hy. subst y. contradiction.
Qed.

Lemma indices_NoDup (n : nat) : NoDup (map Z.of_nat (seq 0 n)).
Proof.
  apply NoDup_map_injective; [| apply seq_NoDup].
  intros x y H. lia.
Qed.

Lemma indices_In (n : nat) (k : Z) :
  In k (map Z.of_nat (seq 0 n)) <-> 0 <= k < Z.of_nat n.
Proof.
  rewrite in_map_iff. split.
  - intros (x & <- & Hx). apply in_seq in Hx. lia.
  - intros Hk. exists (Z.to_nat k). split; [lia |]. apply in_seq. lia.
Qed.

Lemma kept_values_positive (contribMap : list (Z * Q)) (v : Q) :
  In v (map snd (kept_entries contribMap)) -> (0 < v)%Q.
Proof.
  intros H. apply in_map_iff in H. destruct H as ([k v'] & <- & H).
  apply kept_entries_In in H. destruct H as [_ H]. cbn [snd]. qops.
  now apply Qltb_lt.
Qed.

(** The value of [DiscretePDF] on a built distribution, in exact
    arithmetic: the floor plus the share of the index's own contribution. *)
Lemma Sparse_DiscretePDF_value (contribMap : list (Z * Q)) (up : Q) (n_all : Z) (d : SparseDistribution1D) (i : Z) :
  NoDup (map fst contribMap) -> 0 < n_all ->
  createSparseDistribution1D contribMap up n_all = Some d ->
  0 <= i < n_all ->
  exists p,
    Sparse_DiscretePDF d i = Some p /\
    (p == uniProb d / inject_Z n_all
          + match map_find i (backMap d) with
            | Some j => at_ (func (sparse_base d)) j
                        / Qsum (map snd (kept_entries contribMap))
                        * (1 - uniProb d)
            | None => 0
            end)%Q.
Proof.
  intros Hnd Hn Hd Hi.
  rewrite (createSparseDistribution1D_shape contribMap up n_all Hnd Hn) in Hd.
  injection Hd as <-.
  unfold Sparse_DiscretePDF, Sparse_Count.
  cbn [nAll backMap uniProbSingle uniProb sparse_base].
  replace ((0 <=? i) && (i <? n_all)) with true
    by (symmetry; apply andb_true_iff; split; [apply Z.leb_le | apply Z.ltb_lt]; lia).
  cbn [CHECK bind].
  set (V := map snd (kept_entries contribMap)).
  set (up' := if Z.of_nat (length (kept_entries contribMap)) =? 0 then fone else up).
  destruct (map_find i (index_from 0 (map fst (kept_entries contribMap)))) as [j |] eqn:E.
  - destruct (index_from_find _ _ _ _ E) as (n & -> & Hn').
    assert (Hlt : (n < length V)%nat).
    { unfold V. rewrite length_map. rewrite <- (length_map fst).
      apply nth_error_Some. congruence. }
    rewrite Z.add_0_l.
    assert (HV : V <> []) by (intros HV; rewrite HV in Hlt; cbn in Hlt; lia).
    assert (HS : (0 < Qsum V)%Q).
    { apply Qsum_pos; [exact HV |]. intros v Hv. now apply (kept_values_positive contribMap). }
    assert (HlenQ : (0 < inject_Z (Z.of_nat (length V)))%Q) by (apply inject_Z_pos; lia).
    unfold Distribution1D_DiscretePDF, Distribution1D_Count.
    cbn [func mkDistribution1D].
    replace ((0 <=? Z.of_nat n) && (Z.of_nat n <? Z.of_nat (length V))) with true
      by (symmetry; apply andb_true_iff; split; [apply Z.leb_le | apply Z.ltb_lt]; lia).
    cbn [CHECK bind]. eexists. split; [reflexivity |].
    change (at_ (cdf_integral V) (Z.of_nat (length V))) with (funcInt (mkDistribution1D V)).
    assert (HnQ : (0 < inject_Z n_all)%Q) by now apply inject_Z_pos.
    qops. rewrite funcInt_closed. field. repeat split; lra.
  - eexists. split; [reflexivity |]. qops. ring.
Qed.

(** X7.  [SparseDistribution1D::DiscretePDF] in exact arithmetic: for an
    index i of [0, nAll) that [contribMap] gives the positive contribution
    v, the probability is the uniform floor plus the share of v in the sum
    S of the positive contributions:
    [DiscretePDF(i) = uniProb / nAll + (1 - uniProb) * v / S]. *)
Theorem Sparse_DiscretePDF_proportional
    (contribMap : list (Z * Q)) (up : Q) (n_all : Z) (i : Z) (v : Q) :
  NoDup (map fst contribMap) -> 0 <= i < n_all ->
  In (i, v) contribMap -> (0 < v)%Q ->
  exists d p,
    createSparseDistribution1D contribMap up n_all = Some d /\
    Sparse_DiscretePDF d i = Some p /\
    (0 < Qsum (map snd (kept_entries contribMap)))%Q /\
    (p == up / inject_Z n_all
          + (1 - up) * (v / Qsum (map snd (kept_entries contribMap))))%Q.
Proof.
  intros Hnd Hi Hin Hv.
  assert (Hn : 0 < n_all) by lia.
  pose proof (createSparseDistribution1D_shape contribMap up n_all Hnd Hn) as Hd.
  eexists. 
  destruct (Sparse_DiscretePDF_value contribMap up n_all _ i Hnd Hn Hd Hi) as (p & Hp & Hval).
  exists p. split; [exact Hd |]. split; [exact Hp |].
  assert (Hk : In (i, v) (kept_entries contribMap)).
  { apply kept_entries_In. split; [exact Hin |]. qops. now apply Qltb_lt. }
  assert (HS : (0 < Qsum (map snd (kept_entries contribMap)))%Q).
  { apply Qsum_pos.
    - intros E. apply map_eq_nil in E. rewrite E in Hk. contradiction.
    - intros x Hx. now apply (kept_values_positive contribMap). }
  split; [exact HS |].
  cbn [uniProb backMap sparse_base func mkDistribution1D] in Hval.
  destruct (In_nth_error _ _ Hk) as (n & Hn').
  pose proof (kept_keys_NoDup contribMap Hnd) as Hknd.
  rewrite (index_from_nth (map fst (kept_entries contribMap)) 0 n i Hknd) in Hval
    by (rewrite nth_error_map, Hn'; reflexivity).
  assert (Hat : at_ (map snd (kept_entries contribMap)) (0 + Z.of_nat n) = v).
  { unfold at_. rewrite Z.add_0_l, Nat2Z.id. apply nth_error_nth.
    rewrite nth_error_map, Hn'. reflexivity. }
  rewrite Hat in Hval.
  replace (Z.of_nat (length (kept_entries contribMap)) =? 0) with false in Hval.
  - assert (HnQ : (0 < inject_Z n_all)%Q) by now apply inject_Z_pos.
    rewrite Hval. field. repeat split; lra.
  - symmetry. apply Z.eqb_neq. destruct (kept_entries contribMap); [contradiction | cbn; lia].
Qed.

Lemma Sparse_DiscretePDF_proportional_witness :
  exists d p,
    createSparseDistribution1D sparse_example (1 # 5)%Q 10 = Some d /\
    Sparse_DiscretePDF d 2 = Some p /\
    (p == (1 # 5) / inject_Z 10
          + (1 - (1 # 5))
            * (4 / Qsum (map snd (kept_entries sparse_example))))%Q.
Proof.
  destruct (Sparse_DiscretePDF_proportional
              sparse_example (1 # 5)%Q 10 2 4%Q)
    as (d & p & Hd & Hp & _ & Hv).
  - unfold sparse_example. cbn [map fst]. repeat constructor; cbn [In]; intuition lia.
  - lia.
  - now left.
  - q_order.
  - exists d, p. repeat split; assumption.
Defined.

(** X8.  [SparseDistribution1D::DiscretePDF] in exact arithmetic: when
    every key with a positive contribution lies in [0, nAll), the values
    over the indices 0 .. nAll-1 sum to 1, whatever [uniProb] is and also
    when no contribution is positive. *)
Theorem Sparse_DiscretePDF_normalised
    (contribMap : list (Z * Q)) (up : Q) (n_all : Z) :
  NoDup (map fst contribMap) -> 0 < n_all ->
  (forall k v, In (k, v) contribMap -> (0 < v)%Q -> 0 <= k < n_all) ->
  exists d ps,
    createSparseDistribution1D contribMap up n_all = Some d /\
    map (fun i => Sparse_DiscretePDF d (Z.of_nat i)) (seq 0 (Z.to_nat n_all))
    = map Some ps /\
    (Qsum ps == 1)%Q.
Proof.
  intros Hnd Hn Hrange.
  pose proof (createSparseDistribution1D_shape contribMap up n_all Hnd Hn) as Hd.
  match type of Hd with _ = Some ?x => set (d := x) in * end.
  set (pdfval := fun i : Z => match Sparse_DiscretePDF d i with
                              | Some p => p
                              | None => 0%Q
                              end).
  exists d, (map pdfval (map Z.of_nat (seq 0 (Z.to_nat n_all)))).
  split; [exact Hd |]. split.
  - rewrite !map_map. apply map_ext_in. intros a Ha. apply in_seq in Ha.
    destruct (Sparse_DiscretePDF_value contribMap up n_all d (Z.of_nat a) Hnd Hn Hd)
      as (p & Hp & _); [lia |].
    unfold pdfval. now rewrite Hp.
  - set (V := map snd (kept_entries contribMap)).
    set (K := map fst (kept_entries contribMap)).
    set (l := map Z.of_nat (seq 0 (Z.to_nat n_all))).
    set (h := fun j : Z => (at_ V j / Qsum V * (1 - uniProb d))%Q).
    rewrite (Qsum_map_ext Z pdfval
               (fun i => uniProb d / inject_Z n_all
                         + match map_find i (index_from 0 K) with
                           | Some j => h j
                           | None => 0
                           end)%Q l).
    2:{ intros i Hi. apply indices_In in Hi.
        destruct (Sparse_DiscretePDF_value contribMap up n_all d i Hnd Hn Hd)
          as (p & Hp & Hval); [lia |].
        unfold pdfval. rewrite Hp. exact Hval. }
    rewrite (Qsum_map_plus Z (fun _ => uniProb d / inject_Z n_all)%Q).
    rewrite Qsum_map_const.
    rewrite (Qsum_index_from h l K (indices_NoDup _) 0).
    2:{ apply kept_keys_NoDup. exact Hnd. }
    2:{ intros k Hk. apply indices_In. unfold K in Hk.
        apply in_map_iff in Hk. destruct Hk as ([k0 v] & Hk0 & Hk). cbn in Hk0. subst k0.
        apply kept_entries_In in Hk. destruct Hk as [Hin Hpos]. qops.
        apply Qltb_lt in Hpos. specialize (Hrange k v Hin Hpos). lia. }
    unfold l. rewrite length_map, length_seq. rewrite Z2Nat.id by lia.
    assert (HnQ : (0 < inject_Z n_all)%Q) by now apply inject_Z_pos.
    unfold h.
    rewrite (Qsum_map_ext nat (fun n => at_ V (0 + Z.of_nat n)%Z / Qsum V * (1 - uniProb d))%Q
               (fun n => nth n V 0 * ((1 - uniProb d) / Qsum V))%Q).
    2:{ intros n _. unfold at_. rewrite Z.add_0_l, Nat2Z.id. qops.
        generalize (uniProb d) (nth n V 0%Q) (Qsum V). intros a b c.
        unfold Qdiv. ring. }
    rewrite (Qsum_map_scale nat).
    replace (length K) with (length V) by (unfold K, V; now rewrite !length_map).
    rewrite (map_seq_nth (fun x => x) 0%Q V), map_id.
    cbn [uniProb d].
    destruct (kept_entries contribMap) as [| kv kept] eqn:Ek.
    + cbn [length Z.of_nat Z.eqb V map]. rewrite Qsum_nil, Qmult_0_l. qops. field. lra.
    + replace (Z.of_nat (length (kv :: kept)) =? 0) with false
        by (symmetry; apply Z.eqb_neq; cbn; lia).
      assert (HS : (0 < Qsum V)%Q).
      { apply Qsum_pos.
        - unfold V. discriminate.
        - intros x Hx. apply (kept_values_positive contribMap). now rewrite Ek. }
      field. split; lra.
Qed.

Lemma Sparse_DiscretePDF_normalised_witness :
  exists d ps,
    createSparseDistribution1D sparse_example (1 # 5)%Q 10 = Some d /\
    map (fun i => Sparse_DiscretePDF d (Z.of_nat i)) (seq 0 10) = map Some ps /\
    (Qsum ps == 1)%Q.
Proof.
  apply (Sparse_DiscretePDF_normalised sparse_example (1 # 5)%Q 10).
  - unfold sparse_example. cbn [map fst]. repeat constructor; cbn [In]; intuition lia.
  - lia.
  - intros k v Hin _. unfold sparse_example in Hin. in_list Hin; lia.
Defined.

Lemma FindInterval_range (size : Z) (pred : Z -> bool) :
  2 <= size -> 0 <= FindInterval size pred <= size - 2.
Proof. intros H. unfold FindInterval. apply Clamp_range. lia. Qed.

(** [int(x)] of a non-negative rational is its floor. *)
Lemma Q_to_int_floor (x : Q) : (0 <= x)%Q -> Q_to_int x = Qfloor x.
Proof.
  intros H. destruct x as [n d]. unfold Q_to_int, Qfloor. cbn [Qnum Qden].
  unfold Qle in H. cbn in H. apply Z.quot_div_nonneg; lia.
Qed.

Lemma Q_to_int_range (x : Q) (n : Z) :
  (0 <= x)%Q -> (x < inject_Z n)%Q -> 0 <= Q_to_int x < n.
Proof.
  intros H0 H1. rewrite Q_to_int_floor by exact H0. split.
  - apply inject_Z_le_floor. exact H0.
  - rewrite Zlt_Qlt. apply Qle_lt_trans with x; [apply Qfloor_le | exact H1].
Qed.

(** X9.  [SparseDistribution1D::SampleDiscrete] in exact arithmetic, on a
    distribution built from a map with at least one positive contribution,
    all positive keys in [0, nAll), [0 <= uniProb < 1] and u in [0,1): the
    call returns an index of [0, nAll), in the uniform part as well as in
    the sparse part (where [newU] may reach 1), and the pdf written is
    [DiscretePDF] of that index and is positive. *)
Theorem Sparse_SampleDiscrete_in_range
    (contribMap : list (Z * Q)) (up : Q) (n_all : Z) (u : Q) :
  NoDup (map fst contribMap) ->
  (forall k v, In (k, v) contribMap -> (0 < v)%Q -> 0 <= k < n_all) ->
  (exists k v, In (k, v) contribMap /\ (0 < v)%Q) ->
  (0 <= up)%Q -> (up < 1)%Q -> (0 <= u)%Q -> (u < 1)%Q ->
  exists d index p,
    createSparseDistribution1D contribMap up n_all = Some d /\
    Sparse_SampleDiscrete d u true false
    = Some {| sampled := index; sample_pdf := Some p; sample_uRemapped := None |} /\
    0 <= index < n_all /\
    Sparse_DiscretePDF d index = Some p /\
    (0 < p)%Q.
Proof.
  intros Hnd Hrange (k0 & v0 & Hin0 & Hv0) Hup0 Hup1 Hu0 Hu1.
  assert (Hn : 0 < n_all) by (specialize (Hrange k0 v0 Hin0 Hv0); lia).
  assert (HnQ : (0 < inject_Z n_all)%Q) by now apply inject_Z_pos.
  pose proof (createSparseDistribution1D_shape contribMap up n_all Hnd Hn) as Hd.
  match type of Hd with _ = Some ?x => set (d := x) in * end.
  set (K := map fst (kept_entries contribMap)) in *.
  set (V := map snd (kept_entries contribMap)) in *.
  assert (Hk0 : In (k0, v0) (kept_entries contribMap)).
  { apply kept_entries_In. split; [exact Hin0 |]. qops. now apply Qltb_lt. }
  assert (Hlen : (0 < length (kept_entries contribMap))%nat).
  { destruct (kept_entries contribMap); [contradiction | cbn; lia]. }
  assert (Hup : uniProb d = up).
  { cbn [uniProb d].
    replace (Z.of_nat (length (kept_entries contribMap)) =? 0) with false; [reflexivity |].
    symmetry. apply Z.eqb_neq. lia. }
  assert (HVpos : forall x, In x V -> (0 < x)%Q)
    by (intros x Hx; now apply (kept_values_positive contribMap)).
  assert (HVne : V <> []).
  { unfold V. intros E. apply map_eq_nil in E. rewrite E in Hlen. cbn in Hlen. lia. }
  assert (HS : (0 < Qsum V)%Q) by now apply Qsum_pos.
  pose proof (kept_keys_NoDup contribMap Hnd) as Hknd. fold K in Hknd.
  (* the value of the pdf at any index of the range *)
  assert (Hpdf : forall i, 0 <= i < n_all ->
            exists p, Sparse_DiscretePDF d i = Some p /\
              (p == up / inject_Z n_all
                    + match map_find i (index_from 0 K) with
                      | Some j => at_ V j / Qsum V * (1 - up)
                      | None => 0
                      end)%Q).
  { intros i Hi.
    destruct (Sparse_DiscretePDF_value contribMap up n_all d i Hnd Hn Hd Hi)
      as (p & Hp & Hval).
    exists p. split; [exact Hp |]. rewrite Hup in Hval. exact Hval. }
  exists d.
  unfold Sparse_SampleDiscrete. rewrite Hup. cbn [nAll sparse_base sampleMap d].
  fold V. fold K. qops.
  destruct (Qltb (1 - up) u) eqn:Ebr.
  - (* the uniform part *)
    apply Qltb_lt in Ebr.
    assert (Hup' : (0 < up)%Q) by lra.
    set (newU := ((u - (1 - up)) / up)%Q).
    assert (HnewU0 : (0 <= newU)%Q).
    { unfold newU. apply Qle_shift_div_l; [exact Hup' |]. lra. }
    assert (HnewU1 : (newU < 1)%Q).
    { unfold newU. apply Qlt_shift_div_r; [exact Hup' |]. lra. }
    assert (Hx0 : (0 <= newU * inject_Z n_all)%Q).
    { apply Qmult_le_0_compat; lra. }
    assert (Hx1 : (newU * inject_Z n_all < inject_Z n_all)%Q).
    { rewrite <- (Qmult_1_l (inject_Z n_all)) at 2.
      apply Qmult_lt_compat_r; assumption. }
    pose proof (Q_to_int_range _ _ Hx0 Hx1) as Hidx.
    set (index := Q_to_int (newU * inject_Z n_all)) in *.
    replace (index =? n_all) with false by (symmetry; apply Z.eqb_neq; lia).
    cbn [bind].
    destruct (Hpdf index Hidx) as (p & Hp & Hval).
    exists index, p. fold d. rewrite Hp. cbn [bind CHECK negb].
    split; [exact Hd |]. split; [reflexivity |]. split; [exact Hidx |].
    split; [reflexivity |].
    assert (Hfloor : (0 < up / inject_Z n_all)%Q).
    { apply Qlt_shift_div_l; [exact HnQ |]. lra. }
    assert (Hg : (0 <= match map_find index (index_from 0 K) with
                       | Some j => at_ V j / Qsum V * (1 - up)
                       | None => 0
                       end)%Q).
    { destruct (map_find index (index_from 0 K)) as [j |] eqn:E; [| lra].
      destruct (index_from_find _ _ _ _ E) as (n & -> & Hn').
      assert (Hlt : (n < length V)%nat).
      { unfold V. rewrite length_map, <- (length_map fst). fold K.
        apply nth_error_Some. congruence. }
      assert (Hv : (0 < at_ V (0 + Z.of_nat n))%Q) by (apply HVpos, at_In; lia).
      apply Qmult_le_0_compat; [| lra].
      apply Qle_shift_div_l; [exact HS |]. lra. }
    lra.
  - (* the sparse part *)
    apply Qltb_ge in Ebr.
    set (newU := (u / (1 - up))%Q).
    unfold Distribution1D_SampleDiscrete. cbn [bind sampled].
    set (offset := FindInterval (Z.of_nat (length (cdf (mkDistribution1D V))))
                     (fun index => fleb (at_ (cdf (mkDistribution1D V)) index) newU)).
    assert (Hoff : 0 <= offset < Z.of_nat (length V)).
    { pose proof (FindInterval_range
                    (Z.of_nat (length (cdf (mkDistribution1D V))))
                    (fun index => fleb (at_ (cdf (mkDistribution1D V)) index) newU)) as H.
      fold offset in H. rewrite mk_cdf_length in H.
      assert (0 < length V)%nat by (destruct V; [congruence | cbn; lia]).
      lia. }
    assert (HlenK : length K = length V) by (unfold K, V; now rewrite !length_map).
    destruct (nth_error (kept_entries contribMap) (Z.to_nat offset)) as [[k v] |] eqn:E.
    2:{ apply nth_error_None in E. unfold V in Hoff. rewrite length_map in Hoff. lia. }
    assert (Hk : nth_error K (Z.to_nat offset) = Some k).
    { unfold K. rewrite nth_error_map, E. reflexivity. }
    assert (Hv : at_ V offset = v).
    { unfold at_. apply nth_error_nth. unfold V. rewrite nth_error_map, E. reflexivity. }
    assert (Hkin : In (k, v) (kept_entries contribMap)) by (eapply nth_error_In; exact E).
    apply kept_entries_In in Hkin. destruct Hkin as [Hkin Hvpos]. qops.
    apply Qltb_lt in Hvpos.
    assert (Hidx : 0 <= k < n_all) by (apply (Hrange k v); assumption).
    destruct (Hpdf k Hidx) as (p & Hp & Hval).
    rewrite (index_from_nth K 0 (Z.to_nat offset) k Hknd) in Hval
      by (unfold K; rewrite nth_error_map, E; reflexivity).
    replace (0 + Z.of_nat (Z.to_nat offset)) with offset in Hval by lia.
    rewrite Hv in Hval.
    exists k, p. rewrite Hk. cbn [bind]. fold d. rewrite Hp. cbn [bind CHECK negb].
    split; [exact Hd |]. split; [reflexivity |]. split; [exact Hidx |].
    split; [reflexivity |].
    assert (Hfloor : (0 <= up / inject_Z n_all)%Q).
    { apply Qle_shift_div_l; [exact HnQ |]. lra. }
    assert (Hg : (0 < v / Qsum V * (1 - up))%Q).
    { apply Qmult_lt_0_compat; [| lra].
      apply Qlt_shift_div_l; [exact HS |]. lra. }
    lra.
Qed.

Lemma Sparse_SampleDiscrete_in_range_witness :
  exists d index p,
    createSparseDistribution1D sparse_example (1 # 5)%Q 10 = Some d /\
    Sparse_SampleDiscrete d (1 # 2)%Q true false
    = Some {| sampled := index; sample_pdf := Some p; sample_uRemapped := None |} /\
    0 <= index < 10 /\
    Sparse_DiscretePDF d index = Some p /\
    (0 < p)%Q.
Proof.
  apply (Sparse_SampleDiscrete_in_range
           sparse_example (1 # 5)%Q 10 (1 # 2)%Q).
  - unfold sparse_example. cbn [map fst]. repeat constructor; cbn [In]; intuition lia.
  - intros k v Hin _. unfold sparse_example in Hin. in_list Hin; lia.
  - exists 2, 4%Q. split; [now left | q_order].
  - q_order.
  - q_order.
  - q_order.
  - q_order.
Defined.


(** ** The members of InterpolatedDistribution1D *)

(** X5.  [SampleDiscrete] of a SparseDistribution1D and of an
    InterpolatedDistribution1D called with a non-null [uRemapped] never
    returns: whatever u and [pdf] are, the call ends in the abort of
    [CHECK(!uRemapped)] (or in an earlier one), also through the virtual
    call. *)
Theorem SampleDiscrete_uRemapped_unsupported
    (F : Type) (ops : FloatOps F) (u : F) (wantPdf : bool) :
  (forall d : SparseDistribution1D,
     Sparse_SampleDiscrete d u wantPdf true = None /\
     vSampleDiscrete (Sparse_ref d) u wantPdf true = None) /\
  (forall d : InterpolatedDistribution1D,
     Interp_SampleDiscrete d u wantPdf true = None /\
     vSampleDiscrete (Interp_ref d) u wantPdf true = None).
Proof.
  assert (Hs : forall d : SparseDistribution1D,
             Sparse_SampleDiscrete d u wantPdf true = None).
  { intros d. unfold Sparse_SampleDiscrete.
    destruct (fltb (fsub fone (uniProb d)) u); cbn [bind].
    - destruct wantPdf; cbn [bind]; [| reflexivity].
      destruct (Sparse_DiscretePDF d _); reflexivity.
    - destruct (Distribution1D_SampleDiscrete _ _ _ _); cbn [bind]; [| reflexivity].
      destruct (nth_error (sampleMap d) _); cbn [bind]; [| reflexivity].
      destruct wantPdf; cbn [bind]; [| reflexivity].
      destruct (Sparse_DiscretePDF d _); reflexivity. }
  assert (Hi : forall d : InterpolatedDistribution1D,
             Interp_SampleDiscrete d u wantPdf true = None).
  { intros d. unfold Interp_SampleDiscrete.
    destruct (vSampleDiscrete _ _ _ _); cbn [bind]; [| reflexivity].
    destruct wantPdf; cbn [bind]; [| reflexivity].
    destruct (Interp_DiscretePDF d _); reflexivity. }
  split; intros d; split;
    first [exact (Hs d) | exact (Hi d)].
Qed.

Lemma Qsum_swap (A B : Type) (a : A -> B -> Q) (I : list A) (J : list B) :
  (Qsum (map (fun i => Qsum (map (fun j => a i j) J)) I)
   == Qsum (map (fun j => Qsum (map (fun i => a i j) I)) J))%Q.
Proof.
  induction I as [| i I IH].
  - cbn [map]. rewrite Qsum_nil. rewrite Qsum_map_const. ring.
  - apply Qeq_trans
      with (Qsum (map (fun j => a i j + Qsum (map (fun i0 => a i0 j) I))%Q J)).
    + rewrite Qsum_map_plus, <- IH. cbn [map]. now rewrite Qsum_cons.
    + apply Qsum_map_ext. intros j _. cbn [map]. rewrite Qsum_cons. reflexivity.
Qed.

(** X10.  [InterpolatedDistribution1D::DiscretePDF] in exact arithmetic:
    when each of the m children returns, on the indices 0 .. k-1, values
    that sum to 1, so does the interpolated distribution, whatever the
    weights are (also negative ones, or all zero). *)
Theorem Interp_DiscretePDF_normalised
    (w : list Q) (ds : list Distribution1DRef) (m : nat) (pdfs : nat -> nat -> Q) :
  w <> [] -> length ds = length w ->
  (forall j i, (j < length w)%nat -> (i < m)%nat ->
     vDiscretePDF (nth j ds no_distribution) (Z.of_nat i) = Some (pdfs j i)) ->
  (forall j, (j < length w)%nat -> (Qsum (map (pdfs j) (seq 0 m)) == 1)%Q) ->
  exists d ps,
    mkInterpolatedDistribution1D w ds = Some d /\
    map (fun i => Interp_DiscretePDF d (Z.of_nat i)) (seq 0 m) = map Some ps /\
    (Qsum ps == 1)%Q.
Proof.
  intros Hne Hlen Hch Hnorm.
  assert (Hn : 0 < Z.of_nat (length w)) by (destruct w; [congruence | cbn; lia]).
  set (d := {| interp_base := mkDistribution1D w; distributions := ds |}).
  assert (Hd : mkInterpolatedDistribution1D w ds = Some d).
  { unfold mkInterpolatedDistribution1D.
    replace (0 <? Z.of_nat (length w)) with true by (symmetry; apply Z.ltb_lt; lia).
    cbn [CHECK bind]. now rewrite <- Hlen, firstn_all. }
  set (delta := fun j : nat =>
                  (at_ (cdf (mkDistribution1D w)) (Z.of_nat j + 1)%Z
                   - at_ (cdf (mkDistribution1D w)) (Z.of_nat j))%Q).
  set (val := fun i : nat =>
                fold_left (fun pdf j => fadd pdf (fmul (pdfs j i) (delta j)))
                          (seq 0 (length w)) fzero).
  exists d, (map val (seq 0 m)). split; [exact Hd |]. split.
  - rewrite map_map. apply map_ext_in. intros i Hi. apply in_seq in Hi.
    unfold Interp_DiscretePDF. cbn [interp_base d func mkDistribution1D].
    rewrite (Interp_pdf_loop d (Z.of_nat i) (fun j => pdfs j i)
               (seq 0 (length w)) fzero).
    + reflexivity.
    + intros j Hj. apply in_seq in Hj. cbn [distributions d]. apply Hch; lia.
  - rewrite (Qsum_map_ext nat val
               (fun i => Qsum (map (fun j => pdfs j i * delta j)%Q (seq 0 (length w))))
               (seq 0 m)).
    2:{ intros i _. unfold val. qops.
        rewrite (fold_left_Qsum (fun j => pdfs j i * delta j)%Q). ring. }
    rewrite (Qsum_swap nat nat (fun i j => pdfs j i * delta j)%Q).
    rewrite (Qsum_map_ext nat
               (fun j => Qsum (map (fun i => pdfs j i * delta j)%Q (seq 0 m)))
               delta (seq 0 (length w))).
    2:{ intros j Hj. apply in_seq in Hj.
        rewrite (Qsum_map_scale nat (delta j) (pdfs j)).
        rewrite Hnorm by lia. ring. }
    unfold delta.
    rewrite (Qsum_telescope (fun i => at_ (cdf (mkDistribution1D w)) i) (length w) 0).
    cbn [Nat.add Z.of_nat]. rewrite mk_cdf_zero, mk_cdf_last by assumption.
    qops. ring.
Qed.

Lemma Interp_DiscretePDF_normalised_witness :
  exists d ps,
    mkInterpolatedDistribution1D [1; 3]%Q
      [Distribution1D_ref (mkDistribution1D [1; 1]%Q);
       Distribution1D_ref (mkDistribution1D [0; 5]%Q)] = Some d /\
    map (fun i => Interp_DiscretePDF d (Z.of_nat i)) (seq 0 2) = map Some ps /\
    (Qsum ps == 1)%Q.
Proof.
  apply (Interp_DiscretePDF_normalised [1; 3]%Q
           [Distribution1D_ref (mkDistribution1D [1; 1]%Q);
            Distribution1D_ref (mkDistribution1D [0; 5]%Q)]
           2
           (fun j i =>
              match vDiscretePDF
                      (nth j [Distribution1D_ref (mkDistribution1D [1; 1]%Q);
                              Distribution1D_ref (mkDistribution1D [0; 5]%Q)]
                           no_distribution) (Z.of_nat i) with
              | Some q => q
              | None => 0%Q
              end)).
  - discriminate.
  - reflexivity.
  - intros [| [| j]] [| [| i]] Hj Hi; cbn in Hj, Hi; try lia; vm_compute; reflexivity.
  - intros [| [| j]] Hj; cbn in Hj; try lia; vm_compute; reflexivity.
Defined.

(** X11.  [InterpolatedDistribution1D::SampleDiscrete] in exact arithmetic,
    for non-negative weights and u in [0,1): the child chosen is [offset]
    with [cdf[offset] <= u < cdf[offset+1]], a child of positive weight when
    the weights are not all zero; the [uSub] handed to it is
    [(u - cdf[offset]) / (cdf[offset+1] - cdf[offset])] itself, in [0,1)
    (the replacement of values >= 1 never applies), and u is recovered from
    it; the call returns the child's sample with [DiscretePDF] of that
    sample as pdf. *)
Theorem Interp_SampleDiscrete_exact
    (w : list Q) (ds : list Distribution1DRef) (u : Q) :
  w <> [] -> (forall x, In x w -> (0 <= x)%Q) -> length ds = length w ->
  (0 <= u)%Q -> (u < 1)%Q ->
  exists d offset uSub,
    mkInterpolatedDistribution1D w ds = Some d /\
    Interp_offset d u = offset /\
    0 <= offset < Z.of_nat (length w) /\
    (at_ (cdf (interp_base d)) offset <= u)%Q /\
    (u < at_ (cdf (interp_base d)) (offset + 1))%Q /\
    Interp_uSub d u = uSub /\
    (0 <= uSub)%Q /\ (uSub < 1)%Q /\
    (u == at_ (cdf (interp_base d)) offset
          + uSub * (at_ (cdf (interp_base d)) (offset + 1)
                    - at_ (cdf (interp_base d)) offset))%Q /\
    ((0 < Qsum w)%Q -> (0 < at_ w offset)%Q) /\
    forall s p,
      vSampleDiscrete (nth (Z.to_nat offset) ds no_distribution) uSub false false
      = Some s ->
      Interp_DiscretePDF d (sampled s) = Some p ->
      Interp_SampleDiscrete d u true false
      = Some {| sampled := sampled s; sample_pdf := Some p;
                sample_uRemapped := None |}.
Proof.
  intros Hne Hpos Hlen Hu0 Hu1.
  assert (Hn : 0 < Z.of_nat (length w)) by (destruct w; [congruence | cbn; lia]).
  pose proof (inject_Z_pos _ Hn) as HnQ.
  set (d := {| interp_base := mkDistribution1D w; distributions := ds |}).
  assert (Hd : mkInterpolatedDistribution1D w ds = Some d).
  { unfold mkInterpolatedDistribution1D.
    replace (0 <? Z.of_nat (length w)) with true by (symmetry; apply Z.ltb_lt; lia).
    cbn [CHECK bind]. now rewrite <- Hlen, firstn_all. }
  destruct (sample_bracket w u Hne Hpos Hu0 Hu1) as (Hoff & Hlo & Hhi).
  set (offset := FindInterval (Z.of_nat (length (cdf (mkDistribution1D w))))
                   (fun index => fleb (at_ (cdf (mkDistribution1D w)) index) u)) in *.
  set (c0 := at_ (cdf (mkDistribution1D w)) offset) in *.
  set (c1 := at_ (cdf (mkDistribution1D w)) (offset + 1)) in *.
  set (r := ((u - c0) / (c1 - c0))%Q).
  assert (Hw : (0 < c1 - c0)%Q) by lra.
  assert (Hr0 : (0 <= r)%Q).
  { unfold r. apply Qle_shift_div_l; [exact Hw |]. lra. }
  assert (Hr1 : (r < 1)%Q).
  { unfold r. apply Qlt_shift_div_r; [exact Hw |]. lra. }
  assert (HuSub : Interp_uSub d u = r).
  { unfold Interp_uSub, Interp_offset. cbn [interp_base d]. fold offset. fold c0. fold c1.
    qops. fold r.
    replace (Qle_bool 1 r) with false; [reflexivity |].
    symmetry. destruct (Qle_bool 1 r) eqn:E; [| reflexivity].
    apply Qle_bool_iff in E. lra. }
  exists d, offset, r. cbn [interp_base d].
  split; [exact Hd |]. split; [reflexivity |]. split; [exact Hoff |].
  split; [exact Hlo |]. split; [exact Hhi |]. split; [exact HuSub |].
  split; [exact Hr0 |]. split; [exact Hr1 |]. split; [| split].
  - subst r c0 c1. field. lra.
  - intros HS.
    assert (H0 : ~ (funcInt (mkDistribution1D w) == 0)%Q).
    { rewrite funcInt_closed. intros H.
      assert (E : (Qsum w == Qsum w / inject_Z (Z.of_nat (length w))
                             * inject_Z (Z.of_nat (length w)))%Q) by (field; lra).
      rewrite H in E. lra. }
    assert (Hf : (0 < funcInt (mkDistribution1D w))%Q).
    { pose proof (funcInt_nonneg w Hne Hpos). lra. }
    pose proof (mk_cdf_diff_Q w offset H0 Hoff) as Hdiff.
    fold c0 in Hdiff. fold c1 in Hdiff.
    assert (Hq : (0 < at_ w offset / inject_Z (Z.of_nat (length w))
                      / funcInt (mkDistribution1D w))%Q) by lra.
    assert (E : (at_ w offset
                 == at_ w offset / inject_Z (Z.of_nat (length w))
                    / funcInt (mkDistribution1D w)
                    * (funcInt (mkDistribution1D w) * inject_Z (Z.of_nat (length w))))%Q)
      by (field; split; lra).
    rewrite E. apply Qmult_lt_0_compat; [exact Hq |].
    apply Qmult_lt_0_compat; assumption.
  - intros s p Hs Hp. unfold Interp_SampleDiscrete.
    rewrite HuSub. unfold Interp_offset. cbn [interp_base distributions d].
    fold offset. rewrite Hs. cbn [bind]. fold d. rewrite Hp. reflexivity.
Qed.

Lemma Interp_SampleDiscrete_exact_witness :
  exists d offset uSub,
    mkInterpolatedDistribution1D [1; 3]%Q
      [Distribution1D_ref (mkDistribution1D [1; 1]%Q);
       Distribution1D_ref (mkDistribution1D [0; 5]%Q)] = Some d /\
    Interp_offset d (1 # 2)%Q = offset /\
    Interp_uSub d (1 # 2)%Q = uSub /\
    (0 <= uSub)%Q /\ (uSub < 1)%Q.
Proof.
  destruct (Interp_SampleDiscrete_exact [1; 3]%Q
              [Distribution1D_ref (mkDistribution1D [1; 1]%Q);
               Distribution1D_ref (mkDistribution1D [0; 5]%Q)] (1 # 2)%Q)
    as (d & offset & uSub & Hd & Ho & _ & _ & _ & Hu & H0 & H1 & _).
  - discriminate.
  - intros x Hx. in_list Hx; q_order.
  - reflexivity.
  - q_order.
  - q_order.
  - exists d, offset, uSub. repeat split; assumption.
Defined.


(** ** Multiple-importance weights *)

(** X12.  [BalanceHeuristic] in exact arithmetic: for non-negative counts
    and densities, not all products zero, the weights of the two strategies,
    [BalanceHeuristic(nf, fPdf, ng, gPdf)] and
    [BalanceHeuristic(ng, gPdf, nf, fPdf)], sum to 1 and each lies in [0,1]. *)
Theorem BalanceHeuristic_weights_sum_to_one (nf ng : Z) (fPdf gPdf : Q) :
  0 <= nf -> 0 <= ng -> (0 <= fPdf)%Q -> (0 <= gPdf)%Q ->
  (0 < inject_Z nf * fPdf + inject_Z ng * gPdf)%Q ->
  (BalanceHeuristic nf fPdf ng gPdf + BalanceHeuristic ng gPdf nf fPdf == 1)%Q /\
  (0 <= BalanceHeuristic nf fPdf ng gPdf)%Q /\
  (BalanceHeuristic nf fPdf ng gPdf <= 1)%Q.
Proof.
  intros Hnf Hng Hf Hg Hpos. unfold BalanceHeuristic. qops.
  assert (Ha : (0 <= inject_Z nf * fPdf)%Q).
  { apply Qmult_le_0_compat; [| exact Hf].
    change 0%Q with (inject_Z 0). rewrite <- Zle_Qle. exact Hnf. }
  assert (Hb : (0 <= inject_Z ng * gPdf)%Q).
  { apply Qmult_le_0_compat; [| exact Hg].
    change 0%Q with (inject_Z 0). rewrite <- Zle_Qle. exact Hng. }
  set (a := (inject_Z nf * fPdf)%Q) in *. set (b := (inject_Z ng * gPdf)%Q) in *.
  split; [| split].
  - field. lra.
  - apply Qle_shift_div_l; [exact Hpos | lra].
  - apply Qle_shift_div_r; [exact Hpos | lra].
Qed.

Lemma BalanceHeuristic_weights_sum_to_one_witness :
  (BalanceHeuristic 1 (1 # 3)%Q 2 (1 # 4)%Q
   + BalanceHeuristic 2 (1 # 4)%Q 1 (1 # 3)%Q == 1)%Q.
Proof.
  apply (BalanceHeuristic_weights_sum_to_one 1 2 (1 # 3)%Q (1 # 4)%Q);
    try lia; q_order.
Defined.

(** X13.  [PowerHeuristic] in exact arithmetic: when [nf * fPdf] and
    [ng * gPdf] are not both zero, the weights of the two strategies sum to
    1 and each lies in [0,1], whatever the signs of the arguments. *)
Theorem PowerHeuristic_weights_sum_to_one (nf ng : Z) (fPdf gPdf : Q) :
  ~ (inject_Z nf * fPdf == 0)%Q \/ ~ (inject_Z ng * gPdf == 0)%Q ->
  (PowerHeuristic nf fPdf ng gPdf + PowerHeuristic ng gPdf nf fPdf == 1)%Q /\
  (0 <= PowerHeuristic nf fPdf ng gPdf)%Q /\
  (PowerHeuristic nf fPdf ng gPdf <= 1)%Q.
Proof.
  intros Hnz. unfold PowerHeuristic. qops. cbv zeta.
  set (a := (inject_Z nf * fPdf)%Q) in *. set (b := (inject_Z ng * gPdf)%Q) in *.
  assert (Ha : (0 <= a * a)%Q) by nra.
  assert (Hb : (0 <= b * b)%Q) by nra.
  assert (Hpos : (0 < a * a + b * b)%Q).
  { destruct Hnz as [H | H].
    - assert (0 < a * a)%Q; [| lra].
      destruct (Qlt_le_dec 0 a); [nra |].
      destruct (Qlt_le_dec a 0); [nra |]. exfalso. apply H. lra.
    - assert (0 < b * b)%Q; [| lra].
      destruct (Qlt_le_dec 0 b); [nra |].
      destruct (Qlt_le_dec b 0); [nra |]. exfalso. apply H. lra. }
  split; [| split].
  - field. lra.
  - apply Qle_shift_div_l; [exact Hpos | lra].
  - apply Qle_shift_div_r; [exact Hpos | lra].
Qed.

Lemma PowerHeuristic_weights_sum_to_one_witness :
  (PowerHeuristic 1 (1 # 3)%Q 2 0%Q + PowerHeuristic 2 0%Q 1 (1 # 3)%Q == 1)%Q.
Proof.
  apply (PowerHeuristic_weights_sum_to_one 1 2 (1 # 3)%Q 0%Q).
  left. vm_compute. discriminate.
Defined.


(** ** Distributions of accumulated contribution maps *)

Section AccumulateFacts.

Context {F : Type} {ops : FloatOps F}.

Lemma NoDup_snoc {A : Type} (x : A) (l : list A) :
  NoDup l -> ~ In x l -> NoDup (l ++ [x]).
Proof.
  induction 1 as [| y l Hnin Hnd IH]; intros Hx; cbn [app].
  - constructor; [intros [] | constructor].
  - constructor.
    + intros H. apply in_app_or in H. destruct H as [H | [-> | []]]; [auto |].
      apply Hx. now left.
    + apply IH. intros H. apply Hx. now right.
Qed.

Lemma map_insert_keys_NoDup {V : Type} (k : Z) (v : V) (m : list (Z * V)) :
  NoDup (map fst m) -> NoDup (map fst (map_insert k v m)).
Proof.
  destruct (map_find k m) as [old |] eqn:E.
  - intros Hnd.
    assert (Hk : map fst (map_insert k v m) = map fst m).
    { clear Hnd. induction m as [| [k' v'] m IH]; [discriminate |].
      cbn [map_find] in E. cbn [map_insert].
      destruct (k =? k') eqn:Ek.
      - apply Z.eqb_eq in Ek. subst. reflexivity.
      - cbn [map fst]. f_equal. now apply IH. }
    now rewrite Hk.
  - intros Hnd. rewrite map_insert_fresh by exact E.
    rewrite map_app. cbn [map fst].
    apply NoDup_snoc; [exact Hnd |].
    apply map_find_None in E. exact E.
Qed.

Lemma map_add_NoDup (k : Z) (v : F) (m : list (Z * F)) :
  NoDup (map fst m) -> NoDup (map fst (map_add k v m)).
Proof.
  intros H. unfold map_add. destruct (map_find k m); now apply map_insert_keys_NoDup.
Qed.

Lemma accumulate_snoc (items : list (Z * F)) (it : Z * F) :
  accumulate (items ++ [it]) = map_add (fst it) (snd it) (accumulate items).
Proof. unfold accumulate. now rewrite fold_left_app. Qed.

Lemma accumulate_NoDup (items : list (Z * F)) : NoDup (map fst (accumulate items)).
Proof.
  induction items as [| it items IH] using rev_ind; [constructor |].
  rewrite accumulate_snoc. now apply map_add_NoDup.
Qed.

End AccumulateFacts.

Lemma Qsum_map_insert (k : Z) (v : Q) (m : list (Z * Q)) :
  (Qsum (map snd (map_insert k v m))
   == Qsum (map snd m) + v - match map_find k m with
                             | Some old => old
                             | None => 0
                             end)%Q.
Proof.
  induction m as [| [k' v'] m IH]; cbn [map_insert map_find map snd].
  - rewrite Qsum_cons, Qsum_nil. ring.
  - destruct (k =? k'); cbn [map snd]; rewrite !Qsum_cons.
    + ring.
    + rewrite IH. ring.
Qed.

Lemma light_total_snoc (l : Z) (items : list (Z * Q)) (it : Z * Q) :
  (light_total l (items ++ [it])
   == light_total l items + (if fst it =? l then snd it else 0))%Q.
Proof.
  unfold light_total. rewrite filter_app, map_app, Qsum_app. cbn [filter].
  destruct (fst it =? l); cbn [map]; rewrite ?Qsum_cons, ?Qsum_nil; ring.
Qed.

Lemma light_total_absent (l : Z) (items : list (Z * Q)) :
  (forall it, In it items -> fst it <> l) -> (light_total l items == 0)%Q.
Proof.
  intros H. unfold light_total.
  replace (filter (fun it => fst it =? l) items) with (@nil (Z * Q)); [reflexivity |].
  symmetry. induction items as [| it items IH]; [reflexivity |]. cbn [filter].
  replace (fst it =? l) with false
    by (symmetry; apply Z.eqb_neq; apply H; now left).
  apply IH. intros it' Hin. apply H. now right.
Qed.

(** What the accumulated map holds for a light: the sum of the light's
    values, or nothing when the light does not occur. *)
Lemma accumulate_find (items : list (Z * Q)) (l : Z) :
  match map_find l (accumulate items) with
  | Some v => (v == light_total l items)%Q /\ exists it, In it items /\ fst it = l
  | None => forall it, In it items -> fst it <> l
  end.
Proof.
  induction items as [| it items IH] using rev_ind.
  - cbn. intros it [].
  - rewrite accumulate_snoc. unfold map_add.
    destruct (Z.eq_dec (fst it) l) as [E | E].
    + subst l.
      assert (Hin : In it (items ++ [it])) by (apply in_or_app; right; now left).
      destruct (map_find (fst it) (accumulate items)) as [old |] eqn:Eo;
        rewrite map_find_insert_eq; (split; [| now exists it]);
        rewrite light_total_snoc, Z.eqb_refl; qops.
      * destruct IH as [IH _]. rewrite IH. reflexivity.
      * rewrite (light_total_absent (fst it) items IH). reflexivity.
    + assert (Hsame : forall x, map_find l (map_insert (fst it) x (accumulate items))
                                = map_find l (accumulate items)).
      { intros x. apply map_find_insert_neq. congruence. }
      destruct (map_find (fst it) (accumulate items)); rewrite Hsame;
        (destruct (map_find l (accumulate items)) as [v |] eqn:Ev;
         [ destruct IH as [IH (it' & Hin' & Hl')]; split;
           [ rewrite light_total_snoc;
             replace (fst it =? l) with false by (symmetry; now apply Z.eqb_neq);
             rewrite IH; ring
           | exists it'; split; [apply in_or_app; now left | exact Hl'] ]
         | intros it' Hin'; apply in_app_or in Hin'; destruct Hin' as [Hin' | [<- | []]];
           [now apply IH | exact E] ]).
Qed.

Lemma accumulate_total (items : list (Z * Q)) :
  (Qsum (map snd (accumulate items)) == all_total items)%Q.
Proof.
  unfold all_total. induction items as [| it items IH] using rev_ind; [reflexivity |].
  rewrite accumulate_snoc, map_app, Qsum_app. cbn [map]. rewrite Qsum_cons, Qsum_nil.
  unfold map_add.
  destruct (map_find (fst it) (accumulate items)) as [old |] eqn:E;
    rewrite Qsum_map_insert, E, IH; qops; ring.
Qed.

(** Entries that are not kept add nothing to a sum of non-negative
    contributions. *)
Lemma kept_sum (m : list (Z * Q)) :
  (forall k v, In (k, v) m -> (0 <= v)%Q) ->
  (Qsum (map snd (kept_entries m)) == Qsum (map snd m))%Q.
Proof.
  induction m as [| [k v] m IH]; intros Hpos; [reflexivity |].
  cbn [kept_entries filter snd]. fold (kept_entries m).
  assert (IH' : (Qsum (map snd (kept_entries m)) == Qsum (map snd m))%Q).
  { apply IH. intros k' v' H. apply (Hpos k' v'). now right. }
  qops. destruct (Qltb 0 v) eqn:E; cbn [map snd]; rewrite ?Qsum_cons, IH'.
  - reflexivity.
  - apply Qltb_ge in E. assert (0 <= v)%Q by (apply (Hpos k v); now left). lra.
Qed.

(** [DiscretePDF] of the distribution built from a map of non-negative
    contributions, in exact arithmetic: the floor plus the share of the
    index in the sum of the map, or 1/nAll when the map sums to 0. *)
Lemma Sparse_pdf_of_map (m : list (Z * Q)) (up : Q) (n_all : Z) (l : Z) :
  NoDup (map fst m) ->
  (forall k v, In (k, v) m -> (0 <= v)%Q) ->
  0 <= l < n_all ->
  exists d p,
    createSparseDistribution1D m up n_all = Some d /\
    Sparse_DiscretePDF d l = Some p /\
    ((0 < Qsum (map snd m))%Q ->
     (p == up / inject_Z n_all
           + (1 - up) * (match map_find l m with Some v => v | None => 0 end
                         / Qsum (map snd m)))%Q) /\
    ((Qsum (map snd m) == 0)%Q -> (p == 1 / inject_Z n_all)%Q).
Proof.
  intros Hnd Hpos Hl.
  assert (Hn : 0 < n_all) by lia.
  assert (HnQ : (0 < inject_Z n_all)%Q) by now apply inject_Z_pos.
  pose proof (createSparseDistribution1D_shape m up n_all Hnd Hn) as Hd.
  match type of Hd with _ = Some ?x => set (d := x) in * end.
  destruct (Sparse_DiscretePDF_value m up n_all d l Hnd Hn Hd Hl) as (p & Hp & Hval).
  exists d, p. split; [exact Hd |]. split; [exact Hp |].
  pose proof (kept_sum m Hpos) as HS.
  pose proof (kept_keys_NoDup m Hnd) as Hknd.
  cbn [uniProb backMap sparse_base func mkDistribution1D d] in Hval.
  set (K := map fst (kept_entries m)) in *.
  set (V := map snd (kept_entries m)) in *.
  assert (Hempty : kept_entries m = [] -> (Qsum V == 0)%Q).
  { intros E. unfold V. now rewrite E. }
  assert (Hnonempty : kept_entries m <> [] -> (0 < Qsum V)%Q).
  { intros E. apply Qsum_pos.
    - unfold V. intros E'. apply map_eq_nil in E'. contradiction.
    - intros x Hx. now apply (kept_values_positive m). }
  split.
  - intros Hsum.
    assert (Hne : kept_entries m <> []).
    { intros E. apply Hempty in E. lra. }
    replace (Z.of_nat (length (kept_entries m)) =? 0) with false in Hval
      by (symmetry; apply Z.eqb_neq; destruct (kept_entries m); [congruence | cbn; lia]).
    rewrite Hval.
    destruct (map_find l (index_from 0 K)) as [j |] eqn:Ej.
    + destruct (index_from_find _ _ _ _ Ej) as (n & -> & Hn').
      unfold K in Hn'. rewrite nth_error_map in Hn'.
      destruct (nth_error (kept_entries m) n) as [[k v] |] eqn:En; [| discriminate].
      cbn in Hn'. injection Hn' as ->.
      assert (Hat : at_ V (0 + Z.of_nat n) = v).
      { unfold at_. rewrite Z.add_0_l, Nat2Z.id. apply nth_error_nth.
        unfold V. rewrite nth_error_map, En. reflexivity. }
      assert (Hin : In (l, v) m).
      { apply nth_error_In in En. apply kept_entries_In in En. tauto. }
      rewrite (map_find_NoDup l v m Hnd Hin), Hat, HS. field. split; lra.
    + assert (Hz : (match map_find l m with Some v => v | None => 0 end == 0)%Q).
      { destruct (map_find l m) as [v |] eqn:Em; [| reflexivity].
        apply map_find_In in Em.
        assert (Hv : (0 <= v)%Q) by now apply (Hpos l v).
        destruct (Qlt_le_dec 0 v) as [Hlt | Hle]; [| lra].
        exfalso.
        assert (Hk : In (l, v) (kept_entries m)).
        { apply kept_entries_In. split; [exact Em |]. qops. now apply Qltb_lt. }
        apply (In_nth_error (kept_entries m)) in Hk. destruct Hk as (n & Hn').
        rewrite (index_from_nth K 0 n l Hknd) in Ej; [discriminate |].
        unfold K. rewrite nth_error_map, Hn'. reflexivity. }
      rewrite Hz. field. split; lra.
  - intros Hsum.
    assert (He : kept_entries m = []).
    { destruct (kept_entries m) as [| kv kept] eqn:E; [reflexivity |].
      assert (0 < Qsum V)%Q by (apply Hnonempty; discriminate). lra. }
    unfold K in Hval. rewrite He in Hval. cbn in Hval. rewrite Hval. qops. field. lra.
Qed.

(** The same for a map accumulated from (light, value) pairs with
    non-negative values. *)
Lemma Sparse_pdf_of_accumulated (items : list (Z * Q)) (up : Q) (n_all : Z) (l : Z) :
  (forall it, In it items -> (0 <= snd it)%Q) ->
  0 <= l < n_all ->
  exists d p,
    createSparseDistribution1D (accumulate items) up n_all = Some d /\
    Sparse_DiscretePDF d l = Some p /\
    ((0 < all_total items)%Q ->
     (p == up / inject_Z n_all
           + (1 - up) * (light_total l items / all_total items))%Q) /\
    ((all_total items == 0)%Q -> (p == 1 / inject_Z n_all)%Q).
Proof.
  intros Hpos Hl.
  assert (Hlt : forall k, (0 <= light_total k items)%Q).
  { intros k. unfold light_total. apply Qsum_nonneg. intros x Hx.
    apply in_map_iff in Hx. destruct Hx as (it & <- & Hit).
    apply filter_In in Hit. apply Hpos. tauto. }
  assert (Hvals : forall k v, In (k, v) (accumulate items) -> (0 <= v)%Q).
  { intros k v Hin.
    pose proof (map_find_NoDup k v _ (accumulate_NoDup items) Hin) as Hf.
    pose proof (accumulate_find items k) as Ha. rewrite Hf in Ha.
    destruct Ha as [Ha _]. rewrite Ha. apply Hlt. }
  destruct (Sparse_pdf_of_map (accumulate items) up n_all l
              (accumulate_NoDup items) Hvals Hl) as (d & p & Hd & Hp & H1 & H2).
  exists d, p. split; [exact Hd |]. split; [exact Hp |].
  pose proof (accumulate_total items) as Ht.
  assert (Hv : (match map_find l (accumulate items) with Some v => v | None => 0 end
                == light_total l items)%Q).
  { pose proof (accumulate_find items l) as Ha.
    destruct (map_find l (accumulate items)) as [v |].
    - tauto.
    - symmetry. now apply light_total_absent. }
  split.
  - intros Hsum. rewrite H1 by (rewrite Ht; exact Hsum). now rewrite Hv, Ht.
  - intros Hsum. apply H2. now rewrite Ht.
Qed.


(** ** Lookups in the photon tree and in the tree of cluster distributions *)

Section ContribFacts.

Context {F : Type} {ops : FloatOps F}.

(** The loop of a kernel that ignores the distance is the accumulation of
    the photons' (light, beta) pairs. *)
Lemma kernel_contrib_accumulate (cloud : list (Photon (F := F)))
    (weight : Photon (F := F) -> F -> F) (matches : list (nat * F)) :
  kernel_contrib cloud weight matches
  = accumulate (map (fun m => (ph_lightNum (nth (fst m) cloud no_photon),
                               weight (nth (fst m) cloud no_photon) (snd m)))
                    matches).
Proof.
  unfold kernel_contrib, accumulate.
  generalize (@nil (Z * F)).
  induction matches as [| m matches IH]; intros acc; [reflexivity |].
  cbn [fold_left map fst snd]. apply IH.
Qed.

(** The map a cluster accumulates is the accumulation of the pairs of its
    intersecting photons. *)
Lemma accumulate_cluster_contrib (cloud : list (Photon (F := F))) (cluster : list nat) :
  acc_lightContrib (accumulate_cluster cloud cluster)
  = accumulate (photon_items cloud (intersecting cloud cluster)).
Proof.
  unfold accumulate_cluster, accumulate, photon_items.
  set (acc0 := {| acc_x := fzero; acc_y := fzero; acc_z := fzero;
                  acc_lightContrib := []; acc_numPhotons := 0 |}).
  change (@nil (Z * F)) with (acc_lightContrib acc0).
  generalize acc0. clear acc0.
  induction cluster as [| i cluster IH]; intros acc; [reflexivity |].
  cbn [fold_left]. rewrite IH. unfold intersecting. cbn [filter].
  unfold accumulate_photon.
  destruct (ph_lightNum (nth i cloud no_photon) =? -1); cbn [negb]; reflexivity.
Qed.

End ContribFacts.

(** X17.  [PhotonBasedKdTreeLightDistribution::Lookup] with the radius
    search, or with the k nearest photons and the kernel "none", in exact
    arithmetic and for photons of non-negative power: the lookup returns a
    distribution in which light l has the probability
    [up / nLights + (1 - up) * B_l / B], [up] being [minContributionScale],
    [B_l] the summed power of the photons found that left light l and [B]
    the summed power of all photons found; when [B] is 0 (no photon found,
    or only photons of power 0) every light has the probability
    [1 / nLights]. *)
Theorem KdTree_Lookup_unweighted
    (fpow : Q -> Q -> Q) (fsqrt fexp flog fneg : Q -> Q) (f_0_001 : Q)
    (up : Q) (nLights : Z) (intSmooth : Q) (cloud : list (Photon (F := Q)))
    (knn : bool) (interpolation : String.string) (matches : list (nat * Q)) (l : Z) :
  knn = false \/ interpolation = "none"%string ->
  (forall m, In m matches -> (0 <= ph_beta (nth (fst m) cloud no_photon))%Q) ->
  0 <= l < nLights ->
  let items := photon_items cloud (map fst matches) in
  exists d p,
    KdTree_Lookup fpow fsqrt fexp flog fneg f_0_001 up nLights intSmooth cloud
                  knn interpolation matches = Some d /\
    Sparse_DiscretePDF d l = Some p /\
    ((0 < all_total items)%Q ->
     (p == up / inject_Z nLights
           + (1 - up) * (light_total l items / all_total items))%Q) /\
    ((all_total items == 0)%Q -> (p == 1 / inject_Z nLights)%Q).
Proof.
  intros Hmode Hpos Hl items.
  assert (Hc : KdTree_lightContrib fpow fsqrt fexp flog fneg f_0_001 intSmooth cloud
                 knn interpolation matches = accumulate items).
  { unfold KdTree_lightContrib.
    assert (E : kernel_contrib cloud (fun photon _ => ph_beta photon) matches
                = accumulate items).
    { rewrite kernel_contrib_accumulate. unfold items, photon_items.
      now rewrite map_map. }
    destruct Hmode as [-> | ->].
    - exact E.
    - destruct knn; [| exact E]. cbn [String.eqb Ascii.eqb Bool.eqb]. exact E. }
  unfold KdTree_Lookup. rewrite Hc.
  apply Sparse_pdf_of_accumulated; [| exact Hl].
  intros it Hit. unfold items, photon_items in Hit. rewrite map_map in Hit.
  apply in_map_iff in Hit. destruct Hit as (m & <- & Hm). cbn [snd]. now apply Hpos.
Qed.

Lemma KdTree_Lookup_unweighted_witness :
  exists d p,
    KdTree_Lookup (fun x _ => x) (fun x => x) (fun x => x) (fun x => x) (fun x => x)
                  (1 # 1000)%Q (1 # 5)%Q 4 1%Q example_cloud
                  false "none"%string [(0%nat, 1%Q); (1%nat, 2%Q)] = Some d /\
    Sparse_DiscretePDF d 2 = Some p /\
    (p == 13 # 20)%Q.
Proof.
  destruct (KdTree_Lookup_unweighted
              (fun x _ => x) (fun x => x) (fun x => x) (fun x => x) (fun x => x)
              (1 # 1000)%Q (1 # 5)%Q 4 1%Q example_cloud
              false "none"%string [(0%nat, 1%Q); (1%nat, 2%Q)] 2)
    as (d & p & Hd & Hp & Hpos & _).
  - left. reflexivity.
  - intros m Hin. in_list Hin; q_order.
  - lia.
  - exists d, p. repeat split; try assumption.
    rewrite Hpos by (vm_compute; reflexivity). vm_compute. reflexivity.
Defined.

(** X18.  [PhotonBasedKdTreeLightDistribution::Lookup] with the k nearest
    photons and an interpolation name that is none of "shepard", "modshep",
    "kreg", "adkreg" and "none", in any arithmetic: no branch of the chain
    of comparisons is taken, the photons found are ignored, and the result
    is the distribution of the empty map: [uniProb] is 1 and every light
    has the probability [1 / nLights] (the constructor aborts when there
    is no light). *)
Theorem KdTree_Lookup_unknown_kernel
    (F : Type) (ops : FloatOps F)
    (fpow : F -> F -> F) (fsqrt fexp flog fneg : F -> F) (f_0_001 : F)
    (up : F) (nLights : Z) (intSmooth : F) (cloud : list (Photon (F := F)))
    (interpolation : String.string) (matches : list (nat * F)) :
  interpolation <> "shepard"%string -> interpolation <> "modshep"%string ->
  interpolation <> "kreg"%string -> interpolation <> "adkreg"%string ->
  interpolation <> "none"%string ->
  (nLights <= 0 ->
   KdTree_Lookup fpow fsqrt fexp flog fneg f_0_001 up nLights intSmooth cloud
                 true interpolation matches = None) /\
  (0 < nLights ->
   exists d,
     KdTree_Lookup fpow fsqrt fexp flog fneg f_0_001 up nLights intSmooth cloud
                   true interpolation matches = Some d /\
     uniProb d = fone /\ sampleMap d = [] /\
     forall l, 0 <= l < nLights ->
       Sparse_DiscretePDF d l = Some (fdiv fone (of_int nLights))).
Proof.
  intros H1 H2 H3 H4 H5.
  assert (Hc : KdTree_lightContrib fpow fsqrt fexp flog fneg f_0_001 intSmooth cloud
                 true interpolation matches = []).
  { unfold KdTree_lightContrib.
    apply String.eqb_neq in H1, H2, H3, H4, H5.
    now rewrite H1, H2, H3, H4, H5. }
  unfold KdTree_Lookup. rewrite Hc.
  unfold createSparseDistribution1D. cbn [collect_contrib].
  unfold mkSparseDistribution1D. cbn [length Z.of_nat Z.eqb].
  split.
  - intros Hn. replace (0 <? nLights) with false by (symmetry; apply Z.ltb_ge; lia).
    reflexivity.
  - intros Hn. replace (0 <? nLights) with true by (symmetry; apply Z.ltb_lt; lia).
    cbn [CHECK bind]. eexists. split; [reflexivity |].
    cbn [uniProb sampleMap]. split; [reflexivity |]. split; [reflexivity |].
    intros l Hl. unfold Sparse_DiscretePDF, Sparse_Count.
    cbn [nAll backMap uniProbSingle map_find].
    replace ((0 <=? l) && (l <? nLights)) with true; [reflexivity |].
    symmetry. apply andb_true_iff. split; [apply Z.leb_le | apply Z.ltb_lt]; lia.
Qed.

Lemma KdTree_Lookup_unknown_kernel_witness :
  exists d,
    KdTree_Lookup (fun x _ => x) (fun x => x) (fun x => x) (fun x => x) (fun x => x)
                  (1 # 1000)%Q (1 # 5)%Q 4 1%Q example_cloud
                  true "linear"%string [(0%nat, 1%Q); (1%nat, 2%Q)] = Some d /\
    Sparse_DiscretePDF d 2 = Some (1 / 4)%Q.
Proof.
  destruct (KdTree_Lookup_unknown_kernel Q Q_FloatOps
              (fun x _ => x) (fun x => x) (fun x => x) (fun x => x) (fun x => x)
              (1 # 1000)%Q (1 # 5)%Q 4 1%Q example_cloud
              "linear"%string [(0%nat, 1%Q); (1%nat, 2%Q)]) as [_ Hok];
    try discriminate.
  destruct Hok as (d & Hd & _ & _ & Hp); [lia |].
  exists d. split; [exact Hd | apply Hp; lia].
Defined.

(** X20.  [PhotonBasedCdfKdTreeLightDistribution::buildCluster], one
    cluster, in exact arithmetic and for photons of non-negative power: a
    cluster with more than [photonThreshold] photons that hit a surface is
    pushed to [cdfCloud], and in its distribution light l has the
    probability [up / nLights + (1 - up) * B_l / B], [B_l] the summed power
    of the cluster's intersecting photons of light l and [B] that of all
    its intersecting photons; photons with [lightNum == -1] do not count;
    when [B] is 0 every light has the probability [1 / nLights]. *)
Theorem cluster_distribution_proportional
    (cloud : list (Photon (F := Q))) (photonThreshold : Z) (up : Q) (nLights : Z)
    (cluster : list nat) (l : Z) :
  photonThreshold < Z.of_nat (length (intersecting cloud cluster)) ->
  (forall i, In i cluster -> (0 <= ph_beta (nth i cloud no_photon))%Q) ->
  0 <= l < nLights ->
  let items := photon_items cloud (intersecting cloud cluster) in
  exists c p,
    cluster_cdf cloud photonThreshold up nLights cluster = Some (Some c) /\
    Sparse_DiscretePDF (cdf_distr c) l = Some p /\
    ((0 < all_total items)%Q ->
     (p == up / inject_Z nLights
           + (1 - up) * (light_total l items / all_total items))%Q) /\
    ((all_total items == 0)%Q -> (p == 1 / inject_Z nLights)%Q).
Proof.
  intros Hnum Hpos Hl items.
  destruct (Sparse_pdf_of_accumulated items up nLights l) as (d & p & Hd & Hp & H1 & H2).
  { intros it Hit. unfold items, photon_items in Hit.
    apply in_map_iff in Hit. destruct Hit as (i & <- & Hi). cbn [snd].
    apply Hpos. apply filter_In in Hi. tauto. }
  { exact Hl. }
  unfold cluster_cdf. rewrite numPhotons_intersecting.
  replace (Z.of_nat (length (intersecting cloud cluster)) >? photonThreshold) with true
    by (symmetry; rewrite Z.gtb_ltb; apply Z.ltb_lt; lia).
  rewrite accumulate_cluster_contrib. fold items. rewrite Hd. cbn [bind].
  eexists. exists p. split; [reflexivity |]. cbn [cdf_distr].
  split; [exact Hp |]. split; assumption.
Qed.

Lemma cluster_distribution_proportional_witness :
  exists c p,
    cluster_cdf example_cloud 1 (1 # 5)%Q 4 [0; 1; 2]%nat = Some (Some c) /\
    Sparse_DiscretePDF (cdf_distr c) 2 = Some p /\
    (p == 13 # 20)%Q.
Proof.
  destruct (cluster_distribution_proportional example_cloud 1 (1 # 5)%Q 4 [0; 1; 2]%nat 2)
    as (c & p & Hc & Hp & Hpos & _).
  - vm_compute. reflexivity.
  - intros i Hin. in_list Hin; q_order.
  - lia.
  - exists c, p. repeat split; try assumption.
    rewrite Hpos by (vm_compute; reflexivity). vm_compute. reflexivity.
Defined.

Section KernelFacts.

Context {F : Type} {ops : FloatOps F}.

(** A kernel that does not read the photon sees of the cloud only the
    lights of its photons. *)
Lemma kernel_contrib_lights (cloud cloud' : list (Photon (F := F)))
    (weight : F -> F) (matches : list (nat * F)) :
  map ph_lightNum cloud = map ph_lightNum cloud' ->
  kernel_contrib cloud (fun _ dist_sqr => weight dist_sqr) matches
  = kernel_contrib cloud' (fun _ dist_sqr => weight dist_sqr) matches.
Proof.
  intros Hl. unfold kernel_contrib.
  generalize (@nil (Z * F)).
  induction matches as [| m matches IH]; intros acc; [reflexivity |].
  cbn [fold_left].
  replace (ph_lightNum (nth (fst m) cloud' no_photon))
    with (ph_lightNum (nth (fst m) cloud no_photon)); [apply IH |].
  rewrite <- !(map_nth ph_lightNum). now rewrite Hl.
Qed.

End KernelFacts.

(** X19.  [PhotonBasedKdTreeLightDistribution::Lookup] with the kernels
    "modshep", "kreg" and "adkreg", in any arithmetic: [beta] is read from
    the photon and then overwritten or left unused, so the distribution
    returned depends on the lights and the distances of the photons found,
    not on their power: two clouds whose photons carry the same light
    numbers give the same result. *)
Theorem KdTree_Lookup_kernels_ignore_beta
    (F : Type) (ops : FloatOps F)
    (fpow : F -> F -> F) (fsqrt fexp flog fneg : F -> F) (f_0_001 : F)
    (up : F) (nLights : Z) (intSmooth : F) (cloud cloud' : list (Photon (F := F)))
    (interpolation : String.string) (matches : list (nat * F)) :
  In interpolation ["modshep"; "kreg"; "adkreg"]%string ->
  map ph_lightNum cloud = map ph_lightNum cloud' ->
  KdTree_Lookup fpow fsqrt fexp flog fneg f_0_001 up nLights intSmooth cloud
                true interpolation matches
  = KdTree_Lookup fpow fsqrt fexp flog fneg f_0_001 up nLights intSmooth cloud'
                  true interpolation matches.
Proof.
  intros Hin Hl. unfold KdTree_Lookup. f_equal. unfold KdTree_lightContrib.
  cbn [In] in Hin.
  destruct Hin as [<- | [<- | [<- | []]]];
    cbn [String.eqb Ascii.eqb Bool.eqb];
    match goal with
    | |- kernel_contrib _ (fun _ dist_sqr => @?w dist_sqr) _ = _ =>
        apply (kernel_contrib_lights cloud cloud' w matches Hl)
    end.
Qed.

Lemma KdTree_Lookup_kernels_ignore_beta_witness :
  KdTree_Lookup (fun x _ => x) (fun x => x) (fun x => x) (fun x => x) (fun x => x)
                (1 # 1000)%Q (1 # 5)%Q 4 1%Q example_cloud
                true "kreg"%string [(0%nat, 1%Q); (1%nat, 2%Q)]
  = KdTree_Lookup (fun x _ => x) (fun x => x) (fun x => x) (fun x => x) (fun x => x)
                  (1 # 1000)%Q (1 # 5)%Q 4 1%Q example_cloud'
                  true "kreg"%string [(0%nat, 1%Q); (1%nat, 2%Q)].
Proof.
  apply (KdTree_Lookup_kernels_ignore_beta Q Q_FloatOps).
  - right. left. reflexivity.
  - reflexivity.
Defined.

Section CdfLookupFacts.

Context {F : Type} {ops : FloatOps F}.
Variable cdfCloud : list (Cdf (F := F)).

Lemma kernel_influence_interp (kernel : F -> F) (matches : list (nat * F)) :
  matches <> [] ->
  exists d,
    (let '(distributions, influence) := kernel_influence cdfCloud kernel matches in
     mkInterpolatedDistribution1D influence distributions) = Some d /\
    distributions d = map (fun m => cluster_distr cdfCloud (fst m)) matches /\
    length (func (interp_base d)) = length matches.
Proof.
  intros Hne. unfold kernel_influence, mkInterpolatedDistribution1D.
  rewrite length_map.
  replace (0 <? Z.of_nat (length matches)) with true
    by (symmetry; apply Z.ltb_lt; destruct matches; [congruence | cbn; lia]).
  cbn [CHECK bind]. eexists. split; [reflexivity |].
  cbn [distributions interp_base func mkDistribution1D].
  rewrite length_map. split; [| reflexivity].
  rewrite <- (length_map (fun m => cluster_distr cdfCloud (fst m)) matches) at 1.
  apply firstn_all.
Qed.

End CdfLookupFacts.

(** The four ways a lookup in the tree of cluster distributions ends. *)
Lemma CdfKdTree_Lookup_cases
    (F : Type) (ops : FloatOps F)
    (fpow : F -> F -> F) (fsqrt fexp flog fneg : F -> F) (f_0_0001 : F)
    (intSmooth : F) (cdfCloud : list (Cdf (F := F)))
    (knn : bool) (interpolation : String.string) (matches : list (nat * F)) :
  let known := In interpolation ["shepard"; "modshep"; "kreg"; "adkreg"]%string in
  let Lookup := CdfKdTree_Lookup fpow fsqrt fexp flog fneg f_0_0001 intSmooth cdfCloud
                                 knn interpolation matches in
  (knn = false -> Lookup = None) /\
  (~ known -> Lookup = None) /\
  (matches = [] -> Lookup = None) /\
  (knn = true -> known -> matches <> [] ->
   exists d,
     Lookup = Some d /\
     distributions d = map (fun m => cluster_distr cdfCloud (fst m)) matches /\
     length (func (interp_base d)) = length matches).
Proof.
  cbv zeta. unfold CdfKdTree_Lookup.
  split; [| split; [| split]].
  - intros ->. reflexivity.
  - intros Hunk. destruct knn; [| reflexivity].
    assert (H1 : String.eqb interpolation "shepard" = false)
      by (apply String.eqb_neq; intros ->; apply Hunk; cbn; tauto).
    assert (H2 : String.eqb interpolation "modshep" = false)
      by (apply String.eqb_neq; intros ->; apply Hunk; cbn; tauto).
    assert (H3 : String.eqb interpolation "kreg" = false)
      by (apply String.eqb_neq; intros ->; apply Hunk; cbn; tauto).
    assert (H4 : String.eqb interpolation "adkreg" = false)
      by (apply String.eqb_neq; intros ->; apply Hunk; cbn; tauto).
    rewrite H1, H2, H3, H4. reflexivity.
  - intros ->. destruct knn; [| reflexivity].
    destruct (String.eqb interpolation "shepard");
      [reflexivity |].
    destruct (String.eqb interpolation "modshep"); [reflexivity |].
    destruct (String.eqb interpolation "kreg"); [reflexivity |].
    destruct (String.eqb interpolation "adkreg"); reflexivity.
  - intros -> Hknown Hne. cbn [In] in Hknown.
    destruct Hknown as [<- | [<- | [<- | [<- | []]]]];
      cbn [String.eqb Ascii.eqb Bool.eqb]; now apply kernel_influence_interp.
Qed.

(** X21.  [PhotonBasedCdfKdTreeLightDistribution::Lookup], in any
    arithmetic, ends in a fatal check exactly in three cases: [knn] is
    false ([CHECK(0)], the radius search is not implemented); the
    interpolation name is none of "shepard", "modshep", "kreg" and "adkreg"
    (so also for "none": no distribution is pushed and the constructor's
    [CHECK(n > 0)] fails); the search found no cluster.  In every other
    case it returns an interpolated distribution. *)
Theorem CdfKdTree_Lookup_aborts_iff
    (F : Type) (ops : FloatOps F)
    (fpow : F -> F -> F) (fsqrt fexp flog fneg : F -> F) (f_0_0001 : F)
    (intSmooth : F) (cdfCloud : list (Cdf (F := F)))
    (knn : bool) (interpolation : String.string) (matches : list (nat * F)) :
  CdfKdTree_Lookup fpow fsqrt fexp flog fneg f_0_0001 intSmooth cdfCloud
                   knn interpolation matches = None
  <-> (knn = false \/
       ~ In interpolation ["shepard"; "modshep"; "kreg"; "adkreg"]%string \/
       matches = []).
Proof.
  destruct (CdfKdTree_Lookup_cases F ops fpow fsqrt fexp flog fneg f_0_0001
              intSmooth cdfCloud knn interpolation matches) as (Hk & Hu & He & Hok).
  cbv zeta in Hk, Hu, He, Hok.
  split.
  - intros Hnone.
    destruct knn; [| now left].
    destruct (in_dec String.string_dec interpolation
                     ["shepard"; "modshep"; "kreg"; "adkreg"]%string) as [Hin | Hin];
      [| now right; left].
    destruct matches as [| m matches]; [now right; right |].
    destruct (Hok eq_refl Hin ltac:(discriminate)) as (d & Hd & _).
    congruence.
  - intros [H | [H | H]]; auto.
Qed.

Lemma CdfKdTree_Lookup_aborts_iff_witness :
  CdfKdTree_Lookup (fun x _ => x) (fun x => x) (fun x => x) (fun x => x) (fun x => x)
                   (1 # 10000)%Q 1%Q [] true "none"%string [(0%nat, 1%Q)] = None.
Proof.
  apply (proj2 (CdfKdTree_Lookup_aborts_iff Q Q_FloatOps
                  (fun x _ => x) (fun x => x) (fun x => x) (fun x => x) (fun x => x)
                  (1 # 10000)%Q 1%Q [] true "none"%string [(0%nat, 1%Q)])).
  right. left. intros Hin. in_list Hin; discriminate.
Defined.


(** ** The photon voxel table *)

Section PreprocessFacts.

Context {F : Type} {ops : FloatOps F}.
Variable r : Point3i.
Variable grid : VoxelGrid.
Hypothesis Hgrid : mkVoxelGrid r = Some grid.
Variable minContributionScale : F.
Variable nLights : Z.

Local Abbreviation probe := (probe grid).
Local Abbreviation slots_passed := (slots_passed grid).
Local Abbreviation size := (hashTableSize grid).
Local Abbreviation hit_key_g := (hit_key grid).
Local Abbreviation contrib_of_g := (contrib_of grid).

Local Abbreviation PhotonSlot := (PhotonSlot (F := F)).
Local Abbreviation PhotonHit := (PhotonHit (F := F)).
Local Abbreviation initVoxelSlots_g := (initVoxelSlots (F := F) grid).
Local Abbreviation slot_at t hash := (nth (Z.to_nat hash) t empty_slot).

Lemma slot_set_eq (t : list PhotonSlot) (hash : Z) (e : PhotonSlot) :
  (Z.to_nat hash < length t)%nat ->
  nth (Z.to_nat hash) (set_nth (Z.to_nat hash) e t) empty_slot = e.
Proof. intros H. now apply nth_set_nth_eq. Qed.

Lemma slot_set_neq (t : list PhotonSlot) (hash hash' : Z) (e : PhotonSlot) :
  0 <= hash -> 0 <= hash' -> hash <> hash' ->
  nth (Z.to_nat hash') (set_nth (Z.to_nat hash) e t) empty_slot
  = nth (Z.to_nat hash') t empty_slot.
Proof. intros H0 H1 Hne. apply nth_set_nth_neq. lia. Qed.

Lemma slot_key_set_eq (t : list PhotonSlot) (hash : Z) (e : PhotonSlot) :
  (Z.to_nat hash < length t)%nat ->
  slot_key (set_nth (Z.to_nat hash) e t) hash = slot_packedPos e.
Proof. intros H. unfold slot_key. now rewrite slot_set_eq. Qed.

Lemma slot_key_set_neq (t : list PhotonSlot) (hash hash' : Z) (e : PhotonSlot) :
  0 <= hash -> 0 <= hash' -> hash <> hash' ->
  slot_key (set_nth (Z.to_nat hash) e t) hash' = slot_key t hash'.
Proof. intros H0 H1 Hne. unfold slot_key. now rewrite slot_set_neq. Qed.

Lemma probe_in_range (key : Z) (j : nat) : 0 <= fst (probe key j) < size.
Proof. apply (probe_range r grid Hgrid). Qed.

(** Two entries on the probe sequence of a key, each behind entries of
    other voxels: an entry that holds the key, or is free, comes first. *)
Lemma slots_passed_unique (t : list PhotonSlot) (key : Z) (j j' : nat) :
  slots_passed t key j -> slots_passed t key j' ->
  (slot_key t (fst (probe key j)) = key \/
   slot_key t (fst (probe key j)) = invalidPackedPos) ->
  (slot_key t (fst (probe key j')) = key \/
   slot_key t (fst (probe key j')) = invalidPackedPos) ->
  j = j'.
Proof.
  intros Hp Hp' Hj Hj'.
  destruct (Nat.lt_trichotomy j j') as [Hlt | [Heq | Hgt]]; [| exact Heq |].
  - destruct (Hp' j Hlt) as [H1 H2]. destruct Hj; contradiction.
  - destruct (Hp j' Hgt) as [H1 H2]. destruct Hj'; contradiction.
Qed.

(** A table step that leaves every claimed key in place keeps what the
    probes of a key have passed. *)
Lemma slots_passed_kept (t t' : list PhotonSlot) (key : Z) (j : nat) :
  (forall hash, 0 <= hash < size ->
     slot_key t hash <> invalidPackedPos -> slot_key t' hash = slot_key t hash) ->
  slots_passed t key j -> slots_passed t' key j.
Proof.
  intros Hk Hp i Hi. destruct (Hp i Hi) as [H1 H2].
  rewrite (Hk _ (probe_in_range key i) H1). now split.
Qed.

(** What the probe loop does for one photon when no compare-exchange fails
    spuriously: it stops at the first entry of the probe sequence that holds
    the key or is free, and adds the photon there. *)
Lemma deposit_probe_spec (t : list PhotonSlot) (key lightNum : Z) (fbeta : F) :
  length t = Z.to_nat size ->
  forall (fuel j0 : nat) (hash step : Z) (t' : list PhotonSlot) (sp : list bool),
    probe key j0 = (hash, step) ->
    slots_passed t key j0 ->
    deposit_probe grid fuel t key hash step lightNum fbeta [] = Some (t', sp) ->
    exists j,
      (j0 <= j < j0 + fuel)%nat /\
      slots_passed t key j /\
      (slot_key t (fst (probe key j)) = key \/
       slot_key t (fst (probe key j)) = invalidPackedPos) /\
      t' = set_nth (Z.to_nat (fst (probe key j)))
             {| slot_packedPos := key;
                slot_lightContrib :=
                  map_add lightNum fbeta
                    (slot_lightContrib (slot_at t (fst (probe key j)))) |} t /\
      sp = [].
Proof.
  intros Hlen. induction fuel as [| fuel IH]; intros j0 hash step t' sp Hpr Hpass Hd.
  - discriminate.
  - cbn [deposit_probe] in Hd.
    assert (Hh : 0 <= hash < size).
    { pose proof (probe_in_range key j0) as H. now rewrite Hpr in H. }
    assert (Hnth : nth_error t (Z.to_nat hash) = Some (slot_at t hash)).
    { apply nth_error_nth'. lia. }
    rewrite Hnth in Hd.
    assert (Hfst : fst (probe key j0) = hash) by now rewrite Hpr.
    destruct (slot_packedPos (slot_at t hash) =? key) eqn:Ek.
    + apply Z.eqb_eq in Ek. injection Hd as <- <-.
      exists j0. rewrite Hfst. split; [lia |]. split; [exact Hpass |].
      split; [left; exact Ek |]. split; [| reflexivity]. now rewrite Ek.
    + cbn [hd tl negb] in Hd. rewrite andb_true_r in Hd.
      destruct (slot_packedPos (slot_at t hash) =? invalidPackedPos) eqn:Ei.
      * apply Z.eqb_eq in Ei. injection Hd as <- <-.
        exists j0. rewrite Hfst. split; [lia |]. split; [exact Hpass |].
        split; [right; exact Ei |]. split; reflexivity.
      * apply Z.eqb_neq in Ek. apply Z.eqb_neq in Ei.
        destruct (probe_next size (hash, step)) as [hash' step'] eqn:En.
        destruct (IH (S j0) hash' step' t' sp) as (j & Hj & Hp & Hs & Ht & Hsp).
        -- rewrite probe_succ, Hpr. exact En.
        -- intros i Hi. destruct (Nat.eq_dec i j0) as [-> | Hne].
           ++ rewrite Hfst. split; assumption.
           ++ apply Hpass. lia.
        -- exact Hd.
        -- exists j. split; [lia |].
           split; [exact Hp |]. split; [exact Hs |]. split; [exact Ht | exact Hsp].
Qed.

Lemma contrib_of_app (key : Z) (hits : list PhotonHit) (hit : PhotonHit) :
  contrib_of_g key (hits ++ [hit])
  = if hit_key_g hit =? key
    then map_add (hit_lightNum hit) (hit_fbeta hit) (contrib_of_g key hits)
    else contrib_of_g key hits.
Proof. unfold contrib_of. now rewrite fold_left_app. Qed.

Lemma contrib_of_none (key : Z) (hits : list PhotonHit) :
  (forall hit, In hit hits -> hit_key_g hit <> key) -> contrib_of_g key hits = [].
Proof.
  induction hits as [| hit hits IH] using rev_ind; intros H; [reflexivity |].
  rewrite contrib_of_app.
  replace (hit_key_g hit =? key) with false.
  - apply IH. intros h Hh. apply H. apply in_or_app. now left.
  - symmetry. apply Z.eqb_neq. apply H. apply in_or_app. right. now left.
Qed.

Lemma hit_key_valid (hit : PhotonHit) : hit_key_g hit <> invalidPackedPos.
Proof.
  unfold hit_key. apply packPos_valid.
  apply (in_grid_fits20 r grid _ Hgrid).
  destruct (mkVoxelGrid_bounds r grid Hgrid) as (Hx & Hy & Hz & _).
  destruct (hit_offset hit) as [[ox oy] oz]. unfold voxelOf, in_grid. cbn [px py pz].
  unfold Clamp.
  repeat match goal with
         | |- context [?a <? ?b] => destruct (Z.ltb_spec a b)
         | |- context [?a >? ?b] => rewrite (Z.gtb_ltb a b)
         end; lia.
Qed.

Lemma Deposited_init (fuel : nat) : Deposited grid fuel [] initVoxelSlots_g.
Proof.
  assert (Hk : forall hash, slot_key initVoxelSlots_g hash = invalidPackedPos).
  { intros hash. unfold slot_key, initVoxelSlots.
    destruct (Nat.lt_ge_cases (Z.to_nat hash) (Z.to_nat size)).
    - now rewrite nth_repeat_lt.
    - rewrite nth_overflow; [reflexivity |]. now rewrite repeat_length. }
  constructor.
  - apply repeat_length.
  - intros hash _ H. now rewrite Hk in H.
  - intros hash Hh _. unfold initVoxelSlots. rewrite nth_repeat_lt by lia. reflexivity.
  - intros hit [].
Qed.

(** One more photon keeps the table as described. *)
Lemma Deposited_step (fuel : nat) (hits : list PhotonHit) (t t' : list PhotonSlot)
    (hit : PhotonHit) (sp : list bool) :
  Deposited grid fuel hits t ->
  deposit_photon grid fuel t hit [] = Some (t', sp) ->
  Deposited grid fuel (hits ++ [hit]) t' /\ sp = [].
Proof.
  intros [Hlen Hslot Hfree Hhit] Hd.
  unfold deposit_photon in Hd. fold (hit_key_g hit) in Hd.
  pose proof (hit_key_valid hit) as Hvalid.
  set (key := hit_key_g hit) in *.
  replace (key =? invalidPackedPos) with false in Hd
    by (symmetry; now apply Z.eqb_neq).
  cbn [negb CHECK bind] in Hd.
  pose proof (mixHash_range r grid Hgrid key) as Hmh.
  replace (0 <=? mixHash key size) with true in Hd by (symmetry; apply Z.leb_le; lia).
  cbn [CHECK bind] in Hd.
  destruct (deposit_probe_spec t key (hit_lightNum hit) (hit_fbeta hit) Hlen
              fuel 0%nat (mixHash key size) 1 t' sp)
    as (j & Hj & Hpass & Hcase & Ht' & Hsp); [reflexivity | | exact Hd |].
  { intros i Hi. lia. }
  split; [| exact Hsp].
  set (h := fst (probe key j)) in *.
  pose proof (probe_in_range key j) as Hh. fold h in Hh.
  assert (Hhl : (Z.to_nat h < length t)%nat) by lia.
  (* no other entry holds the key *)
  assert (Huniq : forall hash, 0 <= hash < size -> slot_key t hash = key -> hash = h).
  { intros hash Hhash Hk.
    assert (Hv : slot_key t hash <> invalidPackedPos) by now rewrite Hk.
    destruct (Hslot hash Hhash Hv) as ((j' & _ & Hj' & Hp') & _).
    rewrite Hk in Hj'. rewrite Hk in Hp'.
    assert (j = j'); [| subst j'; exact (eq_sym Hj')].
    apply (slots_passed_unique t key j j' Hpass Hp' Hcase).
    left. now rewrite Hj'. }
  assert (Hkeys : forall hash, 0 <= hash < size ->
            slot_key t hash <> invalidPackedPos -> slot_key t' hash = slot_key t hash).
  { intros hash Hhash Hv. destruct (Z.eq_dec hash h) as [-> | Hne].
    - rewrite Ht', slot_key_set_eq by exact Hhl. cbn [slot_packedPos].
      destruct Hcase as [Hc | Hc]; [now rewrite Hc | contradiction].
    - rewrite Ht', slot_key_set_neq by lia. reflexivity. }
  assert (Hkey_h : slot_key t' h = key).
  { rewrite Ht', slot_key_set_eq by exact Hhl. reflexivity. }
  assert (Hkey_other : forall hash, 0 <= hash < size -> hash <> h ->
            slot_key t' hash = slot_key t hash).
  { intros hash Hhash Hne. rewrite Ht', slot_key_set_neq by lia. reflexivity. }
  assert (Hin_new : In hit (hits ++ [hit])) by (apply in_or_app; right; now left).
  constructor.
  - rewrite Ht', length_set_nth. exact Hlen.
  - intros hash Hhash Hv. destruct (Z.eq_dec hash h) as [-> | Hne].
    + rewrite Hkey_h. split; [| split].
      * exists j. split; [lia |]. split; [reflexivity |].
        apply (slots_passed_kept t t' key j Hkeys Hpass).
      * exists hit. split; [exact Hin_new | reflexivity].
      * rewrite Ht', slot_set_eq by exact Hhl. cbn [slot_lightContrib].
        rewrite contrib_of_app. fold key. rewrite Z.eqb_refl. f_equal.
        destruct Hcase as [Hc | Hc].
        -- assert (Hv' : slot_key t h <> invalidPackedPos) by (rewrite Hc; exact Hvalid).
           destruct (Hslot h Hh Hv') as (_ & _ & Hcon).
           rewrite Hcon, Hc. reflexivity.
        -- rewrite (Hfree h Hh Hc). symmetry. apply contrib_of_none.
           intros hit' Hin' Hk'. destruct (Hhit hit' Hin') as (hash' & Hhash' & Hk'').
           fold (hit_key_g hit') in Hk''. rewrite Hk' in Hk''.
           pose proof (Huniq hash' Hhash' Hk'') as ->.
           rewrite Hc in Hk''. now apply Hvalid.
    + rewrite (Hkey_other hash Hhash Hne) in *.
      destruct (Hslot hash Hhash Hv) as ((j' & Hj'f & Hj' & Hp') & (hit' & Hin' & Hk') & Hcon).
      split; [| split].
      * exists j'. split; [exact Hj'f |]. split; [exact Hj' |].
        apply (slots_passed_kept t t' _ j' Hkeys Hp').
      * exists hit'. split; [apply in_or_app; now left | exact Hk'].
      * rewrite Ht', slot_set_neq by lia. rewrite Hcon, contrib_of_app. fold key.
        replace (key =? slot_key t hash) with false; [reflexivity |].
        symmetry. apply Z.eqb_neq. intros E. apply Hne. apply Huniq; auto.
  - intros hash Hhash Hi. destruct (Z.eq_dec hash h) as [-> | Hne].
    + rewrite Hkey_h in Hi. contradiction.
    + rewrite (Hkey_other hash Hhash Hne) in Hi.
      rewrite Ht', slot_set_neq by lia. now apply Hfree.
  - intros hit' Hin'. apply in_app_or in Hin'. destruct Hin' as [Hin' | [<- | []]].
    + destruct (Hhit hit' Hin') as (hash & Hhash & Hk). exists hash. split; [exact Hhash |].
      rewrite Hkeys; [exact Hk | exact Hhash |]. rewrite Hk. apply hit_key_valid.
    + exists h. split; [exact Hh | exact Hkey_h].
Qed.

Lemma Deposited_all (fuel : nat) (rest : list PhotonHit) :
  forall (hits : list PhotonHit) (t t' : list PhotonSlot) (sp : list bool),
    Deposited grid fuel hits t ->
    deposit_photons grid fuel t rest [] = Some (t', sp) ->
    Deposited grid fuel (hits ++ rest) t'.
Proof.
  unfold deposit_photons.
  induction rest as [| hit rest IH]; intros hits t t' sp Hdep Hd.
  - cbn in Hd. injection Hd as <- <-. now rewrite app_nil_r.
  - cbn [fold_left bind fst snd] in Hd.
    destruct (deposit_photon grid fuel t hit []) as [[t1 sp1] |] eqn:E.
    + destruct (Deposited_step fuel hits t t1 hit sp1 Hdep E) as [Hdep1 ->].
      cbn [fst snd] in Hd.
      replace (hits ++ hit :: rest) with ((hits ++ [hit]) ++ rest)
        by now rewrite <- app_assoc.
      apply (IH (hits ++ [hit]) t1 t' sp Hdep1 Hd).
    + exfalso. clear - Hd.
      induction rest as [| h rest IHr]; cbn in Hd; [discriminate | auto].
Qed.

End PreprocessFacts.

Section PhotonLookupFacts.

Context {F : Type} {ops : FloatOps F}.
Variable r : Point3i.
Variable grid : VoxelGrid.
Hypothesis Hgrid : mkVoxelGrid r = Some grid.
Variable minContributionScale : F.
Variable nLights : Z.
Variable defaultDistrib : Distribution1DRef (F := F).

Local Abbreviation probe := (probe grid).
Local Abbreviation size := (hashTableSize grid).
Local Abbreviation PhotonSlot := (PhotonSlot (F := F)).
Local Abbreviation VoxelEntry := (VoxelEntry (F := F)).

(** The second loop keeps the keys and builds each entry's distribution
    from the entry's own map. *)
Lemma build_distributions_spec (t : list PhotonSlot) :
  forall vt : list VoxelEntry,
    build_distributions minContributionScale nLights t = Some vt ->
    length vt = length t /\
    forall n, (n < length t)%nat ->
      exists d,
        createSparseDistribution1D (slot_lightContrib (nth n t empty_slot))
                                   minContributionScale nLights = Some d /\
        nth_error vt n
        = Some {| ve_packedPos := slot_packedPos (nth n t empty_slot);
                  ve_distribution := Sparse_ref d |}.
Proof.
  induction t as [| slot t IH]; intros vt Hb.
  - injection Hb as <-. split; [reflexivity |]. intros n Hn. cbn in Hn. lia.
  - cbn [build_distributions] in Hb.
    destruct (createSparseDistribution1D (slot_lightContrib slot) _ _) as [d |] eqn:Ed;
      cbn [bind] in Hb; [| discriminate].
    destruct (build_distributions _ _ t) as [rest |] eqn:Er; cbn [bind] in Hb;
      [| discriminate].
    injection Hb as <-. destruct (IH rest eq_refl) as [Hlen Hn].
    split; [cbn [length]; now rewrite Hlen |].
    intros [| n] Hlt.
    + exists d. split; [exact Ed | reflexivity].
    + cbn [nth nth_error]. apply Hn. cbn [length] in Hlt. lia.
Qed.

Lemma build_distributions_total (t : list PhotonSlot) :
  0 < nLights -> exists vt, build_distributions minContributionScale nLights t = Some vt.
Proof.
  intros Hn. induction t as [| slot t (rest & IH)].
  - now exists [].
  - cbn [build_distributions].
    destruct (createSparseDistribution1D_total (slot_lightContrib slot)
                minContributionScale nLights Hn) as (d & ->).
    rewrite IH. cbn [bind]. eexists. reflexivity.
Qed.

(** [getDistribution] on a finished table: the probes follow the sequence
    of the key; the first entry that holds the key ends the search with
    that entry's distribution. *)
Lemma getDistribution_found (t : list PhotonSlot) (vt : list VoxelEntry) (key : Z) :
  length t = Z.to_nat size ->
  build_distributions minContributionScale nLights t = Some vt ->
  key <> invalidPackedPos ->
  forall (fuel j0 j : nat) (hash step : Z),
    probe key j0 = (hash, step) ->
    (j0 <= j < j0 + fuel)%nat ->
    (forall i, (j0 <= i < j)%nat ->
       slot_key t (fst (probe key i)) <> invalidPackedPos /\
       slot_key t (fst (probe key i)) <> key) ->
    slot_key t (fst (probe key j)) = key ->
    exists d,
      createSparseDistribution1D
        (slot_lightContrib (nth (Z.to_nat (fst (probe key j))) t empty_slot))
        minContributionScale nLights = Some d /\
      getDistribution_probe fuel size vt defaultDistrib key hash step
      = Some (Sparse_ref d).
Proof.
  intros Hlen Hb Hvalid.
  destruct (build_distributions_spec t vt Hb) as [Hvlen Hent].
  induction fuel as [| fuel IH]; intros j0 j hash step Hpr Hj Hpass Hkey; [lia |].
  cbn [getDistribution_probe].
  assert (Hh : 0 <= hash < size).
  { pose proof (probe_range r grid Hgrid key j0) as H. now rewrite Hpr in H. }
  assert (Hfst : fst (probe key j0) = hash) by now rewrite Hpr.
  destruct (Hent (Z.to_nat hash)) as (d & Hd & Hnth); [lia |].
  rewrite Hnth. cbn [ve_packedPos ve_distribution].
  fold (slot_key t hash).
  destruct (Nat.eq_dec j j0) as [-> | Hne].
  - rewrite Hfst in Hkey. rewrite Hkey, Z.eqb_refl.
    exists d. rewrite Hfst. split; [exact Hd | reflexivity].
  - destruct (Hpass j0) as [H1 H2]; [lia |]. rewrite Hfst in H1, H2.
    replace (slot_key t hash =? key) with false by (symmetry; now apply Z.eqb_neq).
    replace (slot_key t hash =? invalidPackedPos) with false
      by (symmetry; now apply Z.eqb_neq).
    destruct (probe_next size (hash, step)) as [hash' step'] eqn:En.
    apply (IH (S j0) j hash' step').
    + rewrite probe_succ, Hpr. exact En.
    + lia.
    + intros i Hi. apply Hpass. lia.
    + exact Hkey.
Qed.

(** When no entry holds the key, the search never returns the distribution
    of an entry. *)
Lemma getDistribution_absent (t : list PhotonSlot) (vt : list VoxelEntry) (key : Z) :
  build_distributions minContributionScale nLights t = Some vt ->
  (forall n, (n < length t)%nat -> slot_packedPos (nth n t empty_slot) <> key) ->
  forall (fuel : nat) (hash step : Z),
    getDistribution_probe fuel size vt defaultDistrib key hash step = None \/
    getDistribution_probe fuel size vt defaultDistrib key hash step = Some defaultDistrib.
Proof.
  intros Hb Habs.
  destruct (build_distributions_spec t vt Hb) as [Hvlen Hent].
  induction fuel as [| fuel IH]; intros hash step; [now left |].
  cbn [getDistribution_probe].
  destruct (nth_error vt (Z.to_nat hash)) as [entry |] eqn:E; [| now left].
  assert (Hlt : (Z.to_nat hash < length t)%nat).
  { rewrite <- Hvlen. apply nth_error_Some. congruence. }
  destruct (Hent _ Hlt) as (d & _ & Hnth). rewrite Hnth in E. injection E as <-.
  cbn [ve_packedPos ve_distribution].
  replace (slot_packedPos (nth (Z.to_nat hash) t empty_slot) =? key) with false
    by (symmetry; apply Z.eqb_neq; now apply Habs).
  destruct (slot_packedPos (nth (Z.to_nat hash) t empty_slot) =? invalidPackedPos);
    [now right |].
  destruct (probe_next size (hash, step)) as [hash' step']. apply IH.
Qed.

End PhotonLookupFacts.

(** What [getDistribution] finds after the photons were deposited without
    a spurious failure. *)
Lemma shootPhotons_found
    {F : Type} {ops : FloatOps F} (r : Point3i) (grid : VoxelGrid)
    (minContributionScale : F) (nLights : Z)
    (defaultDistrib : Distribution1DRef (F := F))
    (fuel : nat) (hits : list PhotonHit) (table : list VoxelEntry) (key : Z) :
  mkVoxelGrid r = Some grid ->
  shootPhotons grid minContributionScale nLights fuel hits [] = Some table ->
  key <> invalidPackedPos ->
  ((exists hit, In hit hits /\ hit_key grid hit = key) ->
   exists d,
     createSparseDistribution1D (contrib_of grid key hits)
                                minContributionScale nLights = Some d /\
     getDistribution_probe fuel (hashTableSize grid) table defaultDistrib
                           key (mixHash key (hashTableSize grid)) 1
     = Some (Sparse_ref d)) /\
  ((forall hit, In hit hits -> hit_key grid hit <> key) ->
   forall fuel',
     getDistribution_probe fuel' (hashTableSize grid) table defaultDistrib
                           key (mixHash key (hashTableSize grid)) 1 = None \/
     getDistribution_probe fuel' (hashTableSize grid) table defaultDistrib
                           key (mixHash key (hashTableSize grid)) 1
     = Some defaultDistrib).
Proof.
  intros Hgrid Hshoot Hvalid. unfold shootPhotons in Hshoot.
  destruct (deposit_photons grid fuel (initVoxelSlots grid) hits [])
    as [[t sp] |] eqn:Edep; cbn [bind fst] in Hshoot; [| discriminate].
  pose proof (Deposited_all r grid Hgrid fuel hits [] (initVoxelSlots grid) t sp
                (Deposited_init grid fuel) Edep) as Hdep.
  cbn [app] in Hdep. destruct Hdep as [Hlen Hslot Hfree Hhit].
  split.
  - intros (hit & Hin & Hk).
    destruct (Hhit hit Hin) as (hash & Hhash & Hkey). rewrite Hk in Hkey.
    assert (Hv : slot_key t hash <> invalidPackedPos) by now rewrite Hkey.
    destruct (Hslot hash Hhash Hv) as ((j & Hj & Hpr & Hpass) & _ & Hcon).
    rewrite Hkey in Hpr, Hpass, Hcon.
    destruct (getDistribution_found r grid Hgrid minContributionScale nLights
                defaultDistrib t table key Hlen Hshoot Hvalid
                fuel 0%nat j (mixHash key (hashTableSize grid)) 1)
      as (d & Hd & Hget).
    + reflexivity.
    + lia.
    + intros i Hi. apply Hpass. lia.
    + now rewrite Hpr.
    + exists d. rewrite Hpr, Hcon in Hd. split; [exact Hd | exact Hget].
  - intros Hnone fuel'.
    apply (getDistribution_absent grid minContributionScale nLights defaultDistrib
             t table key Hshoot).
    intros n Hn Hk.
    assert (Hn' : 0 <= Z.of_nat n < hashTableSize grid) by lia.
    assert (Hsk : slot_key t (Z.of_nat n) = key)
      by (unfold slot_key; now rewrite Nat2Z.id).
    assert (Hv : slot_key t (Z.of_nat n) <> invalidPackedPos) by now rewrite Hsk.
    destruct (Hslot _ Hn' Hv) as (_ & (hit & Hin & Hhk) & _).
    apply (Hnone hit Hin). now rewrite Hhk.
Qed.

(** X22.  [shootPhotons] followed by [getDistribution], on a grid the
    constructor accepts, the photons deposited one after the other and no
    compare-exchange failing spuriously, in any arithmetic: when the
    preprocess ended with every photon placed within [fuel] probes, the
    lookup of the key of a voxel some photon hit finds, within [fuel]
    probes, the distribution [createSparseDistribution1D] builds from the
    map the photons of exactly that voxel add up to; the lookup of a key
    no photon hit never returns another voxel's distribution: it returns
    [defaultDistrib] (or is still probing). *)
Theorem shootPhotons_then_getDistribution
    (F : Type) (ops : FloatOps F) (r : Point3i) (grid : VoxelGrid)
    (minContributionScale : F) (nLights : Z)
    (defaultDistrib : Distribution1DRef (F := F))
    (fuel : nat) (hits : list PhotonHit) (table : list VoxelEntry) (key : Z) :
  mkVoxelGrid r = Some grid ->
  shootPhotons grid minContributionScale nLights fuel hits [] = Some table ->
  key <> invalidPackedPos ->
  ((exists hit, In hit hits /\ hit_key grid hit = key) ->
   exists d,
     createSparseDistribution1D (contrib_of grid key hits)
                                minContributionScale nLights = Some d /\
     getDistribution_probe fuel (hashTableSize grid) table defaultDistrib
                           key (mixHash key (hashTableSize grid)) 1
     = Some (Sparse_ref d)) /\
  ((forall hit, In hit hits -> hit_key grid hit <> key) ->
   forall fuel',
     getDistribution_probe fuel' (hashTableSize grid) table defaultDistrib
                           key (mixHash key (hashTableSize grid)) 1 = None \/
     getDistribution_probe fuel' (hashTableSize grid) table defaultDistrib
                           key (mixHash key (hashTableSize grid)) 1
     = Some defaultDistrib).
Proof.
  intros Hgrid Hshoot Hvalid.
  exact (shootPhotons_found r grid minContributionScale nLights defaultDistrib
           fuel hits table key Hgrid Hshoot Hvalid).
Qed.

Lemma shootPhotons_then_getDistribution_witness :
  exists table d,
    shootPhotons race_grid (1 # 5)%Q 4 4 example_hits [] = Some table /\
    getDistribution_probe 4 (hashTableSize race_grid) table no_distribution
                          0 (mixHash 0 (hashTableSize race_grid)) 1
    = Some (Sparse_ref d).
Proof.
  assert (Hdep : exists slots,
             deposit_photons race_grid 4 (initVoxelSlots race_grid) example_hits []
             = Some (slots, [])).
  { vm_compute. eexists. reflexivity. }
  destruct Hdep as (slots & Hdep).
  destruct (build_distributions_total (1 # 5)%Q 4 slots) as (table & Ht); [lia |].
  assert (E : shootPhotons race_grid (1 # 5)%Q 4 4 example_hits [] = Some table)
    by (unfold shootPhotons; rewrite Hdep; exact Ht).
  destruct (shootPhotons_then_getDistribution Q Q_FloatOps
              {| px := 4; py := 4; pz := 4 |} race_grid (1 # 5)%Q 4
              no_distribution 4%nat example_hits table 0) as [Hfound _].
  - reflexivity.
  - exact E.
  - discriminate.
  - destruct Hfound as (d & _ & Hd).
    + exists (nth 0 example_hits
                  {| hit_offset := (0%Q, 0%Q, 0%Q); hit_lightNum := 0; hit_fbeta := 0%Q |}).
      split; [left; reflexivity | vm_compute; reflexivity].
    + exists table, d. split; [exact E | exact Hd].
Defined.

(** X23.  [shootPhotons] uses [compare_exchange_weak], which may fail
    although the entry holds the expected value.  When that happens for
    the first photon of a voxel, the photon goes on probing and claims the
    second entry of its probe sequence, and the first entry stays invalid;
    [getDistribution] for that voxel stops at the invalid first entry and
    returns [defaultDistrib]: the photon's contribution is in the table
    but is never found. *)
Theorem spurious_failure_hides_photon
    (F : Type) (ops : FloatOps F) (r : Point3i) (grid : VoxelGrid)
    (minContributionScale : F) (nLights : Z)
    (defaultDistrib : Distribution1DRef (F := F))
    (fuel : nat) (hit : PhotonHit) :
  mkVoxelGrid r = Some grid -> 0 < nLights -> (2 <= fuel)%nat ->
  let key := hit_key grid hit in
  let hash := mixHash key (hashTableSize grid) in
  exists slots table,
    deposit_photons grid fuel (initVoxelSlots grid) [hit] [true] = Some (slots, []) /\
    slot_key slots hash = invalidPackedPos /\
    slot_key slots (fst (probe grid key 1)) = key /\
    shootPhotons grid minContributionScale nLights fuel [hit] [true] = Some table /\
    forall fuel', (0 < fuel')%nat ->
      getDistribution_probe fuel' (hashTableSize grid) table defaultDistrib key hash 1
      = Some defaultDistrib.
Proof.
  intros Hgrid Hn Hfuel key hash.
  pose proof (hit_key_valid r grid Hgrid hit) as Hvalid. fold key in Hvalid.
  pose proof (mixHash_range r grid Hgrid key) as Hh. fold hash in Hh.
  pose proof (probe_range r grid Hgrid key 1) as Hh1.
  set (init := initVoxelSlots (F := F) grid).
  assert (Hlen : length init = Z.to_nat (hashTableSize grid)) by apply repeat_length.
  assert (Hinit : forall n, (n < Z.to_nat (hashTableSize grid))%nat ->
                    nth_error init n = Some empty_slot).
  { intros n Hlt. unfold init, initVoxelSlots.
    rewrite (nth_error_nth' _ empty_slot) by (rewrite repeat_length; lia).
    now rewrite nth_repeat_lt. }
  assert (Hp1 : probe grid key 1 = probe_next (hashTableSize grid) (hash, 1))
    by reflexivity.
  destruct (probe_next (hashTableSize grid) (hash, 1)) as [hash1 step1] eqn:En.
  rewrite Hp1 in *. cbn [fst] in *.
  assert (Hne : hash1 <> hash).
  { clearbody hash. unfold probe_next in En. injection En as <- _. unfold uint64.
    assert (Hs : hashTableSize grid < 2 ^ 64).
    { destruct (mkVoxelGrid_bounds r grid Hgrid) as (Hx & Hy & Hz & ->).
      assert (px (nVoxels grid) * py (nVoxels grid) < 2 ^ 40) by nia.
      assert (px (nVoxels grid) * py (nVoxels grid) * pz (nVoxels grid) < 2 ^ 60) by nia.
      lia. }
    assert (H4 : 4 <= hashTableSize grid).
    { destruct (mkVoxelGrid_bounds r grid Hgrid) as (Hx & Hy & Hz & ->). nia. }
    rewrite (Z.mod_small (hash + 1 * 1)) by lia.
    destruct (hash + 1 * 1 >=? hashTableSize grid) eqn:E; [| lia].
    apply Z.geb_le in E. assert (hash + 1 * 1 = hashTableSize grid) by lia.
    replace (hash + 1 * 1) with (hashTableSize grid) by lia.
    rewrite Z.mod_same by lia. lia. }
  set (slots := set_nth (Z.to_nat hash1)
                  {| slot_packedPos := key;
                     slot_lightContrib :=
                       map_add (hit_lightNum hit) (hit_fbeta hit) [] |} init).
  assert (Hdep : deposit_photons grid fuel init [hit] [true] = Some (slots, [])).
  { unfold deposit_photons. cbn [fold_left bind fst snd]. unfold deposit_photon.
    change (packPos (voxelOf grid (hit_offset hit))) with key. fold hash.
    replace (key =? invalidPackedPos) with false by (symmetry; now apply Z.eqb_neq).
    replace (0 <=? hash) with true by (symmetry; apply Z.leb_le; lia).
    cbn [negb CHECK bind].
    destruct fuel as [| [| fuel]]; try lia.
    cbn [deposit_probe]. rewrite (Hinit (Z.to_nat hash)) by lia.
    cbn [empty_slot slot_packedPos slot_lightContrib hd tl negb].
    replace (invalidPackedPos =? key) with false
      by (symmetry; apply Z.eqb_neq; congruence).
    rewrite andb_false_r, En.
    rewrite (Hinit (Z.to_nat hash1)) by lia.
    cbn [empty_slot slot_packedPos slot_lightContrib hd tl negb].
    replace (invalidPackedPos =? key) with false
      by (symmetry; apply Z.eqb_neq; congruence).
    rewrite Z.eqb_refl. reflexivity. }
  assert (Hk0 : slot_key slots hash = invalidPackedPos).
  { unfold slots, slot_key. rewrite nth_set_nth_neq by lia.
    rewrite (nth_error_nth _ _ _ (Hinit (Z.to_nat hash) ltac:(lia))). reflexivity. }
  assert (Hk1 : slot_key slots hash1 = key).
  { unfold slots, slot_key. rewrite nth_set_nth_eq by lia. reflexivity. }
  destruct (build_distributions_total minContributionScale nLights slots Hn)
    as (table & Hb).
  exists slots, table. split; [exact Hdep |]. split; [exact Hk0 |]. split; [exact Hk1 |].
  split.
  - unfold shootPhotons. fold init. rewrite Hdep. exact Hb.
  - intros [| fuel'] Hf; [lia |]. cbn [getDistribution_probe].
    destruct (build_distributions_spec minContributionScale nLights slots table Hb)
      as [Hvlen Hent].
    destruct (Hent (Z.to_nat hash)) as (d & _ & Hnth).
    { unfold slots. rewrite length_set_nth. lia. }
    rewrite Hnth. cbn [ve_packedPos ve_distribution].
    fold (slot_key slots hash). rewrite Hk0.
    replace (invalidPackedPos =? key) with false
      by (symmetry; apply Z.eqb_neq; congruence).
    rewrite Z.eqb_refl. reflexivity.
Qed.

Lemma spurious_failure_hides_photon_witness :
  exists table,
    shootPhotons race_grid (1 # 5)%Q 4 2 (firstn 1 example_hits) [true] = Some table /\
    getDistribution_probe 1 (hashTableSize race_grid) table no_distribution
                          (hit_key race_grid (nth 0 example_hits
                             {| hit_offset := (0%Q, 0%Q, 0%Q); hit_lightNum := 0;
                                hit_fbeta := 0%Q |}))
                          (mixHash (hit_key race_grid (nth 0 example_hits
                             {| hit_offset := (0%Q, 0%Q, 0%Q); hit_lightNum := 0;
                                hit_fbeta := 0%Q |})) (hashTableSize race_grid)) 1
    = Some no_distribution.
Proof.
  destruct (spurious_failure_hides_photon Q Q_FloatOps
              {| px := 4; py := 4; pz := 4 |} race_grid (1 # 5)%Q 4
              no_distribution 2%nat
              (nth 0 example_hits
                   {| hit_offset := (0%Q, 0%Q, 0%Q); hit_lightNum := 0; hit_fbeta := 0%Q |}))
    as (slots & table & _ & _ & _ & Hs & Hg).
  - reflexivity.
  - lia.
  - lia.
  - exists table. split; [exact Hs | apply Hg; lia].
Defined.

Lemma contrib_of_accumulate {F : Type} {ops : FloatOps F}
    (grid : VoxelGrid) (key : Z) (hits : list (PhotonHit (F := F))) :
  contrib_of grid key hits = accumulate (voxel_items grid key hits).
Proof.
  unfold contrib_of, accumulate, voxel_items.
  generalize (@nil (Z * F)).
  induction hits as [| hit hits IH]; intros acc; [reflexivity |].
  cbn [fold_left filter].
  destruct (hit_key grid hit =? key); cbn [map fold_left fst snd]; apply IH.
Qed.

(** X24.  [shootPhotons] followed by [getDistribution], in exact
    arithmetic, on a grid the constructor accepts, for photons of
    non-negative [fbeta] deposited one after the other with no
    compare-exchange failing spuriously and every photon placed within
    [fuel] probes: in the distribution found for a voxel some photon hit,
    light l has the
    probability [up / nLights + (1 - up) * B_l / B], [up] being
    [minContributionScale], [B_l] the summed [fbeta] of the photons of
    light l that hit the voxel and [B] that of all photons that hit it;
    when [B] is 0 every light has the probability [1 / nLights]. *)
Theorem photon_voxel_distribution_proportional
    (r : Point3i) (grid : VoxelGrid) (up : Q) (nLights : Z)
    (defaultDistrib : Distribution1DRef (F := Q))
    (fuel : nat) (hits : list (PhotonHit (F := Q))) (table : list VoxelEntry)
    (key l : Z) :
  mkVoxelGrid r = Some grid ->
  shootPhotons grid up nLights fuel hits [] = Some table ->
  (exists hit, In hit hits /\ hit_key grid hit = key) ->
  (forall hit, In hit hits -> hit_key grid hit = key -> (0 <= hit_fbeta hit)%Q) ->
  0 <= l < nLights ->
  let items := voxel_items grid key hits in
  exists distr p,
    getDistribution_probe fuel (hashTableSize grid) table defaultDistrib
                          key (mixHash key (hashTableSize grid)) 1 = Some distr /\
    vDiscretePDF distr l = Some p /\
    ((0 < all_total items)%Q ->
     (p == up / inject_Z nLights
           + (1 - up) * (light_total l items / all_total items))%Q) /\
    ((all_total items == 0)%Q -> (p == 1 / inject_Z nLights)%Q).
Proof.
  intros Hgrid Hshoot Hex Hpos Hl items.
  assert (Hvalid : key <> invalidPackedPos).
  { destruct Hex as (hit & _ & <-). apply (hit_key_valid r grid Hgrid). }
  destruct (shootPhotons_found r grid up nLights defaultDistrib fuel hits table key
              Hgrid Hshoot Hvalid) as [Hfound _].
  destruct (Hfound Hex) as (d & Hd & Hget).
  destruct (Sparse_pdf_of_accumulated items up nLights l) as (d' & p & Hd' & Hp & H1 & H2).
  { intros it Hit. unfold items, voxel_items in Hit.
    apply in_map_iff in Hit. destruct Hit as (hit & <- & Hh). cbn [snd].
    apply filter_In in Hh. destruct Hh as [Hin Hk]. apply Z.eqb_eq in Hk.
    now apply Hpos. }
  { exact Hl. }
  rewrite contrib_of_accumulate in Hd. fold items in Hd.
  assert (d' = d) by congruence. subst d'.
  exists (Sparse_ref d), p. split; [exact Hget |]. split; [exact Hp |].
  split; assumption.
Qed.

Lemma photon_voxel_distribution_proportional_witness :
  exists table distr p,
    shootPhotons race_grid (1 # 5)%Q 4 4 example_hits [] = Some table /\
    getDistribution_probe 4 (hashTableSize race_grid) table no_distribution
                          0 (mixHash 0 (hashTableSize race_grid)) 1 = Some distr /\
    vDiscretePDF distr 3 = Some p /\
    (p == 13 # 20)%Q.
Proof.
  assert (Hdep : exists slots,
             deposit_photons race_grid 4 (initVoxelSlots race_grid) example_hits []
             = Some (slots, [])).
  { vm_compute. eexists. reflexivity. }
  destruct Hdep as (slots & Hdep).
  destruct (build_distributions_total (1 # 5)%Q 4 slots) as (table & Ht); [lia |].
  assert (E : shootPhotons race_grid (1 # 5)%Q 4 4 example_hits [] = Some table)
    by (unfold shootPhotons; rewrite Hdep; exact Ht).
  destruct (photon_voxel_distribution_proportional
              {| px := 4; py := 4; pz := 4 |} race_grid (1 # 5)%Q 4
              no_distribution 4%nat example_hits table 0 3)
    as (distr & p & Hd & Hp & Hpos & _).
  - reflexivity.
  - exact E.
  - exists (nth 0 example_hits
                {| hit_offset := (0%Q, 0%Q, 0%Q); hit_lightNum := 0; hit_fbeta := 0%Q |}).
    split; [left; reflexivity | vm_compute; reflexivity].
  - intros hit Hin _. unfold example_hits in Hin. in_list Hin; q_order.
  - lia.
  - exists table, distr, p. repeat split; try assumption.
    rewrite Hpos by (vm_compute; reflexivity). vm_compute. reflexivity.
Defined.


(** ** Shuffling samples *)

Section ShuffleFacts.

Variable T : Type.
Variable RNG : Type.
Variable UniformUInt32 : Z -> RNG -> Z * RNG.

Lemma nth_error_set_nth_eq (l : list T) (x : T) :
  forall i, (i < length l)%nat -> nth_error (set_nth i x l) i = Some x.
Proof.
  induction l as [| y l IH]; intros [| i] H; cbn in *; try lia; auto.
  apply IH. lia.
Qed.

Lemma nth_error_set_nth_neq (l : list T) (x : T) :
  forall i k, i <> k -> nth_error (set_nth i x l) k = nth_error l k.
Proof.
  induction l as [| y l IH]; intros [| i] [| k] H; cbn; auto; try lia.
Qed.

Lemma swap_at_length (l : list T) (a b : nat) : length (swap_at T l a b) = length l.
Proof.
  unfold swap_at. destruct (nth_error l a), (nth_error l b); auto.
  now rewrite !length_set_nth.
Qed.

Lemma swap_at_nth (l : list T) (a b k : nat) :
  (a < length l)%nat -> (b < length l)%nat ->
  nth_error (swap_at T l a b) k
  = if (k =? a)%nat then nth_error l b
    else if (k =? b)%nat then nth_error l a
    else nth_error l k.
Proof.
  intros Ha Hb. unfold swap_at.
  destruct (nth_error l a) as [x |] eqn:Ea; [| apply nth_error_None in Ea; lia].
  destruct (nth_error l b) as [y |] eqn:Eb; [| apply nth_error_None in Eb; lia].
  destruct (Nat.eqb_spec k a) as [-> | Hka].
  - rewrite nth_error_set_nth_eq; [reflexivity |]. now rewrite length_set_nth.
  - rewrite nth_error_set_nth_neq by congruence.
    destruct (Nat.eqb_spec k b) as [-> | Hkb].
    + now rewrite nth_error_set_nth_eq.
    + now rewrite nth_error_set_nth_neq by congruence.
Qed.

(** Two values of two samples share an array index only when they are the
    same value of the same sample. *)
Lemma sample_index_injective (n a j a' j' : nat) :
  (j < n)%nat -> (j' < n)%nat -> (n * a + j = n * a' + j')%nat -> a = a' /\ j = j'.
Proof.
  intros Hj Hj' E.
  assert (a = a'); [| subst; lia].
  destruct (Nat.lt_trichotomy a a') as [H | [H | H]]; [| exact H |]; nia.
Qed.

Lemma sample_index_bound (n count a j : nat) :
  (a < count)%nat -> (j < n)%nat -> (n * a + j < n * count)%nat.
Proof. intros Ha Hj. nia. Qed.

(** The inner loop after its first [J] turns. *)
Lemma swap_sample_prefix (nDimensions count i other : nat) (samp : list T) :
  length samp = (nDimensions * count)%nat ->
  (i < count)%nat -> (other < count)%nat ->
  forall J, (J <= nDimensions)%nat ->
    let s := fold_left (fun s j => swap_at T s (nDimensions * i + j)
                                          (nDimensions * other + j))
                       (seq 0 J) samp in
    length s = length samp /\
    forall a j, (a < count)%nat -> (j < nDimensions)%nat ->
      nth_error s (nDimensions * a + j)
      = nth_error samp (nDimensions * (if (j <? J)%nat then transpose i other a else a) + j).
Proof.
  intros Hlen Hi Ho. induction J as [| J IH]; intros HJ.
  - cbn. split; [reflexivity |]. intros a j _ _. reflexivity.
  - rewrite seq_S, fold_left_app. cbn [fold_left Nat.add].
    destruct (IH ltac:(lia)) as [Hl Hn]. cbv zeta in Hl, Hn.
    set (s := fold_left (fun s j => swap_at T s (nDimensions * i + j)
                                           (nDimensions * other + j))
                        (seq 0 J) samp) in *.
    split; [now rewrite swap_at_length |].
    intros a j Ha Hj.
    rewrite swap_at_nth
      by (rewrite Hl, Hlen; apply sample_index_bound; lia).
    destruct (Nat.eqb_spec (nDimensions * a + j) (nDimensions * i + J)) as [E | E].
    + apply sample_index_injective in E; try lia. destruct E as [-> ->].
      rewrite (Hn other J) by lia.
      rewrite Nat.ltb_irrefl.
      replace (J <? S J)%nat with true by (symmetry; apply Nat.ltb_lt; lia).
      unfold transpose. now rewrite Nat.eqb_refl.
    + destruct (Nat.eqb_spec (nDimensions * a + j) (nDimensions * other + J)) as [E' | E'].
      * apply sample_index_injective in E'; try lia. destruct E' as [-> ->].
        rewrite (Hn i J) by lia.
        rewrite Nat.ltb_irrefl.
        replace (J <? S J)%nat with true by (symmetry; apply Nat.ltb_lt; lia).
        unfold transpose. rewrite Nat.eqb_refl.
        destruct (Nat.eqb_spec other i) as [-> | _]; reflexivity.
      * rewrite (Hn a j) by lia.
        destruct (Nat.eq_dec j J) as [-> | HjJ].
        -- rewrite Nat.ltb_irrefl.
           replace (J <? S J)%nat with true by (symmetry; apply Nat.ltb_lt; lia).
           unfold transpose.
           destruct (Nat.eqb_spec a i) as [-> | _]; [congruence |].
           destruct (Nat.eqb_spec a other) as [-> | _]; [congruence | reflexivity].
        -- replace (j <? S J)%nat with (j <? J)%nat; [reflexivity |].
           destruct (Nat.ltb_spec j J), (Nat.ltb_spec j (S J)); auto; lia.
Qed.

(** The inner loop: sample [i] and sample [other] change places, value by
    value; every other sample stays. *)
Lemma swap_sample_spec (nDimensions count i other : nat) (samp : list T) :
  length samp = (nDimensions * count)%nat ->
  (i < count)%nat -> (other < count)%nat ->
  length (swap_sample T nDimensions i other samp) = length samp /\
  forall a j, (a < count)%nat -> (j < nDimensions)%nat ->
    nth_error (swap_sample T nDimensions i other samp) (nDimensions * a + j)
    = nth_error samp (nDimensions * transpose i other a + j).
Proof.
  intros Hlen Hi Ho.
  destruct (swap_sample_prefix nDimensions count i other samp Hlen Hi Ho
              nDimensions (Nat.le_refl _)) as [Hl Hn].
  split; [exact Hl |]. intros a j Ha Hj.
  unfold swap_sample. rewrite (Hn a j Ha Hj).
  replace (j <? nDimensions)%nat with true by (symmetry; now apply Nat.ltb_lt).
  reflexivity.
Qed.

Lemma transpose_bound (count i other a : nat) :
  (i < count)%nat -> (other < count)%nat -> (a < count)%nat ->
  (transpose i other a < count)%nat.
Proof.
  intros Hi Ho Ha. unfold transpose.
  destruct (a =? i)%nat; [exact Ho |]. destruct (a =? other)%nat; assumption.
Qed.

Lemma transpose_injective (i other a b : nat) :
  transpose i other a = transpose i other b -> a = b.
Proof.
  unfold transpose.
  destruct (Nat.eqb_spec a i), (Nat.eqb_spec a other),
           (Nat.eqb_spec b i), (Nat.eqb_spec b other); intros; subst; congruence.
Qed.

Hypothesis draw_in_range :
  forall b rng, 0 < b -> 0 <= fst (UniformUInt32 b rng) < b.

(** The outer loop over a list of sample indices: the array is the input
    with its samples in another order. *)
Lemma Shuffle_loop (count nDimensions : nat) (samp : list T) :
  length samp = (nDimensions * count)%nat ->
  forall (l : list nat) (cur : list T) (rng : RNG) (sigma : nat -> nat),
    (forall i, In i l -> (i < count)%nat) ->
    length cur = length samp ->
    (forall a, (a < count)%nat -> (sigma a < count)%nat) ->
    (forall a b, (a < count)%nat -> (b < count)%nat -> sigma a = sigma b -> a = b) ->
    (forall a j, (a < count)%nat -> (j < nDimensions)%nat ->
       nth_error cur (nDimensions * a + j) = nth_error samp (nDimensions * sigma a + j)) ->
    exists sigma' : nat -> nat,
      let res := fst (fold_left (Shuffle_step T RNG UniformUInt32 count nDimensions)
                                l (cur, rng)) in
      length res = length samp /\
      (forall a, (a < count)%nat -> (sigma' a < count)%nat) /\
      (forall a b, (a < count)%nat -> (b < count)%nat -> sigma' a = sigma' b -> a = b) /\
      (forall a j, (a < count)%nat -> (j < nDimensions)%nat ->
         nth_error res (nDimensions * a + j)
         = nth_error samp (nDimensions * sigma' a + j)).
Proof.
  intros Hlen. induction l as [| i l IH]; intros cur rng sigma Hl Hcur Hb Hinj Hn.
  - exists sigma. cbn. repeat split; assumption.
  - cbn [fold_left].
    destruct (UniformUInt32 (Z.of_nat count - Z.of_nat i) rng) as [v rng'] eqn:Ev.
    assert (Hstep : Shuffle_step T RNG UniformUInt32 count nDimensions (cur, rng) i
                    = (swap_sample T nDimensions i (i + Z.to_nat v) cur, rng'))
      by (unfold Shuffle_step; now rewrite Ev).
    rewrite Hstep. clear Hstep.
    assert (Hi : (i < count)%nat) by (apply Hl; now left).
    pose proof (draw_in_range (Z.of_nat count - Z.of_nat i) rng ltac:(lia)) as Hv.
    rewrite Ev in Hv. cbn [fst] in Hv.
    set (other := (i + Z.to_nat v)%nat).
    assert (Ho : (other < count)%nat) by (unfold other; lia).
    destruct (swap_sample_spec nDimensions count i other cur
                ltac:(now rewrite Hcur) Hi Ho) as [Hl' Hn'].
    apply (IH (swap_sample T nDimensions i other cur) rng'
              (fun a => sigma (transpose i other a))).
    + intros k Hk. apply Hl. now right.
    + now rewrite Hl'.
    + intros a Ha. apply Hb. now apply transpose_bound.
    + intros a b Ha Hb' E. apply Hinj in E; try (now apply transpose_bound).
      now apply transpose_injective in E.
    + intros a j Ha Hj. rewrite (Hn' a j Ha Hj). apply Hn; [| exact Hj].
      now apply transpose_bound.
Qed.

End ShuffleFacts.

(** X25.  [Shuffle] on an array of [count] samples of [nDimensions]
    values each, with a generator whose [UniformUInt32(b)] returns a number
    below b: the array keeps its length and the result is the input with
    its samples in another order.  There is a one-to-one map sigma of the
    sample indices [0, count) such that value j of sample a of the result
    is value j of sample sigma(a) of the input, for every j: samples are
    moved as blocks and no value is lost or doubled. *)
Theorem Shuffle_permutes_samples
    (T RNG : Type) (UniformUInt32 : Z -> RNG -> Z * RNG)
    (samp : list T) (count nDimensions : nat) (rng : RNG) :
  (forall b g, 0 < b -> 0 <= fst (UniformUInt32 b g) < b) ->
  length samp = (nDimensions * count)%nat ->
  exists sigma : nat -> nat,
    let res := fst (Shuffle T RNG UniformUInt32 samp count nDimensions rng) in
    length res = length samp /\
    (forall a, (a < count)%nat -> (sigma a < count)%nat) /\
    (forall a b, (a < count)%nat -> (b < count)%nat -> sigma a = sigma b -> a = b) /\
    (forall a j, (a < count)%nat -> (j < nDimensions)%nat ->
       nth_error res (nDimensions * a + j)
       = nth_error samp (nDimensions * sigma a + j)).
Proof.
  intros Hdraw Hlen. unfold Shuffle.
  apply (Shuffle_loop T RNG UniformUInt32 Hdraw count nDimensions samp Hlen
           (seq 0 count) samp rng (fun a => a)).
  - intros i Hi. apply in_seq in Hi. lia.
  - reflexivity.
  - auto.
  - auto.
  - auto.
Qed.

Lemma Shuffle_permutes_samples_witness :
  exists sigma : nat -> nat,
    (forall a, (a < 3)%nat -> (sigma a < 3)%nat) /\
    forall a j, (a < 3)%nat -> (j < 2)%nat ->
      nth_error (fst (Shuffle Z Z example_uniform [10; 11; 20; 21; 30; 31] 3 2 5))
                (2 * a + j)
      = nth_error [10; 11; 20; 21; 30; 31] (2 * sigma a + j).
Proof.
  destruct (Shuffle_permutes_samples Z Z example_uniform
              [10; 11; 20; 21; 30; 31] 3 2 5) as (sigma & _ & Hb & _ & Hn).
  - intros b g Hb. unfold example_uniform. cbn [fst]. apply Z.mod_pos_bound. exact Hb.
  - reflexivity.
  - exists sigma. split; assumption.
Defined.

